(** * Raster alpha / relief pipeline of Wonder.io: model and verification

    The offline image tools of the repository are embedded here as Rocq
    functions and the properties of the specification are proved about them.

    Sources embedded:
    - [tools/cutout_border_only.js]   (modules [Cutout] and [Silhouette])
    - [tools/add_second_edge.js]      (modules [SecondEdge] and
                                       [SecondEdge32])
    - [tools/make_sticker_border.js]  (modules [StickerArgs], [Sticker] and
                                       [Sticker32], both revisions)
    - [tools/add_bevel.js]            (modules [BevelArgs], [Bevel] and
                                       [BevelMask])
    - [tools/gen_outlines.js]         (module [Outline])

    The stages of these tools around the ones above are in the modules
    [CutoutStages], [EdgeColor], [EdgeCanvas], [StickerStages] and
    [StickerCli].

    Conventions.
    - A JavaScript number is modelled by the exact value it denotes
      ([JS.num]: a rational, the two infinities or NaN).  The luminance and
      the fade of the outline are computed as the source does, in double
      precision ([Double]: every operation is rounded to the nearest
      double); the clamps of the arguments only compare, and the shading
      and the Sobel sums are kept exact.
    - Chamfer distances are sums of the two weights [1] and [Math.SQRT2].
      The modules [SecondEdge32] and [Sticker32] compute the distance
      fields as the source does: every sum is a double and every store
      into the [Float32Array] rounds to single precision ([Float32]).  The
      modules [SecondEdge] and [Sticker] run the same passes without any
      rounding, on the exact values [a + b*sqrt 2] of Z[sqrt 2]
      ([Sqrt2.t]).
    - An RGBA buffer is a list with one [pixel] per position [i]; the bytes
      [p .. p+3] of the flat buffer, [p = 4*i], are the fields of entry [i].
    - Typed arrays ([Uint8Array], [Float32Array]) are lists; a store outside
      the array is ignored, as stdpp's list insert does.
    - The calls into the image codec ([sharp]: decode, blur, encode) are
      outside the model; each stage is modelled on the raw buffers it
      receives. *)

From Stdlib Require Import ZArith QArith Qround Qpower Qreals Reals Lra Lia List Bool.
From Stdlib Require String Ascii Lqa.
From stdpp Require Import base list.

(* ===================================================================== *)
(** * Part I: the model                                                   *)
(* ===================================================================== *)

(** ** Counted loops *)

Module Loops.

(** [for (k = lo; k < hi; k++) s = f k s] *)
Fixpoint iter_up {St : Type} (lo n : nat) (f : nat -> St -> St) (s : St) : St :=
  match n with
  | O => s
  | S n' => iter_up (S lo) n' f (f lo s)
  end.

Definition for_up {St : Type} (lo hi : nat) (f : nat -> St -> St) (s : St) : St :=
  iter_up lo (hi - lo) f s.

(** [for (k = hi - 1; k >= lo; k--) s = f k s] *)
Fixpoint iter_down {St : Type} (lo n : nat) (f : nat -> St -> St) (s : St) : St :=
  match n with
  | O => s
  | S n' => iter_down lo n' f (f (lo + n') s)
  end.

Definition for_down {St : Type} (hi lo : nat) (f : nat -> St -> St) (s : St) : St :=
  iter_down lo (hi - lo) f s.

End Loops.

(** ** JavaScript numbers *)

Module JS.

Inductive num : Type :=
| NaN
| NegInf
| Fin (q : Q)
| PosInf.

(** ToBoolean of a number: [0] and [NaN] are falsy. *)
Definition truthy (v : num) : bool :=
  match v with
  | NaN => false
  | Fin q => negb (Qeq_bool q 0)
  | _ => true
  end.

(** [a || b] on numbers. *)
Definition or_else (a b : num) : num := if truthy a then a else b.

(** [a < b]; every comparison with NaN is false. *)
Definition ltb (a b : num) : bool :=
  match a, b with
  | NaN, _ | _, NaN => false
  | _, NegInf => false
  | NegInf, _ => true
  | PosInf, _ => false
  | Fin _, PosInf => true
  | Fin x, Fin y => negb (Qle_bool y x)
  end.

(** [a <= b] *)
Definition leb (a b : num) : bool :=
  match a, b with
  | NaN, _ | _, NaN => false
  | NegInf, _ => true
  | _, NegInf => false
  | _, PosInf => true
  | PosInf, _ => false
  | Fin x, Fin y => Qle_bool x y
  end.

Definition gtb (a b : num) : bool := ltb b a.
Definition geb (a b : num) : bool := leb b a.

Definition is_nan (v : num) : bool :=
  match v with NaN => true | _ => false end.

(** [Math.min(a, b)] and [Math.max(a, b)]: NaN if an argument is NaN. *)
Definition Math_min (a b : num) : num :=
  if is_nan a || is_nan b then NaN else if ltb b a then b else a.

Definition Math_max (a b : num) : num :=
  if is_nan a || is_nan b then NaN else if ltb a b then b else a.

Definition Math_abs (v : num) : num :=
  match v with
  | NaN => NaN
  | NegInf | PosInf => PosInf
  | Fin q => Fin (Qabs.Qabs q)
  end.

Definition sign_pos (q : Q) : bool := negb (Qle_bool q 0).

Definition mul (a b : num) : num :=
  match a, b with
  | NaN, _ | _, NaN => NaN
  | Fin x, Fin y => Fin (x * y)
  | Fin x, PosInf | PosInf, Fin x =>
      if Qeq_bool x 0 then NaN else if sign_pos x then PosInf else NegInf
  | Fin x, NegInf | NegInf, Fin x =>
      if Qeq_bool x 0 then NaN else if sign_pos x then NegInf else PosInf
  | PosInf, PosInf | NegInf, NegInf => PosInf
  | PosInf, NegInf | NegInf, PosInf => NegInf
  end.

Definition add (a b : num) : num :=
  match a, b with
  | NaN, _ | _, NaN => NaN
  | Fin x, Fin y => Fin (x + y)
  | PosInf, NegInf | NegInf, PosInf => NaN
  | PosInf, _ | _, PosInf => PosInf
  | NegInf, _ | _, NegInf => NegInf
  end.

(** [a / b]; a zero divisor gives an infinity (NaN for [0 / 0]); the sign of
    a zero divisor is taken positive. *)
Definition div (a b : num) : num :=
  match a, b with
  | NaN, _ | _, NaN => NaN
  | Fin x, Fin y =>
      if Qeq_bool y 0
      then (if Qeq_bool x 0 then NaN else if sign_pos x then PosInf else NegInf)
      else Fin (x / y)
  | Fin _, _ => Fin 0
  | PosInf, Fin y => if sign_pos y || Qeq_bool y 0 then PosInf else NegInf
  | NegInf, Fin y => if sign_pos y || Qeq_bool y 0 then NegInf else PosInf
  | _, _ => NaN
  end.

(** [Math.round(v)]: the integer nearest to [v], halves going up. *)
Definition Math_round (v : num) : num :=
  match v with
  | Fin q => Fin (inject_Z (Qfloor (q + (1 # 2))))
  | _ => v
  end.

(** The byte kept by a store [buf[i] = v] into a [Buffer] or [Uint8Array]
    (ToUint8): NaN and the infinities give 0, a finite number is truncated
    towards zero and reduced modulo 256. *)
Definition to_uint8 (v : num) : Z :=
  match v with
  | Fin q => (Z.quot (Qnum q) (Zpos (Qden q))) mod 256
  | _ => 0
  end.

Definition of_Z (z : Z) : num := Fin (inject_Z z).

(** [lo <= v <= hi] for a finite [v]. *)
Definition in_range (lo hi : Q) (v : num) : Prop :=
  match v with
  | Fin q => (lo <= q /\ q <= hi)%Q
  | _ => False
  end.

End JS.

(** ** Double precision *)

Module Double.
Local Open Scope Q_scope.

(** The integer nearest to [q], a tie going to the even one. *)
Definition nearest_even (q : Q) : Z :=
  let f := Qfloor q in
  match Qcompare (q - inject_Z f) (1 # 2) with
  | Lt => f
  | Gt => (f + 1)%Z
  | Eq => if Z.even f then f else (f + 1)%Z
  end.

(** The binary exponent of [x > 0]: [2^e <= x < 2^(e+1)]. *)
Definition exponent (x : Q) : Z :=
  let e0 := (Z.log2 (Qnum x) - Z.log2 (Zpos (Qden x)))%Z in
  if Qle_bool (2 ^ e0) x then e0 else (e0 - 1)%Z.

(** [x > 0] rounded to the nearest number of [p] significant bits, a tie
    going to the even significand. *)
Definition round_pos (p : Z) (x : Q) : Q :=
  let e := exponent x in
  Qred (inject_Z (nearest_even (x * 2 ^ (p - 1 - e))) * 2 ^ (e - p + 1)).

Definition round (p : Z) (x : Q) : Q :=
  match Qcompare x 0 with
  | Eq => 0
  | Gt => round_pos p x
  | Lt => - round_pos p (- x)
  end.

(** The rounding of IEEE 754 binary64 in its normal range, which the
    arithmetic on bytes below never leaves. *)
Definition binary64 : Q -> Q := round 53.

(** The result of a double-precision operation: the exact result, rounded. *)
Definition rnd (v : JS.num) : JS.num :=
  match v with
  | JS.Fin q => JS.Fin (binary64 q)
  | _ => v
  end.

(** A decimal literal of the source, such as [0.299]. *)
Definition lit (q : Q) : JS.num := JS.Fin (binary64 q).

(** [a - b], exactly. *)
Definition minus (a b : JS.num) : JS.num :=
  match a, b with
  | JS.NaN, _ | _, JS.NaN => JS.NaN
  | JS.Fin x, JS.Fin y => JS.Fin (x - y)
  | JS.PosInf, JS.PosInf | JS.NegInf, JS.NegInf => JS.NaN
  | JS.PosInf, _ | _, JS.NegInf => JS.PosInf
  | JS.NegInf, _ | _, JS.PosInf => JS.NegInf
  end.

(** [a + b], [a - b], [a * b] and [a / b] on doubles. *)
Definition add (a b : JS.num) : JS.num := rnd (JS.add a b).
Definition sub (a b : JS.num) : JS.num := rnd (minus a b).
Definition mul (a b : JS.num) : JS.num := rnd (JS.mul a b).
Definition div (a b : JS.num) : JS.num := rnd (JS.div a b).

End Double.

(** ** tools/make_sticker_border.js: argument clamps *)

Module StickerArgs.
Import JS.

(** [strokePx = Math.max(1, Math.min(500, +strokePx || 16))];
    [raw] is the value of [+strokePx]. *)
Definition strokePx_of (raw : num) : num :=
  Math_max (of_Z 1) (Math_min (of_Z 500) (or_else raw (of_Z 16))).

(** [softness = Math.max(0.1, Math.min(5.0, +softness || 0.8))] *)
Definition softness_of (raw : num) : num :=
  Math_max (Fin 0.1) (Math_min (Fin 5) (or_else raw (Fin 0.8))).

End StickerArgs.

(** ** tools/add_bevel.js: argument clamps *)

Module BevelArgs.
Import JS.

(** [function clamp(n,min,max){ return Math.max(min, Math.min(max, n)); }] *)
Definition clamp (n lo hi : num) : num := Math_max lo (Math_min hi n).

(** [bevelPx = clamp(parseInt(a[++i]||"4",10)||4, 1, 50)];
    [raw] is the value returned by [parseInt]. *)
Definition bevelPx_of (raw : num) : num :=
  clamp (or_else raw (of_Z 4)) (of_Z 1) (of_Z 50).

(** [intensity = clamp(parseFloat(a[++i]||"0.35"), 0, 1)];
    [raw] is the value returned by [parseFloat]. *)
Definition intensity_of (raw : num) : num :=
  clamp raw (of_Z 0) (of_Z 1).

End BevelArgs.

(** ** RGBA buffers and byte masks *)

Module Raster.

Record pixel : Type := Pixel { red : Z; green : Z; blue : Z; alpha : Z }.

Definition set_alpha (a : Z) (px : pixel) : pixel :=
  Pixel (red px) (green px) (blue px) a.

(** [Buffer.alloc(n * 4, 0)] *)
Definition clear : pixel := Pixel 0 0 0 0.

(** A read [m[i]] of a 0/1 mask used as a condition: a read outside the
    array yields [undefined], which is falsy. *)
Definition bit (m : list bool) (i : nat) : bool :=
  match m !! i with
  | Some b => b
  | None => false
  end.

End Raster.

(** ** tools/cutout_border_only.js *)

Module Cutout.
Import Loops Raster.

(** [tolerance = Math.max(0, Math.min(255, +tolerance || 220))];
    [raw] is the value of [+tolerance]. *)
Definition tolerance_of (raw : JS.num) : JS.num :=
  JS.Math_max (JS.of_Z 0) (JS.Math_min (JS.of_Z 255) (JS.or_else raw (JS.of_Z 220))).

(** [feather = Math.max(0, Math.min(5, +feather || 2))].  The erosion radius
    is modelled for integer arguments (whole pixels, as the usage text
    documents); [+feather] is then the integer [raw], and a non-numeric
    argument behaves as [0] does. *)
Definition feather_of (raw : Z) : Z :=
  Z.max 0 (Z.min 5 (if (raw =? 0)%Z then 2 else raw)).

(** Step 2. [luminance = 0.299 * r + 0.587 * g + 0.114 * b], in double
    precision: each product and each sum is rounded. *)
Definition luminance (px : pixel) : JS.num :=
  Double.add (Double.add (Double.mul (Double.lit 0.299) (JS.of_Z (red px)))
                         (Double.mul (Double.lit 0.587) (JS.of_Z (green px))))
             (Double.mul (Double.lit 0.114) (JS.of_Z (blue px))).

Definition luminance_at (data : list pixel) (i : nat) : JS.num :=
  match data !! i with
  | Some px => luminance px
  | None => JS.NaN
  end.

(** [nearWhite[i] = (luminance >= tolerance) ? 1 : 0] for [i < W*H] *)
Definition mark_near_white (tolerance : JS.num) (data : list pixel) (n : nat)
  : list bool :=
  for_up 0 n
    (fun i nw => <[i := JS.geb (luminance_at data i) tolerance]> nw)
    (replicate n false).

(** Step 3. The flood fill: the mask [bg] and the worklist [q]. *)
Record flood : Type := Flood { bg : list bool; q : list nat }.

(** [pushIf]: indices are naturals, so the test [i >= 0] of the source is
    implicit; the only negative indices the source can form, for [W = 0] or
    [H = 0], are rejected there as every index is by [i < bg.length = 0]. *)
Definition pushIf (nearWhite : list bool) (i : nat) (st : flood) : flood :=
  if (i <? length (bg st)) && bit nearWhite i && negb (bit (bg st) i)
  then Flood (<[i := true]> (bg st)) (q st ++ [i])
  else st.

(** The two seeding loops over the four borders. *)
Definition seed_borders (W H : nat) (nearWhite : list bool) (st : flood) : flood :=
  let st1 :=
    for_up 0 W (fun x s => pushIf nearWhite ((H - 1) * W + x) (pushIf nearWhite x s)) st in
  for_up 0 H (fun y s => pushIf nearWhite (y * W + (W - 1)) (pushIf nearWhite (y * W) s)) st1.

(** The body of the [while] loop for the index [i] taken from the worklist. *)
Definition spread (W H : nat) (nearWhite : list bool) (i : nat) (st : flood) : flood :=
  let y := i / W in
  let x := i - y * W in
  let s1 := if 0 <? x then pushIf nearWhite (i - 1) st else st in
  let s2 := if x <? W - 1 then pushIf nearWhite (i + 1) s1 else s1 in
  let s3 := if 0 <? y then pushIf nearWhite (i - W) s2 else s2 in
  if y <? H - 1 then pushIf nearWhite (i + W) s3 else s3.

(** [q.pop()]: the last element. *)
Fixpoint pop (l : list nat) : option (list nat * nat) :=
  match l with
  | [] => None
  | x :: l' =>
      match pop l' with
      | None => Some ([], x)
      | Some (r, y) => Some (x :: r, y)
      end
  end.

(** [q.shift()]: the first element. *)
Definition shift (l : list nat) : option (list nat * nat) :=
  match l with
  | [] => None
  | x :: l' => Some (l', x)
  end.

(** [while (q.length) { const i = take(q); ... }], with a bound on the
    number of iterations; [None] when the bound is reached first. *)
Fixpoint flood_loop (take : list nat -> option (list nat * nat))
         (W H : nat) (nearWhite : list bool) (fuel : nat) (st : flood)
  : option flood :=
  match fuel with
  | O => None
  | S fuel' =>
      match take (q st) with
      | None => Some st
      | Some (q', i) =>
          flood_loop take W H nearWhite fuel' (spread W H nearWhite i (Flood (bg st) q'))
      end
  end.

(** Every iteration removes one index and every index enters the worklist
    at most once, so [W*H + 1] iterations are enough
    ([FloodFacts.flood_fill_with_spec]). *)
Definition flood_fill_with (take : list nat -> option (list nat * nat))
           (W H : nat) (nearWhite : list bool) : option (list bool) :=
  bg <$> flood_loop take W H nearWhite (S (W * H))
           (seed_borders W H nearWhite (Flood (replicate (W * H) false) [])).

(** The source takes the last pushed index; the first-in first-out variant
    is the other discipline the specification allows. *)
Definition flood_fill := flood_fill_with pop.
Definition flood_fill_fifo := flood_fill_with shift.

(** Step 4. The offsets [-r .. r]. *)
Definition offsets (r : Z) : list Z :=
  map (fun k => (Z.of_nat k - r)%Z) (seq 0 (Z.to_nat (2 * r + 1))).

(** [allBg] for the pixel [(x, y)]: every pixel of the window is inside the
    image and background. *)
Definition all_bg (W H : nat) (m : list bool) (r : Z) (y x : nat) : bool :=
  forallb
    (fun dy =>
       let yy := (Z.of_nat y + dy)%Z in
       (0 <=? yy)%Z && (yy <? Z.of_nat H)%Z &&
       forallb
         (fun dx =>
            let xx := (Z.of_nat x + dx)%Z in
            (0 <=? xx)%Z && (xx <? Z.of_nat W)%Z &&
            bit m (Z.to_nat (yy * Z.of_nat W + xx)))
         (offsets r))
    (offsets r).

Definition erode (W H : nat) (m : list bool) (r : Z) : list bool :=
  for_up 0 H
    (fun y c =>
       for_up 0 W
         (fun x c' =>
            let i := y * W + x in
            if bit m i && all_bg W H m r y x then <[i := true]> c' else c')
         c)
    (replicate (length m) false).

(** [if (feather > 0) { ...; contracted.forEach((v, i) => bg[i] = v); }] *)
Definition feather_mask (W H : nat) (m : list bool) (feather : Z) : list bool :=
  if (0 <? feather)%Z then erode W H m feather else m.

(** Step 5. [out = Buffer.from(data)] with the alpha bytes rewritten. *)
Definition write_alpha (m : list bool) (data : list pixel) : list pixel :=
  for_up 0 (length m)
    (fun i out =>
       match out !! i with
       | Some px =>
           if bit m i then <[i := set_alpha 0 px]> out
           else if (alpha px =? 0)%Z then <[i := set_alpha 255 px]> out
           else out
       | None => out
       end)
    data.

(** Steps 2 to 5 on the decoded buffer [data] of a [W] by [H] image. *)
Definition segment_mask (W H : nat) (tolerance : JS.num) (feather : Z)
           (data : list pixel) : option (list bool) :=
  m ← flood_fill W H (mark_near_white (tolerance_of tolerance) data (W * H));
  Some (feather_mask W H m (feather_of feather)).

Definition segment (W H : nat) (tolerance : JS.num) (feather : Z)
           (data : list pixel) : option (list pixel) :=
  m ← segment_mask W H tolerance feather data;
  Some (write_alpha m data).

End Cutout.

(** ** Exact chamfer distances: the numbers [a + b * sqrt 2] *)

Module Sqrt2.

(** [rat + irr * Math.SQRT2] *)
Record t : Type := mk { rat : Z; irr : Z }.

Definition of_Z (z : Z) : t := mk z 0.
Definition zero : t := of_Z 0.
Definition one : t := of_Z 1.
Definition SQRT2 : t := mk 0 1.

Definition add (a b : t) : t := mk (rat a + rat b) (irr a + irr b).

(** The sign test [0 <= x + y * sqrt 2], decided on the integers: when [x]
    and [y] have opposite signs the squares [x * x] and [2 * y * y] are
    compared. *)
Definition nonneg (x y : Z) : bool :=
  if (0 <=? x)%Z
  then (if (0 <=? y)%Z then true else (2 * (y * y) <=? x * x)%Z)
  else (if (0 <=? y)%Z then (x * x <=? 2 * (y * y))%Z else false).

(** [a <= b] and [a < b] *)
Definition leb (a b : t) : bool := nonneg (rat b - rat a) (irr b - irr a).
Definition ltb (a b : t) : bool := negb (leb b a).

(** [Math.min(a, b)] and [Math.min(a, ...l)] *)
Definition min (a b : t) : t := if ltb b a then b else a.
Definition min_of (a : t) (l : list t) : t := fold_left min l a.

End Sqrt2.

(** ** tools/add_second_edge.js *)

Module SecondEdge.
Import Loops Raster.

(** [const INF = 1e9] *)
Definition INF : Sqrt2.t := Sqrt2.of_Z 1000000000.

(** [mask[i] = expanded[p + 3] > 0 ? 1 : 0] *)
Definition alpha_mask (expanded : list pixel) (n : nat) : list bool :=
  for_up 0 n
    (fun i mask =>
       <[i := match expanded !! i with
              | Some px => (0 <? alpha px)%Z
              | None => false
              end]> mask)
    (replicate n false).

(** [df[i] = mask[i] ? 0 : INF] *)
Definition init_df (mask : list bool) (n : nat) : list Sqrt2.t :=
  for_up 0 n
    (fun i df => <[i := if bit mask i then Sqrt2.zero else INF]> df)
    (replicate n Sqrt2.zero).

(** [df[i] = Math.min(df[i], df[j] + w)]; both reads are inside the array
    wherever the passes below use it. *)
Definition relax (i j : nat) (w : Sqrt2.t) (df : list Sqrt2.t) : list Sqrt2.t :=
  match df !! i, df !! j with
  | Some a, Some b => <[i := Sqrt2.min a (Sqrt2.add b w)]> df
  | _, _ => df
  end.

(** The body of the first pair of loops for the pixel [(x, y)]. *)
Definition forward_cell (newW : nat) (y x : nat) (df : list Sqrt2.t) : list Sqrt2.t :=
  let i := y * newW + x in
  let d1 :=
    if 0 <? y then
      let a := relax i ((y - 1) * newW + x) Sqrt2.one df in
      let b := if 0 <? x then relax i ((y - 1) * newW + (x - 1)) Sqrt2.SQRT2 a else a in
      if x + 1 <? newW then relax i ((y - 1) * newW + (x + 1)) Sqrt2.SQRT2 b else b
    else df in
  if 0 <? x then relax i (y * newW + (x - 1)) Sqrt2.one d1 else d1.

(** The body of the second pair of loops. *)
Definition backward_cell (newW newH : nat) (y x : nat) (df : list Sqrt2.t) : list Sqrt2.t :=
  let i := y * newW + x in
  let d1 :=
    if y + 1 <? newH then
      let a := relax i ((y + 1) * newW + x) Sqrt2.one df in
      let b := if 0 <? x then relax i ((y + 1) * newW + (x - 1)) Sqrt2.SQRT2 a else a in
      if x + 1 <? newW then relax i ((y + 1) * newW + (x + 1)) Sqrt2.SQRT2 b else b
    else df in
  if x + 1 <? newW then relax i (y * newW + (x + 1)) Sqrt2.one d1 else d1.

Definition forward_pass (newW newH : nat) (df : list Sqrt2.t) : list Sqrt2.t :=
  for_up 0 newH (fun y d => for_up 0 newW (fun x d' => forward_cell newW y x d') d) df.

Definition backward_pass (newW newH : nat) (df : list Sqrt2.t) : list Sqrt2.t :=
  for_down newH 0
    (fun y d => for_down newW 0 (fun x d' => backward_cell newW newH y x d') d) df.

Definition distance_field (newW newH : nat) (mask : list bool) : list Sqrt2.t :=
  backward_pass newW newH (forward_pass newW newH (init_df mask (newW * newH))).

(** [ringA[i] = mask[i] === 0 && d > inner && d <= outer ? 255 : 0] *)
Definition ring_value (mask : list bool) (df : list Sqrt2.t) (inner outer : Z) (i : nat) : Z :=
  match mask !! i, df !! i with
  | Some false, Some d =>
      if Sqrt2.ltb (Sqrt2.of_Z inner) d && Sqrt2.leb d (Sqrt2.of_Z outer)
      then 255 else 0
  | _, _ => 0
  end.

Definition ring_alpha (mask : list bool) (df : list Sqrt2.t) (inner outer : Z) (n : nat)
  : list Z :=
  for_up 0 n (fun i ringA => <[i := ring_value mask df inner outer i]> ringA)
    (replicate n 0%Z).

(** The ring mask of a [newW] by [newH] canvas [expanded]:
    [inner = offsetPx], [outer = offsetPx + edgePx]. *)
Definition ring_of (newW newH : nat) (expanded : list pixel) (edgePx offsetPx : Z) : list Z :=
  let mask := alpha_mask expanded (newW * newH) in
  ring_alpha mask (distance_field newW newH mask) offsetPx (offsetPx + edgePx)
             (newW * newH).

End SecondEdge.

(** ** tools/make_sticker_border.js: createRasterSmoothBorder *)

Module Sticker.
Import Loops Raster.

(** The strokes modelled are whole numbers of pixels, so that the canvas
    size [W + 2 * strokePx] is one. *)

(** One pixel of the forward pass:
    [distanceField[idx] = Math.min(current, ...neighbors)]. *)
Definition forward_cell (newW : nat) (y x : nat) (df : list Sqrt2.t) : list Sqrt2.t :=
  let idx := y * newW + x in
  match df !! idx,
        df !! ((y - 1) * newW + (x - 1)), df !! ((y - 1) * newW + x),
        df !! ((y - 1) * newW + (x + 1)), df !! (y * newW + (x - 1)) with
  | Some current, Some ul, Some u, Some ur, Some l =>
      <[idx := Sqrt2.min_of current
                 [Sqrt2.add ul Sqrt2.SQRT2; Sqrt2.add u Sqrt2.one;
                  Sqrt2.add ur Sqrt2.SQRT2; Sqrt2.add l Sqrt2.one]]> df
  | _, _, _, _, _ => df
  end.

Definition backward_cell (newW : nat) (y x : nat) (df : list Sqrt2.t) : list Sqrt2.t :=
  let idx := y * newW + x in
  match df !! idx,
        df !! (y * newW + (x + 1)), df !! ((y + 1) * newW + (x - 1)),
        df !! ((y + 1) * newW + x), df !! ((y + 1) * newW + (x + 1)) with
  | Some current, Some r, Some dl, Some d, Some dr =>
      <[idx := Sqrt2.min_of current
                 [Sqrt2.add r Sqrt2.one; Sqrt2.add dl Sqrt2.SQRT2;
                  Sqrt2.add d Sqrt2.one; Sqrt2.add dr Sqrt2.SQRT2]]> df
  | _, _, _, _, _ => df
  end.

(** [for (y = 1; y < newH - 1; y++) for (x = 1; x < newW - 1; x++)] *)
Definition forward_pass (newW newH : nat) (df : list Sqrt2.t) : list Sqrt2.t :=
  for_up 1 (newH - 1)
    (fun y d => for_up 1 (newW - 1) (fun x d' => forward_cell newW y x d') d) df.

(** [for (y = newH - 2; y > 0; y--) for (x = newW - 2; x > 0; x--)] *)
Definition backward_pass (newW newH : nat) (df : list Sqrt2.t) : list Sqrt2.t :=
  for_down (newH - 1) 1
    (fun y d => for_down (newW - 1) 1 (fun x d' => backward_cell newW y x d') d) df.

(** [distanceField.fill(strokePx * 2)], then 0 at the pixels selected by
    [seed] (the test on the alpha byte differs between the revisions). *)
Definition init_df (newW newH : nat) (strokePx : Z) (seed : nat -> bool)
  : list Sqrt2.t :=
  for_up 0 newH
    (fun y d =>
       for_up 0 newW
         (fun x d' =>
            let idx := y * newW + x in
            if seed idx then <[idx := Sqrt2.zero]> d' else d')
         d)
    (replicate (newW * newH) (Sqrt2.of_Z (strokePx * 2))).

Definition distance_field (newW newH : nat) (strokePx : Z) (seed : nat -> bool)
  : list Sqrt2.t :=
  backward_pass newW newH (forward_pass newW newH (init_df newW newH strokePx seed)).

(** [expandedData[4 * idx + 3] > t]; false where the read is [undefined]. *)
Definition alpha_above (t : Z) (expandedData : list pixel) (idx : nat) : bool :=
  match expandedData !! idx with
  | Some px => (t <? alpha px)%Z
  | None => false
  end.

(** The generation loop shared by the revisions: a pixel of the image is
    copied, another pixel within the stroke gets what [border] gives. *)
Definition generate (newW newH : nat) (strokePx : Z) (expandedData : list pixel)
           (df : list Sqrt2.t) (border : Sqrt2.t -> option pixel)
  : list pixel :=
  for_up 0 newH
    (fun y out =>
       for_up 0 newW
         (fun x out' =>
            let idx := y * newW + x in
            match
              (if alpha_above 0 expandedData idx then expandedData !! idx
               else match df !! idx with
                    | Some distance =>
                        if Sqrt2.leb distance (Sqrt2.of_Z strokePx)
                        then border distance else None
                    | None => None
                    end)
            with
            | Some px => <[idx := px]> out'
            | None => out'
            end)
         out)
    (replicate (newW * newH) clear).

(** First revision: seeds are the pixels of alpha above 127, and the border
    is white and fully opaque. *)
Definition createRasterSmoothBorder_hard (newW newH : nat) (strokePx : Z)
           (expandedData : list pixel) : list pixel :=
  let df := distance_field newW newH strokePx (alpha_above 127 expandedData) in
  generate newW newH strokePx expandedData df
           (fun _ => Some (Pixel 255 255 255 255)).

(** Second revision: seeds are the pixels of alpha above 0, and the border
    alpha falls off with the distance.  [falloff distance] stands for
    [Math.round(255 * Math.pow(Math.max(0, 1 - distance / strokePx), 1 / softness))];
    the border pixel is written when this alpha is positive. *)
Definition createRasterSmoothBorder_soft (falloff : Sqrt2.t -> Z)
           (newW newH : nat) (strokePx : Z)
           (expandedData : list pixel) : list pixel :=
  let df := distance_field newW newH strokePx (alpha_above 0 expandedData) in
  generate newW newH strokePx expandedData df
           (fun distance =>
              let alpha := falloff distance in
              if (0 <? alpha)%Z then Some (Pixel 255 255 255 alpha) else None).

End Sticker.

(** ** tools/cutout_border_only.js, steps 8 and 9: the largest component *)

Module Silhouette.
Import Loops Raster.

(** [opaque[i] = cleanedImage[p] > 128 ? 1 : 0] *)
Definition mark_opaque (cleanedImage : list pixel) (n : nat) : list bool :=
  for_up 0 n
    (fun i o =>
       <[i := match cleanedImage !! i with
              | Some px => (128 <? alpha px)%Z
              | None => false
              end]> o)
    (replicate n false).

(** The state of one flood fill: the [visited] array, the [queue] and the
    [component] being collected (a [Set], kept in insertion order). *)
Record search : Type :=
  Search { visited : list bool; queue : list nat; component : list nat }.

(** [component.has(i)] and [component.add(i)] *)
Definition has (c : list nat) (i : nat) : bool := existsb (Nat.eqb i) c.
Definition set_add (c : list nat) (i : nat) : list nat :=
  if has c i then c else c ++ [i].

(** The body of the two loops over [dy] and [dx] for one offset. *)
Definition probe (W H : nat) (opaque : list bool) (cy cx : nat) (dy dx : Z)
           (st : search) : search :=
  if (dx =? 0)%Z && (dy =? 0)%Z then st
  else
    let ny := (Z.of_nat cy + dy)%Z in
    let nx := (Z.of_nat cx + dx)%Z in
    if (ny <? 0)%Z || (Z.of_nat H <=? ny)%Z || (nx <? 0)%Z || (Z.of_nat W <=? nx)%Z
    then st
    else
      let ni := Z.to_nat (ny * Z.of_nat W + nx) in
      if negb (bit opaque ni) || bit (visited st) ni then st
      else Search (<[ni := true]> (visited st)) (queue st ++ [ni]) (component st).

Definition steps : list Z := [-1; 0; 1]%Z.

(** The 8 neighbours of [curr], [dy] in the outer loop and [dx] inside. *)
Definition expand (W H : nat) (opaque : list bool) (curr : nat) (st : search) : search :=
  let cy := curr / W in
  let cx := curr mod W in
  fold_left
    (fun s dy => fold_left (fun s' dx => probe W H opaque cy cx dy dx s') steps s)
    steps st.

(** [while (queue.length > 0) { const curr = queue.shift(); ... }] with a
    bound on the number of iterations. *)
Fixpoint search_loop (W H : nat) (opaque : list bool) (fuel : nat) (st : search)
  : option search :=
  match fuel with
  | O => None
  | S fuel' =>
      match queue st with
      | [] => Some st
      | curr :: rest =>
          search_loop W H opaque fuel'
            (expand W H opaque curr
               (Search (visited st) rest (set_add (component st) curr)))
      end
  end.

(** The state of the scan: the [visited] array between two flood fills
    (field [seen]) and the [components] retained so far. *)
Record scan : Type := Scan { seen : list bool; components : list (list nat) }.

(** The body of the scan for the pixel of index [i]; [W*H + 1] iterations
    are always enough for the flood fill
    ([ComponentFacts.search_loop_spec]). *)
Definition scan_pixel (W H : nat) (opaque : list bool) (i : nat) (s : option scan)
  : option scan :=
  s0 ← s;
  if negb (bit opaque i) || bit (seen s0) i then Some s0
  else
    r ← search_loop W H opaque (S (W * H)) (Search (<[i := true]> (seen s0)) [i] []);
    Some (Scan (visited r)
               (if 10 <? length (component r)
                then components s0 ++ [component r]
                else components s0)).

Definition find_components (W H : nat) (opaque : list bool)
  : option (list (list nat)) :=
  components <$>
    for_up 0 H
      (fun y s => for_up 0 W (fun x s' => scan_pixel W H opaque (y * W + x) s') s)
      (Some (Scan (replicate (W * H) false) [])).

(** [if (component.size > maxSize) { maxSize = ...; largestComponent = ... }] *)
Definition pick (acc : option (list nat) * nat) (c : list nat)
  : option (list nat) * nat :=
  if snd acc <? length c then (Some c, length c) else acc.

Definition largest (comps : list (list nat)) : option (list nat) :=
  fst (fold_left pick comps (None, 0)).

(** Step 9: every pixel of alpha above 50 outside the largest component
    becomes transparent; nothing changes when no component was retained. *)
Definition keep_only (largestComponent : option (list nat))
           (cleanedImage : list pixel) (n : nat) : list pixel :=
  match largestComponent with
  | Some c =>
      for_up 0 n
        (fun i final =>
           match final !! i with
           | Some px =>
               if (50 <? alpha px)%Z && negb (has c i)
               then <[i := set_alpha 0 px]> final else final
           | None => final
           end)
        cleanedImage
  | None => cleanedImage
  end.

Definition keep_largest (W H : nat) (cleanedImage : list pixel)
  : option (list pixel) :=
  comps ← find_components W H (mark_opaque cleanedImage (W * H));
  Some (keep_only (largest comps) cleanedImage (W * H)).

End Silhouette.

(** ** tools/add_bevel.js: the shading loop *)

Module Bevel.
Import Loops Raster.

(** The two layers [shadowRGBA] and [highlightRGBA]. *)
Record layers : Type := Layers { shadowRGBA : list pixel; highlightRGBA : list pixel }.

(** A read of a [Float32Array]; outside the array it is [undefined], which
    the arithmetic turns into NaN. *)
Definition float_at (a : list JS.num) (i : nat) : JS.num :=
  match a !! i with
  | Some v => v
  | None => JS.NaN
  end.

Section Shade.

(** [Math.hypot], whose value is irrational in general. *)
Variable hypot : JS.num -> JS.num -> JS.num.

(** [len = Math.hypot(nx, ny) || 1e-6; nx /= len; ny /= len;
     ndotl = nx * lx + ny * ly] *)
Definition ndotl (gxi gyi lx ly : JS.num) : JS.num :=
  let len := JS.or_else (hypot gxi gyi) (JS.Fin (1 # 1000000)) in
  let nx := JS.div gxi len in
  let ny := JS.div gyi len in
  JS.add (JS.mul nx lx) (JS.mul ny ly).

(** [Math.round(255 * intensity * Math.abs(ndotl))] as stored in a byte. *)
Definition shade_alpha (intensity d : JS.num) : Z :=
  JS.to_uint8 (JS.Math_round (JS.mul (JS.mul (JS.of_Z 255) intensity) (JS.Math_abs d))).

(** The body of the loops for the pixel [i], once on the rim. *)
Definition shade_pixel (intensity d : JS.num) (i : nat) (ls : layers) : layers :=
  if JS.ltb d (JS.of_Z 0)
  then Layers (<[i := Pixel 0 0 0 (shade_alpha intensity d)]> (shadowRGBA ls))
              (highlightRGBA ls)
  else Layers (shadowRGBA ls)
              (<[i := Pixel 255 255 255 (shade_alpha intensity d)]> (highlightRGBA ls)).

(** The shading loops over the [W] by [H] image: [lx], [ly] are the light
    vector and [gx], [gy] the Sobel gradients. *)
Definition shade (W H : nat) (rimMask : list bool) (gx gy : list JS.num)
           (lx ly intensity : JS.num) : layers :=
  for_up 0 H
    (fun y ls =>
       for_up 0 W
         (fun x ls' =>
            let i := y * W + x in
            if negb (bit rimMask i) then ls'
            else shade_pixel intensity (ndotl (float_at gx i) (float_at gy i) lx ly) i ls')
         ls)
    (Layers (replicate (W * H) clear) (replicate (W * H) clear)).

End Shade.

End Bevel.

(** ** tools/cutout_border_only.js: the other parameters, steps 7 and 10 *)

Module CutoutStages.
Import Loops Raster.

(** [feather = Math.max(0, Math.min(5, +feather || 2))] for any value of
    [+feather]; [Cutout.feather_of] is its restriction to the integers. *)
Definition feather_num_of (raw : JS.num) : JS.num :=
  JS.Math_max (JS.of_Z 0) (JS.Math_min (JS.of_Z 5) (JS.or_else raw (JS.of_Z 2))).

(** [preblur = Math.max(0, Math.min(2, +preblur || 0.6))] *)
Definition preblur_of (raw : JS.num) : JS.num :=
  JS.Math_max (JS.of_Z 0) (JS.Math_min (JS.of_Z 2) (JS.or_else raw (JS.Fin 0.6))).

(** Step 7, on the buffer the blur returned:
    [if (alpha < 30) cleanedImage[p] = 0; else if (alpha > 220) cleanedImage[p] = 255;]
    for [i < W * H]. *)
Definition clean_alpha (cleanedImage : list pixel) (n : nat) : list pixel :=
  for_up 0 n
    (fun i img =>
       match img !! i with
       | Some px =>
           if (alpha px <? 30)%Z then <[i := set_alpha 0 px]> img
           else if (220 <? alpha px)%Z then <[i := set_alpha 255 px]> img
           else img
       | None => img
       end)
    cleanedImage.

(** Step 10.  [final[p] < 50]; a read outside the buffer is [undefined],
    and the comparison is then false. *)
Definition faint (final : list pixel) (i : nat) : bool :=
  match final !! i with
  | Some px => (alpha px <? 50)%Z
  | None => false
  end.

(** [transparentNeighbors] for the pixel [(x, y)], [1 <= x] and [1 <= y]. *)
Definition transparent_neighbours (W : nat) (final : list pixel) (y x : nat) : nat :=
  fold_left
    (fun n dy =>
       fold_left
         (fun n' dx =>
            if (dx =? 0)%Z && (dy =? 0)%Z then n'
            else if faint final
                      (Z.to_nat ((Z.of_nat y + dy) * Z.of_nat W + (Z.of_nat x + dx)))
                 then S n' else n')
         Silhouette.steps n)
    Silhouette.steps 0.

(** [despeckled = Buffer.from(final)], then the two loops over the pixels
    that are not on the frame; the tests read [final], the stores go to
    [despeckled]. *)
Definition despeckle (W H : nat) (final : list pixel) : list pixel :=
  for_up 1 (H - 1)
    (fun y d =>
       for_up 1 (W - 1)
         (fun x d' =>
            let i := y * W + x in
            if faint final i then d'
            else if 6 <=? transparent_neighbours W final y x
                 then match d' !! i with
                      | Some px => <[i := set_alpha 0 px]> d'
                      | None => d'
                      end
                 else d')
         d)
    final.

(** Steps 7 to 10 on the buffer [cleanedImage] that the blur of step 6
    returned. *)
Definition finish (W H : nat) (cleanedImage : list pixel) : option (list pixel) :=
  final ← Silhouette.keep_largest W H (clean_alpha cleanedImage (W * H));
  Some (despeckle W H final).

End CutoutStages.

(** ** tools/add_bevel.js: the rim mask and the Sobel gradients *)

Module BevelMask.
Import Loops Raster.

(** [alphaMask[i] = rgba[p+3] > 0 ? 1 : 0] *)
Definition alphaMask (rgba : list pixel) (n : nat) : list bool :=
  for_up 0 n
    (fun i mask =>
       <[i := match rgba !! i with
              | Some px => (0 <? alpha px)%Z
              | None => false
              end]> mask)
    (replicate n false).

(** The test [all] of [erode3x3] for the pixel [(x, y)], [1 <= x] and
    [1 <= y]: no entry of the 3 by 3 window is 0. *)
Definition all3 (mask : list bool) (w : nat) (y x : nat) : bool :=
  forallb
    (fun dy =>
       forallb
         (fun dx =>
            bit mask (Z.to_nat ((Z.of_nat y + dy) * Z.of_nat w + (Z.of_nat x + dx))))
         Silhouette.steps)
    Silhouette.steps.

(** [function erode3x3(mask, w, h)]: the loops over the inner pixels, then
    the two loops that reset the four borders. *)
Definition erode3x3 (mask : list bool) (w h : nat) : list bool :=
  let out1 :=
    for_up 1 (h - 1)
      (fun y o => for_up 1 (w - 1) (fun x o' => <[y * w + x := all3 mask w y x]> o') o)
      (replicate (w * h) false) in
  let out2 :=
    for_up 0 w (fun x o => <[(h - 1) * w + x := false]> (<[x := false]> o)) out1 in
  for_up 0 h (fun y o => <[y * w + (w - 1) := false]> (<[y * w := false]> o)) out2.

(** [let eroded = alphaMask; for (i = 0; i < r; i++) eroded = erode3x3(eroded, W, H);] *)
Definition erode_times (r : nat) (mask : list bool) (W H : nat) : list bool :=
  Nat.iter r (fun eroded => erode3x3 eroded W H) mask.

(** [rimMask[i] = alphaMask[i] && !eroded[i] ? 1 : 0] *)
Definition rimMask (alphaMask eroded : list bool) (n : nat) : list bool :=
  for_up 0 n
    (fun i rim => <[i := bit alphaMask i && negb (bit eroded i)]> rim)
    (replicate n false).

(** The rim of the [W] by [H] image [rgba] for the radius [r], the integer
    [clamp(Math.round(bevelPx), 1, 50)]. *)
Definition rim_of (rgba : list pixel) (W H r : nat) : list bool :=
  let am := alphaMask rgba (W * H) in
  rimMask am (erode_times r am W H) (W * H).

(** [const Kx = [-1,0,1,-2,0,2,-1,0,1]; const Ky = [-1,-2,-1,0,0,0,1,2,1];] *)
Definition Kx : list Z := [-1; 0; 1; -2; 0; 2; -1; 0; 1]%Z.
Definition Ky : list Z := [-1; -2; -1; 0; 0; 0; 1; 2; 1]%Z.

Definition kernel_at (K : list Z) (k : nat) : JS.num :=
  match K !! k with
  | Some z => JS.of_Z z
  | None => JS.NaN
  end.

(** The sums [sx], [sy] of [sobel] for the pixel [(x, y)], with the counter
    [k] of the kernel entry. *)
Definition sobel_sums (height : list JS.num) (w : nat) (y x : nat) : JS.num * JS.num :=
  let '(sx, sy, _) :=
    fold_left
      (fun acc dy =>
         fold_left
           (fun '(sx, sy, k) dx =>
              let v := Bevel.float_at height
                         (Z.to_nat ((Z.of_nat y + dy) * Z.of_nat w + (Z.of_nat x + dx))) in
              (JS.add sx (JS.mul v (kernel_at Kx k)),
               JS.add sy (JS.mul v (kernel_at Ky k)),
               S k))
           Silhouette.steps acc)
      Silhouette.steps (JS.of_Z 0, JS.of_Z 0, 0) in
  (sx, sy).

(** [function sobel(height, w, h)]: the arrays [gx] and [gy]. *)
Definition sobel (height : list JS.num) (w h : nat) : list JS.num * list JS.num :=
  for_up 1 (h - 1)
    (fun y g =>
       for_up 1 (w - 1)
         (fun x g' =>
            let s := sobel_sums height w y x in
            (<[y * w + x := fst s]> (fst g'), <[y * w + x := snd s]> (snd g')))
         g)
    (replicate (w * h) (JS.of_Z 0), replicate (w * h) (JS.of_Z 0)).

End BevelMask.

(** ** tools/add_second_edge.js: hexToRGB *)

Module EdgeColor.
Import Ascii String.

(** [{ r, g, b }] *)
Record rgb : Type := RGB { r : Z; g : Z; b : Z }.

(** A character of the class [[a-fA-F0-9]], with the digit that
    [parseInt(., 16)] reads from it. *)
Definition hex_digit (c : ascii) : option Z :=
  let n := Z.of_N (N_of_ascii c) in
  if (48 <=? n)%Z && (n <=? 57)%Z then Some (n - 48)%Z
  else if (97 <=? n)%Z && (n <=? 102)%Z then Some (n - 87)%Z
  else if (65 <=? n)%Z && (n <=? 70)%Z then Some (n - 55)%Z
  else None.

(** [parseInt(s, 16)] for a string [s] of hexadecimal digits; [None] when
    another character occurs. *)
Fixpoint hex_value (acc : Z) (s : string) : option Z :=
  match s with
  | EmptyString => Some acc
  | String c s' =>
      match hex_digit c with
      | Some d => hex_value (16 * acc + d) s'
      | None => None
      end
  end.

(** [/^#?([a-fA-F0-9]{6})$/.exec(hex)]: the value of the six digits
    captured, when the string matches. *)
Definition exec_hex (hex : string) : option Z :=
  let body := match hex with
              | String "#"%char rest => rest
              | _ => hex
              end in
  if (String.length body =? 6)%nat then hex_value 0 body else None.

(** [function hexToRGB(hex)] *)
Definition hexToRGB (hex : string) : rgb :=
  match exec_hex hex with
  | None => RGB 140 75 21
  | Some n => RGB (Z.land (Z.shiftr n 16) 255) (Z.land (Z.shiftr n 8) 255) (Z.land n 255)
  end.

End EdgeColor.

(** ** tools/add_second_edge.js: the widths and the canvas *)

Module EdgeCanvas.
Import Loops Raster.

(** [parseInt(s, 10) || d], where the value of [parseInt] is an integer or
    NaN ([None]). *)
Definition or_default (parsed : option Z) (d : Z) : Z :=
  match parsed with
  | Some z => if (z =? 0)%Z then d else z
  | None => d
  end.

(** [edgePx = args[2] ? Math.max(1, parseInt(args[2], 10) || 100) : 100];
    [arg] is [None] when the argument is missing or empty, and otherwise
    holds the value of [parseInt]. *)
Definition edgePx_of (arg : option (option Z)) : Z :=
  match arg with
  | Some parsed => Z.max 1 (or_default parsed 100)
  | None => 100
  end.

(** [offsetPx = args[3] ? Math.max(0, parseInt(args[3], 10) || 0) : 0] *)
Definition offsetPx_of (arg : option (option Z)) : Z :=
  match arg with
  | Some parsed => Z.max 0 (or_default parsed 0)
  | None => 0
  end.

(** [pad = Math.max(edgePx + offsetPx, 100)] *)
Definition pad_of (edgePx offsetPx : Z) : Z := Z.max (edgePx + offsetPx) 100.

(** The copy of the [W] by [H] image [data] into the middle of a cleared
    canvas with a margin of [pad] pixels; the same loops place the image in
    make_sticker_border.js, with [padding = strokePx].  A byte read outside
    [data] is [undefined] and is stored as 0. *)
Definition expand (W H pad : nat) (data : list pixel) : list pixel :=
  let newW := W + 2 * pad in
  let newH := H + 2 * pad in
  for_up 0 H
    (fun y e =>
       for_up 0 W
         (fun x e' =>
            <[(y + pad) * newW + (x + pad) := default clear (data !! (y * W + x))]> e')
         e)
    (replicate (newW * newH) clear).



End EdgeCanvas.

(** ** tools/make_sticker_border.js: the stages around the border *)

Module StickerStages.
Import Loops Raster.

(** Step 1.5 for one pixel: a light ([r, g, b > 220]) and near neutral
    ([maxDiff < 20]) colour becomes pure white; the alpha is not touched. *)
Definition normalize_pixel (px : pixel) : pixel :=
  if (220 <? red px)%Z && (220 <? green px)%Z && (220 <? blue px)%Z
  then
    let maxDiff := Z.max (Z.max (Z.abs (red px - green px)) (Z.abs (red px - blue px)))
                         (Z.abs (green px - blue px)) in
    if (maxDiff <? 20)%Z then Pixel 255 255 255 (alpha px) else px
  else px.

(** [const rgba = Buffer.from(data); for (let i = 0; i < rgba.length; i += 4) ...] *)
Definition normalize (data : list pixel) : list pixel :=
  for_up 0 (length data)
    (fun i rgba =>
       match rgba !! i with
       | Some px => <[i := normalize_pixel px]> rgba
       | None => rgba
       end)
    data.

(** [shouldBeBorder] of the first revision of [createVectorSmoothBorder]
    for the pixel [(x, y)]: some pixel of positive alpha lies inside the
    canvas at an offset [(dx, dy)], [-strokePx <= dx, dy <= strokePx], with
    [Math.sqrt(dx * dx + dy * dy) <= strokePx]; for the integers involved
    this is [dx * dx + dy * dy <= strokePx * strokePx].  The loops stop at
    the first such pixel. *)
Definition shouldBeBorder (newW newH : nat) (strokePx : Z)
           (expandedData : list pixel) (y x : nat) : bool :=
  existsb
    (fun dy =>
       existsb
         (fun dx =>
            let checkY := (Z.of_nat y + dy)%Z in
            let checkX := (Z.of_nat x + dx)%Z in
            (0 <=? checkY)%Z && (checkY <? Z.of_nat newH)%Z &&
            (0 <=? checkX)%Z && (checkX <? Z.of_nat newW)%Z &&
            Sticker.alpha_above 0 expandedData
              (Z.to_nat (checkY * Z.of_nat newW + checkX)) &&
            (dx * dx + dy * dy <=? strokePx * strokePx)%Z)
         (Cutout.offsets strokePx))
    (Cutout.offsets strokePx).

(** [createVectorSmoothBorder], first revision: the white border, then the
    pixels of the image on top. *)
Definition createVectorSmoothBorder (newW newH : nat) (strokePx : Z)
           (expandedData : list pixel) : list pixel :=
  let borderData :=
    for_up 0 newH
      (fun y bd =>
         for_up 0 newW
           (fun x bd' =>
              if shouldBeBorder newW newH strokePx expandedData y x
              then <[y * newW + x := Pixel 255 255 255 255]> bd'
              else bd')
           bd)
      (replicate (newW * newH) clear) in
  for_up 0 (newW * newH)
    (fun i bd =>
       match expandedData !! i with
       | Some px => if (0 <? alpha px)%Z then <[i := px]> bd else bd
       | None => bd
       end)
    borderData.

(** [makeStickerBorder], first revision, from the decoded [W] by [H] image
    [data] to the buffer that is encoded: [padding = strokePx],
    [newW = W + padding * 2]. *)
Definition makeStickerBorder (vectorSmooth : bool) (W H : nat) (strokePx : Z)
           (data : list pixel) : list pixel :=
  let padding := Z.to_nat strokePx in
  let newW := W + padding * 2 in
  let newH := H + padding * 2 in
  let expandedData := EdgeCanvas.expand W H padding (normalize data) in
  if vectorSmooth
  then createVectorSmoothBorder newW newH strokePx expandedData
  else Sticker.createRasterSmoothBorder_hard newW newH strokePx expandedData.

End StickerStages.

(** ** tools/make_sticker_border.js (first revision): the command line *)

Module StickerCli.
Import String.

(** [args.indexOf(flag)]: the first position of [flag]; [None] stands for
    the result [-1]. *)
Fixpoint indexOf (flag : string) (args : list string) : option nat :=
  match args with
  | [] => None
  | a :: rest =>
      if String.eqb a flag then Some 0
      else match indexOf flag rest with
           | Some i => Some (S i)
           | None => None
           end
  end.

(** The array after [args.splice(i, n)]. *)
Definition splice (i n : nat) (args : list string) : list string :=
  take i args ++ drop (i + n) args.

(** What the entry point reads from [process.argv.slice(2)]; a position
    that the array does not have is [undefined] ([None]), and [simplifyPx]
    is [None] while it still holds its initial [0]. *)
Record parsed : Type := Parsed {
  input : option string;
  output : option string;
  strokePx : option string;
  softness : option string;
  shadow : option string;
  vectorSmooth : bool;
  simplifyPx : option string
}.

Definition parse (args : list string) : parsed :=
  let '(vs, args1) :=
    match indexOf "--vectorSmooth"%string args with
    | Some i => (true, splice i 1 args)
    | None => (false, args)
    end in
  let '(sp, args2) :=
    match indexOf "--simplifyPx"%string args1 with
    | Some i =>
        if (i + 1 <? List.length args1)%nat
        then (args1 !! (i + 1), splice i 2 args1)
        else (None, args1)
    | None => (None, args1)
    end in
  Parsed (args2 !! 0) (args2 !! 1) (args2 !! 2) (args2 !! 3) (args2 !! 4) vs sp.

End StickerCli.

(** ** tools/gen_outlines.js: the alpha of an outline pixel *)

Module Outline.
Import Raster.

(** [CONFIG.luminanceLow] and [CONFIG.luminanceHigh] *)
Definition luminanceLow : JS.num := JS.of_Z 210.
Definition luminanceHigh : JS.num := JS.of_Z 235.

(** [newAlpha] for a pixel with the bytes [r, g, b, a]: transparent from
    the luminance 235 on, fading between 210 and 235, opaque below, and
    never above the alpha the pixel had. *)
Definition newAlpha (px : pixel) : JS.num :=
  let luminance := Cutout.luminance px in
  let a := JS.of_Z (alpha px) in
  let faded :=
    if JS.geb luminance luminanceHigh then JS.of_Z 0
    else if JS.geb luminance luminanceLow then
      let range := Double.sub luminanceHigh luminanceLow in
      let position := Double.div (Double.sub luminance luminanceLow) range in
      JS.Math_round (Double.mul (JS.of_Z 255) (Double.sub (JS.of_Z 1) position))
    else JS.of_Z 255 in
  if JS.ltb a (JS.of_Z 255) then JS.Math_min faded a else faded.

(** The output pixel: pure black with the alpha [newAlpha]. *)
Definition outline_pixel (px : pixel) : pixel :=
  Pixel 0 0 0 (JS.to_uint8 (newAlpha px)).

(** The pixel loop of [generateOutline] over the decoded buffer [data] of
    [n = width * height] pixels. *)
Definition outline (data : list pixel) (n : nat) : list pixel :=
  Loops.for_up 0 n
    (fun i outputData =>
       match data !! i with
       | Some px => <[i := outline_pixel px]> outputData
       | None => <[i := Pixel 0 0 0 255]> outputData
       end)
    (replicate n clear).

End Outline.

(** ** The distance fields as the [Float32Array] holds them *)

Module Float32.
Local Open Scope Q_scope.

(** The rounding of a store into a [Float32Array]: IEEE 754 binary32 in
    its normal range, which the distances (0, or between 1 and the
    starting value) never leave. *)
Definition binary32 : Q -> Q := Double.round 24.

(** [Math.SQRT2], the double nearest to the square root of 2. *)
Definition SQRT2 : Q := 6369051672525773 # 4503599627370496.

(** [Math.min(a, b)] and [Math.min(a, ...l)] on finite numbers. *)
Definition min (a b : Q) : Q := if Qle_bool a b then a else b.
Definition min_of (a : Q) (l : list Q) : Q := fold_left min l a.

(** [df[j] + w]: the sum of two doubles. *)
Definition plus (b w : Q) : Q := Double.binary64 (b + w).

End Float32.

(** *** tools/add_second_edge.js *)

Module SecondEdge32.
Import Loops Raster Float32.

(** [const INF = 1e9] *)
Definition INF : Q := inject_Z 1000000000.

(** [df[i] = mask[i] ? 0 : INF] *)
Definition init_df (mask : list bool) (n : nat) : list Q :=
  for_up 0 n
    (fun i df => <[i := binary32 (if bit mask i then 0%Q else INF)]> df)
    (replicate n 0%Q).

(** [df[i] = Math.min(df[i], df[j] + w)]: the sum and the minimum are
    doubles, the store rounds to single precision. *)
Definition relax (i j : nat) (w : Q) (df : list Q) : list Q :=
  match df !! i, df !! j with
  | Some a, Some b => <[i := binary32 (min a (plus b w))]> df
  | _, _ => df
  end.

(** The body of the first pair of loops for the pixel [(x, y)]. *)
Definition forward_cell (newW : nat) (y x : nat) (df : list Q) : list Q :=
  let i := y * newW + x in
  let d1 :=
    if 0 <? y then
      let a := relax i ((y - 1) * newW + x) 1%Q df in
      let b := if 0 <? x then relax i ((y - 1) * newW + (x - 1)) SQRT2 a else a in
      if x + 1 <? newW then relax i ((y - 1) * newW + (x + 1)) SQRT2 b else b
    else df in
  if 0 <? x then relax i (y * newW + (x - 1)) 1%Q d1 else d1.

(** The body of the second pair of loops. *)
Definition backward_cell (newW newH : nat) (y x : nat) (df : list Q) : list Q :=
  let i := y * newW + x in
  let d1 :=
    if y + 1 <? newH then
      let a := relax i ((y + 1) * newW + x) 1%Q df in
      let b := if 0 <? x then relax i ((y + 1) * newW + (x - 1)) SQRT2 a else a in
      if x + 1 <? newW then relax i ((y + 1) * newW + (x + 1)) SQRT2 b else b
    else df in
  if x + 1 <? newW then relax i (y * newW + (x + 1)) 1%Q d1 else d1.

Definition forward_pass (newW newH : nat) (df : list Q) : list Q :=
  for_up 0 newH (fun y d => for_up 0 newW (fun x d' => forward_cell newW y x d') d) df.

Definition backward_pass (newW newH : nat) (df : list Q) : list Q :=
  for_down newH 0
    (fun y d => for_down newW 0 (fun x d' => backward_cell newW newH y x d') d) df.

Definition distance_field (newW newH : nat) (mask : list bool) : list Q :=
  backward_pass newW newH (forward_pass newW newH (init_df mask (newW * newH))).

End SecondEdge32.

(** *** tools/make_sticker_border.js, both revisions *)

Module Sticker32.
Import Loops Raster Float32.

(** One pixel of the forward pass:
    [distanceField[idx] = Math.min(current, ...neighbors)]. *)
Definition forward_cell (newW : nat) (y x : nat) (df : list Q) : list Q :=
  let idx := y * newW + x in
  match df !! idx,
        df !! ((y - 1) * newW + (x - 1)), df !! ((y - 1) * newW + x),
        df !! ((y - 1) * newW + (x + 1)), df !! (y * newW + (x - 1)) with
  | Some current, Some ul, Some u, Some ur, Some l =>
      <[idx := binary32 (min_of current
                 [plus ul SQRT2; plus u 1%Q; plus ur SQRT2; plus l 1%Q])]> df
  | _, _, _, _, _ => df
  end.

Definition backward_cell (newW : nat) (y x : nat) (df : list Q) : list Q :=
  let idx := y * newW + x in
  match df !! idx,
        df !! (y * newW + (x + 1)), df !! ((y + 1) * newW + (x - 1)),
        df !! ((y + 1) * newW + x), df !! ((y + 1) * newW + (x + 1)) with
  | Some current, Some r, Some dl, Some d, Some dr =>
      <[idx := binary32 (min_of current
                 [plus r 1%Q; plus dl SQRT2; plus d 1%Q; plus dr SQRT2])]> df
  | _, _, _, _, _ => df
  end.

(** [for (y = 1; y < newH - 1; y++) for (x = 1; x < newW - 1; x++)] *)
Definition forward_pass (newW newH : nat) (df : list Q) : list Q :=
  for_up 1 (newH - 1)
    (fun y d => for_up 1 (newW - 1) (fun x d' => forward_cell newW y x d') d) df.

(** [for (y = newH - 2; y > 0; y--) for (x = newW - 2; x > 0; x--)] *)
Definition backward_pass (newW newH : nat) (df : list Q) : list Q :=
  for_down (newH - 1) 1
    (fun y d => for_down (newW - 1) 1 (fun x d' => backward_cell newW y x d') d) df.

(** The value [distanceField.fill(strokePx * 2)] leaves in the array, for
    the number [strokePx] (whole or not): the double [strokePx * 2],
    rounded to single precision by the store. *)
Definition fill_value (strokePx : Q) : Q :=
  binary32 (Double.binary64 (strokePx * 2)).

(** [distanceField.fill(strokePx * 2)], then 0 at the pixels selected by
    [seed] (the test on the alpha byte differs between the revisions). *)
Definition init_df (newW newH : nat) (strokePx : Q) (seed : nat -> bool) : list Q :=
  for_up 0 newH
    (fun y d =>
       for_up 0 newW
         (fun x d' =>
            let idx := y * newW + x in
            if seed idx then <[idx := binary32 0%Q]> d' else d')
         d)
    (replicate (newW * newH) (fill_value strokePx)).

Definition distance_field (newW newH : nat) (strokePx : Q) (seed : nat -> bool) : list Q :=
  backward_pass newW newH (forward_pass newW newH (init_df newW newH strokePx seed)).

End Sticker32.

(* ===================================================================== *)
(** * Part II: verification                                               *)
(* ===================================================================== *)

Module LoopFacts.
Import Loops.

Lemma iter_up_inv {St : Type} (I : nat -> St -> Prop) (f : nat -> St -> St) :
  forall n lo s,
    I lo s ->
    (forall k s', lo <= k < lo + n -> I k s' -> I (S k) (f k s')) ->
    I (lo + n) (iter_up lo n f s).
Proof.
  induction n as [|n IH]; intros lo s H0 Hstep; simpl.
  - now rewrite Nat.add_0_r.
  - replace (lo + S n) with (S lo + n) by lia.
    apply IH.
    + apply Hstep; [lia | exact H0].
    + intros k s' Hk. apply Hstep. lia.
Qed.

Lemma for_up_inv {St : Type} (I : nat -> St -> Prop) (f : nat -> St -> St)
      (lo hi : nat) (s : St) :
  lo <= hi ->
  I lo s ->
  (forall k s', lo <= k < hi -> I k s' -> I (S k) (f k s')) ->
  I hi (for_up lo hi f s).
Proof.
  intros Hle H0 Hstep. unfold for_up.
  replace hi with (lo + (hi - lo)) at 1 by lia.
  apply iter_up_inv; [exact H0 |].
  intros k s' Hk. apply Hstep. lia.
Qed.

Lemma iter_down_inv {St : Type} (I : nat -> St -> Prop) (f : nat -> St -> St) :
  forall n lo s,
    I (lo + n) s ->
    (forall k s', lo <= k < lo + n -> I (S k) s' -> I k (f k s')) ->
    I lo (iter_down lo n f s).
Proof.
  induction n as [|n IH]; intros lo s H0 Hstep; simpl.
  - now rewrite Nat.add_0_r in H0.
  - apply IH.
    + apply Hstep; [lia |]. now replace (S (lo + n)) with (lo + S n) by lia.
    + intros k s' Hk. apply Hstep. lia.
Qed.

Lemma for_down_inv {St : Type} (I : nat -> St -> Prop) (f : nat -> St -> St)
      (hi lo : nat) (s : St) :
  lo <= hi ->
  I hi s ->
  (forall k s', lo <= k < hi -> I (S k) s' -> I k (f k s')) ->
  I lo (for_down hi lo f s).
Proof.
  intros Hle H0 Hstep. unfold for_down.
  apply iter_down_inv.
  - now replace (lo + (hi - lo)) with hi by lia.
  - intros k s' Hk. apply Hstep. lia.
Qed.

(** A loop whose range is empty leaves the state alone. *)
Lemma for_up_empty {St : Type} (f : nat -> St -> St) lo hi s :
  hi <= lo -> for_up lo hi f s = s.
Proof. intros H. unfold for_up. now replace (hi - lo) with 0 by lia. Qed.

Lemma for_down_empty {St : Type} (f : nat -> St -> St) hi lo s :
  hi <= lo -> for_down hi lo f s = s.
Proof. intros H. unfold for_down. now replace (hi - lo) with 0 by lia. Qed.

End LoopFacts.

Module ArgFacts.
Import JS StickerArgs BevelArgs.

Lemma Qle_bool_false_lt (x y : Q) : Qle_bool x y = false -> (y < x)%Q.
Proof.
  intros H. apply Qnot_le_lt. intros Hle.
  apply Qle_bool_iff in Hle. congruence.
Qed.

(** [Math.max(lo, Math.min(hi, v))] lies in [[lo, hi]] unless [v] is NaN. *)
Lemma clamp_in_range (lo hi : Q) (v : num) :
  (lo <= hi)%Q -> v <> NaN ->
  in_range lo hi (Math_max (Fin lo) (Math_min (Fin hi) v)).
Proof.
  intros Hlh Hv.
  destruct v as [| |q|]; try congruence; unfold Math_max, Math_min; simpl.
  - split; [apply Qle_refl | exact Hlh].
  - destruct (Qle_bool hi q) eqn:E1; simpl.
    + destruct (Qle_bool hi lo) eqn:E2; simpl.
      * apply Qle_bool_iff in E2. split; [apply Qle_refl | exact Hlh].
      * split; [exact Hlh | apply Qle_refl].
    + apply Qle_bool_false_lt in E1.
      destruct (Qle_bool q lo) eqn:E2; simpl.
      * split; [apply Qle_refl | exact Hlh].
      * apply Qle_bool_false_lt in E2. split; apply Qlt_le_weak; assumption.
  - destruct (Qle_bool hi lo) eqn:E2; simpl.
    + split; [apply Qle_refl | exact Hlh].
    + split; [exact Hlh | apply Qle_refl].
Qed.

Lemma or_else_not_nan (v : num) (d : Q) : or_else v (Fin d) <> NaN.
Proof. destruct v; unfold or_else; simpl; try congruence. now destruct (Qeq_bool q 0). Qed.

Lemma strokePx_in_range (raw : num) : in_range 1 500 (strokePx_of raw).
Proof.
  unfold strokePx_of, of_Z. apply (clamp_in_range (inject_Z 1) (inject_Z 500)).
  - discriminate.
  - apply or_else_not_nan.
Qed.

Lemma softness_in_range (raw : num) : in_range 0.1 5 (softness_of raw).
Proof.
  unfold softness_of. apply clamp_in_range.
  - discriminate.
  - apply or_else_not_nan.
Qed.

Lemma bevelPx_in_range (raw : num) : in_range 1 50 (bevelPx_of raw).
Proof.
  unfold bevelPx_of, clamp, of_Z. apply (clamp_in_range (inject_Z 1) (inject_Z 50)).
  - discriminate.
  - apply or_else_not_nan.
Qed.

Lemma intensity_in_range (raw : num) :
  raw <> NaN -> in_range 0 1 (intensity_of raw).
Proof.
  intros H. unfold intensity_of, clamp, of_Z.
  now apply (clamp_in_range (inject_Z 0) (inject_Z 1)).
Qed.

(** C8. Stroke thickness and softness are clamped to [1,500] and [0.1,5.0]
    whatever the raw argument ([+arg || default] replaces NaN and 0 by the
    default); the relief intensity is [clamp(parseFloat(..), 0, 1)] without
    such a fallback: it lies in [0,1] for every parsed number, but a
    non-numeric argument, parsed to NaN, stays NaN and is outside [0,1]. *)
Theorem C8_effective_parameters (raw : num) :
  in_range 1 500 (strokePx_of raw) /\
  in_range 0.1 5 (softness_of raw) /\
  match raw with
  | NaN => intensity_of raw = NaN /\ ~ in_range 0 1 (intensity_of raw)
  | _ => in_range 0 1 (intensity_of raw)
  end.
Proof.
  split; [apply strokePx_in_range |].
  split; [apply softness_in_range |].
  destruct raw as [| |q|].
  - split; [reflexivity | intros []].
  - apply intensity_in_range; discriminate.
  - apply intensity_in_range; discriminate.
  - apply intensity_in_range; discriminate.
Qed.

End ArgFacts.

(** ** Rounding to [p] significant bits *)

Module DoubleFacts.
Import Double.
Local Open Scope Q_scope.

Lemma two_nonzero : ~ 2 == 0.
Proof. discriminate. Qed.

Lemma pow2_pos (z : Z) : 0 < 2 ^ z.
Proof. apply Qpower_0_lt. reflexivity. Qed.

Lemma pow2_add (a b : Z) : 2 ^ (a + b) == 2 ^ a * 2 ^ b.
Proof. apply Qpower_plus, two_nonzero. Qed.

Lemma pow2_Z (n : Z) : (0 <= n)%Z -> inject_Z (2 ^ n) == 2 ^ n.
Proof. intros Hn. now rewrite Zpower_Qpower. Qed.

Lemma pow2_le (a b : Z) : (a <= b)%Z -> 2 ^ a <= 2 ^ b.
Proof. intros H. apply Qpower_le_compat_l; [exact H | discriminate]. Qed.

Lemma pow2_lt (a b : Z) : (a < b)%Z -> 2 ^ a < 2 ^ b.
Proof. intros H. apply Qpower_lt_compat_l; [exact H | reflexivity]. Qed.

(** The nearest integer lies between the integers around [q]. *)
Lemma nearest_even_ge (q : Q) (k : Z) : inject_Z k <= q -> (k <= nearest_even q)%Z.
Proof.
  intros H. assert (Hf : (k <= Qfloor q)%Z).
  { rewrite <- (Qfloor_Z k). now apply Qfloor_resp_le. }
  unfold nearest_even.
  destruct (Qcompare (q - inject_Z (Qfloor q)) (1 # 2)); [destruct (Z.even _)| |]; lia.
Qed.

Lemma nearest_even_le (q : Q) (k : Z) : q <= inject_Z k -> (nearest_even q <= k)%Z.
Proof.
  intros H. unfold nearest_even.
  pose proof (Qfloor_le q) as Hf.
  assert (Hfk : (Qfloor q <= k)%Z).
  { rewrite Zle_Qle. eapply Qle_trans; eauto. }
  destruct (Z.eq_dec (Qfloor q) k) as [E|E].
  - assert (Eq : q - inject_Z (Qfloor q) == 0).
    { rewrite E. rewrite E in Hf. Lqa.lra. }
    assert (Hc : Qcompare (q - inject_Z (Qfloor q)) (1 # 2) = Lt).
    { rewrite <- Qlt_alt. rewrite Eq. reflexivity. }
    rewrite Hc. lia.
  - destruct (Qcompare (q - inject_Z (Qfloor q)) (1 # 2)); [destruct (Z.even _)| |]; lia.
Qed.

Lemma exponent_spec (x : Q) :
  0 < x -> 2 ^ exponent x <= x /\ x < 2 ^ (exponent x + 1).
Proof.
  intros Hx. destruct x as [n d]. unfold exponent. cbn [Qnum Qden].
  assert (Hn : (0 < n)%Z).
  { unfold Qlt in Hx. cbn in Hx. lia. }
  set (a := Z.log2 n). set (b := Z.log2 (Zpos d)).
  destruct (Z.log2_spec n Hn) as [A1 A2]. fold a in A1, A2.
  destruct (Z.log2_spec (Zpos d) ltac:(lia)) as [B1 B2]. fold b in B1, B2.
  assert (Ha : (0 <= a)%Z) by apply Z.log2_nonneg.
  assert (Hb : (0 <= b)%Z) by apply Z.log2_nonneg.
  assert (Ex : n # d == inject_Z n / inject_Z (Zpos d)) by apply Qmake_Qdiv.
  assert (Dp : 0 < inject_Z (Zpos d)) by reflexivity.
  assert (QA1 : 2 ^ a <= inject_Z n) by (rewrite <- pow2_Z by lia; now rewrite <- Zle_Qle).
  assert (QA2 : inject_Z n < 2 ^ (a + 1)) by (rewrite <- pow2_Z by lia; now rewrite <- Zlt_Qlt).
  assert (QB1 : 2 ^ b <= inject_Z (Zpos d)) by (rewrite <- pow2_Z by lia; now rewrite <- Zle_Qle).
  assert (QB2 : inject_Z (Zpos d) < 2 ^ (b + 1)) by (rewrite <- pow2_Z by lia; now rewrite <- Zlt_Qlt).
  assert (Up : n # d < 2 ^ (a - b + 1)).
  { rewrite Ex. apply Qlt_shift_div_r; [exact Dp|].
    eapply Qlt_le_trans; [exact QA2|].
    replace (a + 1)%Z with ((a - b + 1) + b)%Z by lia. rewrite pow2_add.
    apply Qmult_le_l; [apply pow2_pos | exact QB1]. }
  assert (Lo : 2 ^ (a - b - 1) <= n # d).
  { rewrite Ex. apply Qle_shift_div_l; [exact Dp|].
    eapply Qle_trans; [|exact QA1].
    replace a with ((a - b - 1) + (b + 1))%Z at 2 by lia. rewrite pow2_add.
    apply Qmult_le_l; [apply pow2_pos | now apply Qlt_le_weak]. }
  destruct (Qle_bool (2 ^ (a - b)) (n # d)) eqn:E.
  - apply Qle_bool_iff in E. split; [exact E | exact Up].
  - assert (Hlt : n # d < 2 ^ (a - b)).
    { apply Qnot_le_lt. rewrite <- Qle_bool_iff. congruence. }
    split; [exact Lo|]. now replace (a - b - 1 + 1)%Z with (a - b)%Z by lia.
Qed.

Lemma round_pos_nonneg (p : Z) (x : Q) : 0 < x -> 0 <= round_pos p x.
Proof.
  intros Hx. unfold round_pos. rewrite Qred_correct.
  apply Qmult_le_0_compat; [|apply Qlt_le_weak, pow2_pos].
  change 0 with (inject_Z 0). rewrite <- Zle_Qle.
  apply nearest_even_ge. change (inject_Z 0) with 0.
  apply Qmult_le_0_compat; [now apply Qlt_le_weak | apply Qlt_le_weak, pow2_pos].
Qed.

(** Rounding keeps the sign. *)
Lemma round_nonneg (p : Z) (x : Q) : 0 <= x -> 0 <= round p x.
Proof.
  intros Hx. unfold round. destruct (Qcompare x 0) eqn:E.
  - apply Qle_refl.
  - rewrite <- Qlt_alt in E. Lqa.lra.
  - rewrite <- Qgt_alt in E. now apply round_pos_nonneg.
Qed.

Lemma round_nonpos (p : Z) (x : Q) : x <= 0 -> round p x <= 0.
Proof.
  intros Hx. unfold round. destruct (Qcompare x 0) eqn:E.
  - apply Qle_refl.
  - rewrite <- Qlt_alt in E.
    pose proof (round_pos_nonneg p (- x) ltac:(Lqa.lra)). Lqa.lra.
  - rewrite <- Qgt_alt in E. Lqa.lra.
Qed.

(** Rounding does not cross a number [k * 2^j] of at most [p] bits:
    what is at most such a number is rounded to at most that number. *)
Lemma round_le_bound (p : Z) (x : Q) (k j : Z) :
  (0 <= k < 2 ^ p)%Z -> (0 < p)%Z ->
  x <= inject_Z k * 2 ^ j -> round p x <= inject_Z k * 2 ^ j.
Proof.
  intros Hk Hp Hx.
  assert (Hb : 0 <= inject_Z k * 2 ^ j).
  { apply Qmult_le_0_compat; [|apply Qlt_le_weak, pow2_pos].
    change 0 with (inject_Z 0). rewrite <- Zle_Qle. lia. }
  unfold round. destruct (Qcompare x 0) eqn:E.
  - exact Hb.
  - rewrite <- Qlt_alt in E.
    pose proof (round_pos_nonneg p (- x) ltac:(Lqa.lra)). Lqa.lra.
  - rewrite <- Qgt_alt in E. unfold round_pos. rewrite Qred_correct.
    destruct (exponent_spec x E) as [E1 E2]. set (e := exponent x) in *.
    destruct (Z_lt_le_dec (j + p - 1 - e) 0) as [Hj|Hj].
    + (* the bound is below the binade of [x] *)
      exfalso.
      assert (Hlt : inject_Z k * 2 ^ j < 2 ^ e).
      { apply Qlt_le_trans with (2 ^ p * 2 ^ j).
        - apply Qmult_lt_r; [apply pow2_pos|].
          rewrite <- pow2_Z by lia. rewrite <- Zlt_Qlt. lia.
        - rewrite <- pow2_add. apply pow2_le. lia. }
      Lqa.lra.
    + (* the bound is a multiple of the unit of the binade *)
      assert (Es : inject_Z k * 2 ^ j ==
                   inject_Z (k * 2 ^ (j + p - 1 - e)) * 2 ^ (e - p + 1)).
      { rewrite inject_Z_mult, pow2_Z by lia. rewrite <- Qmult_assoc, <- pow2_add.
        now replace (j + p - 1 - e + (e - p + 1))%Z with j by lia. }
      rewrite Es. apply Qmult_le_r; [apply pow2_pos|].
      rewrite <- Zle_Qle. apply nearest_even_le.
      apply Qmult_le_r with (z := 2 ^ (e - p + 1)); [apply pow2_pos|].
      rewrite <- Es, <- Qmult_assoc, <- pow2_add.
      replace (p - 1 - e + (e - p + 1))%Z with 0%Z by lia.
      change (2 ^ 0) with 1. now rewrite Qmult_1_r.
Qed.

(** What is at least a number [k * 2^j] of at most [p] bits is rounded to
    at least that number. *)
Lemma round_ge_bound (p : Z) (x : Q) (k j : Z) :
  (0 <= k < 2 ^ p)%Z -> (0 < p)%Z ->
  inject_Z k * 2 ^ j <= x -> inject_Z k * 2 ^ j <= round p x.
Proof.
  intros Hk Hp Hx.
  assert (Hb : 0 <= inject_Z k * 2 ^ j).
  { apply Qmult_le_0_compat; [|apply Qlt_le_weak, pow2_pos].
    change 0 with (inject_Z 0). rewrite <- Zle_Qle. lia. }
  unfold round. destruct (Qcompare x 0) eqn:E.
  - apply Qeq_alt in E. Lqa.lra.
  - rewrite <- Qlt_alt in E. Lqa.lra.
  - rewrite <- Qgt_alt in E. unfold round_pos. rewrite Qred_correct.
    destruct (exponent_spec x E) as [E1 E2]. set (e := exponent x) in *.
    assert (Hm : inject_Z (2 ^ (p - 1)) <= x * 2 ^ (p - 1 - e)).
    { rewrite pow2_Z by lia. replace (p - 1)%Z with (e + (p - 1 - e))%Z at 1 by lia.
      rewrite pow2_add. apply Qmult_le_r; [apply pow2_pos | exact E1]. }
    destruct (Z_lt_le_dec (j + p - 1 - e) 0) as [Hj|Hj].
    + (* the bound is below the binade of [x] *)
      apply Qle_trans with (2 ^ e).
      * apply Qle_trans with (2 ^ p * 2 ^ j).
        -- apply Qmult_le_r; [apply pow2_pos|].
           rewrite <- pow2_Z by lia. rewrite <- Zle_Qle. lia.
        -- rewrite <- pow2_add. apply pow2_le. lia.
      * apply Qle_trans with (inject_Z (2 ^ (p - 1)) * 2 ^ (e - p + 1)).
        -- rewrite pow2_Z by lia. rewrite <- pow2_add.
           replace (p - 1 + (e - p + 1))%Z with e by lia. apply Qle_refl.
        -- apply Qmult_le_r; [apply pow2_pos|].
           rewrite <- Zle_Qle. now apply nearest_even_ge.
    + assert (Es : inject_Z k * 2 ^ j ==
                   inject_Z (k * 2 ^ (j + p - 1 - e)) * 2 ^ (e - p + 1)).
      { rewrite inject_Z_mult, pow2_Z by lia. rewrite <- Qmult_assoc, <- pow2_add.
        now replace (j + p - 1 - e + (e - p + 1))%Z with j by lia. }
      rewrite Es. apply Qmult_le_r; [apply pow2_pos|].
      rewrite <- Zle_Qle. apply nearest_even_ge.
      apply Qmult_le_r with (z := 2 ^ (e - p + 1)); [apply pow2_pos|].
      rewrite <- Es, <- Qmult_assoc, <- pow2_add.
      replace (p - 1 - e + (e - p + 1))%Z with 0%Z by lia.
      change (2 ^ 0) with 1. now rewrite Qmult_1_r.
Qed.

End DoubleFacts.

(** ** Rounding: representable numbers and the relative error *)

Module RoundingFacts.
Import Double DoubleFacts.
Local Open Scope Q_scope.

(** The nearest integer is within a half of [q]. *)
Lemma nearest_even_near (q : Q) :
  q - (1 # 2) <= inject_Z (nearest_even q) /\ inject_Z (nearest_even q) <= q + (1 # 2).
Proof.
  unfold nearest_even.
  pose proof (Qfloor_le q) as H1. pose proof (Qlt_floor q) as H2.
  rewrite inject_Z_plus in H2. change (inject_Z 1) with 1 in H2.
  destruct (Qcompare (q - inject_Z (Qfloor q)) (1 # 2)) eqn:E.
  - apply Qeq_alt in E.
    destruct (Z.even (Qfloor q)); [|rewrite inject_Z_plus; change (inject_Z 1) with 1];
      split; Lqa.lra.
  - rewrite <- Qlt_alt in E. split; Lqa.lra.
  - rewrite <- Qgt_alt in E. rewrite inject_Z_plus. change (inject_Z 1) with 1.
    split; Lqa.lra.
Qed.

(** A number of at most [p] significant bits. *)
Definition rep (p : Z) (v : Q) : Prop :=
  exists k j : Z, (0 <= k < 2 ^ p)%Z /\ v == inject_Z k * 2 ^ j.

Lemma rep_0 (p : Z) : (0 <= p)%Z -> rep p 0.
Proof.
  intros Hp. exists 0%Z, 0%Z. split; [|reflexivity].
  split; [lia | apply Z.pow_pos_nonneg; lia].
Qed.

Lemma rep_Z (p n : Z) : (0 <= n < 2 ^ p)%Z -> rep p (inject_Z n).
Proof.
  intros Hn. exists n, 0%Z. split; [exact Hn|]. change (2 ^ 0) with 1. now rewrite Qmult_1_r.
Qed.

Lemma rep_weaken (p p' : Z) (v : Q) : (0 <= p <= p')%Z -> rep p v -> rep p' v.
Proof.
  intros Hp (k & j & Hk & E). exists k, j. split; [|exact E].
  assert (2 ^ p <= 2 ^ p')%Z by (apply Z.pow_le_mono_r; lia). lia.
Qed.

Lemma rep_eq (p : Z) (v v' : Q) : v == v' -> rep p v -> rep p v'.
Proof. intros E (k & j & Hk & Ev). exists k, j. split; [exact Hk|]. now rewrite <- E. Qed.

(** The significand of the rounding of [x > 0]. *)
Lemma round_pos_shape (p : Z) (x : Q) :
  (0 < p)%Z -> 0 < x ->
  exists k : Z,
    (2 ^ (p - 1) <= k <= 2 ^ p)%Z /\
    round_pos p x == inject_Z k * 2 ^ (exponent x - p + 1) /\
    x * 2 ^ (p - 1 - exponent x) - (1 # 2) <= inject_Z k /\
    inject_Z k <= x * 2 ^ (p - 1 - exponent x) + (1 # 2).
Proof.
  intros Hp Hx. destruct (exponent_spec x Hx) as [E1 E2].
  set (e := exponent x) in *. set (m := x * 2 ^ (p - 1 - e)).
  exists (nearest_even m).
  assert (Hm1 : inject_Z (2 ^ (p - 1)) <= m).
  { unfold m. rewrite pow2_Z by lia.
    replace (p - 1)%Z with (e + (p - 1 - e))%Z at 1 by lia.
    rewrite pow2_add. apply Qmult_le_r; [apply pow2_pos | exact E1]. }
  assert (Hm2 : m <= inject_Z (2 ^ p)).
  { unfold m. rewrite pow2_Z by lia.
    replace p with ((e + 1) + (p - 1 - e))%Z at 2 by lia.
    rewrite pow2_add. apply Qmult_le_r; [apply pow2_pos | now apply Qlt_le_weak]. }
  split; [split; [now apply nearest_even_ge | now apply nearest_even_le]|].
  split; [unfold round_pos; now rewrite Qred_correct|].
  apply nearest_even_near.
Qed.

Lemma round_rep (p : Z) (x : Q) : (0 < p)%Z -> 0 <= x -> rep p (round p x).
Proof.
  intros Hp Hx. unfold round. destruct (Qcompare x 0) eqn:E.
  - apply rep_0. lia.
  - rewrite <- Qlt_alt in E. Lqa.lra.
  - rewrite <- Qgt_alt in E.
    destruct (round_pos_shape p x Hp E) as (k & Hk & Ek & _).
    destruct (Z.eq_dec k (2 ^ p)%Z) as [->|Hne].
    + exists (2 ^ (p - 1))%Z, (exponent x - p + 2)%Z. split.
      * split; [apply Z.pow_nonneg; lia | apply Z.pow_lt_mono_r; lia].
      * rewrite Ek, !pow2_Z by lia. rewrite <- !pow2_add.
        now replace (p + (exponent x - p + 1))%Z
          with (p - 1 + (exponent x - p + 2))%Z by lia.
    + exists k, (exponent x - p + 1)%Z. split; [|exact Ek].
      assert (0 < 2 ^ (p - 1))%Z by (apply Z.pow_pos_nonneg; lia). lia.
Qed.

(** A number of at most [p] bits is its own rounding. *)
Lemma round_id (p : Z) (v : Q) : (0 < p)%Z -> rep p v -> round p v == v.
Proof.
  intros Hp (k & j & Hk & E). apply Qle_antisym.
  - rewrite E at 2. apply round_le_bound; [exact Hk | exact Hp | rewrite E; apply Qle_refl].
  - rewrite E at 1. apply round_ge_bound; [exact Hk | exact Hp | rewrite E; apply Qle_refl].
Qed.

(** The relative error of a rounding is at most [2^-p]. *)
Lemma round_error (p : Z) (x : Q) :
  (0 < p)%Z -> 0 <= x ->
  x * (1 - 2 ^ (- p)) <= round p x /\ round p x <= x * (1 + 2 ^ (- p)).
Proof.
  intros Hp Hx. unfold round. destruct (Qcompare x 0) eqn:E.
  - apply Qeq_alt in E. rewrite E. split; Lqa.lra.
  - rewrite <- Qlt_alt in E. Lqa.lra.
  - rewrite <- Qgt_alt in E.
    destruct (round_pos_shape p x Hp E) as (k & _ & Ek & K1 & K2).
    destruct (exponent_spec x E) as [E1 _].
    set (e := exponent x) in *. rewrite Ek.
    set (u := 2 ^ (e - p + 1)).
    assert (Hu : 0 < u) by apply pow2_pos.
    assert (Ex : x * 2 ^ (p - 1 - e) * u == x).
    { unfold u. rewrite <- Qmult_assoc, <- pow2_add.
      replace (p - 1 - e + (e - p + 1))%Z with 0%Z by lia.
      change (2 ^ 0) with 1. apply Qmult_1_r. }
    assert (Eh : (1 # 2) * u == 2 ^ e * 2 ^ (- p)).
    { unfold u. replace (e - p + 1)%Z with (1 + (e + - p))%Z by lia.
      rewrite !pow2_add. change (2 ^ 1) with 2. ring. }
    assert (Hh : (1 # 2) * u <= x * 2 ^ (- p)).
    { rewrite Eh. apply Qmult_le_r; [apply pow2_pos | exact E1]. }
    set (M := x * 2 ^ (p - 1 - e)) in *.
    assert (L : (M - (1 # 2)) * u <= inject_Z k * u)
      by (apply Qmult_le_r; [exact Hu | exact K1]).
    assert (U : inject_Z k * u <= (M + (1 # 2)) * u)
      by (apply Qmult_le_r; [exact Hu | exact K2]).
    assert (EL : (M - (1 # 2)) * u == M * u - (1 # 2) * u) by ring.
    assert (EU : (M + (1 # 2)) * u == M * u + (1 # 2) * u) by ring.
    rewrite EL in L. rewrite EU in U. rewrite Ex in L, U.
    split; Lqa.lra.
Qed.

End RoundingFacts.

(** ** Masks as lists *)

Module MaskFacts.
Import Raster.

Lemma bit_true_lt (m : list bool) (i : nat) : bit m i = true -> i < length m.
Proof.
  unfold bit. destruct (m !! i) eqn:E; [|discriminate].
  intros _. eapply lookup_lt_Some; eauto.
Qed.

Lemma bit_insert_eq (m : list bool) (i : nat) (b : bool) :
  i < length m -> bit (<[i := b]> m) i = b.
Proof. intros H. unfold bit. now rewrite list_lookup_insert_eq. Qed.

Lemma bit_insert_ne (m : list bool) (i j : nat) (b : bool) :
  i <> j -> bit (<[i := b]> m) j = bit m j.
Proof. intros H. unfold bit. now rewrite list_lookup_insert_ne. Qed.

Lemma bit_insert_true (m : list bool) (i j : nat) :
  bit m j = true -> bit (<[i := true]> m) j = true.
Proof.
  intros H. destruct (decide (i = j)) as [->|Hne].
  - apply bit_insert_eq. now apply bit_true_lt.
  - now rewrite bit_insert_ne.
Qed.

Lemma bit_replicate_false (n i : nat) : bit (replicate n false) i = false.
Proof.
  unfold bit. destruct (replicate n false !! i) eqn:E; [|reflexivity].
  apply lookup_replicate in E. now destruct E.
Qed.

Lemma bit_ge (m : list bool) (i : nat) : length m <= i -> bit m i = false.
Proof. intros H. unfold bit. now rewrite lookup_ge_None_2. Qed.

(** Two masks of the same length with the same bits are the same mask. *)
Lemma mask_ext (m1 m2 : list bool) :
  length m1 = length m2 -> (forall i, bit m1 i = bit m2 i) -> m1 = m2.
Proof.
  intros Hlen Hbit. apply list_eq. intros i.
  specialize (Hbit i). unfold bit in Hbit.
  destruct (m1 !! i) eqn:E1, (m2 !! i) eqn:E2; try congruence.
  - apply lookup_lt_Some in E1. apply lookup_ge_None in E2. lia.
  - apply lookup_ge_None in E1. apply lookup_lt_Some in E2. lia.
Qed.

(** The number of entries still 0. *)
Fixpoint unmarked (m : list bool) : nat :=
  match m with
  | [] => 0
  | b :: m' => (if b then 0 else 1) + unmarked m'
  end.

Lemma unmarked_replicate (n : nat) : unmarked (replicate n false) = n.
Proof. induction n; simpl; congruence. Qed.

Lemma unmarked_insert (m : list bool) (i : nat) :
  bit m i = false -> i < length m ->
  S (unmarked (<[i := true]> m)) = unmarked m.
Proof.
  revert i. induction m as [|b m IH]; intros i Hb Hi; simpl in *; [lia|].
  destruct i as [|i]; simpl.
  - unfold bit in Hb. simpl in Hb. now subst b.
  - rewrite <- (IH i); [lia | exact Hb | lia].
Qed.

End MaskFacts.

(** ** The border flood fill computes a reachability set *)

Module FloodFacts.
Import Loops Raster Cutout MaskFacts LoopFacts.

(** What a worklist discipline has to do: report an empty list as empty,
    and otherwise hand out one of the elements and keep the others. *)
Definition take_ok (take : list nat -> option (list nat * nat)) : Prop :=
  forall l, match take l with
            | None => l = []
            | Some (r, x) => Permutation l (x :: r)
            end.

Lemma pop_spec (l : list nat) :
  match pop l with
  | None => l = []
  | Some (r, x) => l = r ++ [x]
  end.
Proof.
  induction l as [|a l IH]; simpl; [reflexivity|].
  destruct (pop l) as [[r y]|]; subst; reflexivity.
Qed.

Lemma pop_ok : take_ok pop.
Proof.
  intros l. pose proof (pop_spec l) as Hs.
  destruct (pop l) as [[r x]|]; [|exact Hs].
  subst l. symmetry. apply Permutation_cons_append.
Qed.

Lemma shift_ok : take_ok shift.
Proof. intros [|x l]; simpl; [reflexivity | apply Permutation_refl]. Qed.

Section Reach.
Variables (W H : nat) (nearWhite : list bool).

(** The indices [spread] offers to [pushIf] for the index [i]. *)
Definition nbrs (i : nat) : list nat :=
  let y := i / W in
  let x := i - y * W in
  (if 0 <? x then [i - 1] else []) ++
  (if x <? W - 1 then [i + 1] else []) ++
  (if 0 <? y then [i - W] else []) ++
  (if y <? H - 1 then [i + W] else []).

Definition pushes (js : list nat) (st : flood) : flood :=
  fold_left (fun s j => pushIf nearWhite j s) js st.

Lemma spread_pushes (i : nat) (st : flood) :
  spread W H nearWhite i st = pushes (nbrs i) st.
Proof.
  unfold spread, nbrs, pushes.
  repeat match goal with
         | |- context [if ?c then _ else _] => destruct c
         end; reflexivity.
Qed.

(** The indices offered by the two seeding loops. *)
Definition is_seed (i : nat) : Prop :=
  (exists x, x < W /\ (i = x \/ i = (H - 1) * W + x)) \/
  (exists y, y < H /\ (i = y * W \/ i = y * W + (W - 1))).

(** A pixel of the image that is near-white. *)
Definition ok (i : nat) : Prop := i < W * H /\ bit nearWhite i = true.

(** Border-connected: reachable from a near-white border pixel through
    near-white 4-neighbours. *)
Inductive reach : nat -> Prop :=
| reach_seed i : is_seed i -> ok i -> reach i
| reach_step i j : reach i -> In j (nbrs i) -> ok j -> reach j.

Definition potential (st : flood) : nat := length (q st) + unmarked (bg st).

Record sound (st : flood) : Prop := {
  s_len : length (bg st) = W * H;
  s_reach : forall i, bit (bg st) i = true -> reach i;
  s_queued : forall i, In i (q st) -> bit (bg st) i = true
}.

(** Every marked index that has left the worklist (and is not exempt) has
    had its near-white neighbours marked. *)
Definition closed (X : nat -> Prop) (st : flood) : Prop :=
  forall i j, bit (bg st) i = true -> ~ In i (q st) -> ~ X i ->
              In j (nbrs i) -> ok j -> bit (bg st) j = true.

Lemma pushIf_cases (j : nat) (st : flood) :
  (pushIf nearWhite j st = st /\
   (j < length (bg st) -> bit nearWhite j = true -> bit (bg st) j = true)) \/
  (j < length (bg st) /\ bit nearWhite j = true /\ bit (bg st) j = false /\
   pushIf nearWhite j st = Flood (<[j := true]> (bg st)) (q st ++ [j])).
Proof.
  unfold pushIf.
  destruct (j <? length (bg st)) eqn:E1; simpl.
  - apply Nat.ltb_lt in E1.
    destruct (bit nearWhite j) eqn:E2; simpl.
    + destruct (bit (bg st) j) eqn:E3; simpl.
      * left. split; [reflexivity | intros _ _; reflexivity].
      * right. repeat split; assumption.
    + left. split; [reflexivity | intros _ ?; discriminate].
  - apply Nat.ltb_ge in E1. left. split; [reflexivity | intros ?; lia].
Qed.

Lemma pushIf_length j st : length (bg (pushIf nearWhite j st)) = length (bg st).
Proof.
  destruct (pushIf_cases j st) as [[-> _]|(_ & _ & _ & ->)]; simpl;
    [reflexivity | apply length_insert].
Qed.

Lemma pushIf_mono j st i :
  bit (bg st) i = true -> bit (bg (pushIf nearWhite j st)) i = true.
Proof.
  intros Hi.
  destruct (pushIf_cases j st) as [[-> _]|(_ & _ & _ & ->)]; simpl;
    [exact Hi | now apply bit_insert_true].
Qed.

Lemma pushIf_q_mono j st i :
  In i (q st) -> In i (q (pushIf nearWhite j st)).
Proof.
  intros Hi.
  destruct (pushIf_cases j st) as [[-> _]|(_ & _ & _ & ->)]; simpl;
    [exact Hi | apply in_or_app; now left].
Qed.

Lemma pushIf_new j st i :
  bit (bg (pushIf nearWhite j st)) i = true ->
  bit (bg st) i = true \/ In i (q (pushIf nearWhite j st)).
Proof.
  destruct (pushIf_cases j st) as [[-> _]|(_ & _ & _ & ->)]; simpl; intros Hi.
  - now left.
  - destruct (decide (j = i)) as [->|Hne].
    + right. apply in_or_app. right. now left.
    + left. now rewrite bit_insert_ne in Hi.
Qed.

Lemma pushIf_marks j st :
  length (bg st) = W * H -> ok j -> bit (bg (pushIf nearWhite j st)) j = true.
Proof.
  intros Hlen [Hj Hnw].
  destruct (pushIf_cases j st) as [[-> Hm]|(Hlt & _ & _ & ->)]; simpl.
  - apply Hm; [lia | exact Hnw].
  - now apply bit_insert_eq.
Qed.

Lemma pushIf_potential j st :
  potential (pushIf nearWhite j st) = potential st.
Proof.
  destruct (pushIf_cases j st) as [[-> _]|(Hlt & _ & Hb & ->)]; [reflexivity|].
  unfold potential. simpl. rewrite length_app. simpl.
  pose proof (unmarked_insert (bg st) j Hb Hlt). lia.
Qed.

Lemma pushIf_sound j st :
  sound st -> (ok j -> reach j) -> sound (pushIf nearWhite j st).
Proof.
  intros [Hlen Hr Hq] Hj.
  destruct (pushIf_cases j st) as [[-> _]|(Hlt & Hnw & Hb & ->)];
    [now constructor|].
  constructor; simpl.
  - now rewrite length_insert.
  - intros i Hi. destruct (decide (j = i)) as [<-|Hne].
    + apply Hj. split; [lia | exact Hnw].
    + rewrite bit_insert_ne in Hi by exact Hne. now apply Hr.
  - intros i Hi. apply in_app_or in Hi. destruct Hi as [Hi|[<-|[]]].
    + apply bit_insert_true. now apply Hq.
    + now apply bit_insert_eq.
Qed.

Lemma pushIf_closed X j st :
  closed X st -> closed X (pushIf nearWhite j st).
Proof.
  intros Hc.
  destruct (pushIf_cases j st) as [[-> _]|(Hlt & Hnw & Hb & ->)]; [exact Hc|].
  intros i j' Hi Hnq HX Hn Hok. simpl in *.
  destruct (decide (j = i)) as [->|Hne].
  - exfalso. apply Hnq. apply in_or_app. right. now left.
  - rewrite bit_insert_ne in Hi by exact Hne.
    apply bit_insert_true. apply (Hc i j'); auto.
    intros Hin. apply Hnq. apply in_or_app. now left.
Qed.

(** The same facts for a run of [pushIf] calls. *)

Lemma pushes_mono js : forall st i,
  bit (bg st) i = true -> bit (bg (pushes js st)) i = true.
Proof.
  induction js as [|j js IH]; intros st i Hi; simpl; [exact Hi|].
  apply IH. now apply pushIf_mono.
Qed.

Lemma pushes_q_mono js : forall st i,
  In i (q st) -> In i (q (pushes js st)).
Proof.
  induction js as [|j js IH]; intros st i Hi; simpl; [exact Hi|].
  apply IH. now apply pushIf_q_mono.
Qed.

Lemma pushes_new js : forall st i,
  bit (bg (pushes js st)) i = true ->
  bit (bg st) i = true \/ In i (q (pushes js st)).
Proof.
  induction js as [|j js IH]; intros st i Hi; simpl in *; [now left|].
  destruct (IH _ _ Hi) as [H1|H1]; [|now right].
  destruct (pushIf_new _ _ _ H1) as [H2|H2]; [now left|].
  right. now apply pushes_q_mono.
Qed.

Lemma pushes_length js : forall st,
  length (bg (pushes js st)) = length (bg st).
Proof.
  induction js as [|j js IH]; intros st; simpl; [reflexivity|].
  now rewrite IH, pushIf_length.
Qed.

Lemma pushes_marks js : forall st j,
  length (bg st) = W * H -> In j js -> ok j ->
  bit (bg (pushes js st)) j = true.
Proof.
  induction js as [|a js IH]; intros st j Hlen Hin Hok; simpl in *; [easy|].
  destruct Hin as [->|Hin].
  - apply pushes_mono. now apply pushIf_marks.
  - apply IH; [now rewrite pushIf_length | exact Hin | exact Hok].
Qed.

Lemma pushes_potential js : forall st,
  potential (pushes js st) = potential st.
Proof.
  induction js as [|j js IH]; intros st; simpl; [reflexivity|].
  now rewrite IH, pushIf_potential.
Qed.

Lemma pushes_sound js : forall st,
  sound st -> (forall j, In j js -> ok j -> reach j) -> sound (pushes js st).
Proof.
  induction js as [|j js IH]; intros st Hs Hj; simpl; [exact Hs|].
  apply IH.
  - apply pushIf_sound; [exact Hs | apply Hj; now left].
  - intros j' Hin. apply Hj. now right.
Qed.

Lemma pushes_closed X js : forall st,
  closed X st -> closed X (pushes js st).
Proof.
  induction js as [|j js IH]; intros st Hc; simpl; [exact Hc|].
  apply IH. now apply pushIf_closed.
Qed.

(** One iteration of the [while] loop. *)
Lemma spread_step (st : flood) (i : nat) (q' : list nat) :
  sound st -> closed (fun _ => False) st ->
  Permutation (q st) (i :: q') ->
  let st' := spread W H nearWhite i (Flood (bg st) q') in
  sound st' /\ closed (fun _ => False) st' /\ S (potential st') = potential st.
Proof.
  intros Hs Hc Hperm st'. subst st'. rewrite spread_pushes.
  destruct Hs as [Hlen Hr Hq].
  assert (Hi : bit (bg st) i = true).
  { apply Hq. eapply Permutation_in; [symmetry; exact Hperm | now left]. }
  assert (Hs0 : sound (Flood (bg st) q')).
  { constructor; simpl; auto.
    intros k Hk. apply Hq.
    eapply Permutation_in; [symmetry; exact Hperm | now right]. }
  assert (Hc0 : closed (fun k => k = i) (Flood (bg st) q')).
  { intros k j Hk Hnq HX Hn Hok. simpl in *.
    apply (Hc k j); auto.
    intros Hin. apply (Permutation_in _ Hperm) in Hin.
    destruct Hin as [<-|Hin]; [now apply HX | now apply Hnq]. }
  split; [|split].
  - apply pushes_sound; [exact Hs0|].
    intros j Hj Hok. apply (reach_step i); auto.
  - pose proof (pushes_closed _ (nbrs i) _ Hc0) as Hc1.
    intros k j Hk Hnq _ Hn Hok.
    destruct (decide (k = i)) as [->|Hne].
    + apply pushes_marks; auto.
    + apply (Hc1 k j); auto.
  - rewrite pushes_potential. unfold potential. simpl.
    apply Permutation_length in Hperm. simpl in Hperm. lia.
Qed.

(** The loop ends before the bound is reached and leaves the worklist empty. *)
Lemma flood_loop_spec take (Htake : take_ok take) :
  forall fuel st,
    potential st < fuel ->
    sound st -> closed (fun _ => False) st ->
    exists st',
      flood_loop take W H nearWhite fuel st = Some st' /\
      sound st' /\ closed (fun _ => False) st' /\ q st' = [] /\
      (forall i, bit (bg st) i = true -> bit (bg st') i = true).
Proof.
  induction fuel as [|fuel IH]; intros st Hpot Hs Hc; [lia|].
  simpl. pose proof (Htake (q st)) as Ht.
  destruct (take (q st)) as [[q' i]|].
  - destruct (spread_step st i q' Hs Hc Ht) as (Hs' & Hc' & Hp').
    assert (Hlt : potential (spread W H nearWhite i (Flood (bg st) q')) < fuel) by lia.
    destruct (IH _ Hlt Hs' Hc') as (st' & Hrun & Hs'' & Hc'' & Hq'' & Hmono).
    exists st'. do 4 (split; [assumption|]).
    intros k Hk. apply Hmono. rewrite spread_pushes.
    now apply pushes_mono.
  - exists st. do 4 (split; [auto|]). auto.
Qed.

Definition seeded (st : flood) : Prop :=
  forall i, is_seed i -> ok i -> bit (bg st) i = true.

Definition start : flood := Flood (replicate (W * H) false) [].

Lemma start_sound : sound start.
Proof.
  constructor; simpl.
  - apply length_replicate.
  - intros i Hi. now rewrite bit_replicate_false in Hi.
  - intros i [].
Qed.

Lemma start_closed : closed (fun _ => False) start.
Proof. intros i j Hi. simpl in Hi. now rewrite bit_replicate_false in Hi. Qed.

Lemma seed_borders_spec :
  let st := seed_borders W H nearWhite start in
  sound st /\ closed (fun _ => False) st /\ seeded st /\ potential st = W * H.
Proof.
  unfold seed_borders.
  set (f1 := fun x s => pushIf nearWhite ((H - 1) * W + x) (pushIf nearWhite x s)).
  set (f2 := fun y s => pushIf nearWhite (y * W + (W - 1)) (pushIf nearWhite (y * W) s)).
  set (I1 := fun (k : nat) (s : flood) =>
    sound s /\ closed (fun _ => False) s /\ potential s = W * H /\
    forall x i, x < k -> (i = x \/ i = (H - 1) * W + x) -> ok i ->
                bit (bg s) i = true).
  assert (H1 : I1 W (for_up 0 W f1 start)).
  { apply for_up_inv; [lia | |].
    - split; [apply start_sound|]. split; [apply start_closed|].
      split; [|intros; lia].
      unfold potential, start. simpl. now rewrite unmarked_replicate.
    - intros k s Hk (Hs & Hc & Hp & Hm). unfold f1.
      assert (Hsd : forall i, (i = k \/ i = (H - 1) * W + k) -> is_seed i).
      { intros i Hi. left. exists k. split; [lia | exact Hi]. }
      split; [|split; [|split]].
      + apply pushIf_sound; [apply pushIf_sound; auto|];
          intros Hok; apply reach_seed; auto.
      + now do 2 apply pushIf_closed.
      + now rewrite !pushIf_potential.
      + intros x i Hx Hi Hok.
        destruct (decide (x = k)) as [->|Hne].
        * destruct Hi as [->| ->].
          -- apply pushIf_mono. apply pushIf_marks; [apply Hs | exact Hok].
          -- apply pushIf_marks; [|exact Hok].
             rewrite pushIf_length. apply Hs.
        * do 2 apply pushIf_mono. apply (Hm x i); auto. lia. }
  set (I2 := fun (k : nat) (s : flood) =>
    I1 W s /\
    forall y i, y < k -> (i = y * W \/ i = y * W + (W - 1)) -> ok i ->
                bit (bg s) i = true).
  assert (H2 : I2 H (for_up 0 H f2 (for_up 0 W f1 start))).
  { apply for_up_inv; [lia | |].
    - split; [exact H1 | intros; lia].
    - intros k s Hk ((Hs & Hc & Hp & Hm) & Hm2). unfold f2.
      assert (Hsd : forall i, (i = k * W \/ i = k * W + (W - 1)) -> is_seed i).
      { intros i Hi. right. exists k. split; [lia | exact Hi]. }
      split; [split; [|split; [|split]]|].
      + apply pushIf_sound; [apply pushIf_sound; auto|];
          intros Hok; apply reach_seed; auto.
      + now do 2 apply pushIf_closed.
      + now rewrite !pushIf_potential.
      + intros x i Hx Hi Hok. do 2 apply pushIf_mono. now apply (Hm x i).
      + intros y i Hy Hi Hok.
        destruct (decide (y = k)) as [->|Hne].
        * destruct Hi as [->| ->].
          -- apply pushIf_mono. apply pushIf_marks; [apply Hs | exact Hok].
          -- apply pushIf_marks; [|exact Hok].
             rewrite pushIf_length. apply Hs.
        * do 2 apply pushIf_mono. apply (Hm2 y i); auto. lia. }
  destruct H2 as ((Hs & Hc & Hp & Hm) & Hm2).
  do 2 (split; [assumption|]). split; [|assumption].
  intros i [(x & Hx & Hi)|(y & Hy & Hi)] Hok; eauto.
Qed.

(** The mask the flood fill returns, for any worklist discipline: it has
    one entry per pixel and marks exactly the border-connected pixels. *)
Theorem flood_fill_with_spec take (Htake : take_ok take) :
  exists m,
    flood_fill_with take W H nearWhite = Some m /\
    length m = W * H /\
    forall i, bit m i = true <-> reach i.
Proof.
  destruct seed_borders_spec as (Hs & Hc & Hsd & Hp).
  assert (Hlt : potential (seed_borders W H nearWhite start) < S (W * H)) by lia.
  destruct (flood_loop_spec take Htake (S (W * H)) _ Hlt Hs Hc)
    as (st' & Hrun & Hs' & Hc' & Hq' & Hmono).
  exists (bg st'). unfold flood_fill_with. fold start. rewrite Hrun.
  split; [reflexivity|]. split; [apply Hs'|].
  intros i. split; [apply Hs'|].
  induction 1 as [i Hseed Hok | i j Hreach IH Hn Hok].
  - apply Hmono. now apply Hsd.
  - apply (Hc' i j); auto. rewrite Hq'. intros [].
Qed.

End Reach.

(** The source's worklist (a stack) and a queue give the same mask. *)
Lemma flood_fill_order_irrelevant (W H : nat) (nearWhite : list bool) :
  exists m,
    flood_fill W H nearWhite = Some m /\
    flood_fill_fifo W H nearWhite = Some m /\
    length m = W * H /\
    forall i, bit m i = true <-> reach W H nearWhite i.
Proof.
  destruct (flood_fill_with_spec W H nearWhite pop pop_ok) as (m1 & E1 & L1 & B1).
  destruct (flood_fill_with_spec W H nearWhite shift shift_ok) as (m2 & E2 & L2 & B2).
  exists m1. split; [exact E1|]. split; [|split; [exact L1 | exact B1]].
  unfold flood_fill_fifo. rewrite E2. f_equal.
  apply mask_ext; [congruence|].
  intros i. destruct (bit m1 i) eqn:E.
  - apply B2. now apply B1.
  - destruct (bit m2 i) eqn:E'; [|reflexivity].
    apply B2 in E'. apply B1 in E'. congruence.
Qed.

End FloodFacts.

(** ** Pixel indices *)

Module IndexFacts.

Lemma index_lt (W H x y : nat) : x < W -> y < H -> y * W + x < W * H.
Proof. intros Hx Hy. nia. Qed.

Lemma index_div (W x y : nat) : x < W -> (y * W + x) / W = y.
Proof.
  intros Hx. symmetry. apply (Nat.div_unique _ _ _ x); [exact Hx | lia].
Qed.

Lemma index_col (W x y : nat) : x < W -> y * W + x - (y * W + x) / W * W = x.
Proof. intros Hx. rewrite index_div by exact Hx. lia. Qed.

Lemma index_inj (W x y x' y' : nat) :
  x < W -> x' < W -> y * W + x = y' * W + x' -> y = y' /\ x = x'.
Proof.
  intros Hx Hx' E.
  assert (Hy : y = y').
  { rewrite <- (index_div W x y Hx), <- (index_div W x' y' Hx'). now rewrite E. }
  subst y'. split; [reflexivity | lia].
Qed.

(** Every index below [W*H] is the index of a pixel [(x, y)]. *)
Lemma index_split (W H i : nat) :
  i < W * H -> exists x y, x < W /\ y < H /\ i = y * W + x.
Proof.
  intros Hi. assert (HW : W <> 0) by (intros ->; lia).
  exists (i mod W), (i / W). split; [|split].
  - now apply Nat.mod_upper_bound.
  - apply Nat.Div0.div_lt_upper_bound. lia.
  - rewrite (Nat.div_mod_eq i W) at 1. lia.
Qed.

End IndexFacts.

(** ** Facts on the stages of the border cutout *)

Module CutoutFacts.
Import Loops Raster Cutout MaskFacts LoopFacts FloodFacts IndexFacts.

(** *** Step 2 *)

Lemma mark_near_white_spec (tolerance : JS.num) (data : list pixel) (n : nat) :
  length (mark_near_white tolerance data n) = n /\
  forall i, bit (mark_near_white tolerance data n) i =
            (i <? n) && JS.geb (luminance_at data i) tolerance.
Proof.
  unfold mark_near_white.
  set (f := fun i nw => <[i := JS.geb (luminance_at data i) tolerance]> nw).
  set (I := fun (k : nat) (nw : list bool) =>
    length nw = n /\
    forall i, bit nw i = (i <? k) && (i <? n) && JS.geb (luminance_at data i) tolerance).
  assert (HI : I n (for_up 0 n f (replicate n false))).
  { apply for_up_inv; [lia | |].
    - split; [apply length_replicate|]. intros i.
      now rewrite bit_replicate_false.
    - intros k nw Hk [Hlen Hb]. unfold f. split; [now rewrite length_insert|].
      intros i. destruct (decide (k = i)) as [<-|Hne].
      + rewrite bit_insert_eq by lia.
        replace (k <? S k) with true by (symmetry; apply Nat.ltb_lt; lia).
        replace (k <? n) with true by (symmetry; apply Nat.ltb_lt; lia).
        reflexivity.
      + rewrite bit_insert_ne by exact Hne. rewrite Hb.
        replace (i <? S k) with (i <? k); [reflexivity|].
        destruct (Nat.ltb_spec i k), (Nat.ltb_spec i (S k)); try reflexivity; lia. }
  destruct HI as [Hlen Hb]. split; [exact Hlen|].
  intros i. rewrite Hb. now destruct (i <? n).
Qed.

(** *** Step 4 *)

Lemma in_offsets (r dz : Z) : In dz (offsets r) <-> (- r <= dz <= r)%Z.
Proof.
  unfold offsets. rewrite in_map_iff. split.
  - intros (k & <- & Hk). apply in_seq in Hk. lia.
  - intros Hd. exists (Z.to_nat (dz + r)). split; [lia|].
    apply in_seq. lia.
Qed.

(** The erosion keeps exactly the marked pixels whose window passes. *)
Lemma erode_spec (W H : nat) (m : list bool) (r : Z) :
  length (erode W H m r) = length m /\
  forall x y, x < W -> y < H ->
    bit (erode W H m r) (y * W + x) =
    bit m (y * W + x) && all_bg W H m r y x.
Proof.
  unfold erode.
  set (g := fun y x => bit m (y * W + x) && all_bg W H m r y x).
  set (fx := fun (y x : nat) (c' : list bool) =>
               if bit m (y * W + x) && all_bg W H m r y x
               then <[y * W + x := true]> c' else c').
  set (fy := fun (y : nat) (c : list bool) => for_up 0 W (fx y) c).
  set (done := fun (ky kx y x : nat) => (y <? ky) || ((y =? ky) && (x <? kx))).
  set (I := fun (ky kx : nat) (c : list bool) =>
    length c = length m /\
    forall x y, x < W -> y < H ->
      bit c (y * W + x) = done ky kx y x && g y x).
  assert (Hrow : forall ky c, ky < H -> I ky 0 c -> I (S ky) 0 (fy ky c)).
  { intros ky c Hky Hc. unfold fy.
    assert (HI : I ky W (for_up 0 W (fx ky) c)).
    { apply (for_up_inv (fun kx c' => I ky kx c')); [lia | exact Hc |].
      intros kx c' Hkx [Hlen Hb]. unfold fx.
      assert (Hstep : forall x y, x < W -> y < H ->
                done ky (S kx) y x =
                done ky kx y x || ((y =? ky) && (x =? kx))).
      { intros x y _ _. unfold done.
        destruct (Nat.ltb_spec y ky), (Nat.eqb_spec y ky),
          (Nat.ltb_spec x kx), (Nat.ltb_spec x (S kx)), (Nat.eqb_spec x kx);
          simpl; try reflexivity; lia. }
      assert (Hfresh : done ky kx ky kx = false).
      { unfold done. rewrite Nat.ltb_irrefl, Nat.eqb_refl, Nat.ltb_irrefl.
        reflexivity. }
      fold (g ky kx). destruct (g ky kx) eqn:Eg.
      - split; [now rewrite length_insert|].
        intros x y Hx Hy. rewrite Hstep by assumption.
        destruct (decide (ky * W + kx = y * W + x)) as [E|Hne].
        + apply index_inj in E; [|lia|lia]. destruct E as [<- <-].
          rewrite !Nat.eqb_refl, Eg, orb_true_r. simpl.
          rewrite bit_insert_eq; [reflexivity|].
          rewrite Hlen. apply (bit_true_lt m).
          unfold g in Eg. now apply andb_true_iff in Eg.
        + rewrite bit_insert_ne by exact Hne. rewrite Hb by assumption.
          destruct (Nat.eqb_spec y ky) as [->|]; simpl;
            [|now rewrite orb_false_r].
          destruct (Nat.eqb_spec x kx) as [->|]; [congruence|].
          now rewrite orb_false_r.
      - split; [exact Hlen|].
        intros x y Hx Hy. rewrite Hstep by assumption. rewrite Hb by assumption.
        destruct (Nat.eqb_spec y ky) as [->|]; simpl;
          [|now rewrite orb_false_r].
        destruct (Nat.eqb_spec x kx) as [->|]; [|now rewrite orb_false_r].
        rewrite Hfresh, Eg. reflexivity. }
    destruct HI as [Hlen Hb]. split; [exact Hlen|].
    intros x y Hx Hy. rewrite Hb by assumption. f_equal. unfold done.
    destruct (Nat.ltb_spec y ky), (Nat.eqb_spec y ky), (Nat.ltb_spec y (S ky)),
      (Nat.ltb_spec x W), (Nat.ltb_spec x 0); simpl; try reflexivity; lia. }
  assert (HI : I H 0 (for_up 0 H fy (replicate (length m) false))).
  { apply (for_up_inv (fun ky c => I ky 0 c)); [lia | |].
    - split; [apply length_replicate|]. intros x y _ _.
      rewrite bit_replicate_false. unfold done. simpl.
      now rewrite andb_false_r.
    - intros ky c Hky Hc. now apply Hrow. }
  destruct HI as [Hlen Hb]. split; [exact Hlen|].
  intros x y Hx Hy. rewrite Hb by assumption. unfold done.
  replace (y <? H) with true by (symmetry; apply Nat.ltb_lt; lia).
  reflexivity.
Qed.

(** *** Step 5 *)

(** The alpha rule of step 5 for one pixel. *)
Definition alpha_rule (m : list bool) (i : nat) (px : pixel) : pixel :=
  if bit m i then set_alpha 0 px
  else if (alpha px =? 0)%Z then set_alpha 255 px
  else px.

Lemma write_alpha_spec (m : list bool) (data : list pixel) :
  length (write_alpha m data) = length data /\
  forall i, write_alpha m data !! i =
            if i <? length m then alpha_rule m i <$> data !! i else data !! i.
Proof.
  unfold write_alpha.
  set (f := fun (i : nat) (out : list pixel) =>
    match out !! i with
    | Some px =>
        if bit m i then <[i := set_alpha 0 px]> out
        else if (alpha px =? 0)%Z then <[i := set_alpha 255 px]> out
        else out
    | None => out
    end).
  set (I := fun (k : nat) (out : list pixel) =>
    length out = length data /\
    forall i, out !! i = if i <? k then alpha_rule m i <$> data !! i else data !! i).
  assert (HI : I (length m) (for_up 0 (length m) f data)).
  { apply for_up_inv; [lia | |].
    - split; [reflexivity|]. intros i. reflexivity.
    - intros k out Hk [Hlen Hb].
      assert (Hf : f k out = match data !! k with
                             | Some px => <[k := alpha_rule m k px]> out
                             | None => out
                             end).
      { unfold f. rewrite Hb, Nat.ltb_irrefl.
        destruct (data !! k) as [px|] eqn:E; [|reflexivity].
        unfold alpha_rule. destruct (bit m k); [reflexivity|].
        destruct (alpha px =? 0)%Z; [reflexivity|].
        symmetry. apply list_insert_id. now rewrite Hb, Nat.ltb_irrefl. }
      rewrite Hf. split.
      + destruct (data !! k); [now rewrite length_insert | exact Hlen].
      + intros i. destruct (decide (k = i)) as [<-|Hne].
        * replace (k <? S k) with true by (symmetry; apply Nat.ltb_lt; lia).
          destruct (data !! k) as [px|] eqn:E; simpl.
          -- apply list_lookup_insert_eq. rewrite Hlen.
             eapply lookup_lt_Some; eauto.
          -- rewrite Hb, Nat.ltb_irrefl. exact E.
        * replace (i <? S k) with (i <? k)
            by (destruct (Nat.ltb_spec i k), (Nat.ltb_spec i (S k));
                try reflexivity; lia).
          destruct (data !! k); [|apply Hb].
          rewrite list_lookup_insert_ne by exact Hne. apply Hb. }
  exact HI.
Qed.

(** *** A uniformly near-white image *)

(** Where every pixel is near-white, every pixel is border-connected. *)
Lemma reach_all (W H : nat) (nearWhite : list bool) :
  (forall i, i < W * H -> bit nearWhite i = true) ->
  forall i, i < W * H -> reach W H nearWhite i.
Proof.
  intros Hall i Hi.
  destruct (index_split W H i Hi) as (x & y & Hx & Hy & ->).
  clear Hi. induction x as [|x IH].
  - apply reach_seed.
    + right. exists y. split; [exact Hy | left; lia].
    + split; [apply index_lt; assumption | apply Hall; apply index_lt; assumption].
  - assert (Hx' : x < W) by lia.
    apply (reach_step W H nearWhite (y * W + x)); [now apply IH | |].
    + unfold nbrs. rewrite index_col by exact Hx'.
      apply in_or_app. right. apply in_or_app. left.
      replace (x <? W - 1) with true by (symmetry; apply Nat.ltb_lt; lia).
      left. lia.
    + split; [apply index_lt; assumption | apply Hall; apply index_lt; assumption].
Qed.

(** At least [r] pixels away from each of the four edges. *)
Definition away_from_edges (W H : nat) (r : Z) (x y : nat) : bool :=
  (r <=? Z.of_nat x)%Z && (Z.of_nat x + r <? Z.of_nat W)%Z &&
  (r <=? Z.of_nat y)%Z && (Z.of_nat y + r <? Z.of_nat H)%Z.

(** On a mask that is set everywhere the window test only fails at the
    edges of the image. *)
Lemma all_bg_full (W H : nat) (m : list bool) (r : Z) (x y : nat) :
  (forall i, i < W * H -> bit m i = true) ->
  (0 <= r)%Z -> x < W -> y < H ->
  all_bg W H m r y x = away_from_edges W H r x y.
Proof.
  intros Hall Hr Hx Hy. apply eq_true_iff_eq. unfold all_bg, away_from_edges.
  rewrite forallb_forall. rewrite !andb_true_iff.
  rewrite !Z.leb_le, !Z.ltb_lt. split.
  - intros Hwin.
    assert (Hlo := Hwin (- r)%Z). assert (Hhi := Hwin r).
    rewrite in_offsets in Hlo, Hhi.
    specialize (Hlo ltac:(lia)). specialize (Hhi ltac:(lia)).
    rewrite !andb_true_iff, forallb_forall in Hlo, Hhi.
    rewrite Z.leb_le, Z.ltb_lt in Hlo, Hhi.
    destruct Hlo as [[Hlo1 _] Hlo2]. destruct Hhi as [[_ Hhi1] _].
    assert (Hxlo := Hlo2 (- r)%Z). assert (Hxhi := Hlo2 r).
    rewrite in_offsets in Hxlo, Hxhi.
    specialize (Hxlo ltac:(lia)). specialize (Hxhi ltac:(lia)).
    rewrite !andb_true_iff, Z.leb_le, Z.ltb_lt in Hxlo, Hxhi.
    lia.
  - intros Hin dy Hdy. apply in_offsets in Hdy.
    rewrite !andb_true_iff, forallb_forall, Z.leb_le, Z.ltb_lt.
    split; [lia|]. intros dx Hdx. apply in_offsets in Hdx.
    rewrite !andb_true_iff, Z.leb_le, Z.ltb_lt.
    split; [lia|]. apply Hall.
    replace (Z.to_nat ((Z.of_nat y + dy) * Z.of_nat W + (Z.of_nat x + dx)))
      with (Z.to_nat (Z.of_nat y + dy) * W + Z.to_nat (Z.of_nat x + dx)) by nia.
    apply index_lt; lia.
Qed.

Lemma tolerance_in_range (raw : JS.num) : JS.in_range 0 255 (tolerance_of raw).
Proof.
  unfold tolerance_of, JS.of_Z.
  apply (ArgFacts.clamp_in_range (inject_Z 0) (inject_Z 255)).
  - discriminate.
  - apply ArgFacts.or_else_not_nan.
Qed.

(** A pure white pixel passes the luminance test for every tolerance. *)
Lemma white_is_near_white (raw : JS.num) (px : pixel) :
  red px = 255%Z -> green px = 255%Z -> blue px = 255%Z ->
  JS.geb (luminance px) (tolerance_of raw) = true.
Proof.
  intros Hr Hg Hb.
  assert (E : luminance px = JS.Fin 255).
  { unfold luminance. rewrite Hr, Hg, Hb. vm_compute. reflexivity. }
  rewrite E. pose proof (tolerance_in_range raw) as Ht.
  destruct (tolerance_of raw) as [| |t|]; simpl in Ht; try contradiction.
  simpl. apply Qle_bool_iff. apply Ht.
Qed.

Lemma feather_of_range (raw : Z) : (0 <= feather_of raw <= 5)%Z.
Proof. unfold feather_of. lia. Qed.

(** The mask after the optional erosion, on a mask set everywhere. *)
Lemma feather_mask_full (W H : nat) (m : list bool) (r : Z) :
  length m = W * H -> (forall i, i < W * H -> bit m i = true) -> (0 <= r)%Z ->
  forall x y, x < W -> y < H ->
    bit (feather_mask W H m r) (y * W + x) = away_from_edges W H r x y.
Proof.
  intros Hlen Hall Hr x y Hx Hy. unfold feather_mask.
  destruct (Z.ltb_spec 0 r) as [Hpos|Hzero].
  - destruct (erode_spec W H m r) as [_ He]. rewrite He by assumption.
    rewrite Hall by (apply index_lt; assumption).
    now rewrite all_bg_full.
  - assert (r = 0%Z) by lia. subst r.
    rewrite Hall by (apply index_lt; assumption).
    unfold away_from_edges. symmetry.
    rewrite !andb_true_iff, !Z.leb_le, !Z.ltb_lt. lia.
Qed.

Lemma feather_mask_length (W H : nat) (m : list bool) (r : Z) :
  length (feather_mask W H m r) = length m.
Proof.
  unfold feather_mask. destruct (0 <? r)%Z; [apply erode_spec | reflexivity].
Qed.

(** The luminance of a pixel whose colour bytes are not negative is not
    negative: rounding keeps the sign. *)
Lemma luminance_nonneg (px : pixel) :
  (0 <= red px)%Z -> (0 <= green px)%Z -> (0 <= blue px)%Z ->
  JS.geb (luminance px) (JS.of_Z 0) = true.
Proof.
  intros Hr Hg Hb.
  assert (Hc : forall c z, (0 <= c)%Q -> (0 <= z)%Z ->
             (0 <= Double.binary64 (Double.binary64 c * inject_Z z))%Q).
  { intros c z Hc0 Hz. apply DoubleFacts.round_nonneg.
    apply Qmult_le_0_compat; [now apply DoubleFacts.round_nonneg|].
    change 0%Q with (inject_Z 0). now rewrite <- Zle_Qle. }
  unfold luminance, Double.add, Double.mul, Double.lit, Double.rnd, JS.of_Z,
    JS.mul, JS.add, JS.geb, JS.leb.
  apply Qle_bool_iff. change (inject_Z 0) with 0%Q.
  pose proof (Hc 0.299%Q (red px) ltac:(discriminate) Hr) as H1.
  pose proof (Hc 0.587%Q (green px) ltac:(discriminate) Hg) as H2.
  pose proof (Hc 0.114%Q (blue px) ltac:(discriminate) Hb) as H3.
  apply DoubleFacts.round_nonneg.
  assert (H12 : (0 <= Double.binary64
                   (Double.binary64 (Double.binary64 0.299 * inject_Z (red px))
                    + Double.binary64 (Double.binary64 0.587 * inject_Z (green px))))%Q).
  { apply DoubleFacts.round_nonneg. Lqa.lra. }
  Lqa.lra.
Qed.

(** A negative tolerance is clamped to the threshold 0. *)
Lemma negative_tolerance (raw : JS.num) :
  JS.ltb raw (JS.of_Z 0) = true -> tolerance_of raw = JS.of_Z 0.
Proof.
  intros Hneg. destruct raw as [| |q|]; try discriminate.
  - reflexivity.
  - unfold JS.ltb, JS.of_Z in Hneg. apply negb_true_iff in Hneg.
    assert (Hq : (q < 0)%Q).
    { apply Qnot_le_lt. rewrite <- Qle_bool_iff. change (inject_Z 0) with 0%Q in Hneg.
      congruence. }
    unfold tolerance_of, JS.or_else, JS.truthy.
    assert (E0 : Qeq_bool q 0 = false).
    { destruct (Qeq_bool q 0) eqn:E; [|reflexivity].
      apply Qeq_bool_iff in E. rewrite E in Hq. now apply Qlt_irrefl in Hq. }
    rewrite E0. simpl negb. cbv iota.
    unfold JS.Math_min, JS.Math_max, JS.is_nan, JS.of_Z, JS.ltb. simpl orb. cbv iota.
    assert (E1 : Qle_bool (inject_Z 255) q = false).
    { destruct (Qle_bool (inject_Z 255) q) eqn:E; [|reflexivity].
      apply Qle_bool_iff in E. unfold inject_Z in E. Lqa.lra. }
    rewrite E1. simpl negb. cbv iota.
    assert (E2 : Qle_bool q (inject_Z 0) = true).
    { apply Qle_bool_iff. unfold inject_Z. Lqa.lra. }
    rewrite E2. reflexivity.
Qed.

End CutoutFacts.

(** ** Properties of the border cutout *)

Module CutoutProps.
Import Loops Raster Cutout MaskFacts FloodFacts IndexFacts CutoutFacts.

Definition white : pixel := Pixel 255 255 255 255.

(** C7. The background mask does not depend on the worklist discipline:
    for every image and tolerance the flood fill terminates, and taking the
    last pushed index (the stack of the source) or the first (a queue)
    yields the same mask. *)
Theorem C7_worklist_order_irrelevant
        (W H : nat) (tolerance : JS.num) (data : list pixel) :
  exists m,
    flood_fill W H (mark_near_white (tolerance_of tolerance) data (W * H)) = Some m /\
    flood_fill_fifo W H (mark_near_white (tolerance_of tolerance) data (W * H)) = Some m.
Proof.
  destruct (flood_fill_order_irrelevant W H
              (mark_near_white (tolerance_of tolerance) data (W * H)))
    as (m & E1 & E2 & _).
  exists m. split; assumption.
Qed.

(** C3, as stated, fails: called with tolerance 0 on a white 5 x 5 image
    (default feather) every pixel qualifies as near-white and the
    background mask is not empty: it holds the centre pixel. *)
Lemma C3_counterexample :
  mark_near_white (tolerance_of (JS.of_Z 0)) (replicate 25 white) 25
    = replicate 25 true /\
  exists m, segment_mask 5 5 (JS.of_Z 0) 2 (replicate 25 white) = Some m /\
            bit m 12 = true.
Proof.
  split; [vm_compute; reflexivity|].
  eexists. split; [vm_compute; reflexivity | reflexivity].
Qed.

(** C3, amended. With the threshold 0, which a negative tolerance is
    clamped to, every pixel qualifies as near-white (the test is
    [luminance >= tolerance]), the border flood marks every pixel as
    background, and the stage completes with a result, for every
    whole-number feather. *)
Theorem C3_threshold_zero_marks_all
        (W H : nat) (raw : JS.num) (feather : Z) (data : list pixel) :
  JS.ltb raw (JS.of_Z 0) = true ->
  length data = W * H ->
  Forall (fun px => 0 <= red px /\ 0 <= green px /\ 0 <= blue px)%Z data ->
  tolerance_of raw = JS.of_Z 0 /\
  (forall i, i < W * H ->
     bit (mark_near_white (tolerance_of raw) data (W * H)) i = true) /\
  (exists m,
     flood_fill W H (mark_near_white (tolerance_of raw) data (W * H)) = Some m /\
     length m = W * H /\ forall i, i < W * H -> bit m i = true) /\
  is_Some (segment W H raw feather data).
Proof.
  intros Hneg Hlen Hbytes.
  pose proof (negative_tolerance raw Hneg) as Et.
  set (nw := mark_near_white (tolerance_of raw) data (W * H)).
  assert (Hnw : forall i, i < W * H -> bit nw i = true).
  { intros i Hi. unfold nw.
    destruct (mark_near_white_spec (tolerance_of raw) data (W * H)) as [_ Hb].
    rewrite Hb, Et. apply andb_true_iff. split; [now apply Nat.ltb_lt|].
    unfold luminance_at. destruct (data !! i) as [px|] eqn:E.
    - rewrite Forall_forall in Hbytes.
      destruct (Hbytes px) as (Hr & Hg & Hb'); [eapply list_elem_of_lookup_2; eauto|].
      now apply luminance_nonneg.
    - apply lookup_ge_None in E. lia. }
  destruct (flood_fill_order_irrelevant W H nw) as (m & E & _ & Hml & Hm).
  split; [exact Et|]. split; [exact Hnw|]. split.
  - exists m. split; [exact E|]. split; [exact Hml|].
    intros i Hi. apply Hm. now apply reach_all.
  - unfold segment, segment_mask. fold nw. rewrite E. simpl. eauto.
Qed.

Lemma C3_threshold_zero_marks_all_witness :
  tolerance_of (JS.of_Z (-1)) = JS.of_Z 0 /\
  (forall i, i < 2 * 2 ->
     bit (mark_near_white (tolerance_of (JS.of_Z (-1)))
            [Pixel 0 0 0 255; white; Pixel 10 20 30 128; white] (2 * 2)) i = true) /\
  (exists m,
     flood_fill 2 2 (mark_near_white (tolerance_of (JS.of_Z (-1)))
                       [Pixel 0 0 0 255; white; Pixel 10 20 30 128; white] (2 * 2)) = Some m /\
     length m = 2 * 2 /\ forall i, i < 2 * 2 -> bit m i = true) /\
  is_Some (segment 2 2 (JS.of_Z (-1)) 2 [Pixel 0 0 0 255; white; Pixel 10 20 30 128; white]).
Proof.
  apply (C3_threshold_zero_marks_all 2 2 (JS.of_Z (-1)) 2
           [Pixel 0 0 0 255; white; Pixel 10 20 30 128; white]).
  - reflexivity.
  - reflexivity.
  - repeat constructor; simpl; lia.
Defined.

(** C4, as stated, fails: a white opaque 3 x 3 image comes out of the
    segmentation (tolerance 220, feather 2) with alpha 255 everywhere. *)
Lemma C4_counterexample :
  segment 3 3 (JS.of_Z 220) 2 (replicate 9 white) = Some (replicate 9 white).
Proof. vm_compute. reflexivity. Qed.

(** C4, amended. On a pure white image, for every tolerance and every
    whole-number feather argument, the flood fill marks every pixel as
    background; after the erosion by the effective feather (the argument
    clamped to 0..5, 2 when it is 0) the output alpha is 0 exactly at the
    pixels at least that far from each of the four edges, and a pixel
    nearer to an edge keeps its alpha (255 if it was 0). *)
Theorem C4_uniform_white
        (W H : nat) (tolerance : JS.num) (feather : Z) (data : list pixel) :
  length data = W * H ->
  Forall (fun px => red px = 255 /\ green px = 255 /\ blue px = 255)%Z data ->
  exists m out,
    flood_fill W H (mark_near_white (tolerance_of tolerance) data (W * H)) = Some m /\
    (forall i, i < W * H -> bit m i = true) /\
    segment W H tolerance feather data = Some out /\
    forall x y px, x < W -> y < H -> data !! (y * W + x) = Some px ->
      out !! (y * W + x) =
      Some (if away_from_edges W H (feather_of feather) x y then set_alpha 0 px
            else if (alpha px =? 0)%Z then set_alpha 255 px
            else px).
Proof.
  intros Hlen Hwhite.
  set (nw := mark_near_white (tolerance_of tolerance) data (W * H)).
  assert (Hnw : forall i, i < W * H -> bit nw i = true).
  { intros i Hi. unfold nw.
    destruct (mark_near_white_spec (tolerance_of tolerance) data (W * H)) as [_ Hb].
    rewrite Hb. apply andb_true_iff. split; [now apply Nat.ltb_lt|].
    unfold luminance_at.
    destruct (data !! i) as [px|] eqn:E.
    - rewrite Forall_forall in Hwhite.
      destruct (Hwhite px) as (Hr & Hg & Hb').
      { eapply list_elem_of_lookup_2; eauto. }
      now apply white_is_near_white.
    - apply lookup_ge_None in E. lia. }
  destruct (flood_fill_order_irrelevant W H nw) as (m & E & _ & Hml & Hm).
  assert (Hall : forall i, i < W * H -> bit m i = true).
  { intros i Hi. apply Hm. now apply reach_all. }
  exists m, (write_alpha (feather_mask W H m (feather_of feather)) data).
  split; [exact E|]. split; [exact Hall|]. split.
  - unfold segment, segment_mask. fold nw. rewrite E. reflexivity.
  - intros x y px Hx Hy Hpx.
    destruct (write_alpha_spec (feather_mask W H m (feather_of feather)) data)
      as [_ Hw].
    rewrite Hw, feather_mask_length, Hml.
    replace (y * W + x <? W * H) with true
      by (symmetry; apply Nat.ltb_lt; now apply index_lt).
    rewrite Hpx. simpl. unfold alpha_rule.
    rewrite feather_mask_full; auto.
    apply feather_of_range.
Qed.

Lemma C4_uniform_white_witness :
  exists m out,
    flood_fill 3 3 (mark_near_white (tolerance_of (JS.of_Z 255))
                                    (replicate 9 white) (3 * 3)) = Some m /\
    (forall i, i < 3 * 3 -> bit m i = true) /\
    segment 3 3 (JS.of_Z 255) 1 (replicate 9 white) = Some out /\
    forall x y px, x < 3 -> y < 3 -> replicate 9 white !! (y * 3 + x) = Some px ->
      out !! (y * 3 + x) =
      Some (if away_from_edges 3 3 (feather_of 1) x y then set_alpha 0 px
            else if (alpha px =? 0)%Z then set_alpha 255 px
            else px).
Proof.
  apply (C4_uniform_white 3 3 (JS.of_Z 255) 1 (replicate 9 white)).
  - reflexivity.
  - repeat constructor.
Defined.

(** C9, as stated, fails: a dark pixel of alpha 128 is not background and
    keeps the alpha 128. *)
Lemma C9_counterexample :
  segment_mask 1 1 (JS.of_Z 220) 2 [Pixel 10 20 30 128] = Some [false] /\
  segment 1 1 (JS.of_Z 220) 2 [Pixel 10 20 30 128] = Some [Pixel 10 20 30 128].
Proof. split; vm_compute; reflexivity. Qed.

(** C9, amended. A pixel that is not background and has alpha 0 in the
    source becomes fully opaque (alpha 255); a pixel that is not background
    and has a non-zero alpha keeps that alpha; the colour bytes are kept. *)
Theorem C9_non_background_alpha (m : list bool) (data : list pixel) (i : nat) (px : pixel) :
  i < length m -> data !! i = Some px -> bit m i = false ->
  write_alpha m data !! i =
  Some (Pixel (red px) (green px) (blue px)
              (if (alpha px =? 0)%Z then 255 else alpha px)).
Proof.
  intros Hi Hpx Hb.
  destruct (write_alpha_spec m data) as [_ Hw]. rewrite Hw.
  replace (i <? length m) with true by (symmetry; now apply Nat.ltb_lt).
  rewrite Hpx. simpl. unfold alpha_rule. rewrite Hb.
  destruct (alpha px =? 0)%Z; [reflexivity | now destruct px].
Qed.

Lemma C9_non_background_alpha_witness :
  write_alpha [false; true] [Pixel 1 2 3 0; white] !! 0 =
  Some (Pixel 1 2 3 (if (0 =? 0)%Z then 255 else 0)).
Proof.
  apply (C9_non_background_alpha [false; true] [Pixel 1 2 3 0; white] 0 (Pixel 1 2 3 0)).
  - simpl. lia.
  - reflexivity.
  - reflexivity.
Defined.

End CutoutProps.

(** ** The order of Z[sqrt 2] *)

Module Sqrt2Facts.
Import Sqrt2.

(** No square of a natural number is twice a square, except 0. *)
Lemma sq_eq_2sq_nat : forall n x y : nat, x <= n -> x * x = 2 * (y * y) -> x = 0.
Proof.
  induction n as [|n IH]; intros x y Hle E; [lia|].
  destruct (Nat.Even_or_Odd x) as [[k ->]|[k ->]]; [|exfalso; nia].
  destruct (Nat.Even_or_Odd y) as [[l ->]|[l ->]]; [|exfalso; nia].
  assert (Hk : k = 0); [|lia].
  apply (IH k l); [lia | nia].
Qed.

Lemma sq_eq_2sq (x y : Z) : (x * x = 2 * (y * y))%Z -> x = 0%Z /\ y = 0%Z.
Proof.
  intros E.
  assert (Hx : Z.abs_nat x = 0).
  { apply (sq_eq_2sq_nat (Z.abs_nat x) (Z.abs_nat x) (Z.abs_nat y)); [lia|].
    apply Nat2Z.inj. rewrite !Nat2Z.inj_mul, !Zabs2Nat.id_abs.
    change (Z.of_nat 2) with 2%Z. rewrite !Z.abs_square. exact E. }
  assert (x = 0%Z) by lia. subst x. split; [reflexivity | nia].
Qed.

Local Open Scope R_scope.

(** The real number an element stands for. *)
Definition toR (a : t) : R := IZR (rat a) + IZR (irr a) * sqrt 2.

Lemma sqrt2_sq : sqrt 2 * sqrt 2 = 2.
Proof. apply sqrt_def. lra. Qed.

Lemma sqrt2_pos : 0 < sqrt 2.
Proof. apply sqrt_lt_R0. lra. Qed.

Lemma sqrt2_bounds : 1 <= sqrt 2 <= 2.
Proof. pose proof sqrt2_sq. pose proof sqrt2_pos. split; nra. Qed.

Lemma sq_lt (u v : R) : 0 <= u -> u < v -> u * u < v * v.
Proof. intros Hu Huv. apply Rmult_le_0_lt_compat; assumption. Qed.

Lemma sq_le (u v : R) : 0 <= u -> u <= v -> u * u <= v * v.
Proof. intros Hu Huv. apply Rmult_le_compat; assumption. Qed.

Lemma nonneg_spec (x y : Z) :
  nonneg x y = true <-> 0 <= IZR x + IZR y * sqrt 2.
Proof.
  pose proof sqrt2_sq as Hs. pose proof sqrt2_pos as Hp.
  unfold nonneg.
  destruct (Z.leb_spec 0 x) as [Hx|Hx], (Z.leb_spec 0 y) as [Hy|Hy].
  - apply IZR_le in Hx, Hy. split; [intros _; nra | reflexivity].
  - apply IZR_le in Hx. apply IZR_lt in Hy. rewrite Z.leb_le. split.
    + intros H. apply IZR_le in H. rewrite !mult_IZR in H.
      destruct (Rle_lt_dec 0 (IZR x + IZR y * sqrt 2)) as [|Hneg]; [assumption|].
      exfalso.
      pose proof (sq_lt (IZR x) (- IZR y * sqrt 2) Hx ltac:(lra)) as Hsq.
      nra.
    + intros H. apply le_IZR. rewrite !mult_IZR.
      assert (H0 : 0 <= - IZR y * sqrt 2) by nra.
      pose proof (sq_le (- IZR y * sqrt 2) (IZR x) H0 ltac:(lra)) as Hsq.
      nra.
  - apply IZR_lt in Hx. apply IZR_le in Hy. rewrite Z.leb_le. split.
    + intros H. apply IZR_le in H. rewrite !mult_IZR in H.
      destruct (Rle_lt_dec 0 (IZR x + IZR y * sqrt 2)) as [|Hneg]; [assumption|].
      exfalso.
      assert (H0 : 0 <= IZR y * sqrt 2) by nra.
      pose proof (sq_lt (IZR y * sqrt 2) (- IZR x) H0 ltac:(lra)) as Hsq.
      nra.
    + intros H. apply le_IZR. rewrite !mult_IZR.
      assert (H0 : 0 <= - IZR x) by lra.
      pose proof (sq_le (- IZR x) (IZR y * sqrt 2) H0 ltac:(lra)) as Hsq.
      nra.
  - apply IZR_lt in Hx, Hy. split; [discriminate | intros H; exfalso; nra].
Qed.

Lemma leb_spec (a b : t) : leb a b = true <-> toR a <= toR b.
Proof.
  unfold leb, toR. rewrite nonneg_spec, !minus_IZR. split; intros H; lra.
Qed.

Lemma ltb_spec (a b : t) : ltb a b = true <-> toR a < toR b.
Proof.
  unfold ltb. rewrite negb_true_iff. split.
  - intros H. apply Rnot_le_lt. intros Hle. apply leb_spec in Hle. congruence.
  - intros H. destruct (leb b a) eqn:E; [|reflexivity].
    apply leb_spec in E. lra.
Qed.

Lemma toR_add (a b : t) : toR (add a b) = toR a + toR b.
Proof. unfold toR, add. simpl. rewrite !plus_IZR. ring. Qed.

Lemma toR_of_Z (z : Z) : toR (of_Z z) = IZR z.
Proof. unfold toR, of_Z. simpl. ring. Qed.

Lemma toR_zero : toR zero = 0.
Proof. apply toR_of_Z. Qed.

Lemma toR_one : toR one = 1.
Proof. apply toR_of_Z. Qed.

Lemma toR_SQRT2 : toR SQRT2 = sqrt 2.
Proof. unfold toR, SQRT2. simpl. ring. Qed.

(** Two elements with the same value are the same pair: [sqrt 2] is
    irrational. *)
Lemma toR_inj (a b : t) : toR a = toR b -> a = b.
Proof.
  pose proof sqrt2_sq as Hs.
  destruct a as [x1 y1], b as [x2 y2]. unfold toR. simpl. intros E.
  assert (E1 : IZR (x1 - x2) = IZR (y2 - y1) * sqrt 2)
    by (rewrite !minus_IZR; lra).
  assert (E2 : ((x1 - x2) * (x1 - x2) = 2 * ((y2 - y1) * (y2 - y1)))%Z).
  { apply eq_IZR. rewrite !mult_IZR. rewrite E1. nra. }
  apply sq_eq_2sq in E2. f_equal; lia.
Qed.

Lemma min_cases (a b : t) :
  (min a b = a /\ toR a <= toR b) \/ (min a b = b /\ toR b < toR a).
Proof.
  unfold min. destruct (ltb b a) eqn:E.
  - right. split; [reflexivity | now apply ltb_spec].
  - left. split; [reflexivity|].
    apply Rnot_lt_le. intros H. apply ltb_spec in H. congruence.
Qed.

Lemma toR_min (a b : t) : toR (min a b) = Rmin (toR a) (toR b).
Proof.
  destruct (min_cases a b) as [[-> H]|[-> H]].
  - now rewrite Rmin_left.
  - rewrite Rmin_right; lra.
Qed.

(** [Math.min(a, ...l)] is below each argument and is one of them. *)
Lemma min_of_le_head (l : list t) : forall a, toR (min_of a l) <= toR a.
Proof.
  induction l as [|b l IH]; intros a; simpl; [lra|].
  eapply Rle_trans; [apply IH|]. rewrite toR_min. apply Rmin_l.
Qed.

Lemma min_of_le_elem (l : list t) : forall a b, In b l -> toR (min_of a l) <= toR b.
Proof.
  induction l as [|c l IH]; intros a b Hin; simpl in *; [easy|].
  destruct Hin as [->|Hin].
  - eapply Rle_trans; [apply min_of_le_head|]. rewrite toR_min. apply Rmin_r.
  - now apply IH.
Qed.

Lemma min_of_in (l : list t) : forall a, min_of a l = a \/ In (min_of a l) l.
Proof.
  induction l as [|c l IH]; intros a; simpl; [now left|].
  destruct (IH (min a c)) as [E|Hin]; [|right; now right].
  rewrite E. destruct (min_cases a c) as [[-> _]|[-> _]];
    [now left | right; now left].
Qed.

End Sqrt2Facts.

(** ** Loops that fill an array *)

Module FillFacts.
Import Loops LoopFacts IndexFacts.

Lemma iter_up_ext {St : Type} (f g : nat -> St -> St) :
  (forall k s, f k s = g k s) ->
  forall n lo s, iter_up lo n f s = iter_up lo n g s.
Proof.
  intros E. induction n as [|n IH]; intros lo s; simpl; [reflexivity|].
  now rewrite E, IH.
Qed.

Lemma for_up_ext {St : Type} (f g : nat -> St -> St) lo hi s :
  (forall k s', f k s' = g k s') -> for_up lo hi f s = for_up lo hi g s.
Proof. intros E. unfold for_up. now apply iter_up_ext. Qed.

(** [for (i = 0; i < n; i++) a[i] = g(i)] *)
Lemma fill_spec {A : Type} (g : nat -> A) (n : nat) (init : list A) :
  length init = n ->
  length (for_up 0 n (fun i a => <[i := g i]> a) init) = n /\
  forall i, i < n ->
    for_up 0 n (fun i a => <[i := g i]> a) init !! i = Some (g i).
Proof.
  intros Hlen.
  set (I := fun (k : nat) (a : list A) =>
    length a = n /\ forall i, i < k -> a !! i = Some (g i)).
  assert (HI : I n (for_up 0 n (fun i a => <[i := g i]> a) init)).
  { apply for_up_inv; [lia | |].
    - split; [exact Hlen | intros; lia].
    - intros k a Hk [Hl Ha]. split; [now rewrite length_insert|].
      intros i Hi. destruct (decide (k = i)) as [<-|Hne].
      + apply list_lookup_insert_eq. lia.
      + rewrite list_lookup_insert_ne by exact Hne. apply Ha. lia. }
  exact HI.
Qed.

(** Two nested loops over the pixels, each writing its pixel or leaving it. *)
Lemma fill2_spec {A : Type} (W H : nat) (g : nat -> nat -> option A) (init : list A) :
  length init = W * H ->
  let r :=
    for_up 0 H
      (fun y c =>
         for_up 0 W
           (fun x c' =>
              match g y x with
              | Some v => <[y * W + x := v]> c'
              | None => c'
              end) c) init in
  length r = W * H /\
  forall x y, x < W -> y < H ->
    r !! (y * W + x) = match g y x with
                       | Some v => Some v
                       | None => init !! (y * W + x)
                       end.
Proof.
  intros Hlen r. subst r.
  set (fx := fun (y x : nat) (c' : list A) =>
               match g y x with
               | Some v => <[y * W + x := v]> c'
               | None => c'
               end).
  set (done := fun (ky kx x y : nat) => y < ky \/ (y = ky /\ x < kx)).
  set (I := fun (ky kx : nat) (c : list A) =>
    length c = W * H /\
    forall x y, x < W -> y < H ->
      c !! (y * W + x) =
      match g y x with
      | Some v => if decide (done ky kx x y) then Some v else init !! (y * W + x)
      | None => init !! (y * W + x)
      end).
  assert (Hcell : forall ky kx c, kx < W -> ky < H ->
                    I ky kx c -> I ky (S kx) (fx ky kx c)).
  { intros ky kx c Hkx Hky [Hl Hc]. unfold fx.
    assert (Hother : forall x y, x < W -> y < H -> (x, y) <> (kx, ky) ->
              (done ky (S kx) x y <-> done ky kx x y)).
    { intros x y _ _ Hne. unfold done. split; intros [Hd|[Hd1 Hd2]];
        try (left; lia); right; (split; [lia|]);
        assert (x <> kx) by congruence; lia. }
    destruct (g ky kx) as [v|] eqn:Eg.
    - split; [now rewrite length_insert|].
      intros x y Hx Hy.
      destruct (decide ((x, y) = (kx, ky))) as [E|Hne].
      + inversion E; subst x y. rewrite Eg.
        rewrite list_lookup_insert_eq by (rewrite Hl; now apply index_lt).
        destruct (decide (done ky (S kx) kx ky)) as [|Hn]; [reflexivity|].
        exfalso. apply Hn. unfold done. lia.
      + rewrite list_lookup_insert_ne.
        * rewrite Hc by assumption. destruct (g y x); [|reflexivity].
          destruct (decide (done ky kx x y)) as [Hd|Hd],
                   (decide (done ky (S kx) x y)) as [Hd'|Hd'];
            try reflexivity; exfalso;
            first [apply Hd'; now apply (Hother x y Hx Hy Hne)
                  | apply Hd; now apply (Hother x y Hx Hy Hne)].
        * intros E. apply index_inj in E; [|assumption|assumption].
          destruct E; congruence.
    - split; [exact Hl|].
      intros x y Hx Hy. rewrite Hc by assumption.
      destruct (g y x) eqn:Eg'; [|reflexivity].
      assert (Hne : (x, y) <> (kx, ky)) by congruence.
      destruct (decide (done ky kx x y)) as [Hd|Hd],
               (decide (done ky (S kx) x y)) as [Hd'|Hd'];
        try reflexivity; exfalso;
        first [apply Hd'; now apply (Hother x y Hx Hy Hne)
              | apply Hd; now apply (Hother x y Hx Hy Hne)]. }
  assert (HI : I H 0 (for_up 0 H (fun y c => for_up 0 W (fx y) c) init)).
  { apply (for_up_inv (fun ky c => I ky 0 c)); [lia | |].
    - split; [exact Hlen|]. intros x y Hx Hy.
      destruct (g y x); [|reflexivity].
      destruct (decide (done 0 0 x y)) as [Hd|]; [|reflexivity].
      unfold done in Hd. lia.
    - intros ky c Hky Hc.
      assert (Hrow : I ky W (for_up 0 W (fx ky) c)).
      { apply (for_up_inv (fun kx c' => I ky kx c')); [lia | exact Hc |].
        intros kx c' Hkx Hc'. apply Hcell; [lia | lia | exact Hc']. }
      destruct Hrow as [Hl Hr]. split; [exact Hl|].
      intros x y Hx Hy. rewrite Hr by assumption.
      destruct (g y x); [|reflexivity].
      destruct (decide (done ky W x y)) as [Hd|Hd],
               (decide (done (S ky) 0 x y)) as [Hd'|Hd'];
        try reflexivity; exfalso; unfold done in *; lia. }
  destruct HI as [Hl Hr]. split; [exact Hl|].
  intros x y Hx Hy. rewrite Hr by assumption.
  destruct (g y x); [|reflexivity].
  destruct (decide (done H 0 x y)) as [|Hd]; [reflexivity|].
  exfalso. apply Hd. unfold done. lia.
Qed.

End FillFacts.

(** ** The two-pass chamfer transform around a single seed *)

Module ChamferFacts.
Import Loops Raster Sqrt2 Sqrt2Facts LoopFacts IndexFacts.

(** The closed form of the specification for the offset [(dx, dy)]:
    [min(|dx|,|dy|) * sqrt 2 + (max(|dx|,|dy|) - min(|dx|,|dy|))]. *)
Definition chamfer (dx dy : Z) : t :=
  mk (Z.max (Z.abs dx) (Z.abs dy) - Z.min (Z.abs dx) (Z.abs dy))
     (Z.min (Z.abs dx) (Z.abs dy)).

Lemma toR_chamfer (dx dy : Z) :
  toR (chamfer dx dy) =
  (IZR (Z.min (Z.abs dx) (Z.abs dy)) * sqrt 2
   + (IZR (Z.max (Z.abs dx) (Z.abs dy)) - IZR (Z.min (Z.abs dx) (Z.abs dy))))%R.
Proof. unfold toR, chamfer. simpl. rewrite minus_IZR. ring. Qed.

(** A step to a neighbour changes the closed form by at most the weight of
    the step. *)
Lemma chamfer_step (dx dy ox oy : Z) :
  (Z.abs ox <= 1)%Z -> (Z.abs oy <= 1)%Z ->
  (toR (chamfer dx dy) <= toR (chamfer (dx + ox) (dy + oy)) + sqrt 2)%R /\
  ((Z.abs ox + Z.abs oy <= 1)%Z ->
   (toR (chamfer dx dy) <= toR (chamfer (dx + ox) (dy + oy)) + 1)%R).
Proof.
  intros Hox Hoy. rewrite !toR_chamfer.
  pose proof sqrt2_bounds as [Hs1 Hs2].
  set (M := Z.max (Z.abs dx) (Z.abs dy)).
  set (m := Z.min (Z.abs dx) (Z.abs dy)).
  set (M' := Z.max (Z.abs (dx + ox)) (Z.abs (dy + oy))).
  set (m' := Z.min (Z.abs (dx + ox)) (Z.abs (dy + oy))).
  assert (HM : (M - M' <= 1)%Z) by lia.
  assert (Hm : (m - m' <= 1)%Z) by lia.
  assert (Hsum : ((M + m) - (M' + m') <= Z.abs ox + Z.abs oy)%Z) by lia.
  apply IZR_le in HM, Hm. rewrite !minus_IZR in HM, Hm.
  split.
  - nra.
  - intros Hax. assert (Hsum' : ((M + m) - (M' + m') <= 1)%Z) by lia.
    apply IZR_le in Hsum'. rewrite !minus_IZR, !plus_IZR in Hsum'.
    destruct (Rle_lt_dec (IZR m - IZR m') 0); nra.
Qed.

(** The neighbours read by the forward and by the backward pass, as
    offsets [(ox, oy)] with the weight of the step. *)
Definition nb_fwd : list (Z * Z * t) :=
  [(-1, -1, SQRT2); (0, -1, one); (1, -1, SQRT2); (-1, 0, one)]%Z.

Definition nb_bwd : list (Z * Z * t) :=
  [(1, 0, one); (-1, 1, SQRT2); (0, 1, one); (1, 1, SQRT2)]%Z.

Definition king (nb : list (Z * Z * t)) : Prop :=
  forall ox oy w, In (ox, oy, w) nb ->
    (Z.abs ox <= 1)%Z /\ (Z.abs oy <= 1)%Z /\
    (w = SQRT2 \/ (w = one /\ (Z.abs ox + Z.abs oy <= 1)%Z)).

Lemma king_fwd : king nb_fwd.
Proof.
  intros ox oy w Hin. simpl in Hin.
  repeat (destruct Hin as [E|Hin]; [inversion E; subst; clear E|]);
    try contradiction; (split; [lia|]); (split; [lia|]);
    first [now left | right; split; [reflexivity | lia]].
Qed.

Lemma king_bwd : king nb_bwd.
Proof.
  intros ox oy w Hin. simpl in Hin.
  repeat (destruct Hin as [E|Hin]; [inversion E; subst; clear E|]);
    try contradiction; (split; [lia|]); (split; [lia|]);
    first [now left | right; split; [reflexivity | lia]].
Qed.

Section Passes.

(** The canvas, the margin [lo] the loops leave out on each side, and the
    bodies of the forward and of the backward loop. *)
Variables (W H lo : nat).
Variables (fwd bwd : nat -> nat -> list t -> list t).

Definition region (x y : nat) : Prop := lo <= x < W - lo /\ lo <= y < H - lo.

(** What a loop body does at the pixel [(x, y)]: it replaces the value by
    the minimum of itself and of the neighbours of [nb] inside the canvas,
    each plus its weight. *)
Definition cell_spec (nb : list (Z * Z * t))
           (cell : nat -> nat -> list t -> list t) : Prop :=
  forall df x y, length df = W * H -> region x y ->
    length (cell y x df) = W * H /\
    (forall j, j <> y * W + x -> cell y x df !! j = df !! j) /\
    exists cur v,
      df !! (y * W + x) = Some cur /\
      cell y x df !! (y * W + x) = Some v /\
      (toR v <= toR cur)%R /\
      (forall ox oy w x' y' u,
          In (ox, oy, w) nb ->
          Z.of_nat x' = (Z.of_nat x + ox)%Z -> Z.of_nat y' = (Z.of_nat y + oy)%Z ->
          x' < W -> y' < H -> df !! (y' * W + x') = Some u ->
          (toR v <= toR u + toR w)%R) /\
      (v = cur \/
       exists ox oy w x' y' u,
         In (ox, oy, w) nb /\
         Z.of_nat x' = (Z.of_nat x + ox)%Z /\ Z.of_nat y' = (Z.of_nat y + oy)%Z /\
         x' < W /\ y' < H /\ df !! (y' * W + x') = Some u /\ v = add u w).

Hypothesis fwd_spec : cell_spec nb_fwd fwd.
Hypothesis bwd_spec : cell_spec nb_bwd bwd.

Definition pass_fwd (df : list t) : list t :=
  for_up lo (H - lo) (fun y d => for_up lo (W - lo) (fun x d' => fwd y x d') d) df.

Definition pass_bwd (df : list t) : list t :=
  for_down (H - lo) lo (fun y d => for_down (W - lo) lo (fun x d' => bwd y x d') d) df.

(** The seed and the value [S] the other pixels start from. *)
Variables (sx sy : nat) (S : t).
Hypothesis seed_region : region sx sy.

Definition cd (x y : nat) : t :=
  chamfer (Z.of_nat x - Z.of_nat sx) (Z.of_nat y - Z.of_nat sy).

Record start_ok (df : list t) : Prop := {
  st_len : length df = W * H;
  st_seed : df !! (sy * W + sx) = Some zero;
  st_other : forall x y, x < W -> y < H -> (x, y) <> (sx, sy) ->
                         df !! (y * W + x) = Some S
}.

(** No value ever drops below the closed form capped by [S]. *)
Definition lower (df : list t) : Prop :=
  forall x y v, x < W -> y < H -> df !! (y * W + x) = Some v ->
                (Rmin (toR S) (toR (cd x y)) <= toR v)%R.

Lemma start_lower df : start_ok df -> lower df.
Proof.
  intros [_ Hseed Hoth] x y v Hx Hy Hv.
  destruct (decide ((x, y) = (sx, sy))) as [E|Hne].
  - inversion E; subst. rewrite Hseed in Hv. inversion Hv; subst.
    eapply Rle_trans; [apply Rmin_r|].
    unfold cd. rewrite !Z.sub_diag.
    replace (chamfer 0 0) with zero by reflexivity. lra.
  - rewrite (Hoth x y Hx Hy Hne) in Hv. inversion Hv; subst. apply Rmin_l.
Qed.

Lemma cell_lower nb cell df x y :
  cell_spec nb cell -> king nb ->
  length df = W * H -> region x y -> lower df -> lower (cell y x df).
Proof.
  intros Hspec Hking Hlen Hreg Hlow x0 y0 v0 Hx0 Hy0 Hv0.
  destruct (Hspec df x y Hlen Hreg)
    as (_ & Hoth & cur & v & Hcur & Hv & _ & _ & Hfrom).
  destruct (decide (y0 * W + x0 = y * W + x)) as [E|Hne].
  - assert (Hxx : x < W) by (destruct Hreg; lia).
    apply index_inj in E; [|assumption|assumption]. destruct E as [-> ->].
    rewrite Hv in Hv0. inversion Hv0; subst v0.
    destruct Hfrom as [->|(ox & oy & w & x' & y' & u & Hin & Ex & Ey & Hx' & Hy' & Hu & ->)].
    + now apply (Hlow x y).
    + pose proof (Hlow x' y' u Hx' Hy' Hu) as Hlu.
      destruct (Hking ox oy w Hin) as (Hox & Hoy & Hw).
      destruct (chamfer_step (Z.of_nat x - Z.of_nat sx) (Z.of_nat y - Z.of_nat sy)
                             ox oy Hox Hoy) as [Hdiag Haxis].
      replace (Z.of_nat x - Z.of_nat sx + ox)%Z
        with (Z.of_nat x' - Z.of_nat sx)%Z in Hdiag, Haxis by lia.
      replace (Z.of_nat y - Z.of_nat sy + oy)%Z
        with (Z.of_nat y' - Z.of_nat sy)%Z in Hdiag, Haxis by lia.
      fold (cd x y) in Hdiag, Haxis. fold (cd x' y') in Hdiag, Haxis.
      rewrite toR_add. pose proof sqrt2_bounds as [Hs1 Hs2].
      assert (Hstep : (toR (cd x y) <= toR (cd x' y') + toR w)%R).
      { destruct Hw as [->|[-> Hax]].
        - now rewrite toR_SQRT2.
        - rewrite toR_one. now apply Haxis. }
      assert (Hw0 : (0 <= toR w)%R).
      { destruct Hw as [->|[-> _]]; [rewrite toR_SQRT2 | rewrite toR_one]; lra. }
      revert Hlu. unfold Rmin.
      destruct (Rle_dec (toR S) (toR (cd x' y'))),
               (Rle_dec (toR S) (toR (cd x y))); lra.
  - rewrite Hoth in Hv0 by exact Hne. now apply (Hlow x0 y0).
Qed.

(** The closed form is the sum along a path from the seed: each pixel has
    a neighbour nearer to the seed from which one step reaches it. *)

(** The pixels the forward pass alone reaches from the seed. *)
Definition ahead (x y : nat) : Prop :=
  (Z.of_nat sy <= Z.of_nat y)%Z /\
  ((Z.of_nat sx <= Z.of_nat x)%Z \/
   (Z.of_nat sx - Z.of_nat x <= Z.of_nat y - Z.of_nat sy)%Z).

Lemma ahead_dec x y : {ahead x y} + {~ ahead x y}.
Proof.
  unfold ahead.
  destruct (Z_le_dec (Z.of_nat sy) (Z.of_nat y));
    destruct (Z_le_dec (Z.of_nat sx) (Z.of_nat x));
    destruct (Z_le_dec (Z.of_nat sx - Z.of_nat x) (Z.of_nat y - Z.of_nat sy));
    first [left; lia | right; lia].
Qed.

Lemma fwd_pred x y :
  region x y -> ahead x y -> (x, y) <> (sx, sy) ->
  exists ox oy w x' y',
    In (ox, oy, w) nb_fwd /\
    Z.of_nat x' = (Z.of_nat x + ox)%Z /\ Z.of_nat y' = (Z.of_nat y + oy)%Z /\
    region x' y' /\ ahead x' y' /\
    add (cd x' y') w = cd x y /\
    (y' < y \/ (y' = y /\ x' < x)).
Proof.
  intros [Hx Hy] [Ha1 Ha2] Hne. destruct seed_region as [Hsx Hsy].
  assert (Hcase :
    (y = sy /\ sx < x) \/ (sy < y /\ sx < x) \/ (sy < y /\ x = sx) \/
    (sy < y /\ x < sx)).
  { destruct (decide (y = sy)) as [->|]; [left|right].
    - split; [reflexivity|].
      destruct (decide (x = sx)) as [->|]; [congruence | lia].
    - lia. }
  destruct Hcase as [[-> H1]|[[H1 H2]|[[H1 ->]|[H1 H2]]]].
  - exists (-1)%Z, 0%Z, one, (x - 1), sy.
    split; [simpl; tauto|]. split; [lia|]. split; [lia|].
    split; [unfold region; lia|]. split; [unfold ahead; lia|].
    split; [|lia].
    unfold cd, chamfer, add, one, of_Z. simpl. f_equal; lia.
  - exists (-1)%Z, (-1)%Z, SQRT2, (x - 1), (y - 1).
    split; [simpl; tauto|]. split; [lia|]. split; [lia|].
    split; [unfold region; lia|]. split; [unfold ahead; lia|].
    split; [|lia].
    unfold cd, chamfer, add, SQRT2. simpl. f_equal; lia.
  - exists 0%Z, (-1)%Z, one, sx, (y - 1).
    split; [simpl; tauto|]. split; [lia|]. split; [lia|].
    split; [unfold region; lia|]. split; [unfold ahead; lia|].
    split; [|lia].
    unfold cd, chamfer, add, one, of_Z. simpl. f_equal; lia.
  - exists 1%Z, (-1)%Z, SQRT2, (x + 1), (y - 1).
    split; [simpl; tauto|]. split; [lia|]. split; [lia|].
    split; [unfold region; lia|]. split; [unfold ahead; lia|].
    split; [|lia].
    unfold cd, chamfer, add, SQRT2. simpl. f_equal; lia.
Qed.

Lemma bwd_pred x y :
  region x y -> ~ ahead x y ->
  exists ox oy w x' y',
    In (ox, oy, w) nb_bwd /\
    Z.of_nat x' = (Z.of_nat x + ox)%Z /\ Z.of_nat y' = (Z.of_nat y + oy)%Z /\
    region x' y' /\
    add (cd x' y') w = cd x y /\
    (y < y' \/ (y' = y /\ x < x')).
Proof.
  intros [Hx Hy] Hna. destruct seed_region as [Hsx Hsy].
  assert (Hcase :
    (sy <= y /\ x < sx /\ y - sy < sx - x) \/
    (y < sy /\ x < sx) \/ (y < sy /\ x = sx) \/ (y < sy /\ sx < x)).
  { unfold ahead in Hna. lia. }
  destruct Hcase as [(H1 & H2 & H3)|[[H1 H2]|[[H1 ->]|[H1 H2]]]].
  - exists 1%Z, 0%Z, one, (x + 1), y.
    split; [simpl; tauto|]. split; [lia|]. split; [lia|].
    split; [unfold region; lia|]. split; [|lia].
    unfold cd, chamfer, add, one, of_Z. simpl. f_equal; lia.
  - exists 1%Z, 1%Z, SQRT2, (x + 1), (y + 1).
    split; [simpl; tauto|]. split; [lia|]. split; [lia|].
    split; [unfold region; lia|]. split; [|lia].
    unfold cd, chamfer, add, SQRT2. simpl. f_equal; lia.
  - exists 0%Z, 1%Z, one, sx, (y + 1).
    split; [simpl; tauto|]. split; [lia|]. split; [lia|].
    split; [unfold region; lia|]. split; [|lia].
    unfold cd, chamfer, add, one, of_Z. simpl. f_equal; lia.
  - exists (-1)%Z, 1%Z, SQRT2, (x - 1), (y + 1).
    split; [simpl; tauto|]. split; [lia|]. split; [lia|].
    split; [unfold region; lia|]. split; [|lia].
    unfold cd, chamfer, add, SQRT2. simpl. f_equal; lia.
Qed.

Lemma region_lt x y : region x y -> x < W /\ y < H.
Proof. unfold region. lia. Qed.

Lemma cd_seed : toR (cd sx sy) = 0%R.
Proof.
  unfold cd. rewrite !Z.sub_diag.
  replace (chamfer 0 0) with zero by reflexivity. apply toR_zero.
Qed.

(** *** The forward pass *)

(** The pixels the forward loops have passed when they stand at
    [(kx, ky)]. *)
Definition doneF (ky kx x y : nat) : Prop := y < ky \/ (y = ky /\ x < kx).

Definition upperF (ky kx : nat) (df : list t) : Prop :=
  forall x y, region x y -> ahead x y ->
    doneF ky kx x y \/ (x, y) = (sx, sy) ->
    exists v, df !! (y * W + x) = Some v /\ (toR v <= toR (cd x y))%R.

Definition invF (ky kx : nat) (df : list t) : Prop :=
  length df = W * H /\ lower df /\ upperF ky kx df.

Lemma fwd_cell_inv ky kx df :
  region kx ky -> invF ky kx df -> invF ky (Datatypes.S kx) (fwd ky kx df).
Proof.
  intros Hreg (Hlen & Hlow & Hup).
  destruct (fwd_spec df kx ky Hlen Hreg)
    as (Hlen' & Hoth & cur & v & Hcur & Hv & Hle & Hnb & _).
  split; [exact Hlen'|].
  split; [now apply (cell_lower nb_fwd fwd df kx ky fwd_spec king_fwd)|].
  intros x y Hxy Hah Hd.
  destruct (decide ((x, y) = (kx, ky))) as [E|Hne].
  - inversion E; subst x y. exists v. split; [exact Hv|].
    destruct (decide ((kx, ky) = (sx, sy))) as [Es|Hns].
    + destruct (Hup kx ky Hreg Hah (or_intror Es)) as (v0 & Hv0 & Hle0).
      rewrite Hcur in Hv0. inversion Hv0; subst v0. lra.
    + destruct (fwd_pred kx ky Hreg Hah Hns)
        as (ox & oy & w & x' & y' & Hin & Ex & Ey & Hreg' & Hah' & Hcd & Hbefore).
      destruct (Hup x' y' Hreg' Hah' (or_introl Hbefore)) as (u & Hu & Hleu).
      destruct (region_lt x' y' Hreg') as [Hx' Hy'].
      pose proof (Hnb ox oy w x' y' u Hin Ex Ey Hx' Hy' Hu) as Hvu.
      rewrite <- Hcd, toR_add. lra.
  - assert (Hidx : y * W + x <> ky * W + kx).
    { intros Ei. apply index_inj in Ei;
        [destruct Ei; congruence | apply (region_lt x y Hxy)
         | apply (region_lt kx ky Hreg)]. }
    rewrite Hoth by exact Hidx. apply Hup; auto.
    destruct Hd as [[Hd|[Hd1 Hd2]]|Hd]; [left; now left | | now right].
    left. right. split; [exact Hd1|].
    assert (x <> kx) by congruence. lia.
Qed.

Lemma fwd_pass_inv df : start_ok df -> invF (H - lo) lo (pass_fwd df).
Proof.
  intros Hst. destruct seed_region as [Hsx Hsy]. unfold pass_fwd.
  apply (for_up_inv (fun ky d => invF ky lo d)); [lia | |].
  - split; [apply Hst|]. split; [now apply start_lower|].
    intros x y [Hx Hy] _ [[Hd|[Hd1 Hd2]]|Hd]; try lia.
    inversion Hd; subst. exists zero. split; [apply Hst|].
    rewrite cd_seed, toR_zero. lra.
  - intros ky d Hky Hinv.
    assert (Hrow : invF ky (W - lo) (for_up lo (W - lo) (fun x d' => fwd ky x d') d)).
    { apply (for_up_inv (fun kx d' => invF ky kx d')); [lia | exact Hinv |].
      intros kx d' Hkx Hinv'. apply fwd_cell_inv; [unfold region; lia | exact Hinv']. }
    destruct Hrow as (Hlen & Hlow & Hup).
    split; [exact Hlen|]. split; [exact Hlow|].
    intros x y Hxy Hah Hd. apply Hup; auto.
    destruct Hd as [[Hd|[Hd1 Hd2]]|Hd]; [| |now right].
    + left. destruct (decide (y = ky)) as [->|]; [right | left; lia].
      split; [reflexivity | apply Hxy].
    + destruct Hxy. lia.
Qed.

(** *** The backward pass *)

Definition doneB (ky kx x y : nat) : Prop := ky < y \/ (y = ky /\ kx <= x).

Definition upperB (ky kx : nat) (df : list t) : Prop :=
  forall x y, region x y -> doneB ky kx x y \/ ahead x y ->
    exists v, df !! (y * W + x) = Some v /\ (toR v <= toR (cd x y))%R.

Definition invB (ky kx : nat) (df : list t) : Prop :=
  length df = W * H /\ lower df /\ upperB ky kx df.

Lemma bwd_cell_inv ky kx df :
  region kx ky -> invB ky (Datatypes.S kx) df -> invB ky kx (bwd ky kx df).
Proof.
  intros Hreg (Hlen & Hlow & Hup).
  destruct (bwd_spec df kx ky Hlen Hreg)
    as (Hlen' & Hoth & cur & v & Hcur & Hv & Hle & Hnb & _).
  split; [exact Hlen'|].
  split; [now apply (cell_lower nb_bwd bwd df kx ky bwd_spec king_bwd)|].
  intros x y Hxy Hd.
  destruct (decide ((x, y) = (kx, ky))) as [E|Hne].
  - inversion E; subst x y. exists v. split; [exact Hv|].
    destruct (ahead_dec kx ky) as [Hah|Hnah].
    + destruct (Hup kx ky Hreg (or_intror Hah)) as (v0 & Hv0 & Hle0).
      rewrite Hcur in Hv0. inversion Hv0; subst v0. lra.
    + destruct (bwd_pred kx ky Hreg Hnah)
        as (ox & oy & w & x' & y' & Hin & Ex & Ey & Hreg' & Hcd & Hbefore).
      assert (Hdone : doneB ky (Datatypes.S kx) x' y') by (unfold doneB; lia).
      destruct (Hup x' y' Hreg' (or_introl Hdone)) as (u & Hu & Hleu).
      destruct (region_lt x' y' Hreg') as [Hx' Hy'].
      pose proof (Hnb ox oy w x' y' u Hin Ex Ey Hx' Hy' Hu) as Hvu.
      rewrite <- Hcd, toR_add. lra.
  - assert (Hidx : y * W + x <> ky * W + kx).
    { intros Ei. apply index_inj in Ei;
        [destruct Ei; congruence | apply (region_lt x y Hxy)
         | apply (region_lt kx ky Hreg)]. }
    rewrite Hoth by exact Hidx. apply Hup; auto.
    destruct Hd as [[Hd|[Hd1 Hd2]]|Hd]; [left; now left | | now right].
    left. right. split; [exact Hd1|].
    assert (x <> kx) by congruence. lia.
Qed.

Lemma bwd_pass_inv df : invF (H - lo) lo df -> invB lo lo (pass_bwd df).
Proof.
  intros (Hlen0 & Hlow0 & Hup0). destruct seed_region as [Hsx Hsy].
  unfold pass_bwd.
  apply (for_down_inv (fun ky d => invB ky lo d)); [lia | |].
  - split; [exact Hlen0|]. split; [exact Hlow0|].
    intros x y Hxy [[Hd|[Hd1 Hd2]]|Hah]; [destruct Hxy; lia | destruct Hxy; lia |].
    apply Hup0; auto. left. left. apply Hxy.
  - intros ky d Hky (Hlen & Hlow & Hup).
    apply (for_down_inv (fun kx d' => invB ky kx d')); [lia | |].
    + split; [exact Hlen|]. split; [exact Hlow|].
      intros x y Hxy Hd. apply Hup; auto.
      destruct Hd as [[Hd|[Hd1 Hd2]]|Hah]; [| destruct Hxy; lia | now right].
      left. unfold doneB. destruct Hxy. lia.
    + intros kx d' Hkx Hinv'. apply bwd_cell_inv; [unfold region; lia | exact Hinv'].
Qed.

(** After the two passes every pixel the loops visit holds the closed form
    of its offset from the seed, as long as that value does not exceed the
    value the pixels started from. *)
Theorem two_pass_exact df x y :
  start_ok df -> region x y -> (toR (cd x y) <= toR S)%R ->
  pass_bwd (pass_fwd df) !! (y * W + x) = Some (cd x y).
Proof.
  intros Hst Hxy HS.
  destruct (bwd_pass_inv _ (fwd_pass_inv df Hst)) as (Hlen & Hlow & Hup).
  destruct (Hup x y Hxy) as (v & Hv & Hle).
  { left. unfold doneB. destruct Hxy. lia. }
  rewrite Hv. f_equal. apply toR_inj.
  destruct (region_lt x y Hxy) as [Hx Hy].
  pose proof (Hlow x y v Hx Hy Hv) as Hge.
  rewrite Rmin_right in Hge by exact HS. lra.
Qed.

End Passes.

(** *** Loop bodies as runs of relaxations *)

(** [df[i] = Math.min(df[i], df[j] + w)] for each candidate [(j, w)] in
    turn. *)
Definition relaxes (i : nat) (cands : list (nat * t)) (df : list t) : list t :=
  fold_left (fun d c => SecondEdge.relax i (fst c) (snd c) d) cands df.

(** The value each candidate contributes; no candidate is the pixel [i]
    itself. *)
Definition reads (df : list t) (i : nat) (c : nat * t) (v : t) : Prop :=
  fst c <> i /\ exists u, df !! (fst c) = Some u /\ v = add u (snd c).

Lemma relaxes_spec (i : nat) (cands : list (nat * t)) :
  forall df cur,
    df !! i = Some cur ->
    (forall c, In c cands -> fst c <> i /\ fst c < length df) ->
    exists vals,
      Forall2 (reads df i) cands vals /\
      relaxes i cands df = <[i := min_of cur vals]> df.
Proof.
  induction cands as [|[j w] cands IH]; intros df cur Hcur Hc.
  - exists []. split; [constructor|]. simpl. symmetry. now apply list_insert_id.
  - destruct (Hc (j, w) (or_introl eq_refl)) as [Hji Hj]. simpl in Hji, Hj.
    destruct (lookup_lt_is_Some_2 df j Hj) as [u Hu].
    assert (Hi : i < length df) by (eapply lookup_lt_Some; eauto).
    set (df1 := <[i := min cur (add u w)]> df).
    assert (E1 : SecondEdge.relax i j w df = df1).
    { unfold SecondEdge.relax. now rewrite Hcur, Hu. }
    destruct (IH df1 (min cur (add u w))) as (vals & Hvals & Erun).
    + unfold df1. now apply list_lookup_insert_eq.
    + intros c Hin. destruct (Hc c (or_intror Hin)) as [H1 H2].
      split; [exact H1|]. unfold df1. now rewrite length_insert.
    + exists (add u w :: vals). split.
      * constructor; [split; [exact Hji | exists u; split; [exact Hu | reflexivity]]|].
        eapply Forall2_impl; [exact Hvals|].
        intros c v (Hci & u' & Hu' & ->). split; [exact Hci|].
        exists u'. split; [|reflexivity].
        unfold df1 in Hu'. now rewrite list_lookup_insert_ne in Hu' by congruence.
      * simpl. rewrite E1, Erun. unfold df1. now rewrite list_insert_insert_eq.
Qed.

Lemma Forall2_in_l {A B} (P : A -> B -> Prop) (l : list A) (l' : list B) (a : A) :
  Forall2 P l l' -> In a l -> exists b, In b l' /\ P a b.
Proof.
  induction 1 as [|x y l l' Hxy _ IH]; intros Hin; [easy|].
  destruct Hin as [->|Hin].
  - exists y. split; [now left | exact Hxy].
  - destruct (IH Hin) as (b & Hb & HP). exists b. split; [now right | exact HP].
Qed.

Lemma Forall2_in_r {A B} (P : A -> B -> Prop) (l : list A) (l' : list B) (b : B) :
  Forall2 P l l' -> In b l' -> exists a, In a l /\ P a b.
Proof.
  induction 1 as [|x y l l' Hxy _ IH]; intros Hin; [easy|].
  destruct Hin as [->|Hin].
  - exists x. split; [now left | exact Hxy].
  - destruct (IH Hin) as (a & Ha & HP). exists a. split; [now right | exact HP].
Qed.

(** The candidates of a loop body at [(x, y)] are the neighbours of [nb]
    that lie inside the canvas. *)
Definition cands_ok (W H : nat) (nb : list (Z * Z * t)) (x y : nat)
           (cands : list (nat * t)) : Prop :=
  (forall j w, In (j, w) cands ->
     exists ox oy x' y',
       In (ox, oy, w) nb /\
       Z.of_nat x' = (Z.of_nat x + ox)%Z /\ Z.of_nat y' = (Z.of_nat y + oy)%Z /\
       x' < W /\ y' < H /\ j = y' * W + x') /\
  (forall ox oy w x' y',
     In (ox, oy, w) nb ->
     Z.of_nat x' = (Z.of_nat x + ox)%Z -> Z.of_nat y' = (Z.of_nat y + oy)%Z ->
     x' < W -> y' < H -> In (y' * W + x', w) cands).

Definition proper (nb : list (Z * Z * t)) : Prop :=
  forall ox oy w, In (ox, oy, w) nb -> (ox, oy) <> (0, 0)%Z.

Lemma proper_fwd : proper nb_fwd.
Proof.
  intros ox oy w Hin. simpl in Hin.
  repeat (destruct Hin as [E|Hin]; [inversion E; subst; discriminate|]).
  contradiction.
Qed.

Lemma proper_bwd : proper nb_bwd.
Proof.
  intros ox oy w Hin. simpl in Hin.
  repeat (destruct Hin as [E|Hin]; [inversion E; subst; discriminate|]).
  contradiction.
Qed.

(** A loop body that relaxes the pixel against such candidates meets
    [cell_spec]. *)
Lemma relaxes_cell_spec (W H lo : nat) (nb : list (Z * Z * t))
      (cell : nat -> nat -> list t -> list t)
      (cands : nat -> nat -> list (nat * t)) :
  proper nb ->
  (forall df x y, length df = W * H -> region W H lo x y ->
     cands_ok W H nb x y (cands y x) /\
     cell y x df = relaxes (y * W + x) (cands y x) df) ->
  cell_spec W H lo nb cell.
Proof.
  intros Hproper Hcell df x y Hlen Hreg.
  destruct (Hcell df x y Hlen Hreg) as [[Hc1 Hc2] ->].
  destruct (region_lt W H lo x y Hreg) as [Hx Hy].
  assert (Hi : y * W + x < length df) by (rewrite Hlen; now apply index_lt).
  destruct (lookup_lt_is_Some_2 df _ Hi) as [cur Hcur].
  destruct (relaxes_spec (y * W + x) (cands y x) df cur Hcur) as (vals & Hvals & ->).
  { intros [j w] Hin. simpl.
    destruct (Hc1 j w Hin) as (ox & oy & x' & y' & Hnb & Ex & Ey & Hx' & Hy' & ->).
    split; [|rewrite Hlen; now apply index_lt].
    intros E. apply index_inj in E; [|assumption|assumption].
    destruct E as [-> ->]. apply (Hproper ox oy w Hnb). f_equal; lia. }
  split; [now rewrite length_insert|].
  split; [intros j Hj; now rewrite list_lookup_insert_ne by congruence|].
  exists cur, (min_of cur vals).
  split; [exact Hcur|]. split; [now apply list_lookup_insert_eq|].
  split; [apply min_of_le_head|]. split.
  - intros ox oy w x' y' u Hnb Ex Ey Hx' Hy' Hu.
    pose proof (Hc2 ox oy w x' y' Hnb Ex Ey Hx' Hy') as Hin.
    destruct (Forall2_in_l _ _ _ _ Hvals Hin) as (v & Hv & _ & u' & Hu' & ->).
    simpl in Hu'. rewrite Hu in Hu'. inversion Hu'; subst u'.
    rewrite <- toR_add. now apply min_of_le_elem.
  - destruct (min_of_in vals cur) as [E|Hin]; [now left | right].
    destruct (Forall2_in_r _ _ _ _ Hvals Hin) as ([j w] & Hc & _ & u & Hu & Ev).
    simpl in Hu, Ev.
    destruct (Hc1 j w Hc) as (ox & oy & x' & y' & Hnb & Ex & Ey & Hx' & Hy' & ->).
    exists ox, oy, w, x', y', u. repeat split; assumption.
Qed.

(** Tactics for the candidate lists: name the neighbour a candidate is,
    and find the candidate a neighbour is. *)
Ltac name_neighbour x y :=
  first
    [ exists (-1)%Z, (-1)%Z, (x - 1), (y - 1); split; [simpl; tauto|]; repeat split; lia
    | exists 0%Z, (-1)%Z, x, (y - 1); split; [simpl; tauto|]; repeat split; lia
    | exists 1%Z, (-1)%Z, (x + 1), (y - 1); split; [simpl; tauto|]; repeat split; lia
    | exists (-1)%Z, 0%Z, (x - 1), y; split; [simpl; tauto|]; repeat split; lia
    | exists 1%Z, 0%Z, (x + 1), y; split; [simpl; tauto|]; repeat split; lia
    | exists (-1)%Z, 1%Z, (x - 1), (y + 1); split; [simpl; tauto|]; repeat split; lia
    | exists 0%Z, 1%Z, x, (y + 1); split; [simpl; tauto|]; repeat split; lia
    | exists 1%Z, 1%Z, (x + 1), (y + 1); split; [simpl; tauto|]; repeat split; lia ].

Ltac pin_coord v base :=
  first [ assert (v = base) by lia
        | assert (v = base + 1) by lia
        | assert (v = base - 1) by lia ];
  subst v.

Ltac find_candidate x y :=
  match goal with
  | Ex : Z.of_nat ?x' = _, Ey : Z.of_nat ?y' = _ |- _ =>
      first [ exfalso; lia
            | pin_coord x' x; pin_coord y' y; simpl; tauto ]
  end.

(** *** The loop bodies of add_second_edge *)

Definition se_cands_fwd (W : nat) (y x : nat) : list (nat * t) :=
  (if 0 <? y
   then ((y - 1) * W + x, one)
          :: (if 0 <? x then [((y - 1) * W + (x - 1), SQRT2)] else [])
          ++ (if x + 1 <? W then [((y - 1) * W + (x + 1), SQRT2)] else [])
   else [])
  ++ (if 0 <? x then [(y * W + (x - 1), one)] else []).

Definition se_cands_bwd (W H : nat) (y x : nat) : list (nat * t) :=
  (if y + 1 <? H
   then ((y + 1) * W + x, one)
          :: (if 0 <? x then [((y + 1) * W + (x - 1), SQRT2)] else [])
          ++ (if x + 1 <? W then [((y + 1) * W + (x + 1), SQRT2)] else [])
   else [])
  ++ (if x + 1 <? W then [(y * W + (x + 1), one)] else []).

Lemma se_fwd_relaxes W y x df :
  SecondEdge.forward_cell W y x df = relaxes (y * W + x) (se_cands_fwd W y x) df.
Proof.
  unfold SecondEdge.forward_cell, se_cands_fwd, relaxes.
  destruct (0 <? y), (0 <? x), (x + 1 <? W); reflexivity.
Qed.

Lemma se_bwd_relaxes W H y x df :
  SecondEdge.backward_cell W H y x df = relaxes (y * W + x) (se_cands_bwd W H y x) df.
Proof.
  unfold SecondEdge.backward_cell, se_cands_bwd, relaxes.
  destruct (y + 1 <? H), (0 <? x), (x + 1 <? W); reflexivity.
Qed.

Lemma se_fwd_cands_ok W H x y :
  x < W -> y < H -> cands_ok W H nb_fwd x y (se_cands_fwd W y x).
Proof.
  intros Hx Hy. unfold se_cands_fwd.
  destruct (Nat.ltb_spec 0 y), (Nat.ltb_spec 0 x), (Nat.ltb_spec (x + 1) W);
    (split;
     [ intros j w Hin; simpl in Hin;
       repeat (destruct Hin as [E|Hin]; [inversion E; subst j w; name_neighbour x y|]);
       contradiction
     | intros ox oy w x' y' Hnb Ex Ey Hx' Hy'; simpl in Hnb;
       repeat (destruct Hnb as [E|Hnb]; [inversion E; subst ox oy w; find_candidate x y|]);
       contradiction ]).
Qed.

Lemma se_bwd_cands_ok W H x y :
  x < W -> y < H -> cands_ok W H nb_bwd x y (se_cands_bwd W H y x).
Proof.
  intros Hx Hy. unfold se_cands_bwd.
  destruct (Nat.ltb_spec (y + 1) H), (Nat.ltb_spec 0 x), (Nat.ltb_spec (x + 1) W);
    (split;
     [ intros j w Hin; simpl in Hin;
       repeat (destruct Hin as [E|Hin]; [inversion E; subst j w; name_neighbour x y|]);
       contradiction
     | intros ox oy w x' y' Hnb Ex Ey Hx' Hy'; simpl in Hnb;
       repeat (destruct Hnb as [E|Hnb]; [inversion E; subst ox oy w; find_candidate x y|]);
       contradiction ]).
Qed.

Lemma se_fwd_spec W H : cell_spec W H 0 nb_fwd (SecondEdge.forward_cell W).
Proof.
  apply (relaxes_cell_spec W H 0 nb_fwd _ (se_cands_fwd W)); [apply proper_fwd|].
  intros df x y _ Hreg. destruct (region_lt W H 0 x y Hreg).
  split; [now apply se_fwd_cands_ok | apply se_fwd_relaxes].
Qed.

Lemma se_bwd_spec W H : cell_spec W H 0 nb_bwd (SecondEdge.backward_cell W H).
Proof.
  apply (relaxes_cell_spec W H 0 nb_bwd _ (se_cands_bwd W H)); [apply proper_bwd|].
  intros df x y _ Hreg. destruct (region_lt W H 0 x y Hreg).
  split; [now apply se_bwd_cands_ok | apply se_bwd_relaxes].
Qed.

(** *** The loop bodies of createRasterSmoothBorder *)

Definition st_cands_fwd (W : nat) (y x : nat) : list (nat * t) :=
  [((y - 1) * W + (x - 1), SQRT2); ((y - 1) * W + x, one);
   ((y - 1) * W + (x + 1), SQRT2); (y * W + (x - 1), one)].

Definition st_cands_bwd (W : nat) (y x : nat) : list (nat * t) :=
  [(y * W + (x + 1), one); ((y + 1) * W + (x - 1), SQRT2);
   ((y + 1) * W + x, one); ((y + 1) * W + (x + 1), SQRT2)].

Lemma st_fwd_cands_ok W H x y :
  region W H 1 x y -> cands_ok W H nb_fwd x y (st_cands_fwd W y x).
Proof.
  intros [Hx Hy]. unfold st_cands_fwd.
  split;
    [ intros j w Hin; simpl in Hin;
      repeat (destruct Hin as [E|Hin]; [inversion E; subst j w; name_neighbour x y|]);
      contradiction
    | intros ox oy w x' y' Hnb Ex Ey Hx' Hy'; simpl in Hnb;
      repeat (destruct Hnb as [E|Hnb]; [inversion E; subst ox oy w; find_candidate x y|]);
      contradiction ].
Qed.

Lemma st_bwd_cands_ok W H x y :
  region W H 1 x y -> cands_ok W H nb_bwd x y (st_cands_bwd W y x).
Proof.
  intros [Hx Hy]. unfold st_cands_bwd.
  split;
    [ intros j w Hin; simpl in Hin;
      repeat (destruct Hin as [E|Hin]; [inversion E; subst j w; name_neighbour x y|]);
      contradiction
    | intros ox oy w x' y' Hnb Ex Ey Hx' Hy'; simpl in Hnb;
      repeat (destruct Hnb as [E|Hnb]; [inversion E; subst ox oy w; find_candidate x y|]);
      contradiction ].
Qed.

(** Four candidates, read before the store, give the same value as four
    relaxations in turn. *)
Lemma four_reads (df : list t) (i : nat) (c1 c2 c3 c4 : nat * t) (cur : t) :
  df !! i = Some cur ->
  (forall c, In c [c1; c2; c3; c4] -> fst c <> i /\ fst c < length df) ->
  exists u1 u2 u3 u4,
    df !! fst c1 = Some u1 /\ df !! fst c2 = Some u2 /\
    df !! fst c3 = Some u3 /\ df !! fst c4 = Some u4 /\
    relaxes i [c1; c2; c3; c4] df =
    <[i := min_of cur [add u1 (snd c1); add u2 (snd c2);
                       add u3 (snd c3); add u4 (snd c4)]]> df.
Proof.
  intros Hcur Hside.
  destruct (relaxes_spec i [c1; c2; c3; c4] df cur Hcur Hside) as (vals & HF & E).
  inversion HF as [|a1 v1 l1 l1' (_ & u1 & Hu1 & ->) HF1]; subst.
  inversion HF1 as [|a2 v2 l2 l2' (_ & u2 & Hu2 & ->) HF2]; subst.
  inversion HF2 as [|a3 v3 l3 l3' (_ & u3 & Hu3 & ->) HF3]; subst.
  inversion HF3 as [|a4 v4 l4 l4' (_ & u4 & Hu4 & ->) HF4]; subst.
  inversion HF4; subst.
  exists u1, u2, u3, u4. repeat (split; [assumption|]). exact E.
Qed.

Lemma st_fwd_relaxes W H y x df :
  length df = W * H -> region W H 1 x y ->
  Sticker.forward_cell W y x df = relaxes (y * W + x) (st_cands_fwd W y x) df.
Proof.
  intros Hlen [Hx Hy].
  assert (Hi : y * W + x < length df) by (rewrite Hlen; apply index_lt; lia).
  destruct (lookup_lt_is_Some_2 df _ Hi) as [cur Hcur].
  destruct (four_reads df (y * W + x)
              ((y - 1) * W + (x - 1), SQRT2) ((y - 1) * W + x, one)
              ((y - 1) * W + (x + 1), SQRT2) (y * W + (x - 1), one) cur Hcur)
    as (u1 & u2 & u3 & u4 & H1 & H2 & H3 & H4 & E);
    [|unfold st_cands_fwd; rewrite E; simpl in H1, H2, H3, H4;
      unfold Sticker.forward_cell; rewrite Hcur, H1, H2, H3, H4; reflexivity].
  intros c Hin. simpl in Hin.
  repeat (destruct Hin as [<-|Hin];
          [simpl; split;
           [intros E; apply index_inj in E; lia
           | rewrite Hlen; apply index_lt; lia]|]).
  contradiction.
Qed.

Lemma st_bwd_relaxes W H y x df :
  length df = W * H -> region W H 1 x y ->
  Sticker.backward_cell W y x df = relaxes (y * W + x) (st_cands_bwd W y x) df.
Proof.
  intros Hlen [Hx Hy].
  assert (Hi : y * W + x < length df) by (rewrite Hlen; apply index_lt; lia).
  destruct (lookup_lt_is_Some_2 df _ Hi) as [cur Hcur].
  destruct (four_reads df (y * W + x)
              (y * W + (x + 1), one) ((y + 1) * W + (x - 1), SQRT2)
              ((y + 1) * W + x, one) ((y + 1) * W + (x + 1), SQRT2) cur Hcur)
    as (u1 & u2 & u3 & u4 & H1 & H2 & H3 & H4 & E);
    [|unfold st_cands_bwd; rewrite E; simpl in H1, H2, H3, H4;
      unfold Sticker.backward_cell; rewrite Hcur, H1, H2, H3, H4; reflexivity].
  intros c Hin. simpl in Hin.
  repeat (destruct Hin as [<-|Hin];
          [simpl; split;
           [intros E; apply index_inj in E; lia
           | rewrite Hlen; apply index_lt; lia]|]).
  contradiction.
Qed.

Lemma st_fwd_spec W H : cell_spec W H 1 nb_fwd (Sticker.forward_cell W).
Proof.
  apply (relaxes_cell_spec W H 1 nb_fwd _ (st_cands_fwd W)); [apply proper_fwd|].
  intros df x y Hlen Hreg.
  split; [now apply st_fwd_cands_ok | now apply (st_fwd_relaxes W H)].
Qed.

Lemma st_bwd_spec W H : cell_spec W H 1 nb_bwd (Sticker.backward_cell W).
Proof.
  apply (relaxes_cell_spec W H 1 nb_bwd _ (st_cands_bwd W)); [apply proper_bwd|].
  intros df x y Hlen Hreg.
  split; [now apply st_bwd_cands_ok | now apply (st_bwd_relaxes W H)].
Qed.

(** *** The passes keep the size of the field *)

Lemma pass_fwd_length W H lo nb cell df :
  cell_spec W H lo nb cell -> length df = W * H ->
  length (pass_fwd W H lo cell df) = W * H.
Proof.
  intros Hspec Hlen. unfold pass_fwd.
  destruct (le_lt_dec lo (H - lo)) as [Hle|Hgt];
    [|rewrite for_up_empty by lia; exact Hlen].
  apply (for_up_inv (fun _ d => length d = W * H)); [exact Hle | exact Hlen |].
  intros ky d Hky Hd.
  destruct (le_lt_dec lo (W - lo)) as [Hle'|Hgt'];
    [|rewrite for_up_empty by lia; exact Hd].
  apply (for_up_inv (fun _ d' => length d' = W * H)); [exact Hle' | exact Hd |].
  intros kx d' Hkx Hd'. apply Hspec; [exact Hd' | unfold region; lia].
Qed.

Lemma pass_bwd_length W H lo nb cell df :
  cell_spec W H lo nb cell -> length df = W * H ->
  length (pass_bwd W H lo cell df) = W * H.
Proof.
  intros Hspec Hlen. unfold pass_bwd.
  destruct (le_lt_dec lo (H - lo)) as [Hle|Hgt];
    [|rewrite for_down_empty by lia; exact Hlen].
  apply (for_down_inv (fun _ d => length d = W * H)); [exact Hle | exact Hlen |].
  intros ky d Hky Hd.
  destruct (le_lt_dec lo (W - lo)) as [Hle'|Hgt'];
    [|rewrite for_down_empty by lia; exact Hd].
  apply (for_down_inv (fun _ d' => length d' = W * H)); [exact Hle' | exact Hd |].
  intros kx d' Hkx Hd'. apply Hspec; [exact Hd' | unfold region; lia].
Qed.

End ChamferFacts.

(** ** The distance fields of the two tools *)

Module DistanceFacts.
Import Loops Raster Sqrt2 Sqrt2Facts LoopFacts IndexFacts FillFacts ChamferFacts MaskFacts.

(** *** add_second_edge *)

Lemma se_alpha_mask_spec (expanded : list pixel) (n i : nat) :
  i < n ->
  SecondEdge.alpha_mask expanded n !! i =
  Some (match expanded !! i with
        | Some px => (0 <? alpha px)%Z
        | None => false
        end).
Proof.
  intros Hi. unfold SecondEdge.alpha_mask.
  apply (fill_spec (fun i => match expanded !! i with
                             | Some px => (0 <? alpha px)%Z
                             | None => false
                             end) n (replicate n false));
    [apply length_replicate | exact Hi].
Qed.

Lemma se_init_df_spec (mask : list bool) (n : nat) :
  length (SecondEdge.init_df mask n) = n /\
  forall i, i < n ->
    SecondEdge.init_df mask n !! i = Some (if bit mask i then zero else SecondEdge.INF).
Proof.
  unfold SecondEdge.init_df.
  apply (fill_spec (fun i => if bit mask i then zero else SecondEdge.INF)).
  apply length_replicate.
Qed.

Lemma se_passes W H df :
  SecondEdge.backward_pass W H (SecondEdge.forward_pass W H df) =
  pass_bwd W H 0 (SecondEdge.backward_cell W H)
           (pass_fwd W H 0 (SecondEdge.forward_cell W) df).
Proof.
  unfold SecondEdge.backward_pass, SecondEdge.forward_pass, pass_bwd, pass_fwd.
  now rewrite !Nat.sub_0_r.
Qed.



(** The distance field of a mask with the single seed [(sx, sy)]. *)
Lemma se_single_seed (W H : nat) (mask : list bool) (sx sy x y : nat) :
  sx < W -> sy < H ->
  (forall i, i < W * H -> (bit mask i = true <-> i = sy * W + sx)) ->
  x < W -> y < H ->
  leb (chamfer (Z.of_nat x - Z.of_nat sx) (Z.of_nat y - Z.of_nat sy))
      SecondEdge.INF = true ->
  SecondEdge.distance_field W H mask !! (y * W + x) =
  Some (chamfer (Z.of_nat x - Z.of_nat sx) (Z.of_nat y - Z.of_nat sy)).
Proof.
  intros Hsx Hsy Hmask Hx Hy Hle.
  unfold SecondEdge.distance_field. rewrite se_passes.
  destruct (se_init_df_spec mask (W * H)) as [Hlen Hinit].
  apply (two_pass_exact W H 0 _ _ (se_fwd_spec W H) (se_bwd_spec W H)
                        sx sy SecondEdge.INF).
  - unfold region. lia.
  - constructor.
    + exact Hlen.
    + rewrite Hinit by (now apply index_lt).
      replace (bit mask (sy * W + sx)) with true; [reflexivity|].
      symmetry. apply Hmask; [now apply index_lt | reflexivity].
    + intros x0 y0 Hx0 Hy0 Hne.
      rewrite Hinit by (now apply index_lt).
      destruct (bit mask (y0 * W + x0)) eqn:E; [|reflexivity].
      apply Hmask in E; [|now apply index_lt].
      apply index_inj in E; [|assumption|assumption].
      destruct E; congruence.
  - unfold region. lia.
  - now apply leb_spec.
Qed.

(** *** createRasterSmoothBorder *)

Lemma st_init_df_spec (W H : nat) (strokePx : Z) (seed : nat -> bool) :
  length (Sticker.init_df W H strokePx seed) = W * H /\
  forall x y, x < W -> y < H ->
    Sticker.init_df W H strokePx seed !! (y * W + x) =
    Some (if seed (y * W + x) then zero else of_Z (strokePx * 2)).
Proof.
  set (g := fun y x => if seed (y * W + x) then Some zero else None).
  assert (E : Sticker.init_df W H strokePx seed =
              for_up 0 H
                (fun y c =>
                   for_up 0 W
                     (fun x c' =>
                        match g y x with
                        | Some v => <[y * W + x := v]> c'
                        | None => c'
                        end) c)
                (replicate (W * H) (of_Z (strokePx * 2)))).
  { unfold Sticker.init_df. apply for_up_ext. intros y c.
    apply for_up_ext. intros x c'. unfold g.
    destruct (seed (y * W + x)); reflexivity. }
  rewrite E.
  destruct (fill2_spec W H g (replicate (W * H) (of_Z (strokePx * 2))))
    as [Hlen Hr]; [apply length_replicate|].
  split; [exact Hlen|].
  intros x y Hx Hy. rewrite Hr by assumption. unfold g.
  destruct (seed (y * W + x)); [reflexivity|].
  apply lookup_replicate_2. now apply index_lt.
Qed.

Lemma st_distance_field_length W H strokePx seed :
  length (Sticker.distance_field W H strokePx seed) = W * H.
Proof.
  unfold Sticker.distance_field.
  apply (pass_bwd_length W H 1 nb_bwd); [apply st_bwd_spec|].
  apply (pass_fwd_length W H 1 nb_fwd); [apply st_fwd_spec|].
  apply st_init_df_spec.
Qed.

Lemma st_single_seed (W H : nat) (strokePx : Z) (seed : nat -> bool)
      (sx sy x y : nat) :
  1 <= sx < W - 1 -> 1 <= sy < H - 1 ->
  (forall i, i < W * H -> (seed i = true <-> i = sy * W + sx)) ->
  1 <= x < W - 1 -> 1 <= y < H - 1 ->
  leb (chamfer (Z.of_nat x - Z.of_nat sx) (Z.of_nat y - Z.of_nat sy))
      (of_Z (strokePx * 2)) = true ->
  Sticker.distance_field W H strokePx seed !! (y * W + x) =
  Some (chamfer (Z.of_nat x - Z.of_nat sx) (Z.of_nat y - Z.of_nat sy)).
Proof.
  intros Hsx Hsy Hseed Hx Hy Hle.
  unfold Sticker.distance_field.
  destruct (st_init_df_spec W H strokePx seed) as [Hlen Hinit].
  apply (two_pass_exact W H 1 _ _ (st_fwd_spec W H) (st_bwd_spec W H)
                        sx sy (of_Z (strokePx * 2))).
  - unfold region. lia.
  - constructor.
    + exact Hlen.
    + rewrite Hinit by lia.
      replace (seed (sy * W + sx)) with true; [reflexivity|].
      symmetry. apply Hseed; [apply index_lt; lia | reflexivity].
    + intros x0 y0 Hx0 Hy0 Hne.
      rewrite Hinit by assumption.
      destruct (seed (y0 * W + x0)) eqn:E; [|reflexivity].
      apply Hseed in E; [|now apply index_lt].
      apply index_inj in E; [|lia|lia].
      destruct E; congruence.
  - unfold region. lia.
  - now apply leb_spec.
Qed.

(** The generation loop, pixel by pixel. *)
Lemma st_generate_spec (W H : nat) (strokePx : Z) (expandedData : list pixel)
      (df : list t) (border : t -> option pixel) (x y : nat) :
  x < W -> y < H ->
  Sticker.generate W H strokePx expandedData df border !! (y * W + x) =
  Some (match
           (if Sticker.alpha_above 0 expandedData (y * W + x)
            then expandedData !! (y * W + x)
            else match df !! (y * W + x) with
                 | Some distance =>
                     if leb distance (of_Z strokePx) then border distance else None
                 | None => None
                 end)
         with
         | Some px => px
         | None => clear
         end).
Proof.
  intros Hx Hy. unfold Sticker.generate.
  set (g := fun y x =>
    if Sticker.alpha_above 0 expandedData (y * W + x)
    then expandedData !! (y * W + x)
    else match df !! (y * W + x) with
         | Some distance =>
             if leb distance (of_Z strokePx) then border distance else None
         | None => None
         end).
  destruct (fill2_spec W H g (replicate (W * H) clear)) as [_ Hr];
    [apply length_replicate|].
  unfold g in Hr. rewrite Hr by assumption.
  match goal with |- context [match ?c with Some _ => _ | None => _ end] =>
    destruct c end; [reflexivity|].
  apply lookup_replicate_2. now apply index_lt.
Qed.

End DistanceFacts.

(** ** Properties of the ring and of the sticker border *)

Module BorderProps.
Import Loops Raster Sqrt2 Sqrt2Facts IndexFacts ChamferFacts DistanceFacts MaskFacts.

(** A canvas whose only pixel of non-zero alpha is the opaque pixel [i0]. *)
Definition lone_pixel (canvas : list pixel) (n i0 : nat) : Prop :=
  length canvas = n /\ i0 < n /\
  forall i px, canvas !! i = Some px ->
               if decide (i = i0) then (127 < alpha px)%Z else (alpha px <= 0)%Z.

Lemma lone_pixel_above (canvas : list pixel) (n i0 : nat) (t : Z) (i : nat) :
  lone_pixel canvas n i0 -> (0 <= t <= 127)%Z -> i < n ->
  (Sticker.alpha_above t canvas i = true <-> i = i0).
Proof.
  intros (Hlen & Hi0 & Hpx) Ht Hi. unfold Sticker.alpha_above.
  destruct (canvas !! i) as [px|] eqn:E.
  - specialize (Hpx i px E). rewrite Z.ltb_lt.
    destruct (decide (i = i0)); split; intros; try lia; congruence.
  - apply lookup_ge_None in E. lia.
Qed.

Lemma lone_pixel_mask (canvas : list pixel) (n i0 i : nat) :
  lone_pixel canvas n i0 -> i < n ->
  (bit (SecondEdge.alpha_mask canvas n) i = true <-> i = i0).
Proof.
  intros Hl Hi. unfold bit. rewrite se_alpha_mask_spec by exact Hi.
  apply (lone_pixel_above canvas n i0 0 i Hl); [lia | exact Hi].
Qed.

(** Without the rounding of the [Float32Array], around a single seed
    placed away from the border of the canvas, the two passes leave at
    every interior pixel whose chamfer value is below the starting value
    exactly [min(|dx|,|dy|) * sqrt 2 + (max(|dx|,|dy|) - min(|dx|,|dy|))],
    in add_second_edge (starting value 1e9) and in both revisions of
    createRasterSmoothBorder (starting value [2 * strokePx]). *)
Theorem single_seed_distance_unrounded
        (W H : nat) (canvas : list pixel) (strokePx : Z) (sx sy x y : nat) :
  1 <= sx < W - 1 -> 1 <= sy < H - 1 ->
  lone_pixel canvas (W * H) (sy * W + sx) ->
  1 <= x < W - 1 -> 1 <= y < H - 1 ->
  let dx := (Z.of_nat x - Z.of_nat sx)%Z in
  let dy := (Z.of_nat y - Z.of_nat sy)%Z in
  ltb (chamfer dx dy) SecondEdge.INF = true ->
  ltb (chamfer dx dy) (of_Z (strokePx * 2)) = true ->
  SecondEdge.distance_field W H (SecondEdge.alpha_mask canvas (W * H)) !! (y * W + x)
    = Some (chamfer dx dy) /\
  Sticker.distance_field W H strokePx (Sticker.alpha_above 127 canvas) !! (y * W + x)
    = Some (chamfer dx dy) /\
  Sticker.distance_field W H strokePx (Sticker.alpha_above 0 canvas) !! (y * W + x)
    = Some (chamfer dx dy) /\
  toR (chamfer dx dy) =
    (IZR (Z.min (Z.abs dx) (Z.abs dy)) * sqrt 2
     + (IZR (Z.max (Z.abs dx) (Z.abs dy)) - IZR (Z.min (Z.abs dx) (Z.abs dy))))%R.
Proof.
  intros Hsx Hsy Hlone Hx Hy dx dy Hinf Hstroke.
  assert (Hle1 : leb (chamfer dx dy) SecondEdge.INF = true).
  { apply leb_spec. apply ltb_spec in Hinf. lra. }
  assert (Hle2 : leb (chamfer dx dy) (of_Z (strokePx * 2)) = true).
  { apply leb_spec. apply ltb_spec in Hstroke. lra. }
  split; [|split; [|split]].
  - apply se_single_seed; try lia; [|exact Hle1].
    intros i Hi. now apply lone_pixel_mask.
  - apply st_single_seed; try lia; [|exact Hle2].
    intros i Hi. apply (lone_pixel_above canvas (W * H)); [exact Hlone | lia | exact Hi].
  - apply st_single_seed; try lia; [|exact Hle2].
    intros i Hi. apply (lone_pixel_above canvas (W * H)); [exact Hlone | lia | exact Hi].
  - apply toR_chamfer.
Qed.

Definition seed_canvas : list pixel := <[12 := Pixel 0 0 0 255]> (replicate 25 clear).

Lemma seed_canvas_lone : lone_pixel seed_canvas (5 * 5) (2 * 5 + 2).
Proof.
  split; [reflexivity|]. split; [simpl; lia|].
  intros i px Hl.
  do 25 (destruct i as [|i]; [inversion Hl; subst px; simpl; lia|]).
  discriminate Hl.
Qed.

Lemma single_seed_distance_unrounded_at_3_1 :
  SecondEdge.distance_field 5 5 (SecondEdge.alpha_mask seed_canvas (5 * 5)) !! (1 * 5 + 3)
    = Some (chamfer (3 - 2) (1 - 2)) /\
  Sticker.distance_field 5 5 8 (Sticker.alpha_above 127 seed_canvas) !! (1 * 5 + 3)
    = Some (chamfer (3 - 2) (1 - 2)) /\
  Sticker.distance_field 5 5 8 (Sticker.alpha_above 0 seed_canvas) !! (1 * 5 + 3)
    = Some (chamfer (3 - 2) (1 - 2)) /\
  toR (chamfer (3 - 2) (1 - 2)) =
    (IZR (Z.min (Z.abs (3 - 2)) (Z.abs (1 - 2))) * sqrt 2
     + (IZR (Z.max (Z.abs (3 - 2)) (Z.abs (1 - 2)))
        - IZR (Z.min (Z.abs (3 - 2)) (Z.abs (1 - 2)))))%R.
Proof.
  apply (single_seed_distance_unrounded 5 5 seed_canvas 8 2 2 3 1).
  - lia.
  - lia.
  - exact seed_canvas_lone.
  - lia.
  - lia.
  - reflexivity.
  - reflexivity.
Defined.


(** A 13 x 1 canvas whose leftmost pixel is opaque: the pixel at [x] is at
    distance [x]. *)
Definition strip : list pixel := Pixel 0 0 0 255 :: replicate 12 clear.

Lemma strip_ring :
  SecondEdge.distance_field 13 1 (SecondEdge.alpha_mask strip 13)
    = map (fun k => of_Z (Z.of_nat k)) (seq 0 13) /\
  SecondEdge.ring_of 13 1 strip 5 5
    = [0; 0; 0; 0; 0; 0; 255; 255; 255; 255; 255; 0; 0]%Z.
Proof. split; vm_compute; reflexivity. Qed.


(** C10. The raster border generator copies every pixel of non-zero alpha
    unchanged, in the hard-ring revision and in the smooth-falloff one;
    a pixel of alpha 0 stays clear or becomes a white border pixel. *)
Theorem C10_subject_pixels_kept
        (falloff : t -> Z) (W H : nat) (strokePx : Z)
        (expandedData : list pixel) (i : nat) (px : pixel) :
  i < W * H -> expandedData !! i = Some px ->
  let hard := Sticker.createRasterSmoothBorder_hard W H strokePx expandedData in
  let soft := Sticker.createRasterSmoothBorder_soft falloff W H strokePx expandedData in
  ((0 < alpha px)%Z -> hard !! i = Some px /\ soft !! i = Some px) /\
  ((alpha px <= 0)%Z ->
   (hard !! i = Some clear \/ hard !! i = Some (Pixel 255 255 255 255)) /\
   (soft !! i = Some clear \/
    exists a, (0 < a)%Z /\ soft !! i = Some (Pixel 255 255 255 a))).
Proof.
  intros Hi Hpx hard soft.
  destruct (index_split W H i Hi) as (x & y & Hx & Hy & ->).
  unfold hard, soft, Sticker.createRasterSmoothBorder_hard,
    Sticker.createRasterSmoothBorder_soft.
  rewrite !st_generate_spec by assumption.
  assert (Hab : Sticker.alpha_above 0 expandedData (y * W + x) = (0 <? alpha px)%Z).
  { unfold Sticker.alpha_above. now rewrite Hpx. }
  rewrite !Hab, Hpx.
  split.
  - intros Ha. replace (0 <? alpha px)%Z with true by (symmetry; now apply Z.ltb_lt).
    split; reflexivity.
  - intros Ha. replace (0 <? alpha px)%Z with false by (symmetry; apply Z.ltb_ge; lia).
    cbv iota. split.
    + destruct (Sticker.distance_field _ _ _ _ !! (y * W + x)) as [d|]; [|now left].
      destruct (leb d (of_Z strokePx)); [now right | now left].
    + destruct (Sticker.distance_field _ _ _ _ !! (y * W + x)) as [d|]; [|now left].
      destruct (leb d (of_Z strokePx)); [|now left].
      destruct (Z.ltb_spec 0 (falloff d)) as [Hpos|]; [|now left].
      right. exists (falloff d). split; [exact Hpos | reflexivity].
Qed.

Lemma C10_subject_pixels_kept_witness :
  ((0 < alpha (Pixel 0 0 0 255))%Z ->
   Sticker.createRasterSmoothBorder_hard 5 5 1 seed_canvas !! 12 = Some (Pixel 0 0 0 255) /\
   Sticker.createRasterSmoothBorder_soft (fun _ => 128%Z) 5 5 1 seed_canvas !! 12
     = Some (Pixel 0 0 0 255)) /\
  ((alpha (Pixel 0 0 0 255) <= 0)%Z ->
   (Sticker.createRasterSmoothBorder_hard 5 5 1 seed_canvas !! 12 = Some clear \/
    Sticker.createRasterSmoothBorder_hard 5 5 1 seed_canvas !! 12
      = Some (Pixel 255 255 255 255)) /\
   (Sticker.createRasterSmoothBorder_soft (fun _ => 128%Z) 5 5 1 seed_canvas !! 12
      = Some clear \/
    exists a, (0 < a)%Z /\
      Sticker.createRasterSmoothBorder_soft (fun _ => 128%Z) 5 5 1 seed_canvas !! 12
        = Some (Pixel 255 255 255 a))).
Proof.
  apply (C10_subject_pixels_kept (fun _ => 128%Z) 5 5 1 seed_canvas 12 (Pixel 0 0 0 255)).
  - simpl. lia.
  - reflexivity.
Defined.

End BorderProps.

(** ** The relief shader *)

Module BevelFacts.
Import Loops Raster LoopFacts FillFacts Bevel.



Section Shade.
Variable hypot : JS.num -> JS.num -> JS.num.
Variables (W H : nat) (rimMask : list bool) (gx gy : list JS.num).
Variables (lx ly intensity : JS.num).







End Shade.

End BevelFacts.

Module BevelProps.
Import Raster Bevel BevelFacts.

(** [Math.hypot] where one of the two arguments is 0. *)
Definition hypot_axis (a b : JS.num) : JS.num :=
  match a, b with
  | JS.Fin x, JS.Fin y =>
      if Qeq_bool y 0 then JS.Fin (Qabs.Qabs x)
      else if Qeq_bool x 0 then JS.Fin (Qabs.Qabs y)
      else JS.NaN
  | _, _ => JS.NaN
  end.

(** The layers hold bytes: for a rim pixel whose gradient [(-1, 0)] is
    opposite to the light [(1, 0)] and intensity 0.35 the product
    [255 * intensity * |dot|] is 89.25, and the shadow alpha stored is 89. *)
Example shadow_alpha_is_a_byte :
  let gx := [JS.Fin (-1)] in
  let gy := [JS.Fin 0] in
  let d := ndotl hypot_axis (float_at gx 0) (float_at gy 0) (JS.Fin 1) (JS.Fin 0) in
  JS.ltb d (JS.of_Z 0) = true /\
  (exists q, JS.mul (JS.mul (JS.of_Z 255) (JS.Fin 0.35)) (JS.Math_abs d) = JS.Fin q /\
             (q == 89.25)%Q) /\
  shadowRGBA (shade hypot_axis 1 1 [true] gx gy (JS.Fin 1) (JS.Fin 0) (JS.Fin 0.35))
    = [Pixel 0 0 0 89] /\
  ~ (inject_Z 89 == 89.25)%Q.
Proof.
  split; [reflexivity|]. split; [|split].
  - eexists. split; [reflexivity|]. reflexivity.
  - vm_compute. reflexivity.
  - discriminate.
Qed.



(** With full intensity and a gradient opposite to the light the shadow
    alpha is 255 and the highlight layer is clear; with the gradient along
    the light it is the other way round. *)
Example relief_sign_convention :
  shade hypot_axis 1 1 [true] [JS.Fin (-1)] [JS.Fin 0] (JS.Fin 1) (JS.Fin 0) (JS.Fin 1)
    = Layers [Pixel 0 0 0 255] [clear] /\
  shade hypot_axis 1 1 [true] [JS.Fin 1] [JS.Fin 0] (JS.Fin 1) (JS.Fin 0) (JS.Fin 1)
    = Layers [clear] [Pixel 255 255 255 255].
Proof. split; vm_compute; reflexivity. Qed.

End BevelProps.

(** ** The connected-component scan *)

Module ComponentFacts.
Import Loops Raster Silhouette MaskFacts LoopFacts IndexFacts FillFacts.

Lemma has_spec (c : list nat) (i : nat) : has c i = true <-> i ∈ c.
Proof.
  unfold has. rewrite existsb_exists, list_elem_of_In. split.
  - intros (x & Hx & E). apply Nat.eqb_eq in E. now subst.
  - intros Hi. exists i. split; [exact Hi | apply Nat.eqb_refl].
Qed.

Lemma set_add_fresh (c : list nat) (i : nat) : i ∉ c -> set_add c i = c ++ [i].
Proof.
  intros Hi. unfold set_add. destruct (has c i) eqn:E; [|reflexivity].
  apply has_spec in E. contradiction.
Qed.

Lemma unmarked_le (m : list bool) : unmarked m <= length m.
Proof. induction m as [|[] m IH]; simpl; lia. Qed.

Lemma fold_left_preserve {A B : Type} (P : A -> Prop) (f : A -> B -> A) (l : list B) :
  (forall a b, P a -> P (f a b)) -> forall a, P a -> P (fold_left f l a).
Proof.
  intros Hf. induction l as [|b l IH]; intros a Ha; simpl; [exact Ha|].
  apply IH. now apply Hf.
Qed.

Section Search.
Variables (W H : nat) (opaque : list bool).

(** The array [visited] when the flood fill starts, and the pixel it starts
    from. *)
Variables (V0 : list bool) (i0 : nat).

(** The pixels collected so far, then those still waiting. *)
Definition pending (st : search) : list nat := component st ++ queue st.

Definition weight (st : search) : nat := length (queue st) + unmarked (visited st).

Record sinv (st : search) : Prop := {
  sv_len : length (visited st) = W * H;
  sv_mono : forall j, bit V0 j = true -> bit (visited st) j = true;
  sv_new : forall j, bit (visited st) j = true -> bit V0 j = true \/ j ∈ pending st;
  sv_fresh : forall j, j ∈ pending st ->
               bit V0 j = false /\ bit opaque j = true /\ bit (visited st) j = true;
  sv_nodup : NoDup (pending st);
  sv_head : hd_error (pending st) = Some i0
}.

Lemma probe_cases cy cx dy dx st :
  probe W H opaque cy cx dy dx st = st \/
  exists ni,
    ni < W * H /\ bit opaque ni = true /\ bit (visited st) ni = false /\
    probe W H opaque cy cx dy dx st =
    Search (<[ni := true]> (visited st)) (queue st ++ [ni]) (component st).
Proof.
  unfold probe.
  destruct ((dx =? 0)%Z && (dy =? 0)%Z); [now left|].
  set (ny := (Z.of_nat cy + dy)%Z). set (nx := (Z.of_nat cx + dx)%Z).
  destruct ((ny <? 0)%Z || (Z.of_nat H <=? ny)%Z || (nx <? 0)%Z || (Z.of_nat W <=? nx)%Z)
    eqn:Eb; [now left|].
  rewrite !orb_false_iff in Eb. destruct Eb as [[[E1 E2] E3] E4].
  apply Z.ltb_ge in E1, E3. apply Z.leb_gt in E2, E4.
  set (ni := Z.to_nat (ny * Z.of_nat W + nx)).
  destruct (bit opaque ni) eqn:Eo; simpl; [|now left].
  destruct (bit (visited st) ni) eqn:Ev; [now left|].
  right. exists ni. repeat split; try assumption.
  unfold ni. replace (Z.to_nat (ny * Z.of_nat W + nx))
    with (Z.to_nat ny * W + Z.to_nat nx) by nia.
  apply index_lt; lia.
Qed.

Lemma hd_error_snoc {A : Type} (l : list A) (x a : A) :
  hd_error l = Some a -> hd_error (l ++ [x]) = Some a.
Proof. now destruct l. Qed.

Lemma probe_inv cy cx dy dx st :
  sinv st -> sinv (probe W H opaque cy cx dy dx st).
Proof.
  intros Hs.
  destruct (probe_cases cy cx dy dx st) as [->|(ni & Hni & Ho & Hv & ->)];
    [exact Hs|].
  destruct Hs as [Hlen Hmono Hnew Hfresh Hnd Hhd].
  assert (Hpend : pending (Search (<[ni := true]> (visited st)) (queue st ++ [ni])
                                  (component st)) = pending st ++ [ni]).
  { unfold pending. simpl. now rewrite app_assoc. }
  assert (Hnot : ni ∉ pending st).
  { intros Hin. apply Hfresh in Hin. destruct Hin as (_ & _ & Hin). congruence. }
  constructor; rewrite ?Hpend; simpl.
  - now rewrite length_insert.
  - intros j Hj. apply bit_insert_true. now apply Hmono.
  - intros j Hj. destruct (decide (ni = j)) as [->|Hne].
    + right. apply elem_of_app. right. now apply list_elem_of_singleton.
    + rewrite bit_insert_ne in Hj by exact Hne.
      destruct (Hnew j Hj) as [|Hin]; [now left|].
      right. apply elem_of_app. now left.
  - intros j Hj. apply elem_of_app in Hj. destruct Hj as [Hj|Hj].
    + destruct (Hfresh j Hj) as (H1 & H2 & H3).
      repeat split; try assumption. now apply bit_insert_true.
    + apply list_elem_of_singleton in Hj. subst j. repeat split.
      * destruct (bit V0 ni) eqn:E; [|reflexivity].
        apply Hmono in E. congruence.
      * exact Ho.
      * apply bit_insert_eq. lia.
  - apply NoDup_app. repeat split; [exact Hnd | | apply NoDup_singleton].
    intros j Hj Hj'. apply list_elem_of_singleton in Hj'. now subst j.
  - now apply hd_error_snoc.
Qed.

(** A probe keeps the invariant and the weight. *)
Definition kept (w : nat) (st : search) : Prop := sinv st /\ weight st = w.

Lemma probe_kept w cy cx dy dx st :
  kept w st -> kept w (probe W H opaque cy cx dy dx st).
Proof.
  intros [Hs Hw]. split; [now apply probe_inv|].
  destruct (probe_cases cy cx dy dx st) as [->|(ni & Hni & Ho & Hv & ->)];
    [exact Hw|].
  unfold weight in *. simpl. rewrite length_app. simpl.
  assert (Hlt : ni < length (visited st)) by (rewrite (sv_len st Hs); exact Hni).
  pose proof (unmarked_insert (visited st) ni Hv Hlt). lia.
Qed.

Lemma expand_kept w curr st : kept w st -> kept w (expand W H opaque curr st).
Proof.
  unfold expand. apply fold_left_preserve. intros s dy Hs.
  revert s Hs. apply fold_left_preserve. intros s dx Hs. now apply probe_kept.
Qed.

(** Taking [curr] off the queue and adding it to the component. *)
Lemma shift_kept w st curr rest :
  kept (S w) st -> queue st = curr :: rest ->
  kept w (Search (visited st) rest (set_add (component st) curr)).
Proof.
  intros [Hs Hw] Hq.
  assert (Hpend : pending st = component st ++ curr :: rest)
    by (unfold pending; now rewrite Hq).
  assert (Hfresh : curr ∉ component st).
  { pose proof (sv_nodup st Hs) as Hnd. rewrite Hpend in Hnd.
    apply NoDup_app in Hnd. destruct Hnd as (_ & Hd & _).
    intros Hin. apply (Hd curr Hin). now left. }
  rewrite set_add_fresh by exact Hfresh.
  assert (Hsame : pending (Search (visited st) rest (component st ++ [curr]))
                  = pending st).
  { rewrite Hpend. unfold pending. simpl. now rewrite <- app_assoc. }
  split.
  - destruct Hs as [Hlen Hmono Hnew Hfr Hnd Hhd].
    constructor; rewrite ?Hsame; assumption.
  - unfold weight in *. rewrite Hq in Hw. simpl in *. lia.
Qed.

(** The loop ends before the bound and leaves the queue empty. *)
Lemma search_loop_spec :
  forall fuel w st,
    w < fuel -> kept w st ->
    exists st',
      search_loop W H opaque fuel st = Some st' /\ sinv st' /\ queue st' = [].
Proof.
  induction fuel as [|fuel IH]; intros w st Hw Hk; [lia|].
  simpl. destruct (queue st) as [|curr rest] eqn:Hq.
  - exists st. split; [reflexivity|]. split; [apply Hk | exact Hq].
  - destruct w as [|w].
    { destruct Hk as [_ Hk]. unfold weight in Hk. rewrite Hq in Hk. simpl in Hk. lia. }
    apply (IH w); [lia|].
    apply expand_kept. now apply shift_kept.
Qed.

(** The flood fill started at the unvisited opaque pixel [i0]. *)
Lemma search_from_seed :
  length V0 = W * H -> i0 < W * H -> bit V0 i0 = false -> bit opaque i0 = true ->
  exists r,
    search_loop W H opaque (S (W * H)) (Search (<[i0 := true]> V0) [i0] []) = Some r /\
    length (visited r) = W * H /\
    (forall j, bit V0 j = true -> bit (visited r) j = true) /\
    (forall j, bit (visited r) j = true -> bit V0 j = true \/ j ∈ component r) /\
    (forall j, j ∈ component r ->
               bit V0 j = false /\ bit opaque j = true /\ bit (visited r) j = true) /\
    NoDup (component r) /\
    hd_error (component r) = Some i0.
Proof.
  intros Hlen Hi0 Hv Ho.
  set (st0 := Search (<[i0 := true]> V0) [i0] []).
  assert (Hk : kept (unmarked V0) st0).
  { split.
    - constructor; simpl.
      + now rewrite length_insert.
      + intros j Hj. now apply bit_insert_true.
      + intros j Hj. destruct (decide (i0 = j)) as [->|Hne].
        * right. now apply list_elem_of_singleton.
        * left. now rewrite bit_insert_ne in Hj.
      + intros j Hj. apply list_elem_of_singleton in Hj. subst j.
        repeat split; try assumption. apply bit_insert_eq. lia.
      + apply NoDup_singleton.
      + reflexivity.
    - unfold weight. simpl.
      pose proof (unmarked_insert V0 i0 Hv ltac:(lia)). lia. }
  destruct (search_loop_spec (S (W * H)) (unmarked V0) st0) as (r & Hr & Hs & Hq).
  { pose proof (unmarked_le V0). lia. }
  { exact Hk. }
  exists r. split; [exact Hr|].
  destruct Hs as [Hl Hmono Hnew Hfr Hnd Hhd].
  unfold pending in *. rewrite Hq, app_nil_r in *.
  repeat split; try assumption; apply Hfr; assumption.
Qed.

End Search.

(** *** The scan visits the pixels in index order *)

Lemma iter_up_app {St : Type} (f : nat -> St -> St) :
  forall n m lo s, iter_up lo (n + m) f s = iter_up (lo + n) m f (iter_up lo n f s).
Proof.
  induction n as [|n IH]; intros m lo s; simpl.
  - now rewrite Nat.add_0_r.
  - rewrite IH. now replace (S lo + n) with (lo + S n) by lia.
Qed.

Lemma iter_up_shift {St : Type} (f : nat -> St -> St) (c : nat) :
  forall n lo s, iter_up lo n (fun k => f (c + k)) s = iter_up (c + lo) n f s.
Proof.
  induction n as [|n IH]; intros lo s; simpl; [reflexivity|].
  rewrite IH. now replace (c + S lo) with (S (c + lo)) by lia.
Qed.

(** The loops over the rows and the columns are one loop over the indices
    [y * W + x]. *)
Lemma for_up_flatten {St : Type} (f : nat -> St -> St) (W : nat) :
  forall H s,
    for_up 0 H (fun y s' => for_up 0 W (fun x s'' => f (y * W + x) s'') s') s =
    for_up 0 (H * W) f s.
Proof.
  unfold for_up. intros H s. rewrite !Nat.sub_0_r.
  induction H as [|H IH]; [reflexivity|].
  replace (S H) with (H + 1) at 1 by lia. rewrite iter_up_app, IH. simpl.
  rewrite iter_up_shift.
  replace (W + H * W) with (H * W + W) by lia.
  rewrite iter_up_app. now rewrite !Nat.add_0_r, !Nat.add_0_l.
Qed.

Section Scan.
Variables (W H : nat) (opaque : list bool).

(** The state of the scan when it stands at the index [k]. *)
Record scan_inv (k : nat) (s : scan) : Prop := {
  sc_len : length (seen s) = W * H;
  sc_done : forall j, j < k -> bit opaque j = true -> bit (seen s) j = true;
  sc_comp : forall c, c ∈ components s ->
    exists h, hd_error c = Some h /\ h < k /\ NoDup c /\ 10 < length c /\
              forall j, j ∈ c -> h <= j /\ bit (seen s) j = true /\ bit opaque j = true;
  sc_order : forall a b c1 c2 h1 h2,
    a < b -> components s !! a = Some c1 -> components s !! b = Some c2 ->
    hd_error c1 = Some h1 -> hd_error c2 = Some h2 -> h1 < h2;
  sc_disj : forall a b c1 c2 j,
    a <> b -> components s !! a = Some c1 -> components s !! b = Some c2 ->
    j ∈ c1 -> j ∉ c2
}.

Lemma scan_start : scan_inv 0 (Scan (replicate (W * H) false) []).
Proof.
  constructor; simpl.
  - apply length_replicate.
  - intros; lia.
  - intros c Hc. now apply elem_of_nil in Hc.
  - intros a b c1 c2 h1 h2 _ Ha. now rewrite lookup_nil in Ha.
  - intros a b c1 c2 j _ Ha. now rewrite lookup_nil in Ha.
Qed.

Lemma scan_pixel_Some (i : nat) (s : scan) :
  scan_pixel W H opaque i (Some s) =
  if negb (bit opaque i) || bit (seen s) i then Some s
  else
    r ← search_loop W H opaque (S (W * H)) (Search (<[i := true]> (seen s)) [i] []);
    Some (Scan (visited r)
               (if 10 <? length (component r)
                then components s ++ [component r]
                else components s)).
Proof. reflexivity. Qed.

Lemma scan_pixel_inv (k : nat) (s : scan) :
  k < W * H -> scan_inv k s ->
  exists s', scan_pixel W H opaque k (Some s) = Some s' /\ scan_inv (S k) s'.
Proof.
  intros Hk Hs. rewrite scan_pixel_Some.
  destruct (negb (bit opaque k) || bit (seen s) k) eqn:Eskip.
  - exists s. split; [reflexivity|].
    destruct Hs as [Hlen Hdone Hcomp Hord Hdisj].
    constructor; try assumption.
    + intros j Hj Ho. destruct (decide (j = k)) as [->|Hne]; [|apply Hdone; [lia | exact Ho]].
      rewrite Ho in Eskip. exact Eskip.
    + intros c Hc. destruct (Hcomp c Hc) as (h & H1 & H2 & H3).
      exists h. split; [exact H1|]. split; [lia | exact H3].
  - apply orb_false_iff in Eskip. destruct Eskip as [Eo Ev].
    apply negb_false_iff in Eo.
    destruct Hs as [Hlen Hdone Hcomp Hord Hdisj].
    destruct (search_from_seed W H opaque (seen s) k Hlen Hk Ev Eo)
      as (r & Hr & Hl & Hmono & Hnew & Hfr & Hnd & Hhd).
    rewrite Hr. eexists. split; [reflexivity|].
    assert (Hmin : forall j, j ∈ component r -> k <= j).
    { intros j Hj. destruct (Hfr j Hj) as (Hv0 & Ho & _).
      destruct (le_lt_dec k j) as [|Hlt]; [assumption|].
      rewrite (Hdone j Hlt Ho) in Hv0. discriminate. }
    assert (Hold : forall c, c ∈ components s ->
      exists h, hd_error c = Some h /\ h < S k /\ NoDup c /\ 10 < length c /\
        forall j, j ∈ c -> h <= j /\ bit (visited r) j = true /\ bit opaque j = true).
    { intros c Hc. destruct (Hcomp c Hc) as (h & H1 & H2 & H3 & H4 & H5).
      exists h. split; [exact H1|]. split; [lia|]. split; [exact H3|].
      split; [exact H4|].
      intros j Hj. destruct (H5 j Hj) as (H6 & H7 & H8).
      repeat split; try assumption. now apply Hmono. }
    assert (Hdone' : forall j, j < S k -> bit opaque j = true -> bit (visited r) j = true).
    { intros j Hj Ho. destruct (decide (j = k)) as [->|Hne].
      - apply Hfr. apply list_elem_of_In. destruct (component r); [discriminate|].
        simpl in Hhd. inversion Hhd. now left.
      - apply Hmono. apply Hdone; [lia | exact Ho]. }
    destruct (10 <? length (component r)) eqn:Esize.
    + apply Nat.ltb_lt in Esize. constructor; simpl.
      * exact Hl.
      * exact Hdone'.
      * intros c Hc. apply elem_of_app in Hc. destruct Hc as [Hc|Hc]; [now apply Hold|].
        apply list_elem_of_singleton in Hc. subst c.
        exists k. split; [exact Hhd|]. split; [lia|]. split; [exact Hnd|].
        split; [exact Esize|].
        intros j Hj. destruct (Hfr j Hj) as (_ & Ho & Hv).
        repeat split; [now apply Hmin | exact Hv | exact Ho].
      * intros a b c1 c2 h1 h2 Hab Ha Hb Hh1 Hh2.
        destruct (lt_dec b (length (components s))) as [Hb'|Hb'].
        -- rewrite lookup_app_l in Ha by lia. rewrite lookup_app_l in Hb by lia.
           now apply (Hord a b c1 c2).
        -- assert (Hbl : b = length (components s)).
           { apply lookup_lt_Some in Hb. rewrite length_app in Hb. simpl in Hb. lia. }
           subst b. rewrite lookup_app_l in Ha by lia.
           rewrite list_lookup_middle in Hb by reflexivity. inversion Hb; subst c2.
           rewrite Hhd in Hh2. inversion Hh2; subst h2.
           destruct (Hcomp c1) as (h & E1 & E2 & _);
             [eapply list_elem_of_lookup_2; eauto|].
           rewrite Hh1 in E1. inversion E1; subst h. exact E2.
      * assert (Hsep : forall c j, c ∈ components s -> j ∈ c -> j ∉ component r).
        { intros c j Hc Hj Hj'. destruct (Hcomp c Hc) as (h & _ & _ & _ & _ & H5).
          destruct (H5 j Hj) as (_ & Hv & _).
          destruct (Hfr j Hj') as (Hv0 & _). congruence. }
        intros a b c1 c2 j Hab Ha Hb Hj.
        destruct (lt_dec a (length (components s))) as [Ha'|Ha'],
                 (lt_dec b (length (components s))) as [Hb'|Hb'].
        -- rewrite lookup_app_l in Ha by lia. rewrite lookup_app_l in Hb by lia.
           now apply (Hdisj a b c1 c2).
        -- assert (Hbl : b = length (components s)).
           { apply lookup_lt_Some in Hb. rewrite length_app in Hb. simpl in Hb. lia. }
           subst b. rewrite lookup_app_l in Ha by lia.
           rewrite list_lookup_middle in Hb by reflexivity. inversion Hb; subst c2.
           apply (Hsep c1); [eapply list_elem_of_lookup_2; eauto | exact Hj].
        -- assert (Hal : a = length (components s)).
           { apply lookup_lt_Some in Ha. rewrite length_app in Ha. simpl in Ha. lia. }
           subst a. rewrite lookup_app_l in Hb by lia.
           rewrite list_lookup_middle in Ha by reflexivity. inversion Ha; subst c1.
           intros Hj'. apply (Hsep c2 j); [eapply list_elem_of_lookup_2; eauto | exact Hj' | exact Hj].
        -- apply lookup_lt_Some in Ha, Hb. rewrite length_app in Ha, Hb.
           simpl in Ha, Hb. lia.
    + constructor; simpl.
      * exact Hl.
      * exact Hdone'.
      * exact Hold.
      * exact Hord.
      * exact Hdisj.
Qed.

(** The scan returns, and its result meets the invariant at the end. *)
Lemma find_components_spec :
  exists s,
    for_up 0 H
      (fun y s => for_up 0 W (fun x s' => scan_pixel W H opaque (y * W + x) s') s)
      (Some (Scan (replicate (W * H) false) [])) = Some s /\
    scan_inv (W * H) s.
Proof.
  rewrite (for_up_flatten (scan_pixel W H opaque) W H).
  replace (H * W) with (W * H) by lia.
  apply (for_up_inv (fun k so => exists s, so = Some s /\ scan_inv k s)); [lia | |].
  - eexists. split; [reflexivity | apply scan_start].
  - intros k so Hk (s & -> & Hs). now apply scan_pixel_inv.
Qed.

End Scan.

(** *** The choice of the largest component *)




(** *** Step 9 *)

Lemma mark_opaque_spec (cleanedImage : list pixel) (n : nat) :
  length (mark_opaque cleanedImage n) = n /\
  forall i, i < n ->
    mark_opaque cleanedImage n !! i =
    Some (match cleanedImage !! i with
          | Some px => (128 <? alpha px)%Z
          | None => false
          end).
Proof.
  unfold mark_opaque.
  apply (fill_spec (fun i => match cleanedImage !! i with
                             | Some px => (128 <? alpha px)%Z
                             | None => false
                             end)).
  apply length_replicate.
Qed.

Definition keep_rule (c : list nat) (i : nat) (px : pixel) : pixel :=
  if (50 <? alpha px)%Z && negb (has c i) then set_alpha 0 px else px.

Lemma keep_only_spec (c : list nat) (cleanedImage : list pixel) (n : nat) :
  forall i, keep_only (Some c) cleanedImage n !! i =
            if i <? n then keep_rule c i <$> cleanedImage !! i else cleanedImage !! i.
Proof.
  unfold keep_only.
  set (f := fun (i : nat) (final : list pixel) =>
    match final !! i with
    | Some px =>
        if (50 <? alpha px)%Z && negb (has c i)
        then <[i := set_alpha 0 px]> final else final
    | None => final
    end).
  set (I := fun (k : nat) (final : list pixel) =>
    length final = length cleanedImage /\
    forall i, final !! i =
              if i <? k then keep_rule c i <$> cleanedImage !! i else cleanedImage !! i).
  assert (HI : I n (for_up 0 n f cleanedImage)).
  { apply for_up_inv; [lia | |].
    - split; reflexivity.
    - intros k final Hk [Hlen Hb].
      assert (Hf : f k final = match cleanedImage !! k with
                               | Some px => <[k := keep_rule c k px]> final
                               | None => final
                               end).
      { unfold f. rewrite Hb, Nat.ltb_irrefl.
        destruct (cleanedImage !! k) as [px|] eqn:E; [|reflexivity].
        unfold keep_rule. destruct ((50 <? alpha px)%Z && negb (has c k)); [reflexivity|].
        symmetry. apply list_insert_id. now rewrite Hb, Nat.ltb_irrefl. }
      rewrite Hf. split.
      + destruct (cleanedImage !! k); [now rewrite length_insert | exact Hlen].
      + intros i. destruct (decide (k = i)) as [<-|Hne].
        * replace (k <? S k) with true by (symmetry; apply Nat.ltb_lt; lia).
          destruct (cleanedImage !! k) as [px|] eqn:E; simpl.
          -- apply list_lookup_insert_eq. rewrite Hlen.
             eapply lookup_lt_Some; eauto.
          -- rewrite Hb, Nat.ltb_irrefl. exact E.
        * replace (i <? S k) with (i <? k)
            by (destruct (Nat.ltb_spec i k), (Nat.ltb_spec i (S k));
                try reflexivity; lia).
          destruct (cleanedImage !! k); [|apply Hb].
          rewrite list_lookup_insert_ne by exact Hne. apply Hb. }
  apply HI.
Qed.

Lemma elem_of_drop_list {A : Type} (l : list A) (n : nat) (x : A) :
  x ∈ drop n l -> x ∈ l.
Proof.
  intros Hx. apply list_elem_of_lookup in Hx. destruct Hx as [i Hi].
  rewrite lookup_drop in Hi. eapply list_elem_of_lookup_2; eauto.
Qed.

End ComponentFacts.

(** ** Properties of the component selection *)

Module SilhouetteProps.
Import Raster Silhouette MaskFacts ComponentFacts.

(** Two components of 11 pixels each on a 6 x 6 image: the one met first
    is kept and the other one is cleared. *)
Definition o : pixel := Pixel 0 0 0 255.
Definition u : pixel := Pixel 0 0 0 0.

Definition two_blobs : list pixel :=
  [o; o; o; u; o; o;
   o; o; o; u; o; o;
   o; o; o; u; o; o;
   o; o; u; u; o; o;
   u; u; u; u; o; o;
   u; u; u; u; o; u].

Example tie_keeps_first :
  find_components 6 6 (mark_opaque two_blobs 36)
    = Some [[0; 1; 6; 7; 2; 8; 12; 13; 14; 18; 19];
            [4; 5; 10; 11; 16; 17; 22; 23; 28; 29; 34]] /\
  (map alpha <$> keep_largest 6 6 two_blobs)
    = Some [255; 255; 255; 0; 0; 0;
            255; 255; 255; 0; 0; 0;
            255; 255; 255; 0; 0; 0;
            255; 255; 0; 0; 0; 0;
            0; 0; 0; 0; 0; 0;
            0; 0; 0; 0; 0; 0]%Z.
Proof. split; vm_compute; reflexivity. Qed.

End SilhouetteProps.

(** ** Loops over a grid, pixel by pixel *)

Module GridFacts.
Import Loops LoopFacts FillFacts ComponentFacts.

Lemma index_mod (W x y : nat) : x < W -> (y * W + x) mod W = x.
Proof.
  intros Hx. rewrite Nat.add_comm, Nat.Div0.mod_add. now apply Nat.mod_small.
Qed.

Lemma iter_up_ext_range {St : Type} (f g : nat -> St -> St) :
  forall n lo s,
    (forall k s', lo <= k < lo + n -> f k s' = g k s') ->
    iter_up lo n f s = iter_up lo n g s.
Proof.
  induction n as [|n IH]; intros lo s E; simpl; [reflexivity|].
  rewrite E by lia. apply IH. intros k s' Hk. apply E. lia.
Qed.

Lemma for_up_ext_range {St : Type} (f g : nat -> St -> St) lo hi s :
  (forall k s', lo <= k < hi -> f k s' = g k s') ->
  for_up lo hi f s = for_up lo hi g s.
Proof.
  intros E. unfold for_up. apply iter_up_ext_range.
  intros k s' Hk. apply E. lia.
Qed.

Lemma iter_up_skip {St : Type} (f : nat -> St -> St) :
  forall n lo s,
    (forall k s', lo <= k < lo + n -> f k s' = s') -> iter_up lo n f s = s.
Proof.
  induction n as [|n IH]; intros lo s E; simpl; [reflexivity|].
  rewrite E by lia. apply IH. intros k s' Hk. apply E. lia.
Qed.

(** A loop over a part of a range is the loop over the range that skips
    the rest. *)
Lemma for_up_guard {St : Type} (f : nat -> St -> St) (lo hi n : nat) (s : St) :
  hi <= n ->
  for_up lo hi f s =
  for_up 0 n (fun k s' => if (lo <=? k) && (k <? hi) then f k s' else s') s.
Proof.
  intros Hn. unfold for_up. rewrite Nat.sub_0_r.
  destruct (le_lt_dec lo hi) as [Hle|Hgt].
  - replace n with (lo + ((hi - lo) + (n - hi))) at 1 by lia.
    rewrite !iter_up_app. simpl.
    rewrite (iter_up_skip _ lo 0).
    2:{ intros k s' Hk.
        destruct (Nat.leb_spec lo k); [lia|reflexivity]. }
    rewrite (iter_up_skip _ (n - hi)).
    2:{ intros k s' Hk.
        destruct (Nat.ltb_spec k hi); [lia|]. now rewrite andb_false_r. }
    apply iter_up_ext_range. intros k s' Hk.
    destruct (Nat.leb_spec lo k); [|lia].
    destruct (Nat.ltb_spec k hi); [reflexivity|lia].
  - replace (hi - lo) with 0 by lia. simpl. symmetry.
    apply iter_up_skip. intros k s' _.
    destruct (Nat.leb_spec lo k); [|reflexivity].
    destruct (Nat.ltb_spec k hi); [lia|reflexivity].
Qed.

(** The test that the pixel [(x, y)] lies in the part of the grid two
    nested loops run over. *)
Definition inside (ylo yhi xlo xhi y x : nat) : bool :=
  (ylo <=? y) && (y <? yhi) && (xlo <=? x) && (x <? xhi).

Lemma inside_spec ylo yhi xlo xhi y x :
  inside ylo yhi xlo xhi y x = true <-> ylo <= y < yhi /\ xlo <= x < xhi.
Proof.
  unfold inside. rewrite !andb_true_iff, !Nat.leb_le, !Nat.ltb_lt. lia.
Qed.

(** Two nested loops over a part of a [W] by [H] grid are one loop over the
    indices [i = y * W + x]. *)
Lemma for_up_grid {St : Type} (f : nat -> nat -> St -> St)
      (W H ylo yhi xlo xhi : nat) (s : St) :
  yhi <= H -> xhi <= W ->
  for_up ylo yhi (fun y s' => for_up xlo xhi (fun x s'' => f y x s'') s') s =
  for_up 0 (H * W)
    (fun i s' => if inside ylo yhi xlo xhi (i / W) (i mod W)
                 then f (i / W) (i mod W) s' else s') s.
Proof.
  intros Hy Hx.
  rewrite <- for_up_flatten.
  rewrite (for_up_guard _ ylo yhi H) by exact Hy.
  apply for_up_ext_range. intros y s' Hyr.
  destruct ((ylo <=? y) && (y <? yhi)) eqn:Gy.
  - rewrite (for_up_guard _ xlo xhi W) by exact Hx.
    apply for_up_ext_range. intros x s'' Hxr.
    assert (Hd : (y * W + x) / W = y) by (apply IndexFacts.index_div; lia).
    assert (Hm : (y * W + x) mod W = x) by (apply index_mod; lia).
    rewrite Hd, Hm. unfold inside. rewrite Gy. reflexivity.
  - symmetry. unfold for_up. apply iter_up_skip. intros x s'' Hxr.
    assert (Hd : (y * W + x) / W = y) by (apply IndexFacts.index_div; lia).
    rewrite Hd. unfold inside. now rewrite Gy.
Qed.

(** A loop that rewrites the entry [i] from its own value. *)
Lemma map_loop_spec {A : Type} (u : nat -> A -> A) (n : nat) (init : list A) :
  let r := for_up 0 n
             (fun i c => match c !! i with
                         | Some a => <[i := u i a]> c
                         | None => c
                         end) init in
  length r = length init /\
  forall j, r !! j = if j <? n then u j <$> init !! j else init !! j.
Proof.
  set (f := fun (i : nat) (c : list A) =>
    match c !! i with Some a => <[i := u i a]> c | None => c end).
  set (I := fun (k : nat) (c : list A) =>
    length c = length init /\
    forall j, c !! j = if j <? k then u j <$> init !! j else init !! j).
  assert (HI : I n (for_up 0 n f init)).
  { apply for_up_inv; [lia | |].
    - split; reflexivity.
    - intros k c Hk [Hlen Hc]. unfold f.
      rewrite Hc, Nat.ltb_irrefl. split.
      + destruct (init !! k); [now rewrite length_insert | exact Hlen].
      + intros j. destruct (decide (k = j)) as [<-|Hne].
        * replace (k <? S k) with true by (symmetry; apply Nat.ltb_lt; lia).
          destruct (init !! k) as [a|] eqn:E; simpl.
          -- apply list_lookup_insert_eq. rewrite Hlen.
             eapply lookup_lt_Some; eauto.
          -- rewrite Hc, Nat.ltb_irrefl. exact E.
        * replace (j <? S k) with (j <? k)
            by (destruct (Nat.ltb_spec j k), (Nat.ltb_spec j (S k));
                try reflexivity; lia).
          destruct (init !! k); [|apply Hc].
          rewrite list_lookup_insert_ne by exact Hne. apply Hc. }
  exact HI.
Qed.

(** Two nested loops that rewrite the pixel [(x, y)] of a part of the grid
    from its own value: the other pixels keep theirs. *)
Lemma grid_map_spec {A : Type} (W H ylo yhi xlo xhi : nat)
      (u : nat -> nat -> A -> A) (init : list A) :
  yhi <= H -> xhi <= W ->
  let r := for_up ylo yhi
             (fun y c =>
                for_up xlo xhi
                  (fun x c' => match c' !! (y * W + x) with
                               | Some a => <[y * W + x := u y x a]> c'
                               | None => c'
                               end) c) init in
  length r = length init /\
  (forall x y, x < W -> y < H ->
     r !! (y * W + x) =
     if inside ylo yhi xlo xhi y x
     then u y x <$> init !! (y * W + x) else init !! (y * W + x)) /\
  (forall j, W * H <= j -> r !! j = init !! j).
Proof.
  intros Hy Hx r.
  set (v := fun (i : nat) (a : A) =>
    if inside ylo yhi xlo xhi (i / W) (i mod W) then u (i / W) (i mod W) a else a).
  assert (Hr : r = for_up 0 (H * W)
                     (fun i c => match c !! i with
                                 | Some a => <[i := v i a]> c
                                 | None => c
                                 end) init).
  { unfold r.
    rewrite (for_up_grid
               (fun y x c' => match c' !! (y * W + x) with
                              | Some a => <[y * W + x := u y x a]> c'
                              | None => c'
                              end) W H) by assumption.
    apply for_up_ext_range. intros i c Hi.
    assert (HW : W <> 0) by (intros ->; lia).
    assert (Ei : i / W * W + i mod W = i).
    { pose proof (Nat.div_mod_eq i W). lia. }
    rewrite Ei. unfold v.
    destruct (inside ylo yhi xlo xhi (i / W) (i mod W)); [reflexivity|].
    destruct (c !! i) eqn:E; [|reflexivity].
    symmetry. now apply list_insert_id. }
  destruct (map_loop_spec v (H * W) init) as [Hlen Hpt].
  rewrite Hr. split; [exact Hlen|]. split.
  - intros x y Hxw Hyh. rewrite Hpt.
    assert (y * W + x < H * W) by nia.
    destruct (Nat.ltb_spec (y * W + x) (H * W)); [|lia].
    unfold v.
    assert (Hd : (y * W + x) / W = y) by (apply IndexFacts.index_div; lia).
    assert (Hm : (y * W + x) mod W = x) by (apply index_mod; lia).
    rewrite Hd, Hm.
    destruct (inside ylo yhi xlo xhi y x); [reflexivity|].
    now destruct (init !! (y * W + x)).
  - intros j Hj. rewrite Hpt.
    destruct (Nat.ltb_spec j (H * W)); [lia|reflexivity].
Qed.

Lemma insert_as_map {A : Type} (l : list A) (i : nat) (v : A) :
  <[i := v]> l = match l !! i with Some _ => <[i := v]> l | None => l end.
Proof.
  destruct (l !! i) eqn:E; [reflexivity|].
  apply list_insert_ge. now apply lookup_ge_None_1.
Qed.

(** Two nested loops that store a value at the pixel [(x, y)] of a part of
    the grid. *)
Lemma grid_fill_spec {A : Type} (W H ylo yhi xlo xhi : nat)
      (v : nat -> nat -> A) (init : list A) :
  yhi <= H -> xhi <= W ->
  let r := for_up ylo yhi
             (fun y c => for_up xlo xhi (fun x c' => <[y * W + x := v y x]> c') c)
             init in
  length r = length init /\
  (forall x y, x < W -> y < H ->
     r !! (y * W + x) =
     if inside ylo yhi xlo xhi y x
     then (fun _ => v y x) <$> init !! (y * W + x) else init !! (y * W + x)) /\
  (forall j, W * H <= j -> r !! j = init !! j).
Proof.
  intros Hy Hx r.
  assert (Hr : r = for_up ylo yhi
                     (fun y c =>
                        for_up xlo xhi
                          (fun x c' => match c' !! (y * W + x) with
                                       | Some a => <[y * W + x := v y x]> c'
                                       | None => c'
                                       end) c) init).
  { unfold r. apply for_up_ext. intros y c. apply for_up_ext. intros x c'.
    apply insert_as_map. }
  rewrite Hr. exact (grid_map_spec W H ylo yhi xlo xhi (fun y x _ => v y x) init Hy Hx).
Qed.

(** A loop over a pair of arrays that updates each on its own is a pair of
    loops. *)
Lemma iter_up_pair {A B : Type} (f : nat -> A -> A) (g : nat -> B -> B) :
  forall n lo p,
    iter_up lo n (fun k q => (f k (fst q), g k (snd q))) p =
    (iter_up lo n f (fst p), iter_up lo n g (snd p)).
Proof.
  induction n as [|n IH]; intros lo p; simpl; [now destruct p|].
  now rewrite IH.
Qed.

Lemma for_up_pair {A B : Type} (f : nat -> A -> A) (g : nat -> B -> B) lo hi p :
  for_up lo hi (fun k q => (f k (fst q), g k (snd q))) p =
  (for_up lo hi f (fst p), for_up lo hi g (snd p)).
Proof. apply iter_up_pair. Qed.

End GridFacts.

(** ** The border cutout, stage by stage *)

Module StageFacts.
Import Loops Raster Cutout CutoutStages MaskFacts LoopFacts FloodFacts IndexFacts FillFacts
       CutoutFacts GridFacts.

(** The window test of step 4, spelled out. *)
Lemma all_bg_spec (W H : nat) (m : list bool) (r : Z) (y x : nat) :
  all_bg W H m r y x = true <->
  forall dx dy : Z, (- r <= dx <= r)%Z -> (- r <= dy <= r)%Z ->
    (0 <= Z.of_nat y + dy < Z.of_nat H)%Z /\
    (0 <= Z.of_nat x + dx < Z.of_nat W)%Z /\
    bit m (Z.to_nat ((Z.of_nat y + dy) * Z.of_nat W + (Z.of_nat x + dx))) = true.
Proof.
  unfold all_bg. rewrite forallb_forall. split.
  - intros Hall dx dy Hdx Hdy.
    specialize (Hall dy (proj2 (in_offsets r dy) Hdy)).
    apply andb_true_iff in Hall as [Hyy Hrow].
    apply andb_true_iff in Hyy as [Hy0 Hy1].
    rewrite forallb_forall in Hrow.
    specialize (Hrow dx (proj2 (in_offsets r dx) Hdx)).
    apply andb_true_iff in Hrow as [Hxx Hb].
    apply andb_true_iff in Hxx as [Hx0 Hx1].
    apply Z.leb_le in Hy0, Hx0. apply Z.ltb_lt in Hy1, Hx1.
    repeat split; try lia. exact Hb.
  - intros Hwin dy Hdy. apply in_offsets in Hdy.
    assert (H0 : (- r <= 0 <= r)%Z) by lia.
    destruct (Hwin 0%Z dy H0 Hdy) as ((Hy0 & Hy1) & _ & _).
    apply andb_true_iff. split.
    + apply andb_true_iff. split; [now apply Z.leb_le | now apply Z.ltb_lt].
    + rewrite forallb_forall. intros dx Hdx. apply in_offsets in Hdx.
      destruct (Hwin dx dy Hdx Hdy) as (_ & (Hx0 & Hx1) & Hb).
      apply andb_true_iff. split; [|exact Hb].
      apply andb_true_iff. split; [now apply Z.leb_le | now apply Z.ltb_lt].
Qed.

(** The mask after the erosion, for any radius [0 <= r]. *)
Lemma feather_mask_spec (W H : nat) (m : list bool) (r : Z) (x y : nat) :
  (0 <= r)%Z -> x < W -> y < H ->
  bit (feather_mask W H m r) (y * W + x) = all_bg W H m r y x.
Proof.
  intros Hr Hx Hy. unfold feather_mask.
  assert (Hc : all_bg W H m r y x = true -> bit m (y * W + x) = true).
  { intros Ha. rewrite all_bg_spec in Ha.
    destruct (Ha 0%Z 0%Z) as (_ & _ & Hb); [lia | lia |].
    replace (Z.to_nat ((Z.of_nat y + 0) * Z.of_nat W + (Z.of_nat x + 0)))
      with (y * W + x) in Hb by lia.
    exact Hb. }
  destruct (Z.ltb_spec 0 r) as [Hpos|Hz].
  - destruct (erode_spec W H m r) as [_ He]. rewrite He by assumption.
    destruct (all_bg W H m r y x) eqn:Ea.
    + now rewrite Hc.
    + apply andb_false_r.
  - assert (r = 0%Z) by lia. subst r.
    destruct (bit m (y * W + x)) eqn:Eb.
    + symmetry. apply all_bg_spec. intros dx dy Hdx Hdy.
      assert (dx = 0%Z) by lia. assert (dy = 0%Z) by lia. subst dx dy.
      replace (Z.to_nat ((Z.of_nat y + 0) * Z.of_nat W + (Z.of_nat x + 0)))
        with (y * W + x) by lia.
      repeat split; try lia. exact Eb.
    + destruct (all_bg W H m 0 y x) eqn:Ea; [|reflexivity].
      specialize (Hc eq_refl). congruence.
Qed.

(** Step 7, pixel by pixel. *)
Definition clean_rule (px : pixel) : pixel :=
  if (alpha px <? 30)%Z then set_alpha 0 px
  else if (220 <? alpha px)%Z then set_alpha 255 px
  else px.

Lemma clean_alpha_spec (cleanedImage : list pixel) (n : nat) :
  length (clean_alpha cleanedImage n) = length cleanedImage /\
  forall i, clean_alpha cleanedImage n !! i =
            if i <? n then clean_rule <$> cleanedImage !! i else cleanedImage !! i.
Proof.
  unfold clean_alpha.
  rewrite (for_up_ext _
             (fun i c => match c !! i with
                         | Some a => <[i := clean_rule a]> c
                         | None => c
                         end)).
  - apply (map_loop_spec (fun _ => clean_rule)).
  - intros i img. destruct (img !! i) as [px|] eqn:E; [|reflexivity].
    unfold clean_rule. destruct (alpha px <? 30)%Z; [reflexivity|].
    destruct (220 <? alpha px)%Z; [reflexivity|].
    symmetry. now apply list_insert_id.
Qed.

Lemma clean_rule_idem (px : pixel) : clean_rule (clean_rule px) = clean_rule px.
Proof.
  unfold clean_rule.
  destruct (Z.ltb_spec (alpha px) 30); [reflexivity|].
  destruct (Z.ltb_spec 220 (alpha px)); [reflexivity|].
  destruct (Z.ltb_spec (alpha px) 30); [lia|].
  destruct (Z.ltb_spec 220 (alpha px)); [lia|reflexivity].
Qed.

(** Step 10, pixel by pixel. *)
Definition speck (W : nat) (final : list pixel) (y x : nat) : bool :=
  negb (faint final (y * W + x)) && (6 <=? transparent_neighbours W final y x).

Lemma despeckle_spec (W H : nat) (final : list pixel) :
  length (despeckle W H final) = length final /\
  (forall x y, x < W -> y < H ->
     despeckle W H final !! (y * W + x) =
     if inside 1 (H - 1) 1 (W - 1) y x && speck W final y x
     then set_alpha 0 <$> final !! (y * W + x)
     else final !! (y * W + x)) /\
  (forall j, W * H <= j -> despeckle W H final !! j = final !! j).
Proof.
  unfold despeckle.
  set (u := fun (y x : nat) (px : pixel) =>
    if speck W final y x then set_alpha 0 px else px).
  rewrite (for_up_ext _
             (fun y c =>
                for_up 1 (W - 1)
                  (fun x c' => match c' !! (y * W + x) with
                               | Some a => <[y * W + x := u y x a]> c'
                               | None => c'
                               end) c)).
  2:{ intros y d. apply for_up_ext. intros x d'. unfold u, speck. cbv zeta.
      destruct (faint final (y * W + x)); cbn [negb andb].
      - destruct (d' !! (y * W + x)) eqn:E; [|reflexivity].
        symmetry. now apply list_insert_id.
      - destruct (6 <=? transparent_neighbours W final y x); [reflexivity|].
        destruct (d' !! (y * W + x)) eqn:E; [|reflexivity].
        symmetry. now apply list_insert_id. }
  destruct (grid_map_spec W H 1 (H - 1) 1 (W - 1) u final) as (Hl & Hp & Ho);
    [lia | lia |].
  split; [exact Hl|]. split; [|exact Ho].
  intros x y Hx Hy. rewrite Hp by assumption. unfold u.
  destruct (inside 1 (H - 1) 1 (W - 1) y x); cbn [andb]; [|reflexivity].
  destruct (speck W final y x); [reflexivity|].
  now destruct (final !! (y * W + x)).
Qed.

End StageFacts.

(** ** Further properties of the border cutout *)

Module StageProps.
Import Loops Raster Cutout CutoutStages Silhouette MaskFacts LoopFacts FloodFacts
       IndexFacts FillFacts CutoutFacts GridFacts StageFacts ComponentFacts.

(** X1. For a whole-number feather argument, steps 2 to 5 keep the colour
    bytes and only ever store the alpha 0 or 255.  A pixel comes out with
    alpha 0 exactly when every pixel within the effective feather radius of
    it (a square window) lies inside the image and is border-connected
    near-white: interior whites and the pixels nearer than the radius to
    anything else are kept. *)
Theorem X1_transparent_iff_eroded_background
        (W H : nat) (tolerance : JS.num) (feather : Z) (data : list pixel) :
  let nearWhite := mark_near_white (tolerance_of tolerance) data (W * H) in
  let r := feather_of feather in
  exists out,
    segment W H tolerance feather data = Some out /\
    length out = length data /\
    forall x y px, x < W -> y < H -> data !! (y * W + x) = Some px ->
      exists a,
        out !! (y * W + x) = Some (set_alpha a px) /\
        (a = 0 \/ a = 255 \/ a = alpha px)%Z /\
        (a = 0%Z <->
         forall dx dy : Z, (- r <= dx <= r)%Z -> (- r <= dy <= r)%Z ->
           (0 <= Z.of_nat y + dy < Z.of_nat H)%Z /\
           (0 <= Z.of_nat x + dx < Z.of_nat W)%Z /\
           reach W H nearWhite
                 (Z.to_nat ((Z.of_nat y + dy) * Z.of_nat W + (Z.of_nat x + dx)))).
Proof.
  intros nearWhite r.
  destruct (flood_fill_with_spec W H nearWhite pop pop_ok) as (m & Hm & Hlen & Hreach).
  exists (write_alpha (feather_mask W H m r) data).
  split.
  { unfold segment, segment_mask. fold nearWhite. unfold flood_fill.
    rewrite Hm. reflexivity. }
  destruct (write_alpha_spec (feather_mask W H m r) data) as [Hwl Hw].
  split; [exact Hwl|].
  intros x y px Hx Hy Hpx.
  assert (Hr : (0 <= r)%Z) by (unfold r; pose proof (feather_of_range feather); lia).
  assert (Hi : y * W + x < length (feather_mask W H m r)).
  { rewrite feather_mask_length, Hlen. now apply index_lt. }
  rewrite Hw. destruct (Nat.ltb_spec (y * W + x) (length (feather_mask W H m r))); [|lia].
  rewrite Hpx. simpl. unfold alpha_rule.
  rewrite (feather_mask_spec W H m r x y Hr Hx Hy).
  assert (Hwin : all_bg W H m r y x = true <->
                 forall dx dy : Z, (- r <= dx <= r)%Z -> (- r <= dy <= r)%Z ->
                   (0 <= Z.of_nat y + dy < Z.of_nat H)%Z /\
                   (0 <= Z.of_nat x + dx < Z.of_nat W)%Z /\
                   reach W H nearWhite
                     (Z.to_nat ((Z.of_nat y + dy) * Z.of_nat W + (Z.of_nat x + dx)))).
  { rewrite all_bg_spec. split; intros Hall dx dy Hdx Hdy;
      destruct (Hall dx dy Hdx Hdy) as (Hyy & Hxx & Hb);
      (split; [exact Hyy|]); (split; [exact Hxx|]); now apply Hreach. }
  destruct (all_bg W H m r y x).
  - exists 0%Z. split; [reflexivity|]. split; [now left|].
    split; [intros _; now apply Hwin | reflexivity].
  - destruct (Z.eqb_spec (alpha px) 0) as [Ea|Ea].
    + exists 255%Z. split; [reflexivity|]. split; [right; now left|].
      split; [discriminate|]. intros Hall. apply Hwin in Hall. discriminate.
    + exists (alpha px). split; [now destruct px|]. split; [now do 2 right|].
      split; [intros E; contradiction|].
      intros Hall. apply Hwin in Hall. discriminate.
Qed.

(** X2. The three numeric parameters of the cutout are clamped for every
    argument, numeric or not: the tolerance to [0, 255], the feather to
    [0, 5] and the pre-blur to [0, 2]; an argument that is 0 or not a number
    gives the defaults 220, 2 and 0.6.  On the integers the feather is the
    radius [Cutout.feather_of] used by the erosion. *)
Theorem X2_cutout_parameters (raw : JS.num) :
  JS.in_range 0 255 (tolerance_of raw) /\
  JS.in_range 0 5 (feather_num_of raw) /\
  JS.in_range 0 2 (preblur_of raw) /\
  (JS.truthy raw = false ->
   tolerance_of raw = JS.of_Z 220 /\ feather_num_of raw = JS.of_Z 2 /\
   preblur_of raw = JS.Fin 0.6) /\
  (forall z : Z, feather_num_of (JS.of_Z z) = JS.of_Z (feather_of z)).
Proof.
  split; [apply tolerance_in_range|].
  split.
  { unfold feather_num_of, JS.of_Z.
    apply (ArgFacts.clamp_in_range 0 5); [easy | apply ArgFacts.or_else_not_nan]. }
  split.
  { unfold preblur_of, JS.of_Z.
    apply (ArgFacts.clamp_in_range 0 2); [easy | apply ArgFacts.or_else_not_nan]. }
  split.
  { intros Hf. unfold tolerance_of, feather_num_of, preblur_of, JS.or_else.
    rewrite Hf. repeat split; reflexivity. }
  intros z. unfold feather_num_of, feather_of, JS.or_else, JS.truthy, JS.of_Z.
  destruct (Z.eqb_spec z 0) as [->|Hz].
  - reflexivity.
  - assert (Ht : Qeq_bool (inject_Z z) 0 = false).
    { destruct (Qeq_bool (inject_Z z) 0) eqn:E; [|reflexivity].
      apply Qeq_bool_eq in E. unfold Qeq, inject_Z in E. simpl in E. lia. }
    rewrite Ht. simpl negb. cbv iota.
    unfold JS.Math_min, JS.Math_max, JS.is_nan, JS.ltb. simpl orb. cbv iota.
    destruct (Qle_bool (inject_Z 5) (inject_Z z)) eqn:E5; simpl negb; cbv iota.
    + apply Qle_bool_iff in E5. unfold Qle, inject_Z in E5. simpl in E5.
      replace (Z.min 5 z) with 5%Z by lia. reflexivity.
    + assert (z < 5)%Z.
      { destruct (Z.ltb_spec z 5); [assumption|].
        assert (Qle_bool (inject_Z 5) (inject_Z z) = true); [|congruence].
        apply Qle_bool_iff. unfold Qle, inject_Z. simpl. lia. }
      replace (Z.min 5 z) with z by lia.
      destruct (Qle_bool (inject_Z z) (inject_Z 0)) eqn:E0; simpl negb; cbv iota.
      * apply Qle_bool_iff in E0. unfold Qle, inject_Z in E0. simpl in E0.
        replace (Z.max 0 z) with 0%Z by lia. reflexivity.
      * assert (0 < z)%Z.
        { destruct (Z.ltb_spec 0 z); [assumption|].
          assert (Qle_bool (inject_Z z) (inject_Z 0) = true); [|congruence].
          apply Qle_bool_iff. unfold Qle, inject_Z. simpl. lia. }
        replace (Z.max 0 z) with z by lia. reflexivity.
Qed.

(** X3. The alpha clean-up of step 7 is idempotent, and after it no alpha
    byte lies strictly between 0 and 30 or strictly between 220 and 255. *)
Theorem X3_clean_alpha_idempotent (cleanedImage : list pixel) (n : nat) :
  clean_alpha (clean_alpha cleanedImage n) n = clean_alpha cleanedImage n /\
  forall i px, i < n -> clean_alpha cleanedImage n !! i = Some px ->
    ((alpha px < 30)%Z -> alpha px = 0%Z) /\
    ((220 < alpha px)%Z -> alpha px = 255%Z).
Proof.
  destruct (clean_alpha_spec cleanedImage n) as [_ H1].
  destruct (clean_alpha_spec (clean_alpha cleanedImage n) n) as [_ H2].
  split.
  - apply list_eq. intros i. rewrite H2, H1.
    destruct (i <? n); [|reflexivity].
    destruct (cleanedImage !! i); [|reflexivity]. simpl.
    now rewrite clean_rule_idem.
  - intros i px Hi Hpx. rewrite H1 in Hpx.
    destruct (Nat.ltb_spec i n); [|lia].
    destruct (cleanedImage !! i) as [p0|]; [|discriminate].
    simpl in Hpx. injection Hpx as <-. unfold clean_rule.
    destruct (Z.ltb_spec (alpha p0) 30); [simpl; lia|].
    destruct (Z.ltb_spec 220 (alpha p0)); simpl; lia.
Qed.

(** X4. The despeckle filter of step 10 keeps every colour byte and only
    ever clears an alpha byte.  It leaves alone the frame of the image, the
    pixels of alpha below 50 and the pixels with fewer than 6 neighbours of
    alpha below 50, and it clears every other pixel; the neighbours are
    counted in the buffer it received, not in the one it writes. *)
Theorem X4_despeckle_only_clears_specks (W H : nat) (final : list pixel) :
  length (despeckle W H final) = length final /\
  forall x y px, x < W -> y < H -> final !! (y * W + x) = Some px ->
    (x = 0 \/ y = 0 \/ x = W - 1 \/ y = H - 1 \/ (alpha px < 50)%Z \/
     transparent_neighbours W final y x < 6 ->
     despeckle W H final !! (y * W + x) = Some px) /\
    (0 < x < W - 1 -> 0 < y < H - 1 -> (50 <= alpha px)%Z ->
     6 <= transparent_neighbours W final y x ->
     despeckle W H final !! (y * W + x) = Some (set_alpha 0 px)).
Proof.
  destruct (despeckle_spec W H final) as (Hl & Hp & _).
  split; [exact Hl|].
  intros x y px Hx Hy Hpx. rewrite Hp, Hpx by assumption.
  unfold speck, faint. rewrite Hpx. split.
  - intros Hc.
    destruct (inside 1 (H - 1) 1 (W - 1) y x) eqn:Ei; [|reflexivity].
    apply inside_spec in Ei.
    destruct (Z.ltb_spec (alpha px) 50); [reflexivity|].
    destruct (Nat.leb_spec 6 (transparent_neighbours W final y x)); [|reflexivity].
    exfalso. lia.
  - intros Hxi Hyi Ha Hn.
    assert (Ei : inside 1 (H - 1) 1 (W - 1) y x = true) by (apply inside_spec; lia).
    rewrite Ei.
    destruct (Z.ltb_spec (alpha px) 50); [lia|].
    destruct (Nat.leb_spec 6 (transparent_neighbours W final y x)); [reflexivity|lia].
Qed.

(** The number of entries 1 of the array [opaque] of step 8. *)
Definition opaque_count (W H : nat) (cleanedImage : list pixel) : nat :=
  length (filter (fun i => bit (mark_opaque cleanedImage (W * H)) i = true)
                 (seq 0 (W * H))).

(** X5. When no more than 10 pixels have an alpha above 128, no component
    is retained and steps 8 and 9 return the buffer unchanged: the specks
    of an image without a main silhouette are not removed. *)
Theorem X5_no_component_nothing_removed (W H : nat) (cleanedImage : list pixel) :
  opaque_count W H cleanedImage <= 10 ->
  find_components W H (mark_opaque cleanedImage (W * H)) = Some [] /\
  keep_largest W H cleanedImage = Some cleanedImage.
Proof.
  intros Hfew.
  set (opaque := mark_opaque cleanedImage (W * H)).
  destruct (find_components_spec W H opaque) as (s & Hrun & Hinv).
  destruct Hinv as [Hlen Hdone Hcomp Hord Hdisj].
  assert (Hfind : find_components W H opaque = Some (components s)).
  { unfold find_components. now rewrite Hrun. }
  assert (Hnone : components s = []).
  { destruct (components s) as [|c cs] eqn:Ec; [reflexivity|]. exfalso.
    destruct (Hcomp c) as (h & _ & _ & Hnd & Hsz & Hall); [try rewrite Ec; left|].
    assert (Hsub : c ⊆+ filter (fun i => bit opaque i = true) (seq 0 (W * H))).
    { apply NoDup_submseteq; [exact Hnd|].
      intros j Hj. destruct (Hall j Hj) as (_ & _ & Ho).
      apply list_elem_of_filter. split; [exact Ho|].
      apply elem_of_seq. apply bit_true_lt in Ho.
      destruct (mark_opaque_spec cleanedImage (W * H)) as [Hol _].
      unfold opaque in Ho. rewrite Hol in Ho. lia. }
    apply submseteq_length in Hsub. unfold opaque_count in Hfew.
    fold opaque in Hfew. lia. }
  rewrite Hnone in Hfind. split; [exact Hfind|].
  unfold keep_largest. fold opaque. rewrite Hfind. reflexivity.
Qed.

Lemma X5_no_component_nothing_removed_witness :
  opaque_count 2 2 (replicate 4 (Pixel 9 9 9 255)) <= 10 /\
  find_components 2 2 (mark_opaque (replicate 4 (Pixel 9 9 9 255)) (2 * 2)) = Some [] /\
  keep_largest 2 2 (replicate 4 (Pixel 9 9 9 255))
    = Some (replicate 4 (Pixel 9 9 9 255)).
Proof.
  assert (Hc : opaque_count 2 2 (replicate 4 (Pixel 9 9 9 255)) <= 10)
    by (vm_compute; lia).
  split; [exact Hc|].
  exact (X5_no_component_nothing_removed 2 2 (replicate 4 (Pixel 9 9 9 255)) Hc).
Defined.

(** Steps 8 and 9, pixel by pixel. *)
Lemma keep_largest_spec (W H : nat) (cleanedImage : list pixel) :
  exists comps final,
    find_components W H (mark_opaque cleanedImage (W * H)) = Some comps /\
    keep_largest W H cleanedImage = Some final /\
    length final = length cleanedImage /\
    forall i px, cleanedImage !! i = Some px ->
      (final !! i = Some px \/
       (final !! i = Some (set_alpha 0 px) /\ (50 < alpha px)%Z /\ i < W * H /\
        exists c, largest comps = Some c /\ i ∉ c)) /\
      (forall c, largest comps = Some c -> i ∈ c -> final !! i = Some px).
Proof.
  set (opaque := mark_opaque cleanedImage (W * H)).
  destruct (find_components_spec W H opaque) as (s & Hrun & _).
  assert (Hfind : find_components W H opaque = Some (components s)).
  { unfold find_components. now rewrite Hrun. }
  exists (components s), (keep_only (largest (components s)) cleanedImage (W * H)).
  split; [exact Hfind|].
  split; [unfold keep_largest; fold opaque; now rewrite Hfind|].
  destruct (largest (components s)) as [c|] eqn:El.
  - assert (Hpt := keep_only_spec c cleanedImage (W * H)).
    split.
    { apply Nat.le_antisymm.
      - destruct (le_lt_dec (length (keep_only (Some c) cleanedImage (W * H)))
                            (length cleanedImage)) as [Hle|Hgt]; [exact Hle|].
        exfalso. apply lookup_lt_is_Some_2 in Hgt. destruct Hgt as [px Hpx].
        rewrite Hpt in Hpx.
        rewrite (lookup_ge_None_2 cleanedImage (length cleanedImage)) in Hpx by lia.
        destruct (_ <? _); discriminate.
      - destruct (le_lt_dec (length cleanedImage)
                            (length (keep_only (Some c) cleanedImage (W * H))))
          as [Hle|Hgt]; [exact Hle|].
        exfalso. apply lookup_lt_is_Some_2 in Hgt. destruct Hgt as [px Hpx].
        pose proof (Hpt (length (keep_only (Some c) cleanedImage (W * H)))) as E.
        rewrite lookup_ge_None_2 in E by lia. rewrite Hpx in E.
        destruct (_ <? _); discriminate. }
    intros i px Hpx. rewrite Hpt, Hpx. unfold keep_rule.
    destruct (Nat.ltb_spec i (W * H)) as [Hi|Hi]; simpl.
    + destruct (Z.ltb_spec 50 (alpha px)) as [Ha|Ha]; simpl.
      * destruct (has c i) eqn:Eh; simpl.
        -- split; [now left|]. reflexivity.
        -- split.
           ++ right. split; [reflexivity|]. split; [exact Ha|]. split; [exact Hi|].
              exists c. split; [reflexivity|]. intros Hin.
              apply has_spec in Hin. congruence.
           ++ intros c' Hc' Hin. injection Hc' as <-.
              apply has_spec in Hin. congruence.
      * split; [now left|reflexivity].
    + split; [now left|reflexivity].
  - split; [reflexivity|]. intros i px Hpx. simpl.
    split; [now left|]. intros c Hc. discriminate.
Qed.

(** X6. Steps 8 and 9 terminate for every buffer; they keep every colour
    byte and the length, only ever clear an alpha byte, and then only one
    above 50 of a pixel outside the component chosen.  The pixels of the
    chosen component all keep their alpha. *)
Theorem X6_keep_largest_only_clears (W H : nat) (cleanedImage : list pixel) :
  exists comps final,
    find_components W H (mark_opaque cleanedImage (W * H)) = Some comps /\
    keep_largest W H cleanedImage = Some final /\
    length final = length cleanedImage /\
    forall i px, cleanedImage !! i = Some px ->
      (final !! i = Some px \/
       (final !! i = Some (set_alpha 0 px) /\ (50 < alpha px)%Z /\ i < W * H /\
        exists c, largest comps = Some c /\ i ∉ c)) /\
      (forall c, largest comps = Some c -> i ∈ c -> final !! i = Some px).
Proof. exact (keep_largest_spec W H cleanedImage). Qed.


(** X7. Steps 7 to 10 together, applied to the buffer the blur returned,
    terminate and keep the length and every colour byte; each pixel comes
    out either as step 7 left it or with alpha 0. *)
Theorem X7_finish_only_clears (W H : nat) (cleanedImage : list pixel) :
  exists out,
    finish W H cleanedImage = Some out /\
    length out = length cleanedImage /\
    forall i px, cleanedImage !! i = Some px ->
      out !! i = clean_alpha cleanedImage (W * H) !! i \/
      out !! i = Some (set_alpha 0 px).
Proof.
  set (c := clean_alpha cleanedImage (W * H)).
  destruct (clean_alpha_spec cleanedImage (W * H)) as [Hcl Hc]. fold c in Hcl, Hc.
  destruct (keep_largest_spec W H c) as (comps & final & _ & Hk & Hfl & Hf).
  destruct (despeckle_spec W H final) as (Hdl & Hd & Hdo).
  exists (despeckle W H final).
  split; [unfold finish; fold c; now rewrite Hk|].
  split; [congruence|].
  intros i px Hpx.
  assert (Hci : exists pc, c !! i = Some pc /\ set_alpha 0 pc = set_alpha 0 px).
  { rewrite Hc, Hpx. destruct (i <? W * H); simpl; [|now exists px].
    exists (clean_rule px). split; [reflexivity|].
    unfold clean_rule. destruct (alpha px <? 30)%Z; [reflexivity|].
    now destruct (220 <? alpha px)%Z. }
  destruct Hci as (pc & Hpc & Hz).
  assert (Hfi : final !! i = Some pc \/ final !! i = Some (set_alpha 0 px)).
  { destruct (Hf i pc Hpc) as [[E|(E & _)] _]; [now left|right].
    now rewrite E, Hz. }
  assert (Hdi : despeckle W H final !! i = final !! i \/
                despeckle W H final !! i = set_alpha 0 <$> final !! i).
  { destruct (le_lt_dec (W * H) i) as [Hge|Hlt]; [left; now apply Hdo|].
    destruct (index_split W H i Hlt) as (x & y & Hx & Hy & ->).
    rewrite Hd by assumption. destruct (_ && _); [now right|now left]. }
  destruct Hdi as [E|E]; rewrite E; destruct Hfi as [F|F]; rewrite F; simpl.
  - left. now rewrite Hpc.
  - now right.
  - right. now rewrite Hz.
  - now right.
Qed.

End StageProps.

(** ** The rim mask of the bevel *)

Module RimFacts.
Import Loops Raster Cutout BevelMask MaskFacts LoopFacts IndexFacts FillFacts
       CutoutFacts GridFacts StageFacts.

(** The index of the pixel reached from [(x, y)] by the offset [(dx, dy)]. *)
Lemma idx_of_Z (w x y x' y' : nat) (dx dy : Z) :
  Z.of_nat x' = (Z.of_nat x + dx)%Z -> Z.of_nat y' = (Z.of_nat y + dy)%Z ->
  Z.to_nat ((Z.of_nat y + dy) * Z.of_nat w + (Z.of_nat x + dx)) = y' * w + x'.
Proof.
  intros <- <-. rewrite <- Nat2Z.inj_mul, <- Nat2Z.inj_add. apply Nat2Z.id.
Qed.

(** [x'] is within [r] of [x]. *)
Definition near (r x x' : nat) : Prop := x <= x' + r /\ x' <= x + r.

Lemma in_steps (d : Z) : In d Silhouette.steps <-> (-1 <= d <= 1)%Z.
Proof. unfold Silhouette.steps. simpl. lia. Qed.

Lemma all3_spec (mask : list bool) (w y x : nat) :
  1 <= x -> 1 <= y ->
  (all3 mask w y x = true <->
   forall x' y', near 1 x x' -> near 1 y y' -> bit mask (y' * w + x') = true).
Proof.
  intros Hx Hy. unfold all3. rewrite forallb_forall. split.
  - intros Hall x' y' [Hx1 Hx2] [Hy1 Hy2].
    assert (Hdy : In (Z.of_nat y' - Z.of_nat y)%Z Silhouette.steps)
      by (apply in_steps; lia).
    specialize (Hall _ Hdy). rewrite forallb_forall in Hall.
    assert (Hdx : In (Z.of_nat x' - Z.of_nat x)%Z Silhouette.steps)
      by (apply in_steps; lia).
    specialize (Hall _ Hdx).
    rewrite (idx_of_Z w x y x' y') in Hall by lia. exact Hall.
  - intros Hwin dy Hdy. apply in_steps in Hdy.
    rewrite forallb_forall. intros dx Hdx. apply in_steps in Hdx.
    rewrite (idx_of_Z w x y (Z.to_nat (Z.of_nat x + dx)) (Z.to_nat (Z.of_nat y + dy)))
      by lia.
    apply Hwin; unfold near; lia.
Qed.

Lemma insert_false_id (l : list bool) (i : nat) :
  bit l i = false -> <[i := false]> l = l.
Proof.
  unfold bit. intros Hb. destruct (l !! i) as [b|] eqn:E.
  - subst b. now apply list_insert_id.
  - apply list_insert_ge. now apply lookup_ge_None_1.
Qed.

Lemma erode3x3_spec (mask : list bool) (w h : nat) :
  length (erode3x3 mask w h) = w * h /\
  forall x y, x < w -> y < h ->
    bit (erode3x3 mask w h) (y * w + x) =
    inside 1 (h - 1) 1 (w - 1) y x && all3 mask w y x.
Proof.
  unfold erode3x3.
  set (out1 := for_up 1 (h - 1) _ _).
  destruct (grid_fill_spec w h 1 (h - 1) 1 (w - 1) (all3 mask w)
                           (replicate (w * h) false)) as (Hl & Hp & _);
    [lia | lia |].
  fold out1 in Hl, Hp. rewrite length_replicate in Hl.
  assert (Hb : forall x y, x < w -> y < h ->
             bit out1 (y * w + x) = inside 1 (h - 1) 1 (w - 1) y x && all3 mask w y x).
  { intros x y Hx Hy. unfold bit. rewrite Hp by assumption.
    rewrite lookup_replicate_2 by (now apply index_lt).
    now destruct (inside 1 (h - 1) 1 (w - 1) y x). }
  assert (Hframe : forall x y, x < w -> y < h ->
             x = 0 \/ y = 0 \/ x = w - 1 \/ y = h - 1 -> bit out1 (y * w + x) = false).
  { intros x y Hx Hy Hf. rewrite Hb by assumption.
    destruct (inside 1 (h - 1) 1 (w - 1) y x) eqn:E; [|reflexivity].
    apply inside_spec in E. lia. }
  assert (Hempty : w * h = 0 -> forall i, bit out1 i = false).
  { intros Hz i. apply bit_ge. lia. }
  assert (H2 : for_up 0 w (fun x o => <[(h - 1) * w + x := false]> (<[x := false]> o)) out1
               = out1).
  { apply (for_up_inv (fun _ o => o = out1)); [lia | reflexivity |].
    intros x o Hx ->.
    destruct (Nat.eq_dec h 0) as [->|Hh].
    - rewrite (insert_false_id out1 x) by (apply Hempty; lia).
      apply insert_false_id. apply Hempty. lia.
    - rewrite (insert_false_id out1 x).
      2:{ replace x with (0 * w + x) by lia. apply Hframe; lia. }
      apply insert_false_id. apply Hframe; lia. }
  rewrite H2.
  assert (H3 : for_up 0 h (fun y o => <[y * w + (w - 1) := false]> (<[y * w := false]> o)) out1
               = out1).
  { apply (for_up_inv (fun _ o => o = out1)); [lia | reflexivity |].
    intros y o Hy ->.
    destruct (Nat.eq_dec w 0) as [->|Hw].
    - rewrite (insert_false_id out1 (y * 0)) by (apply Hempty; lia).
      apply insert_false_id. apply Hempty. lia.
    - rewrite (insert_false_id out1 (y * w)).
      2:{ replace (y * w) with (y * w + 0) by lia. apply Hframe; lia. }
      apply insert_false_id. apply Hframe; lia. }
  rewrite H3. split; [exact Hl | exact Hb].
Qed.

(** [r] erosions by the 3 by 3 square are one erosion by the square of
    side [2 * r + 1]. *)
Lemma erode_times_window (mask : list bool) (w h : nat) :
  forall r x y, x < w -> y < h ->
    (bit (erode_times r mask w h) (y * w + x) = true <->
     r <= x /\ x + r < w /\ r <= y /\ y + r < h /\
     forall x' y', near r x x' -> near r y y' -> bit mask (y' * w + x') = true).
Proof.
  induction r as [|r IH]; intros x y Hx Hy.
  - simpl. split.
    + intros Hb. repeat split; try lia.
      intros x' y' [? ?] [? ?].
      assert (x' = x) by lia. assert (y' = y) by lia. now subst.
    + intros (_ & _ & _ & _ & Hwin). apply Hwin; unfold near; lia.
  - change (erode_times (S r) mask w h)
      with (erode3x3 (erode_times r mask w h) w h).
    destruct (erode3x3_spec (erode_times r mask w h) w h) as [_ He].
    rewrite He by assumption. rewrite andb_true_iff, inside_spec. split.
    + intros [Hin Hall].
      rewrite all3_spec in Hall by lia.
      assert (Hc : forall x' y', near 1 x x' -> near 1 y y' ->
                 r <= x' /\ x' + r < w /\ r <= y' /\ y' + r < h /\
                 forall x'' y'', near r x' x'' -> near r y' y'' ->
                                 bit mask (y'' * w + x'') = true).
      { intros x' y' Hnx Hny. apply IH; [unfold near in *; lia.. |].
        now apply Hall. }
      destruct (Hc (x - 1) (y - 1)) as (? & _ & ? & _); [unfold near; lia..|].
      destruct (Hc (x + 1) (y + 1)) as (_ & ? & _ & ? & _); [unfold near; lia..|].
      repeat split; try lia.
      intros x'' y'' [Hx1 Hx2] [Hy1 Hy2].
      set (xm := if x'' <? x then x - 1 else if x <? x'' then x + 1 else x).
      set (ym := if y'' <? y then y - 1 else if y <? y'' then y + 1 else y).
      assert (Hxm : near 1 x xm /\ near r xm x'').
      { unfold xm, near. destruct (Nat.ltb_spec x'' x); [lia|].
        destruct (Nat.ltb_spec x x''); lia. }
      assert (Hym : near 1 y ym /\ near r ym y'').
      { unfold ym, near. destruct (Nat.ltb_spec y'' y); [lia|].
        destruct (Nat.ltb_spec y y''); lia. }
      destruct (Hc xm ym) as (_ & _ & _ & _ & Hw); [tauto | tauto |].
      apply Hw; tauto.
    + intros (Hx0 & Hx1 & Hy0 & Hy1 & Hwin).
      split; [lia|]. apply all3_spec; [lia | lia |].
      intros x' y' [Hnx1 Hnx2] [Hny1 Hny2].
      apply IH; [lia | lia |].
      repeat split; try lia.
      intros x'' y'' [? ?] [? ?]. apply Hwin; unfold near; lia.
Qed.

Lemma alphaMask_spec (rgba : list pixel) (n i : nat) :
  bit (alphaMask rgba n) i =
  (i <? n) && match rgba !! i with
              | Some px => (0 <? alpha px)%Z
              | None => false
              end.
Proof.
  unfold alphaMask.
  destruct (fill_spec (fun i => match rgba !! i with
                                | Some px => (0 <? alpha px)%Z
                                | None => false
                                end) n (replicate n false)) as [Hl Hp];
    [apply length_replicate|].
  destruct (Nat.ltb_spec i n) as [Hi|Hi].
  - unfold bit. rewrite Hp by exact Hi. reflexivity.
  - apply bit_ge. lia.
Qed.

Lemma rimMask_spec (am eroded : list bool) (n i : nat) :
  bit (rimMask am eroded n) i = (i <? n) && (bit am i && negb (bit eroded i)).
Proof.
  unfold rimMask.
  destruct (fill_spec (fun i => bit am i && negb (bit eroded i)) n (replicate n false))
    as [Hl Hp]; [apply length_replicate|].
  destruct (Nat.ltb_spec i n) as [Hi|Hi].
  - unfold bit at 1. rewrite Hp by exact Hi. reflexivity.
  - apply bit_ge. lia.
Qed.

Lemma forallb_false {A : Type} (f : A -> bool) (l : list A) :
  forallb f l = false -> exists a, In a l /\ f a = false.
Proof.
  induction l as [|a l IH]; simpl; [discriminate|].
  destruct (f a) eqn:E; simpl.
  - intros Hl. destruct (IH Hl) as (b & Hb & Hf). exists b. split; [now right|exact Hf].
  - intros _. exists a. split; [now left|exact E].
Qed.

(** Where the window test of the cutout fails. *)
Lemma all_bg_fails (W H : nat) (m : list bool) (r x y : nat) :
  all_bg W H m (Z.of_nat r) y x = false ->
  x < r \/ W <= x + r \/ y < r \/ H <= y + r \/
  exists x' y', near r x x' /\ near r y y' /\ x' < W /\ y' < H /\
                bit m (y' * W + x') = false.
Proof.
  unfold all_bg. intros Hf.
  apply forallb_false in Hf. destruct Hf as (dy & Hdy & Hf).
  apply in_offsets in Hdy.
  destruct (Z.leb_spec 0 (Z.of_nat y + dy)) as [Hy0|Hy0]; [|lia].
  destruct (Z.ltb_spec (Z.of_nat y + dy) (Z.of_nat H)) as [Hy1|Hy1]; [|lia].
  simpl in Hf.
  apply forallb_false in Hf. destruct Hf as (dx & Hdx & Hf).
  apply in_offsets in Hdx.
  destruct (Z.leb_spec 0 (Z.of_nat x + dx)) as [Hx0|Hx0]; [|lia].
  destruct (Z.ltb_spec (Z.of_nat x + dx) (Z.of_nat W)) as [Hx1|Hx1]; [|lia].
  simpl in Hf.
  do 4 right.
  exists (Z.to_nat (Z.of_nat x + dx)), (Z.to_nat (Z.of_nat y + dy)).
  rewrite (idx_of_Z W x y (Z.to_nat (Z.of_nat x + dx)) (Z.to_nat (Z.of_nat y + dy)))
    in Hf by lia.
  unfold near. repeat split; try lia. exact Hf.
Qed.

Lemma erode_times_all_bg (mask : list bool) (W H r x y : nat) :
  x < W -> y < H ->
  bit (erode_times r mask W H) (y * W + x) = all_bg W H mask (Z.of_nat r) y x.
Proof.
  intros Hx Hy. apply eq_true_iff_eq.
  rewrite (erode_times_window mask W H r x y Hx Hy), all_bg_spec. split.
  - intros (Hx0 & Hx1 & Hy0 & Hy1 & Hwin) dx dy Hdx Hdy.
    split; [lia|]. split; [lia|].
    rewrite (idx_of_Z W x y (Z.to_nat (Z.of_nat x + dx)) (Z.to_nat (Z.of_nat y + dy)))
      by lia.
    apply Hwin; unfold near; lia.
  - intros Hwin.
    destruct (Hwin (- Z.of_nat r)%Z (- Z.of_nat r)%Z) as (? & ? & _); [lia | lia |].
    destruct (Hwin (Z.of_nat r) (Z.of_nat r)) as (? & ? & _); [lia | lia |].
    repeat split; try lia.
    intros x' y' [? ?] [? ?].
    destruct (Hwin (Z.of_nat x' - Z.of_nat x)%Z (Z.of_nat y' - Z.of_nat y)%Z)
      as (_ & _ & Hb); [lia | lia |].
    rewrite (idx_of_Z W x y x' y') in Hb by lia. exact Hb.
Qed.

(** *** The Sobel sums *)

Lemma sobel_pair (height : list JS.num) (w h : nat) :
  sobel height w h =
  (for_up 1 (h - 1)
     (fun y c => for_up 1 (w - 1)
                   (fun x c' => <[y * w + x := fst (sobel_sums height w y x)]> c') c)
     (replicate (w * h) (JS.of_Z 0)),
   for_up 1 (h - 1)
     (fun y c => for_up 1 (w - 1)
                   (fun x c' => <[y * w + x := snd (sobel_sums height w y x)]> c') c)
     (replicate (w * h) (JS.of_Z 0))).
Proof.
  unfold sobel.
  rewrite (for_up_ext _
             (fun y g =>
                (for_up 1 (w - 1)
                   (fun x c' => <[y * w + x := fst (sobel_sums height w y x)]> c') (fst g),
                 for_up 1 (w - 1)
                   (fun x c' => <[y * w + x := snd (sobel_sums height w y x)]> c') (snd g)))).
  - exact (for_up_pair
             (fun y c => for_up 1 (w - 1)
                (fun x c' => <[y * w + x := fst (sobel_sums height w y x)]> c') c)
             (fun y c => for_up 1 (w - 1)
                (fun x c' => <[y * w + x := snd (sobel_sums height w y x)]> c') c)
             1 (h - 1) (replicate (w * h) (JS.of_Z 0), replicate (w * h) (JS.of_Z 0))).
  - intros y g.
    now rewrite <- (for_up_pair
                      (fun x c' => <[y * w + x := fst (sobel_sums height w y x)]> c')
                      (fun x c' => <[y * w + x := snd (sobel_sums height w y x)]> c')).
Qed.

Lemma sobel_spec (height : list JS.num) (w h : nat) :
  length (fst (sobel height w h)) = w * h /\
  length (snd (sobel height w h)) = w * h /\
  forall x y, x < w -> y < h ->
    fst (sobel height w h) !! (y * w + x) =
      Some (if inside 1 (h - 1) 1 (w - 1) y x
            then fst (sobel_sums height w y x) else JS.of_Z 0) /\
    snd (sobel height w h) !! (y * w + x) =
      Some (if inside 1 (h - 1) 1 (w - 1) y x
            then snd (sobel_sums height w y x) else JS.of_Z 0).
Proof.
  rewrite sobel_pair. cbn [fst snd].
  destruct (grid_fill_spec w h 1 (h - 1) 1 (w - 1)
              (fun y x => fst (sobel_sums height w y x))
              (replicate (w * h) (JS.of_Z 0))) as (Hl1 & Hp1 & _); [lia | lia |].
  destruct (grid_fill_spec w h 1 (h - 1) 1 (w - 1)
              (fun y x => snd (sobel_sums height w y x))
              (replicate (w * h) (JS.of_Z 0))) as (Hl2 & Hp2 & _); [lia | lia |].
  rewrite length_replicate in Hl1, Hl2.
  split; [exact Hl1|]. split; [exact Hl2|].
  intros x y Hx Hy. rewrite Hp1, Hp2 by assumption.
  rewrite lookup_replicate_2 by (now apply index_lt).
  now destruct (inside 1 (h - 1) 1 (w - 1) y x).
Qed.

(** The sums in closed form, where the nine heights read are finite:
    [q dx dy] is the height at the offset [(dx, dy)]. *)
Lemma sobel_sums_closed (height : list JS.num) (w y x : nat) (q : Z -> Z -> Q) :
  (forall dx dy, (-1 <= dx <= 1)%Z -> (-1 <= dy <= 1)%Z ->
     Bevel.float_at height
       (Z.to_nat ((Z.of_nat y + dy) * Z.of_nat w + (Z.of_nat x + dx))) = JS.Fin (q dx dy)) ->
  exists sx sy,
    sobel_sums height w y x = (JS.Fin sx, JS.Fin sy) /\
    (sx == (q 1%Z (-1)%Z + 2 * q 1%Z 0%Z + q 1%Z 1%Z)
           - (q (-1)%Z (-1)%Z + 2 * q (-1)%Z 0%Z + q (-1)%Z 1%Z))%Q /\
    (sy == (q (-1)%Z 1%Z + 2 * q 0%Z 1%Z + q 1%Z 1%Z)
           - (q (-1)%Z (-1)%Z + 2 * q 0%Z (-1)%Z + q 1%Z (-1)%Z))%Q.
Proof.
  intros Hq. unfold sobel_sums, Silhouette.steps. cbn [fold_left].
  rewrite !Hq by lia.
  unfold kernel_at, Kx, Ky. cbn [lookup list_lookup]. unfold JS.of_Z.
  cbn [JS.mul JS.add].
  eexists _, _. split; [reflexivity|].
  unfold inject_Z. split; ring.
Qed.

End RimFacts.

(** ** Properties of the rim mask and of the gradients *)

Module RimProps.
Import Loops Raster Cutout BevelMask MaskFacts IndexFacts GridFacts RimFacts.

(** X8. Eroding a mask [r] times with the 3 by 3 square of [erode3x3]
    gives, at every pixel, the result of the window test of radius [r] used
    by step 4 of the cutout: the pixel survives when the square of side
    [2 * r + 1] around it lies inside the image and holds no 0. *)
Theorem X8_repeated_erosion_is_window_erosion
        (mask : list bool) (W H r x y : nat) :
  x < W -> y < H ->
  bit (erode_times r mask W H) (y * W + x) = all_bg W H mask (Z.of_nat r) y x.
Proof. apply erode_times_all_bg. Qed.

Lemma X8_repeated_erosion_is_window_erosion_witness :
  2 < 5 /\ 2 < 5 /\
  bit (erode_times 2 (replicate 25 true) 5 5) (2 * 5 + 2)
    = all_bg 5 5 (replicate 25 true) (Z.of_nat 2) 2 2.
Proof.
  split; [lia|]. split; [lia|].
  apply (X8_repeated_erosion_is_window_erosion (replicate 25 true) 5 5 2 2 2); lia.
Defined.

(** X9. The rim of the bevel is an inner band of the sticker: a pixel is on
    the rim exactly when its alpha is positive and, within [r] pixels of it
    in each direction, there is the edge of the image or a pixel whose alpha
    is not positive.  So nothing outside the sticker is ever shaded. *)
Theorem X9_rim_is_inner_band (rgba : list pixel) (W H r x y : nat) :
  x < W -> y < H ->
  let subject i := exists px, rgba !! i = Some px /\ (0 < alpha px)%Z in
  bit (rim_of rgba W H r) (y * W + x) = true <->
  subject (y * W + x) /\
  (x < r \/ W <= x + r \/ y < r \/ H <= y + r \/
   exists x' y', (x <= x' + r /\ x' <= x + r) /\ (y <= y' + r /\ y' <= y + r) /\
                 x' < W /\ y' < H /\ ~ subject (y' * W + x')).
Proof.
  intros Hx Hy subject.
  assert (Hsub : forall x' y', x' < W -> y' < H ->
            (bit (alphaMask rgba (W * H)) (y' * W + x') = true <-> subject (y' * W + x'))).
  { intros x' y' Hx' Hy'. rewrite alphaMask_spec.
    assert (Hi : y' * W + x' < W * H) by (now apply index_lt).
    destruct (Nat.ltb_spec (y' * W + x') (W * H)); [|lia]. cbn [andb].
    unfold subject. destruct (rgba !! (y' * W + x')) as [px|].
    - rewrite Z.ltb_lt. split.
      + intros Ha. now exists px.
      + intros (p & E & Ha). now injection E as ->.
    - split; [discriminate|]. intros (p & E & _). discriminate. }
  unfold rim_of. rewrite rimMask_spec.
  assert (Hi : y * W + x < W * H) by (now apply index_lt).
  destruct (Nat.ltb_spec (y * W + x) (W * H)); [|lia]. cbn [andb].
  rewrite andb_true_iff, negb_true_iff, (Hsub x y Hx Hy).
  rewrite (erode_times_all_bg _ W H r x y Hx Hy).
  split; intros [Hs Hw]; (split; [exact Hs|]).
  - apply all_bg_fails in Hw.
    destruct Hw as [?|[?|[?|[?|(x' & y' & Hnx & Hny & Hx' & Hy' & Hb)]]]];
      [tauto | tauto | tauto | tauto |].
    do 4 right. exists x', y'.
    split; [exact Hnx|]. split; [exact Hny|]. split; [exact Hx'|]. split; [exact Hy'|].
    intros Hs'. apply Hsub in Hs'; [congruence | assumption | assumption].
  - destruct (all_bg W H (alphaMask rgba (W * H)) (Z.of_nat r) y x) eqn:Ea;
      [|reflexivity].
    exfalso. rewrite <- (erode_times_all_bg _ W H r x y Hx Hy) in Ea.
    apply erode_times_window in Ea; [|assumption..].
    destruct Ea as (? & ? & ? & ? & Hwin).
    destruct Hw as [?|[?|[?|[?|(x' & y' & Hnx & Hny & Hx' & Hy' & Hb)]]]];
      try lia.
    apply Hb. apply Hsub; [assumption..|]. now apply Hwin.
Qed.

Lemma X9_rim_is_inner_band_witness :
  0 < 1 /\ 0 < 1 /\
  (bit (rim_of [Pixel 1 2 3 255] 1 1 1) (0 * 1 + 0) = true <->
   (exists px, [Pixel 1 2 3 255] !! (0 * 1 + 0) = Some px /\ (0 < alpha px)%Z) /\
   (0 < 1 \/ 1 <= 0 + 1 \/ 0 < 1 \/ 1 <= 0 + 1 \/
    exists x' y', (0 <= x' + 1 /\ x' <= 0 + 1) /\ (0 <= y' + 1 /\ y' <= 0 + 1) /\
                  x' < 1 /\ y' < 1 /\
                  ~ (exists px, [Pixel 1 2 3 255] !! (y' * 1 + x') = Some px /\
                                (0 < alpha px)%Z))).
Proof.
  split; [lia|]. split; [lia|].
  apply (X9_rim_is_inner_band [Pixel 1 2 3 255] 1 1 1 0 0); lia.
Defined.

(** X10. The Sobel gradients are 0 on the frame of the image, and at an
    inner pixel whose 3 by 3 neighbourhood has one height both sums
    vanish: a flat part of the height map has no slope. *)
Theorem X10_sobel_flat_is_zero (height : list JS.num) (w h : nat) :
  length (fst (sobel height w h)) = w * h /\
  length (snd (sobel height w h)) = w * h /\
  (forall x y, x < w -> y < h -> x = 0 \/ y = 0 \/ x = w - 1 \/ y = h - 1 ->
     fst (sobel height w h) !! (y * w + x) = Some (JS.of_Z 0) /\
     snd (sobel height w h) !! (y * w + x) = Some (JS.of_Z 0)) /\
  (forall x y c, 0 < x < w - 1 -> 0 < y < h - 1 ->
     (forall x' y', x <= x' + 1 -> x' <= x + 1 -> y <= y' + 1 -> y' <= y + 1 ->
                    height !! (y' * w + x') = Some (JS.Fin c)) ->
     exists sx sy,
       fst (sobel height w h) !! (y * w + x) = Some (JS.Fin sx) /\
       snd (sobel height w h) !! (y * w + x) = Some (JS.Fin sy) /\
       (sx == 0)%Q /\ (sy == 0)%Q).
Proof.
  destruct (sobel_spec height w h) as (Hl1 & Hl2 & Hp).
  split; [exact Hl1|]. split; [exact Hl2|]. split.
  - intros x y Hx Hy Hf. destruct (Hp x y Hx Hy) as [E1 E2].
    rewrite E1, E2.
    destruct (inside 1 (h - 1) 1 (w - 1) y x) eqn:Ei; [|now split].
    apply inside_spec in Ei. lia.
  - intros x y c Hx Hy Hflat.
    destruct (Hp x y) as [E1 E2]; [lia | lia |].
    assert (Ei : inside 1 (h - 1) 1 (w - 1) y x = true) by (apply inside_spec; lia).
    rewrite Ei in E1, E2.
    destruct (sobel_sums_closed height w y x (fun _ _ => c)) as (sx & sy & Es & Hsx & Hsy).
    { intros dx dy Hdx Hdy. unfold Bevel.float_at.
      rewrite (idx_of_Z w x y (Z.to_nat (Z.of_nat x + dx)) (Z.to_nat (Z.of_nat y + dy)))
        by lia.
      rewrite Hflat by lia. reflexivity. }
    exists sx, sy. rewrite E1, E2, Es. cbn [fst snd].
    split; [reflexivity|]. split; [reflexivity|].
    split; [rewrite Hsx; ring | rewrite Hsy; ring].
Qed.

End RimProps.

(** ** The two-pass chamfer transform of an arbitrary mask *)

Module ManySeeds.
Import Loops Raster Sqrt2 Sqrt2Facts LoopFacts IndexFacts ChamferFacts.

Section TwoPass.

Variables (W H lo : nat).
Variables (fwd bwd : nat -> nat -> list t -> list t).
Hypothesis fwd_spec : cell_spec W H lo nb_fwd fwd.
Hypothesis bwd_spec : cell_spec W H lo nb_bwd bwd.

(** *** Whatever a loop body keeps, a pass keeps *)

Lemma pass_fwd_keeps (P : list t -> Prop) (df : list t) :
  (forall d x y, length d = W * H -> region W H lo x y -> P d -> P (fwd y x d)) ->
  length df = W * H -> P df ->
  length (pass_fwd W H lo fwd df) = W * H /\ P (pass_fwd W H lo fwd df).
Proof.
  intros Hstep Hlen HP. unfold pass_fwd.
  destruct (le_lt_dec lo (H - lo)) as [Hh|Hh];
    [|rewrite for_up_empty by lia; now split].
  apply (for_up_inv (fun _ d => length d = W * H /\ P d)); [exact Hh | now split |].
  intros ky d Hky [Hl Hd].
  destruct (le_lt_dec lo (W - lo)) as [Hw|Hw];
    [|rewrite for_up_empty by lia; now split].
  apply (for_up_inv (fun _ d' => length d' = W * H /\ P d')); [exact Hw | now split |].
  intros kx d' Hkx [Hl' Hd'].
  assert (Hreg : region W H lo kx ky) by (unfold region; lia).
  split; [|now apply Hstep].
  now destruct (fwd_spec d' kx ky Hl' Hreg) as [Hlen' _].
Qed.

Lemma pass_bwd_keeps (P : list t -> Prop) (df : list t) :
  (forall d x y, length d = W * H -> region W H lo x y -> P d -> P (bwd y x d)) ->
  length df = W * H -> P df ->
  length (pass_bwd W H lo bwd df) = W * H /\ P (pass_bwd W H lo bwd df).
Proof.
  intros Hstep Hlen HP. unfold pass_bwd.
  destruct (le_lt_dec lo (H - lo)) as [Hh|Hh];
    [|rewrite for_down_empty by lia; now split].
  apply (for_down_inv (fun _ d => length d = W * H /\ P d)); [exact Hh | now split |].
  intros ky d Hky [Hl Hd].
  destruct (le_lt_dec lo (W - lo)) as [Hw|Hw];
    [|rewrite for_down_empty by lia; now split].
  apply (for_down_inv (fun _ d' => length d' = W * H /\ P d')); [exact Hw | now split |].
  intros kx d' Hkx [Hl' Hd'].
  assert (Hreg : region W H lo kx ky) by (unfold region; lia).
  split; [|now apply Hstep].
  now destruct (bwd_spec d' kx ky Hl' Hreg) as [Hlen' _].
Qed.

(** *** The pixels the loops leave out keep their value *)

Definition same_at (j : nat) (v : option t) (df : list t) : Prop := df !! j = v.

Lemma cell_same_at nb cell (j : nat) (v : option t) :
  cell_spec W H lo nb cell ->
  (forall x y, region W H lo x y -> j <> y * W + x) ->
  forall d x y, length d = W * H -> region W H lo x y ->
                same_at j v d -> same_at j v (cell y x d).
Proof.
  intros Hspec Hout d x y Hl Hreg Hs. unfold same_at in *.
  destruct (Hspec d x y Hl Hreg) as (_ & Hoth & _).
  rewrite Hoth; [exact Hs | now apply Hout].
Qed.

Lemma passes_outside (df : list t) (j : nat) :
  length df = W * H ->
  (forall x y, region W H lo x y -> j <> y * W + x) ->
  pass_bwd W H lo bwd (pass_fwd W H lo fwd df) !! j = df !! j.
Proof.
  intros Hlen Hout.
  destruct (pass_fwd_keeps (same_at j (df !! j)) df) as [Hl1 H1];
    [now apply (cell_same_at nb_fwd) | exact Hlen | reflexivity |].
  destruct (pass_bwd_keeps (same_at j (df !! j)) (pass_fwd W H lo fwd df)) as [_ H2];
    [now apply (cell_same_at nb_bwd) | exact Hl1 | exact H1 |].
  exact H2.
Qed.

(** *** No value rises *)

Definition capped (S : t) (df : list t) : Prop :=
  forall j v, df !! j = Some v -> (toR v <= toR S)%R.

Lemma cell_capped nb cell (S : t) :
  cell_spec W H lo nb cell ->
  forall d x y, length d = W * H -> region W H lo x y ->
                capped S d -> capped S (cell y x d).
Proof.
  intros Hspec d x y Hl Hreg Hc j v Hv.
  destruct (Hspec d x y Hl Hreg) as (_ & Hoth & cur & v' & Hcur & Hv' & Hle & _).
  destruct (decide (j = y * W + x)) as [->|Hne].
  - rewrite Hv' in Hv. injection Hv as <-.
    pose proof (Hc _ _ Hcur). lra.
  - rewrite Hoth in Hv by exact Hne. now apply (Hc j).
Qed.

(** *** One seed among others: the upper bound *)

Section Seed.
Variables (sx sy : nat).
Hypothesis seed_region : region W H lo sx sy.

Lemma fwd_cell_upper ky kx df :
  region W H lo kx ky -> length df = W * H ->
  upperF W H lo sx sy ky kx df ->
  upperF W H lo sx sy ky (Datatypes.S kx) (fwd ky kx df).
Proof.
  intros Hreg Hlen Hup.
  destruct (fwd_spec df kx ky Hlen Hreg)
    as (Hlen' & Hoth & cur & v & Hcur & Hv & Hle & Hnb & _).
  intros x y Hxy Hah Hd.
  destruct (decide ((x, y) = (kx, ky))) as [E|Hne].
  - inversion E; subst x y. exists v. split; [exact Hv|].
    destruct (decide ((kx, ky) = (sx, sy))) as [Es|Hns].
    + destruct (Hup kx ky Hreg Hah (or_intror Es)) as (v0 & Hv0 & Hle0).
      rewrite Hcur in Hv0. inversion Hv0; subst v0. lra.
    + destruct (fwd_pred W H lo sx sy seed_region kx ky Hreg Hah Hns)
        as (ox & oy & w & x' & y' & Hin & Ex & Ey & Hreg' & Hah' & Hcd & Hbefore).
      destruct (Hup x' y' Hreg' Hah' (or_introl Hbefore)) as (u & Hu & Hleu).
      destruct (region_lt W H lo x' y' Hreg') as [Hx' Hy'].
      pose proof (Hnb ox oy w x' y' u Hin Ex Ey Hx' Hy' Hu) as Hvu.
      rewrite <- Hcd, toR_add. lra.
  - assert (Hidx : y * W + x <> ky * W + kx).
    { intros Ei. apply index_inj in Ei;
        [destruct Ei; congruence | apply (region_lt W H lo x y Hxy)
         | apply (region_lt W H lo kx ky Hreg)]. }
    rewrite Hoth by exact Hidx. apply Hup; auto.
    destruct Hd as [[Hd|[Hd1 Hd2]]|Hd]; [left; now left | | now right].
    left. right. split; [exact Hd1|].
    assert (x <> kx) by congruence. lia.
Qed.

Lemma fwd_pass_upper df :
  length df = W * H ->
  (exists v0, df !! (sy * W + sx) = Some v0 /\ (toR v0 <= 0)%R) ->
  length (pass_fwd W H lo fwd df) = W * H /\
  upperF W H lo sx sy (H - lo) lo (pass_fwd W H lo fwd df).
Proof.
  intros Hlen (v0 & Hv0 & Hle0). destruct seed_region as [Hsx Hsy]. unfold pass_fwd.
  apply (for_up_inv (fun ky d => length d = W * H /\ upperF W H lo sx sy ky lo d));
    [lia | |].
  - split; [exact Hlen|].
    intros x y [Hx Hy] _ [[Hd|[Hd1 Hd2]]|Hd]; try lia.
    inversion Hd; subst. exists v0. split; [exact Hv0|].
    rewrite cd_seed. exact Hle0.
  - intros ky d Hky [Hl Hup].
    assert (Hrow : length (for_up lo (W - lo) (fun x d' => fwd ky x d') d) = W * H /\
                   upperF W H lo sx sy ky (W - lo)
                          (for_up lo (W - lo) (fun x d' => fwd ky x d') d)).
    { apply (for_up_inv
               (fun kx d' => length d' = W * H /\ upperF W H lo sx sy ky kx d'));
        [lia | now split |].
      intros kx d' Hkx [Hl' Hup'].
      assert (Hreg : region W H lo kx ky) by (unfold region; lia).
      split; [now destruct (fwd_spec d' kx ky Hl' Hreg) | now apply fwd_cell_upper]. }
    destruct Hrow as [Hl' Hup']. split; [exact Hl'|].
    intros x y Hxy Hah Hd. apply Hup'; auto.
    destruct Hd as [[Hd|[Hd1 Hd2]]|Hd]; [| |now right].
    + left. destruct (decide (y = ky)) as [->|]; [right | left; lia].
      split; [reflexivity | apply Hxy].
    + destruct Hxy. lia.
Qed.

Lemma bwd_cell_upper ky kx df :
  region W H lo kx ky -> length df = W * H ->
  upperB W H lo sx sy ky (Datatypes.S kx) df ->
  upperB W H lo sx sy ky kx (bwd ky kx df).
Proof.
  intros Hreg Hlen Hup.
  destruct (bwd_spec df kx ky Hlen Hreg)
    as (Hlen' & Hoth & cur & v & Hcur & Hv & Hle & Hnb & _).
  intros x y Hxy Hd.
  destruct (decide ((x, y) = (kx, ky))) as [E|Hne].
  - inversion E; subst x y. exists v. split; [exact Hv|].
    destruct (ahead_dec sx sy kx ky) as [Hah|Hnah].
    + destruct (Hup kx ky Hreg (or_intror Hah)) as (v0 & Hv0 & Hle0).
      rewrite Hcur in Hv0. inversion Hv0; subst v0. lra.
    + destruct (bwd_pred W H lo sx sy seed_region kx ky Hreg Hnah)
        as (ox & oy & w & x' & y' & Hin & Ex & Ey & Hreg' & Hcd & Hbefore).
      assert (Hdone : doneB ky (Datatypes.S kx) x' y') by (unfold doneB; lia).
      destruct (Hup x' y' Hreg' (or_introl Hdone)) as (u & Hu & Hleu).
      destruct (region_lt W H lo x' y' Hreg') as [Hx' Hy'].
      pose proof (Hnb ox oy w x' y' u Hin Ex Ey Hx' Hy' Hu) as Hvu.
      rewrite <- Hcd, toR_add. lra.
  - assert (Hidx : y * W + x <> ky * W + kx).
    { intros Ei. apply index_inj in Ei;
        [destruct Ei; congruence | apply (region_lt W H lo x y Hxy)
         | apply (region_lt W H lo kx ky Hreg)]. }
    rewrite Hoth by exact Hidx. apply Hup; auto.
    destruct Hd as [[Hd|[Hd1 Hd2]]|Hd]; [left; now left | | now right].
    left. right. split; [exact Hd1|].
    assert (x <> kx) by congruence. lia.
Qed.

Lemma bwd_pass_upper df :
  length df = W * H ->
  upperF W H lo sx sy (H - lo) lo df ->
  upperB W H lo sx sy lo lo (pass_bwd W H lo bwd df).
Proof.
  intros Hlen0 Hup0. destruct seed_region as [Hsx Hsy]. unfold pass_bwd.
  apply (for_down_inv
           (fun ky d => length d = W * H /\ upperB W H lo sx sy ky lo d)); [lia | |].
  - split; [exact Hlen0|].
    intros x y Hxy [[Hd|[Hd1 Hd2]]|Hah]; [destruct Hxy; lia | destruct Hxy; lia |].
    apply Hup0; auto. left. left. apply Hxy.
  - intros ky d Hky (Hlen & Hup).
    apply (for_down_inv
             (fun kx d' => length d' = W * H /\ upperB W H lo sx sy ky kx d'));
      [lia | |].
    + split; [exact Hlen|].
      intros x y Hxy Hd. apply Hup; auto.
      destruct Hd as [[Hd|[Hd1 Hd2]]|Hah]; [| destruct Hxy; lia | now right].
      left. unfold doneB. destruct Hxy. lia.
    + intros kx d' Hkx [Hl' Hup'].
      assert (Hreg : region W H lo kx ky) by (unfold region; lia).
      split; [now destruct (bwd_spec d' kx ky Hl' Hreg) | now apply bwd_cell_upper].
Qed.

(** After the two passes no pixel the loops visit holds more than its
    chamfer distance to the seed, whatever the other pixels started from. *)
Lemma two_pass_upper df x y :
  length df = W * H ->
  (exists v0, df !! (sy * W + sx) = Some v0 /\ (toR v0 <= 0)%R) ->
  region W H lo x y ->
  exists v, pass_bwd W H lo bwd (pass_fwd W H lo fwd df) !! (y * W + x) = Some v /\
            (toR v <= toR (cd sx sy x y))%R.
Proof.
  intros Hlen Hseed Hxy.
  destruct (fwd_pass_upper df Hlen Hseed) as [Hl1 Hup1].
  pose proof (bwd_pass_upper _ Hl1 Hup1) as Hup2.
  apply Hup2; [exact Hxy|]. left. unfold doneB. destruct Hxy. lia.
Qed.

End Seed.
(** *** All the seeds: the lower bound *)

Section Field.

(** The seeds, by index, and the value [S] the other pixels start from. *)
Variables (seedb : nat -> bool) (S : t).

Definition seed_at (sx sy : nat) : Prop :=
  sx < W /\ sy < H /\ seedb (sy * W + sx) = true.

(** Every value is at least [S] or at least the distance to some seed. *)
Definition lowerM (df : list t) : Prop :=
  forall x y v, x < W -> y < H -> df !! (y * W + x) = Some v ->
    (toR S <= toR v)%R \/
    exists sx sy, seed_at sx sy /\ (toR (cd sx sy x y) <= toR v)%R.

Lemma cell_lowerM nb cell :
  cell_spec W H lo nb cell -> king nb ->
  forall d x y, length d = W * H -> region W H lo x y ->
                lowerM d -> lowerM (cell y x d).
Proof.
  intros Hspec Hking df x y Hlen Hreg Hlow x0 y0 v0 Hx0 Hy0 Hv0.
  destruct (Hspec df x y Hlen Hreg)
    as (_ & Hoth & cur & v & Hcur & Hv & _ & _ & Hfrom).
  destruct (decide (y0 * W + x0 = y * W + x)) as [E|Hne].
  - assert (Hxx : x < W) by (destruct Hreg; lia).
    apply index_inj in E; [|assumption|assumption]. destruct E as [-> ->].
    rewrite Hv in Hv0. inversion Hv0; subst v0.
    destruct Hfrom as [->|(ox & oy & w & x' & y' & u & Hin & Ex & Ey & Hx' & Hy' & Hu & ->)].
    + now apply (Hlow x y).
    + destruct (Hking ox oy w Hin) as (Hox & Hoy & Hw).
      pose proof sqrt2_bounds as [Hs1 Hs2].
      assert (Hw0 : (0 <= toR w)%R).
      { destruct Hw as [->|[-> _]]; [rewrite toR_SQRT2 | rewrite toR_one]; lra. }
      rewrite toR_add.
      destruct (Hlow x' y' u Hx' Hy' Hu) as [HS|(sx & sy & Hs & Hlu)]; [left; lra|].
      right. exists sx, sy. split; [exact Hs|].
      destruct (chamfer_step (Z.of_nat x - Z.of_nat sx) (Z.of_nat y - Z.of_nat sy)
                             ox oy Hox Hoy) as [Hdiag Haxis].
      replace (Z.of_nat x - Z.of_nat sx + ox)%Z
        with (Z.of_nat x' - Z.of_nat sx)%Z in Hdiag, Haxis by lia.
      replace (Z.of_nat y - Z.of_nat sy + oy)%Z
        with (Z.of_nat y' - Z.of_nat sy)%Z in Hdiag, Haxis by lia.
      fold (cd sx sy x y) in Hdiag, Haxis. fold (cd sx sy x' y') in Hdiag, Haxis.
      assert (Hstep : (toR (cd sx sy x y) <= toR (cd sx sy x' y') + toR w)%R).
      { destruct Hw as [->|[-> Hax]].
        - now rewrite toR_SQRT2.
        - rewrite toR_one. now apply Haxis. }
      lra.
  - rewrite Hoth in Hv0 by exact Hne. now apply (Hlow x0 y0).
Qed.

(** The field the passes start from: 0 at the seeds, [S] elsewhere. *)
Record start_many (df : list t) : Prop := {
  sm_len : length df = W * H;
  sm_init : forall x y, x < W -> y < H ->
              df !! (y * W + x) = Some (if seedb (y * W + x) then zero else S)
}.

Hypothesis S_nonneg : (0 <= toR S)%R.
Hypothesis seeds_inside : forall sx sy, seed_at sx sy -> region W H lo sx sy.

(** The two passes compute the chamfer distance transform of the seed set,
    capped by [S], at every pixel the loops visit. *)
Theorem many_seeds_exact df x y :
  start_many df -> region W H lo x y ->
  exists v,
    pass_bwd W H lo bwd (pass_fwd W H lo fwd df) !! (y * W + x) = Some v /\
    (toR v <= toR S)%R /\
    (forall sx sy, seed_at sx sy -> (toR v <= toR (cd sx sy x y))%R) /\
    (v = S \/ exists sx sy, seed_at sx sy /\ v = cd sx sy x y).
Proof.
  intros [Hlen Hinit] Hxy.
  set (P := fun d => lowerM d /\ capped S d).
  assert (HP0 : P df).
  { split.
    - intros x0 y0 v Hx0 Hy0 Hv. rewrite Hinit in Hv by assumption.
      destruct (seedb (y0 * W + x0)) eqn:Es; injection Hv as <-.
      + right. exists x0, y0. split; [now split|].
        rewrite cd_seed, toR_zero. lra.
      + left. lra.
    - intros j v Hv.
      assert (Hj : j < W * H) by (rewrite <- Hlen; eapply lookup_lt_Some; eauto).
      destruct (index_split W H j Hj) as (x0 & y0 & Hx0 & Hy0 & ->).
      rewrite Hinit in Hv by assumption.
      destruct (seedb (y0 * W + x0)); injection Hv as <-;
        [rewrite toR_zero; exact S_nonneg | lra]. }
  destruct (pass_fwd_keeps P df) as [Hl1 HP1]; [|exact Hlen | exact HP0 |].
  { intros d x0 y0 Hl Hreg [Hlo Hca]. split.
    - now apply (cell_lowerM nb_fwd fwd fwd_spec king_fwd).
    - now apply (cell_capped nb_fwd fwd S fwd_spec). }
  destruct (pass_bwd_keeps P (pass_fwd W H lo fwd df)) as [Hl2 [Hlo2 Hca2]];
    [|exact Hl1 | exact HP1 |].
  { intros d x0 y0 Hl Hreg [Hlo Hca]. split.
    - now apply (cell_lowerM nb_bwd bwd bwd_spec king_bwd).
    - now apply (cell_capped nb_bwd bwd S bwd_spec). }
  destruct (region_lt W H lo x y Hxy) as [Hx Hy].
  assert (Hi : y * W + x < W * H) by (now apply index_lt).
  destruct (lookup_lt_is_Some_2 (pass_bwd W H lo bwd (pass_fwd W H lo fwd df))
                                (y * W + x)) as [v Hv]; [lia|].
  exists v. split; [exact Hv|]. split; [now apply (Hca2 _ _ Hv)|].
  assert (Hup : forall sx sy, seed_at sx sy -> (toR v <= toR (cd sx sy x y))%R).
  { intros sx sy Hs.
    destruct (two_pass_upper sx sy (seeds_inside sx sy Hs) df x y Hlen) as (v' & Hv' & Hle);
      [|exact Hxy|].
    - destruct Hs as (Hsx & Hsy & Hb). exists zero.
      rewrite Hinit, Hb by assumption. split; [reflexivity|].
      rewrite toR_zero. lra.
    - rewrite Hv in Hv'. now injection Hv' as <-. }
  split; [exact Hup|].
  destruct (Hlo2 x y v Hx Hy Hv) as [HS|(sx & sy & Hs & Hge)].
  - left. apply toR_inj. pose proof (Hca2 _ _ Hv). lra.
  - right. exists sx, sy. split; [exact Hs|].
    apply toR_inj. pose proof (Hup sx sy Hs). lra.
Qed.

End Field.

End TwoPass.
End ManySeeds.

(** ** The colour argument of the second edge *)

Module ColorFacts.
Import Ascii String EdgeColor.

Lemma hex_digit_range (c : ascii) (d : Z) :
  hex_digit c = Some d -> (0 <= d <= 15)%Z.
Proof.
  unfold hex_digit. set (n := Z.of_N (N_of_ascii c)).
  destruct (Z.leb_spec 48 n), (Z.leb_spec n 57); cbn [andb];
    try (intros E; injection E as <-; lia);
    destruct (Z.leb_spec 97 n), (Z.leb_spec n 102); cbn [andb];
    try (intros E; injection E as <-; lia);
    destruct (Z.leb_spec 65 n), (Z.leb_spec n 70); cbn [andb];
    try (intros E; injection E as <-; lia); discriminate.
Qed.

(** A hexadecimal digit is not the character [#]: a string that starts
    with one is matched as it stands. *)
Lemma exec_hex_digit (c : ascii) (d : Z) (rest : string) :
  hex_digit c = Some d ->
  exec_hex (String c rest) =
  if (String.length (String c rest) =? 6)%nat
  then hex_value 0 (String c rest) else None.
Proof.
  destruct c as [[] [] [] [] [] [] [] []]; try reflexivity.
  vm_compute. discriminate.
Qed.

Lemma land_255 (n : Z) : Z.land n 255 = (n mod 256)%Z.
Proof. change 255%Z with (Z.ones 8). now rewrite Z.land_ones by lia. Qed.

Lemma channel_range (n : Z) : (0 <= Z.land n 255 <= 255)%Z.
Proof. rewrite land_255. pose proof (Z.mod_pos_bound n 256). lia. Qed.

(** The three bytes of a 24-bit number given by its six hexadecimal
    digits. *)
Lemma bytes_of_digits (d1 d2 d3 d4 d5 d6 : Z) :
  (0 <= d1 <= 15)%Z -> (0 <= d2 <= 15)%Z -> (0 <= d3 <= 15)%Z ->
  (0 <= d4 <= 15)%Z -> (0 <= d5 <= 15)%Z -> (0 <= d6 <= 15)%Z ->
  let n := (16 * (16 * (16 * (16 * (16 * (16 * 0 + d1) + d2) + d3) + d4) + d5) + d6)%Z in
  Z.land (Z.shiftr n 16) 255 = (16 * d1 + d2)%Z /\
  Z.land (Z.shiftr n 8) 255 = (16 * d3 + d4)%Z /\
  Z.land n 255 = (16 * d5 + d6)%Z.
Proof.
  intros H1 H2 H3 H4 H5 H6 n.
  rewrite !land_255, !Z.shiftr_div_pow2 by lia.
  change (2 ^ 16)%Z with 65536%Z. change (2 ^ 8)%Z with 256%Z.
  assert (Hn : n = (65536 * (16 * d1 + d2) + 256 * (16 * d3 + d4) + (16 * d5 + d6))%Z)
    by (unfold n; lia).
  repeat split.
  - symmetry. apply (Z.mod_unique_pos _ _ 0); [lia|].
    rewrite Z.mul_0_r, Z.add_0_l. symmetry.
    apply (Z.div_unique_pos _ _ _ (256 * (16 * d3 + d4) + (16 * d5 + d6))); lia.
  - symmetry. apply (Z.mod_unique_pos _ _ (16 * d1 + d2)); [lia|].
    symmetry. apply (Z.div_unique_pos _ _ _ (16 * d5 + d6)); lia.
  - symmetry. apply (Z.mod_unique_pos _ _ (256 * (16 * d1 + d2) + (16 * d3 + d4))); lia.
Qed.

End ColorFacts.

Module ColorProps.
Import Ascii String EdgeColor ColorFacts.
Local Open Scope string_scope.

(** X11. [hexToRGB] reads the three channels from the three pairs of
    hexadecimal digits, in either case and with or without the leading
    [#]; every channel it returns is a byte; any other string, the short
    form [#fff] among them, gives the brown [(140, 75, 21)], which is also
    what the default ["#8c4b15"] denotes. *)
Theorem X11_hexToRGB_channels :
  (forall hex, (0 <= r (hexToRGB hex) <= 255)%Z /\
               (0 <= g (hexToRGB hex) <= 255)%Z /\
               (0 <= b (hexToRGB hex) <= 255)%Z) /\
  (forall c1 c2 c3 c4 c5 c6 d1 d2 d3 d4 d5 d6,
     hex_digit c1 = Some d1 -> hex_digit c2 = Some d2 -> hex_digit c3 = Some d3 ->
     hex_digit c4 = Some d4 -> hex_digit c5 = Some d5 -> hex_digit c6 = Some d6 ->
     let body := String c1 (String c2 (String c3 (String c4 (String c5 (String c6 EmptyString))))) in
     hexToRGB body = RGB (16 * d1 + d2) (16 * d3 + d4) (16 * d5 + d6) /\
     hexToRGB (String "#" body) = RGB (16 * d1 + d2) (16 * d3 + d4) (16 * d5 + d6)) /\
  (forall hex, exec_hex hex = None -> hexToRGB hex = RGB 140 75 21) /\
  hexToRGB "#8c4b15" = RGB 140 75 21 /\
  hexToRGB "#8C4B15" = RGB 140 75 21 /\
  hexToRGB "#fff" = RGB 140 75 21 /\
  hexToRGB EmptyString = RGB 140 75 21.
Proof.
  split.
  { intros hex. unfold hexToRGB. destruct (exec_hex hex); cbn [r g b].
    - repeat split; apply channel_range.
    - lia. }
  split.
  { intros c1 c2 c3 c4 c5 c6 d1 d2 d3 d4 d5 d6 E1 E2 E3 E4 E5 E6 body.
    assert (Hv : hex_value 0 body =
                 Some (16 * (16 * (16 * (16 * (16 * (16 * 0 + d1) + d2) + d3) + d4) + d5) + d6)%Z).
    { unfold body. cbn [hex_value]. now rewrite E1, E2, E3, E4, E5, E6. }
    destruct (bytes_of_digits d1 d2 d3 d4 d5 d6) as (B1 & B2 & B3);
      try (eapply hex_digit_range; eassumption).
    assert (Hb : exec_hex body =
                 Some (16 * (16 * (16 * (16 * (16 * (16 * 0 + d1) + d2) + d3) + d4) + d5) + d6)%Z).
    { unfold body at 1. rewrite (exec_hex_digit c1 d1 _ E1). fold body.
      replace (String.length body =? 6)%nat with true by reflexivity. exact Hv. }
    assert (Hh : exec_hex (String "#" body) =
                 Some (16 * (16 * (16 * (16 * (16 * (16 * 0 + d1) + d2) + d3) + d4) + d5) + d6)%Z).
    { unfold exec_hex.
      replace (String.length body =? 6)%nat with true by reflexivity. exact Hv. }
    unfold hexToRGB. rewrite Hb, Hh, B1, B2, B3. now split. }
  split.
  { intros hex E. unfold hexToRGB. now rewrite E. }
  repeat split; reflexivity.
Qed.

End ColorProps.

(** ** The canvas, the distance transform and the ring layer *)

Module CanvasFacts.
Import Loops Raster Sqrt2 Sqrt2Facts LoopFacts IndexFacts FillFacts MaskFacts
       ChamferFacts DistanceFacts ComponentFacts GridFacts ManySeeds EdgeCanvas.

Lemma for_up_shift {St : Type} (f : nat -> St -> St) (c lo hi : nat) (s : St) :
  for_up lo hi (fun k => f (c + k)) s = for_up (c + lo) (c + hi) f s.
Proof.
  unfold for_up. replace (c + hi - (c + lo)) with (hi - lo) by lia.
  apply iter_up_shift.
Qed.

(** The canvas, pixel by pixel: [(cx, cy)] are canvas coordinates. *)
Lemma expand_spec (W H pad : nat) (data : list pixel) :
  let newW := W + 2 * pad in
  let newH := H + 2 * pad in
  length (expand W H pad data) = newW * newH /\
  forall cx cy, cx < newW -> cy < newH ->
    expand W H pad data !! (cy * newW + cx) =
    Some (if inside pad (pad + H) pad (pad + W) cy cx
          then default clear (data !! ((cy - pad) * W + (cx - pad)))
          else clear).
Proof.
  intros newW newH. unfold expand. fold newW newH.
  set (v := fun cy cx => default clear (data !! ((cy - pad) * W + (cx - pad)))).
  assert (E : for_up 0 H
                (fun y e =>
                   for_up 0 W
                     (fun x e' =>
                        <[(y + pad) * newW + (x + pad)
                          := default clear (data !! (y * W + x))]> e') e)
                (replicate (newW * newH) clear) =
              for_up pad (pad + H)
                (fun cy e => for_up pad (pad + W)
                               (fun cx e' => <[cy * newW + cx := v cy cx]> e') e)
                (replicate (newW * newH) clear)).
  { pose proof (for_up_shift
                  (fun cy e => for_up pad (pad + W)
                                 (fun cx e' => <[cy * newW + cx := v cy cx]> e') e)
                  pad 0 H (replicate (newW * newH) clear)) as Es.
    rewrite Nat.add_0_r in Es. rewrite <- Es.
    apply for_up_ext. intros y e.
    pose proof (for_up_shift
                  (fun cx e' => <[(pad + y) * newW + cx := v (pad + y) cx]> e')
                  pad 0 W e) as Ex.
    rewrite Nat.add_0_r in Ex. rewrite <- Ex.
    apply for_up_ext. intros x e'. unfold v.
    replace (pad + y - pad) with y by lia. replace (pad + x - pad) with x by lia.
    replace ((y + pad) * newW + (x + pad)) with ((pad + y) * newW + (pad + x)) by lia.
    reflexivity. }
  rewrite E.
  destruct (grid_fill_spec newW newH pad (pad + H) pad (pad + W) v
                           (replicate (newW * newH) clear)) as (Hl & Hp & _);
    [unfold newH; lia | unfold newW; lia |].
  rewrite length_replicate in Hl. split; [exact Hl|].
  intros cx cy Hcx Hcy. rewrite Hp by assumption.
  rewrite lookup_replicate_2 by (now apply index_lt).
  now destruct (inside pad (pad + H) pad (pad + W) cy cx).
Qed.


End CanvasFacts.

Module CanvasProps.
Import Loops Raster Sqrt2 Sqrt2Facts IndexFacts MaskFacts ChamferFacts DistanceFacts
       GridFacts EdgeCanvas CanvasFacts.

(** X12. Whatever the two width arguments are, the edge is at least 1 pixel
    wide and the offset is not negative, so the ring band [inner < d <=
    outer] is never empty, and the margin added around the image is at least
    100 pixels and at least the outer radius of the ring.  An edge argument
    that is 0 or not a number gives the default 100, a negative one gives
    1. *)
Theorem X12_edge_widths (a b : option (option Z)) :
  let edgePx := edgePx_of a in
  let offsetPx := offsetPx_of b in
  let pad := pad_of edgePx offsetPx in
  (1 <= edgePx)%Z /\ (0 <= offsetPx)%Z /\ (offsetPx < offsetPx + edgePx)%Z /\
  (100 <= pad)%Z /\ (offsetPx + edgePx <= pad)%Z /\
  edgePx_of (Some (Some 0%Z)) = 100%Z /\ edgePx_of (Some None) = 100%Z /\
  (forall z, (z < 0)%Z ->
     edgePx_of (Some (Some z)) = 1%Z /\ offsetPx_of (Some (Some z)) = 0%Z).
Proof.
  intros edgePx offsetPx pad.
  assert (He : (1 <= edgePx)%Z).
  { unfold edgePx, edgePx_of. destruct a as [p|]; lia. }
  assert (Ho : (0 <= offsetPx)%Z).
  { unfold offsetPx, offsetPx_of. destruct b as [p|]; lia. }
  unfold pad, pad_of. repeat split; try lia.
  - unfold edgePx_of, or_default. destruct (Z.eqb_spec z 0); lia.
  - unfold offsetPx_of, or_default. destruct (Z.eqb_spec z 0); lia.
Qed.

(** X13. For a padding of whole pixels, as add_second_edge computes it
    from the two [parseInt] results, the canvas has [W + 2 * pad] by
    [H + 2 * pad] pixels; the pixel [(x, y)] of the image is found at
    [(x + pad, y + pad)], and every pixel of the margin is cleared (all
    four bytes 0). *)
Theorem X13_expand_places_image (W H pad : nat) (data : list pixel) :
  let newW := W + 2 * pad in
  let newH := H + 2 * pad in
  length (expand W H pad data) = newW * newH /\
  (forall x y, x < W -> y < H ->
     expand W H pad data !! ((y + pad) * newW + (x + pad)) =
     Some (default clear (data !! (y * W + x)))) /\
  (forall cx cy, cx < newW -> cy < newH ->
     cx < pad \/ pad + W <= cx \/ cy < pad \/ pad + H <= cy ->
     expand W H pad data !! (cy * newW + cx) = Some clear).
Proof.
  intros newW newH. destruct (expand_spec W H pad data) as [Hl Hp].
  fold newW newH in Hl, Hp. split; [exact Hl|]. split.
  - intros x y Hx Hy. rewrite Hp by (unfold newW, newH; lia).
    assert (Ei : inside pad (pad + H) pad (pad + W) (y + pad) (x + pad) = true)
      by (apply inside_spec; lia).
    rewrite Ei. now replace (y + pad - pad) with y by lia;
      replace (x + pad - pad) with x by lia.
  - intros cx cy Hcx Hcy Hm. rewrite Hp by assumption.
    destruct (inside pad (pad + H) pad (pad + W) cy cx) eqn:Ei; [|reflexivity].
    apply inside_spec in Ei. lia.
Qed.



End CanvasProps.

(** ** The sticker border: canvas, distance transform, the two borders *)

Module StickerFacts.
Import Loops Raster Sqrt2 Sqrt2Facts LoopFacts IndexFacts FillFacts MaskFacts
       CutoutFacts ChamferFacts DistanceFacts GridFacts RimFacts ManySeeds
       EdgeCanvas CanvasFacts StickerStages.

Lemma normalize_pixel_idem (px : pixel) :
  normalize_pixel (normalize_pixel px) = normalize_pixel px.
Proof.
  destruct ((220 <? red px)%Z && (220 <? green px)%Z && (220 <? blue px)%Z) eqn:E1.
  - destruct (Z.max (Z.max (Z.abs (red px - green px)) (Z.abs (red px - blue px)))
                    (Z.abs (green px - blue px)) <? 20)%Z eqn:E2.
    + assert (E : normalize_pixel px = Pixel 255 255 255 (alpha px)).
      { unfold normalize_pixel. rewrite E1. cbv zeta. now rewrite E2. }
      rewrite E. reflexivity.
    + assert (E : normalize_pixel px = px).
      { unfold normalize_pixel. rewrite E1. cbv zeta. now rewrite E2. }
      now rewrite !E.
  - assert (E : normalize_pixel px = px).
    { unfold normalize_pixel. now rewrite E1. }
    now rewrite !E.
Qed.

Lemma normalize_spec (data : list pixel) :
  length (normalize data) = length data /\
  forall i, normalize data !! i = normalize_pixel <$> data !! i.
Proof.
  destruct (map_loop_spec (fun _ => normalize_pixel) (length data) data) as [Hl Hp].
  split; [exact Hl|]. intros i. unfold normalize. rewrite Hp.
  destruct (Nat.ltb_spec i (length data)) as [Hi|Hi]; [reflexivity|].
  now rewrite lookup_ge_None_2 by lia.
Qed.

(** The distance field of createRasterSmoothBorder for arbitrary seeds that
    do not touch the frame of the canvas. *)
Lemma st_distance_transform (W H : nat) (strokePx : Z) (seed : nat -> bool) (x y : nat) :
  (0 <= strokePx)%Z ->
  (forall sx sy, sx < W -> sy < H -> seed (sy * W + sx) = true ->
                 1 <= sx < W - 1 /\ 1 <= sy < H - 1) ->
  x < W -> y < H ->
  exists d,
    Sticker.distance_field W H strokePx seed !! (y * W + x) = Some d /\
    (x = 0 \/ y = 0 \/ x = W - 1 \/ y = H - 1 -> d = of_Z (strokePx * 2)) /\
    (1 <= x < W - 1 -> 1 <= y < H - 1 ->
     leb d (of_Z (strokePx * 2)) = true /\
     (forall sx sy, sx < W -> sy < H -> seed (sy * W + sx) = true ->
        leb d (chamfer (Z.of_nat x - Z.of_nat sx) (Z.of_nat y - Z.of_nat sy)) = true) /\
     (d = of_Z (strokePx * 2) \/
      exists sx sy, sx < W /\ sy < H /\ seed (sy * W + sx) = true /\
        d = chamfer (Z.of_nat x - Z.of_nat sx) (Z.of_nat y - Z.of_nat sy))).
Proof.
  intros Hs Hseeds Hx Hy. unfold Sticker.distance_field.
  destruct (st_init_df_spec W H strokePx seed) as [Hlen Hinit].
  unfold Sticker.backward_pass, Sticker.forward_pass.
  change (for_down (H - 1) 1
            (fun y d => for_down (W - 1) 1 (fun x d' => Sticker.backward_cell W y x d') d)
            (for_up 1 (H - 1)
               (fun y d => for_up 1 (W - 1) (fun x d' => Sticker.forward_cell W y x d') d)
               (Sticker.init_df W H strokePx seed)))
    with (pass_bwd W H 1 (Sticker.backward_cell W)
            (pass_fwd W H 1 (Sticker.forward_cell W) (Sticker.init_df W H strokePx seed))).
  destruct (decide (1 <= x < W - 1 /\ 1 <= y < H - 1)) as [Hin|Hout].
  - destruct (many_seeds_exact W H 1 _ _ (st_fwd_spec W H) (st_bwd_spec W H)
                seed (of_Z (strokePx * 2)))
      with (df := Sticker.init_df W H strokePx seed) (x := x) (y := y)
      as (d & Hd & Hcap & Hup & Hatt).
    + rewrite toR_of_Z. apply IZR_le. lia.
    + intros sx sy (Hsx & Hsy & Hb). unfold region. now apply Hseeds.
    + constructor; [exact Hlen|]. intros x0 y0 Hx0 Hy0. now apply Hinit.
    + unfold region. lia.
    + exists d. split; [exact Hd|]. split; [lia|]. intros _ _.
      split; [now apply leb_spec|]. split.
      * intros sx sy Hsx Hsy Hb. apply leb_spec. apply (Hup sx sy). now split.
      * destruct Hatt as [->|(sx & sy & (Hsx & Hsy & Hb) & ->)]; [now left|].
        right. exists sx, sy. now repeat split.
  - exists (of_Z (strokePx * 2)). split.
    + rewrite (passes_outside W H 1 _ _ (st_fwd_spec W H) (st_bwd_spec W H)).
      * rewrite Hinit by assumption.
        destruct (seed (y * W + x)) eqn:Es; [|reflexivity].
        exfalso. apply Hout. now apply Hseeds.
      * exact Hlen.
      * intros x0 y0 Hreg E. apply Hout.
        apply index_inj in E; [|assumption | apply (region_lt W H 1 x0 y0 Hreg)].
        destruct E as [-> ->]. unfold region in Hreg. lia.
    + split; [reflexivity|]. intros. lia.
Qed.

(** The chamfer distance is at least the Euclidean one: a pixel within the
    chamfer distance [s] of another is within the Euclidean distance [s]. *)
Lemma chamfer_euclid (dx dy s : Z) :
  leb (chamfer dx dy) (of_Z s) = true ->
  (dx * dx + dy * dy <= s * s)%Z /\ (- s <= dx <= s)%Z /\ (- s <= dy <= s)%Z.
Proof.
  intros Hle. apply leb_spec in Hle. rewrite toR_chamfer, toR_of_Z in Hle.
  set (M := Z.max (Z.abs dx) (Z.abs dy)) in *.
  set (m := Z.min (Z.abs dx) (Z.abs dy)) in *.
  assert (Hm0 : (0 <= m)%Z) by (unfold m; lia).
  assert (HmM : (m <= M)%Z) by (unfold m, M; lia).
  pose proof sqrt2_bounds as [Hs1 Hs2]. pose proof sqrt2_sq as Hsq.
  assert (Rm0 : (0 <= IZR m)%R) by (now apply IZR_le).
  assert (RmM : (IZR m <= IZR M)%R) by (now apply IZR_le).
  assert (HM : (M <= s)%Z).
  { apply le_IZR. nra. }
  assert (Hsqr : (M * M + m * m <= s * s)%Z).
  { apply le_IZR. rewrite plus_IZR, !mult_IZR.
    assert (Hs0 : (0 <= IZR s)%R) by nra.
    assert (Ht : (0 <= IZR m * sqrt 2 + (IZR M - IZR m))%R) by nra.
    pose proof (sq_le _ _ Ht Hle) as Hq.
    assert (Hp : (0 <= IZR m * (IZR M - IZR m) * (sqrt 2 - 1))%R).
    { apply Rmult_le_pos; [apply Rmult_le_pos|]; lra. }
    assert (He : ((IZR m * sqrt 2 + (IZR M - IZR m))
                  * (IZR m * sqrt 2 + (IZR M - IZR m)) =
                  IZR M * IZR M + IZR m * IZR m
                  + 2 * (IZR m * (IZR M - IZR m) * (sqrt 2 - 1))
                  + IZR m * IZR m * (sqrt 2 * sqrt 2 - 2))%R) by ring.
    rewrite Hsq in He. lra. }
  assert (Hxy : (dx * dx + dy * dy = M * M + m * m)%Z) by (unfold M, m; nia).
  split; [lia|]. unfold M in HM. lia.
Qed.

(** [shouldBeBorder], spelled out on canvas coordinates. *)
Lemma shouldBeBorder_spec (newW newH : nat) (strokePx : Z)
      (expandedData : list pixel) (y x : nat) :
  shouldBeBorder newW newH strokePx expandedData y x = true <->
  exists sx sy, sx < newW /\ sy < newH /\
    Sticker.alpha_above 0 expandedData (sy * newW + sx) = true /\
    (- strokePx <= Z.of_nat sx - Z.of_nat x <= strokePx)%Z /\
    (- strokePx <= Z.of_nat sy - Z.of_nat y <= strokePx)%Z /\
    ((Z.of_nat sx - Z.of_nat x) * (Z.of_nat sx - Z.of_nat x)
     + (Z.of_nat sy - Z.of_nat y) * (Z.of_nat sy - Z.of_nat y)
     <= strokePx * strokePx)%Z.
Proof.
  unfold shouldBeBorder. rewrite existsb_exists. split.
  - intros (dy & Hdy & Hrow). apply in_offsets in Hdy.
    apply existsb_exists in Hrow. destruct Hrow as (dx & Hdx & Hc).
    apply in_offsets in Hdx. cbv zeta in Hc.
    repeat (apply andb_true_iff in Hc; destruct Hc as [Hc ?]).
    apply Z.leb_le in Hc.
    repeat match goal with
           | E : (_ <=? _)%Z = true |- _ => apply Z.leb_le in E
           | E : (_ <? _)%Z = true |- _ => apply Z.ltb_lt in E
           end.
    exists (Z.to_nat (Z.of_nat x + dx)), (Z.to_nat (Z.of_nat y + dy)).
    rewrite (idx_of_Z newW x y (Z.to_nat (Z.of_nat x + dx)) (Z.to_nat (Z.of_nat y + dy)))
      in * by lia.
    split; [lia|]. split; [lia|]. split; [assumption|].
    replace (Z.of_nat (Z.to_nat (Z.of_nat x + dx)) - Z.of_nat x)%Z with dx by lia.
    replace (Z.of_nat (Z.to_nat (Z.of_nat y + dy)) - Z.of_nat y)%Z with dy by lia.
    repeat split; lia.
  - intros (sx & sy & Hsx & Hsy & Ha & Hdx & Hdy & Hd).
    exists (Z.of_nat sy - Z.of_nat y)%Z. split; [now apply in_offsets|].
    apply existsb_exists.
    exists (Z.of_nat sx - Z.of_nat x)%Z. split; [now apply in_offsets|].
    cbv zeta.
    rewrite (idx_of_Z newW x y sx sy) by lia. rewrite Ha.
    repeat (apply andb_true_iff; split); try reflexivity;
      try (apply Z.leb_le; lia); apply Z.ltb_lt; lia.
Qed.

Lemma createVectorSmoothBorder_spec (newW newH : nat) (strokePx : Z)
      (expandedData : list pixel) (x y : nat) :
  x < newW -> y < newH ->
  createVectorSmoothBorder newW newH strokePx expandedData !! (y * newW + x) =
  Some (if Sticker.alpha_above 0 expandedData (y * newW + x)
        then default clear (expandedData !! (y * newW + x))
        else if shouldBeBorder newW newH strokePx expandedData y x
             then Pixel 255 255 255 255 else clear).
Proof.
  intros Hx Hy. unfold createVectorSmoothBorder.
  set (bd := for_up 0 newH _ _).
  assert (Hbd : length bd = newW * newH /\
                bd !! (y * newW + x) =
                Some (if shouldBeBorder newW newH strokePx expandedData y x
                      then Pixel 255 255 255 255 else clear)).
  { destruct (fill2_spec newW newH
                (fun y x => if shouldBeBorder newW newH strokePx expandedData y x
                            then Some (Pixel 255 255 255 255) else None)
                (replicate (newW * newH) clear)) as [Hl Hp];
      [apply length_replicate|].
    assert (E : bd = for_up 0 newH
                  (fun y c =>
                     for_up 0 newW
                       (fun x c' =>
                          match (if shouldBeBorder newW newH strokePx expandedData y x
                                 then Some (Pixel 255 255 255 255) else None) with
                          | Some v => <[y * newW + x := v]> c'
                          | None => c'
                          end) c) (replicate (newW * newH) clear)).
    { unfold bd. apply for_up_ext. intros y0 c. apply for_up_ext. intros x0 c'.
      now destruct (shouldBeBorder newW newH strokePx expandedData y0 x0). }
    rewrite E. split; [exact Hl|]. rewrite Hp by assumption.
    destruct (shouldBeBorder newW newH strokePx expandedData y x); [reflexivity|].
    apply lookup_replicate_2. now apply index_lt. }
  destruct Hbd as [Hl Hb].
  set (u := fun (i : nat) (old : pixel) =>
    match expandedData !! i with
    | Some px => if (0 <? alpha px)%Z then px else old
    | None => old
    end).
  rewrite (for_up_ext _
             (fun i c => match c !! i with
                         | Some old => <[i := u i old]> c
                         | None => c
                         end)).
  2:{ intros k m. unfold u. destruct (expandedData !! k) as [px|].
      - destruct (0 <? alpha px)%Z.
        + apply insert_as_map.
        + destruct (m !! k) eqn:E; [|reflexivity]. symmetry. now apply list_insert_id.
      - destruct (m !! k) eqn:E; [|reflexivity]. symmetry. now apply list_insert_id. }
  destruct (map_loop_spec u (newW * newH) bd) as [_ Hp]. rewrite Hp.
  assert (Hi : y * newW + x < newW * newH) by (now apply index_lt).
  destruct (Nat.ltb_spec (y * newW + x) (newW * newH)); [|lia].
  rewrite Hb. simpl. unfold u, Sticker.alpha_above.
  destruct (expandedData !! (y * newW + x)) as [px|]; [|reflexivity].
  now destruct (0 <? alpha px)%Z.
Qed.

Lemma st_generate_length (W H : nat) (strokePx : Z) (expandedData : list pixel)
      (df : list t) (border : t -> option pixel) :
  length (Sticker.generate W H strokePx expandedData df border) = W * H.
Proof.
  unfold Sticker.generate.
  set (g := fun y x =>
    if Sticker.alpha_above 0 expandedData (y * W + x)
    then expandedData !! (y * W + x)
    else match df !! (y * W + x) with
         | Some distance =>
             if leb distance (of_Z strokePx) then border distance else None
         | None => None
         end).
  destruct (fill2_spec W H g (replicate (W * H) clear)) as [Hl _];
    [apply length_replicate|].
  exact Hl.
Qed.

(** The canvas of the sticker: pixels of positive alpha lie in the image
    area, at least [padding] pixels away from the frame. *)
Lemma canvas_subject_inside (W H padding : nat) (data : list pixel) (t : Z)
      (sx sy : nat) :
  (0 <= t)%Z ->
  sx < W + 2 * padding -> sy < H + 2 * padding ->
  Sticker.alpha_above t (expand W H padding data) (sy * (W + 2 * padding) + sx) = true ->
  padding <= sx < padding + W /\ padding <= sy < padding + H.
Proof.
  intros Ht Hsx Hsy Ha. unfold Sticker.alpha_above in Ha.
  destruct (expand_spec W H padding data) as [_ Hp].
  rewrite Hp in Ha by assumption.
  destruct (inside padding (padding + H) padding (padding + W) sy sx) eqn:Ei.
  - apply inside_spec in Ei. lia.
  - simpl in Ha. apply Z.ltb_lt in Ha. lia.
Qed.

(** The first revision of the raster border on the canvas of the sticker. *)
Lemma raster_hard_on_canvas (W H padding : nat) (strokePx : Z) (data : list pixel)
      (cx cy : nat) :
  (1 <= strokePx)%Z -> 1 <= padding ->
  let newW := W + 2 * padding in
  let newH := H + 2 * padding in
  let expandedData := expand W H padding data in
  let out := Sticker.createRasterSmoothBorder_hard newW newH strokePx expandedData in
  let i := cy * newW + cx in
  cx < newW -> cy < newH ->
  (Sticker.alpha_above 0 expandedData i = true -> out !! i = expandedData !! i) /\
  (Sticker.alpha_above 0 expandedData i = false ->
   (out !! i = Some (Pixel 255 255 255 255) \/ out !! i = Some clear) /\
   (out !! i = Some (Pixel 255 255 255 255) <->
    1 <= cx < newW - 1 /\ 1 <= cy < newH - 1 /\
    exists sx sy, sx < newW /\ sy < newH /\
      Sticker.alpha_above 127 expandedData (sy * newW + sx) = true /\
      leb (chamfer (Z.of_nat cx - Z.of_nat sx) (Z.of_nat cy - Z.of_nat sy))
          (of_Z strokePx) = true)).
Proof.
  intros Hs Hpad newW newH expandedData out i Hcx Hcy.
  subst out i. unfold Sticker.createRasterSmoothBorder_hard.
  rewrite st_generate_spec by assumption.
  split.
  - intros Ha. rewrite Ha.
    unfold Sticker.alpha_above in Ha.
    destruct (expandedData !! (cy * newW + cx)); [reflexivity|discriminate].
  - intros Ha. rewrite Ha.
    destruct (st_distance_transform newW newH strokePx
                (Sticker.alpha_above 127 expandedData) cx cy) as (d & Hd & Hfr & Hin);
      [lia | | assumption | assumption |].
    { intros sx sy Hsx Hsy Hb.
      destruct (canvas_subject_inside W H padding data 127 sx sy) as [? ?];
        [lia | assumption | assumption | exact Hb |].
      unfold newW, newH. lia. }
    rewrite Hd.
    assert (Hbig : leb (of_Z (strokePx * 2)) (of_Z strokePx) = false).
    { destruct (leb (of_Z (strokePx * 2)) (of_Z strokePx)) eqn:E; [|reflexivity].
      apply leb_spec in E. rewrite !toR_of_Z in E. apply le_IZR in E. lia. }
    destruct (decide (1 <= cx < newW - 1 /\ 1 <= cy < newH - 1)) as [Hi|Ho].
    + destruct Hi as [Hix Hiy]. destruct (Hin Hix Hiy) as (_ & Hup & Hatt).
      destruct (leb d (of_Z strokePx)) eqn:El.
      * split; [now left|]. split; [intros _|reflexivity].
        split; [exact Hix|]. split; [exact Hiy|].
        destruct Hatt as [->|(sx & sy & Hsx & Hsy & Hb & ->)]; [congruence|].
        exists sx, sy. now repeat split.
      * split; [now right|]. split; [discriminate|].
        intros (_ & _ & sx & sy & Hsx & Hsy & Hb & Hle). exfalso.
        pose proof (Hup sx sy Hsx Hsy Hb) as Hd1.
        apply leb_spec in Hd1, Hle.
        assert (leb d (of_Z strokePx) = true) by (apply leb_spec; lra).
        congruence.
    + rewrite Hfr by lia. rewrite Hbig.
      split; [now right|]. split; [discriminate|]. intros (? & ? & _). tauto.
Qed.

End StickerFacts.

Module StickerProps.
Import Loops Raster Sqrt2 Sqrt2Facts IndexFacts MaskFacts ChamferFacts DistanceFacts
       GridFacts EdgeCanvas CanvasFacts StickerStages StickerFacts.

(** X16. The off-white normalisation of step 1.5 is idempotent, keeps the
    length and every alpha byte, and changes a pixel only to pure white,
    and then only a pixel whose three colour bytes all exceed 220. *)
Theorem X16_normalize_idempotent (data : list pixel) :
  normalize (normalize data) = normalize data /\
  length (normalize data) = length data /\
  forall i px, data !! i = Some px ->
    exists px', normalize data !! i = Some px' /\ alpha px' = alpha px /\
      (px' = px \/
       (px' = Pixel 255 255 255 (alpha px) /\
        (220 < red px)%Z /\ (220 < green px)%Z /\ (220 < blue px)%Z)).
Proof.
  destruct (normalize_spec data) as [Hl Hp].
  destruct (normalize_spec (normalize data)) as [_ Hp2].
  split.
  { apply list_eq. intros i. rewrite Hp2, Hp.
    destruct (data !! i); [|reflexivity]. simpl. now rewrite normalize_pixel_idem. }
  split; [exact Hl|].
  intros i px Hpx. exists (normalize_pixel px).
  rewrite Hp, Hpx. split; [reflexivity|].
  unfold normalize_pixel.
  destruct ((220 <? red px)%Z && (220 <? green px)%Z && (220 <? blue px)%Z) eqn:E1;
    [|split; [reflexivity | now left]].
  cbv zeta.
  destruct (_ <? 20)%Z; [|split; [reflexivity | now left]].
  split; [reflexivity|]. right. split; [reflexivity|].
  apply andb_true_iff in E1 as [E1 E3]. apply andb_true_iff in E1 as [E1 E2].
  apply Z.ltb_lt in E1, E2, E3. tauto.
Qed.

(** X18. The raster-smoothed sticker of the first revision, on the canvas
    of [W + 2 * strokePx] by [H + 2 * strokePx] pixels: a pixel of positive
    alpha is the (normalised) pixel of the image; any other pixel is white
    and opaque when it is not on the frame of the canvas and lies within
    the chamfer distance [strokePx] of a pixel of alpha above 127, and it
    is cleared otherwise.  The outermost frame of the canvas is never
    painted. *)
Theorem X18_sticker_raster_border
        (W H : nat) (strokePx : Z) (data : list pixel) (cx cy : nat) :
  (1 <= strokePx)%Z ->
  let padding := Z.to_nat strokePx in
  let newW := W + padding * 2 in
  let newH := H + padding * 2 in
  let expandedData := expand W H padding (normalize data) in
  let out := makeStickerBorder false W H strokePx data in
  let i := cy * newW + cx in
  cx < newW -> cy < newH ->
  length out = newW * newH /\
  (Sticker.alpha_above 0 expandedData i = true -> out !! i = expandedData !! i) /\
  (Sticker.alpha_above 0 expandedData i = false ->
   (out !! i = Some (Pixel 255 255 255 255) \/ out !! i = Some clear) /\
   (out !! i = Some (Pixel 255 255 255 255) <->
    1 <= cx < newW - 1 /\ 1 <= cy < newH - 1 /\
    exists sx sy, sx < newW /\ sy < newH /\
      Sticker.alpha_above 127 expandedData (sy * newW + sx) = true /\
      leb (chamfer (Z.of_nat cx - Z.of_nat sx) (Z.of_nat cy - Z.of_nat sy))
          (of_Z strokePx) = true)).
Proof.
  intros Hs padding newW newH expandedData out i.
  subst out i newW newH. unfold makeStickerBorder. fold padding. cbv zeta.
  replace (padding * 2) with (2 * padding) by lia.
  intros Hcx Hcy.
  split; [apply st_generate_length|].
  apply (raster_hard_on_canvas W H padding strokePx (normalize data) cx cy);
    [exact Hs | unfold padding; lia | exact Hcx | exact Hcy].
Qed.

Lemma X18_sticker_raster_border_witness :
  let data := [Pixel 10 20 30 255] in
  let padding := Z.to_nat 1 in
  let newW := 1 + padding * 2 in
  let newH := 1 + padding * 2 in
  let expandedData := expand 1 1 padding (normalize data) in
  let out := makeStickerBorder false 1 1 1 data in
  let i := 1 * newW + 0 in
  (1 <= 1)%Z /\ 0 < newW /\ 1 < newH /\
  length out = newW * newH /\
  (Sticker.alpha_above 0 expandedData i = true -> out !! i = expandedData !! i) /\
  (Sticker.alpha_above 0 expandedData i = false ->
   (out !! i = Some (Pixel 255 255 255 255) \/ out !! i = Some clear) /\
   (out !! i = Some (Pixel 255 255 255 255) <->
    1 <= 0 < newW - 1 /\ 1 <= 1 < newH - 1 /\
    exists sx sy, sx < newW /\ sy < newH /\
      Sticker.alpha_above 127 expandedData (sy * newW + sx) = true /\
      leb (chamfer (Z.of_nat 0 - Z.of_nat sx) (Z.of_nat 1 - Z.of_nat sy))
          (of_Z 1) = true)).
Proof.
  cbv zeta.
  split; [lia|]. split; [simpl; lia|]. split; [simpl; lia|].
  apply (X18_sticker_raster_border 1 1 1 [Pixel 10 20 30 255] 0 1);
    [lia | simpl; lia | simpl; lia].
Defined.

(** X19. For a stroke of whole pixels, the vector-smoothed border of the
    first revision is the Euclidean one: a pixel of positive alpha is
    copied, and any other pixel of the canvas is white and opaque exactly
    when some pixel of positive alpha lies within [strokePx] of it (offsets
    [dx], [dy] with [dx * dx + dy * dy <= strokePx * strokePx]), and
    cleared otherwise. *)
Theorem X19_vector_border_is_euclidean
        (newW newH : nat) (strokePx : Z) (expandedData : list pixel) (x y : nat) :
  x < newW -> y < newH ->
  let i := y * newW + x in
  let out := createVectorSmoothBorder newW newH strokePx expandedData in
  (Sticker.alpha_above 0 expandedData i = true -> out !! i = expandedData !! i) /\
  (Sticker.alpha_above 0 expandedData i = false ->
   (out !! i = Some (Pixel 255 255 255 255) \/ out !! i = Some clear) /\
   (out !! i = Some (Pixel 255 255 255 255) <->
    exists sx sy, sx < newW /\ sy < newH /\
      Sticker.alpha_above 0 expandedData (sy * newW + sx) = true /\
      (- strokePx <= Z.of_nat sx - Z.of_nat x <= strokePx)%Z /\
      (- strokePx <= Z.of_nat sy - Z.of_nat y <= strokePx)%Z /\
      ((Z.of_nat sx - Z.of_nat x) * (Z.of_nat sx - Z.of_nat x)
       + (Z.of_nat sy - Z.of_nat y) * (Z.of_nat sy - Z.of_nat y)
       <= strokePx * strokePx)%Z)).
Proof.
  intros Hx Hy i out. subst out i.
  rewrite createVectorSmoothBorder_spec by assumption.
  split.
  - intros Ha. rewrite Ha. unfold Sticker.alpha_above in Ha.
    destruct (expandedData !! (y * newW + x)); [reflexivity|discriminate].
  - intros Ha. rewrite Ha. rewrite <- shouldBeBorder_spec.
    destruct (shouldBeBorder newW newH strokePx expandedData y x).
    + split; [now left|]. split; reflexivity.
    + split; [now right|]. split; discriminate.
Qed.

Lemma X19_vector_border_is_euclidean_witness :
  let expandedData := [clear; Pixel 1 2 3 200; clear] in
  let i := 0 * 3 + 0 in
  let out := createVectorSmoothBorder 3 1 1 expandedData in
  0 < 3 /\ 0 < 1 /\
  (Sticker.alpha_above 0 expandedData i = true -> out !! i = expandedData !! i) /\
  (Sticker.alpha_above 0 expandedData i = false ->
   (out !! i = Some (Pixel 255 255 255 255) \/ out !! i = Some clear) /\
   (out !! i = Some (Pixel 255 255 255 255) <->
    exists sx sy, sx < 3 /\ sy < 1 /\
      Sticker.alpha_above 0 expandedData (sy * 3 + sx) = true /\
      (- 1 <= Z.of_nat sx - Z.of_nat 0 <= 1)%Z /\
      (- 1 <= Z.of_nat sy - Z.of_nat 0 <= 1)%Z /\
      ((Z.of_nat sx - Z.of_nat 0) * (Z.of_nat sx - Z.of_nat 0)
       + (Z.of_nat sy - Z.of_nat 0) * (Z.of_nat sy - Z.of_nat 0)
       <= 1 * 1)%Z)).
Proof.
  cbv zeta. split; [lia|]. split; [lia|].
  apply (X19_vector_border_is_euclidean 3 1 1 [clear; Pixel 1 2 3 200; clear] 0 0); lia.
Defined.

(** X20. On the same image and stroke, the vector-smoothed sticker differs
    from the raster-smoothed one only by painting more border: at every
    pixel of the canvas the two outputs agree, or the raster output is
    cleared there and the vector output is white. *)
Theorem X20_raster_border_within_vector_border
        (W H : nat) (strokePx : Z) (data : list pixel) (cx cy : nat) :
  (1 <= strokePx)%Z ->
  let padding := Z.to_nat strokePx in
  let newW := W + padding * 2 in
  let newH := H + padding * 2 in
  let i := cy * newW + cx in
  cx < newW -> cy < newH ->
  makeStickerBorder false W H strokePx data !! i
    = makeStickerBorder true W H strokePx data !! i \/
  (makeStickerBorder false W H strokePx data !! i = Some clear /\
   makeStickerBorder true W H strokePx data !! i = Some (Pixel 255 255 255 255)).
Proof.
  intros Hs padding newW newH i. subst i newW newH.
  unfold makeStickerBorder. fold padding. cbv zeta.
  replace (padding * 2) with (2 * padding) by lia.
  intros Hcx Hcy.
  set (newW := W + 2 * padding). set (newH := H + 2 * padding).
  set (expandedData := expand W H padding (normalize data)).
  destruct (raster_hard_on_canvas W H padding strokePx (normalize data) cx cy)
    as [Hsub Hbg]; [exact Hs | unfold padding; lia | exact Hcx | exact Hcy |].
  fold newW newH expandedData in Hsub, Hbg.
  rewrite createVectorSmoothBorder_spec by assumption.
  destruct (Sticker.alpha_above 0 expandedData (cy * newW + cx)) eqn:Ea.
  - left. rewrite Hsub by reflexivity.
    unfold Sticker.alpha_above in Ea.
    destruct (expandedData !! (cy * newW + cx)); [reflexivity|discriminate].
  - destruct (Hbg eq_refl) as [[Hw|Hc] Hiff].
    + left. rewrite Hw.
      apply Hiff in Hw. destruct Hw as (_ & _ & sx & sy & Hsx & Hsy & Hb & Hle).
      replace (shouldBeBorder newW newH strokePx expandedData cy cx) with true;
        [reflexivity|].
      symmetry. apply shouldBeBorder_spec. exists sx, sy.
      split; [exact Hsx|]. split; [exact Hsy|]. split.
      { unfold Sticker.alpha_above in *.
        destruct (expandedData !! (sy * newW + sx)); [|discriminate].
        apply Z.ltb_lt in Hb. apply Z.ltb_lt. lia. }
      destruct (chamfer_euclid _ _ _ Hle) as (Hd & Hdx & Hdy).
      split; [lia|]. split; [lia|]. nia.
    + rewrite Hc.
      destruct (shouldBeBorder newW newH strokePx expandedData cy cx);
        [right; now split | now left].
Qed.

Lemma X20_raster_border_within_vector_border_witness :
  let data := [Pixel 10 20 30 255] in
  let padding := Z.to_nat 2 in
  let newW := 1 + padding * 2 in
  let newH := 1 + padding * 2 in
  let i := 1 * newW + 1 in
  (1 <= 2)%Z /\ 1 < newW /\ 1 < newH /\
  (makeStickerBorder false 1 1 2 data !! i = makeStickerBorder true 1 1 2 data !! i \/
   (makeStickerBorder false 1 1 2 data !! i = Some clear /\
    makeStickerBorder true 1 1 2 data !! i = Some (Pixel 255 255 255 255))).
Proof.
  cbv zeta. split; [lia|]. split; [simpl; lia|]. split; [simpl; lia|].
  apply (X20_raster_border_within_vector_border 1 1 2 [Pixel 10 20 30 255] 1 1);
    [lia | simpl; lia | simpl; lia].
Defined.

End StickerProps.

(** ** The command line of the sticker tool *)

Module CliFacts.
Import String StickerCli.

Lemma indexOf_absent (flag : string) (args : list string) :
  flag ∉ args -> indexOf flag args = None.
Proof.
  induction args as [|a rest IH]; intros Hn; [reflexivity|].
  simpl. destruct (String.eqb_spec a flag) as [->|Hne].
  - exfalso. apply Hn. left.
  - rewrite IH; [reflexivity|]. intros Hin. apply Hn. now right.
Qed.

(** The first occurrence of a flag placed at the position [k]. *)
Lemma indexOf_placed (flag : string) (args tail : list string) :
  flag ∉ args -> indexOf flag (args ++ flag :: tail) = Some (List.length args).
Proof.
  induction args as [|a rest IH]; intros Hn; simpl.
  - now rewrite String.eqb_refl.
  - destruct (String.eqb_spec a flag) as [->|Hne].
    + exfalso. apply Hn. left.
    + rewrite IH; [reflexivity|]. intros Hin. apply Hn. now right.
Qed.

Lemma splice_placed (front tail gone : list string) :
  splice (List.length front) (List.length gone) (front ++ gone ++ tail) = front ++ tail.
Proof.
  unfold splice. rewrite take_app_length. f_equal.
  rewrite <- drop_drop, drop_app_length. apply drop_app_length.
Qed.

Lemma elem_of_take_list {A : Type} (l : list A) (n : nat) (x : A) :
  x ∈ take n l -> x ∈ l.
Proof.
  intros Hin. apply elem_of_take in Hin. destruct Hin as (i & Hi & _).
  eapply list_elem_of_lookup_2. exact Hi.
Qed.

End CliFacts.

Module CliProps.
Import String StickerCli CliFacts.
Local Open Scope string_scope.
Local Open Scope list_scope.
Local Open Scope nat_scope.

(** X21. The two flags of the sticker tool may stand anywhere on the
    command line: when [--vectorSmooth], or [--simplifyPx] followed by its
    value, is inserted at any position among arguments that hold no flag,
    the five positional arguments are read as without it, and the flag is
    recorded.  A [--simplifyPx] that ends the command line has no value: it
    is not removed, and is read as a positional argument. *)
Theorem X21_flags_anywhere (args : list string) (k : nat) (v : string) :
  "--vectorSmooth" ∉ args -> "--simplifyPx" ∉ args ->
  k <= List.length args -> v <> "--vectorSmooth" ->
  let positional l f s :=
    Parsed (l !! 0) (l !! 1) (l !! 2) (l !! 3) (l !! 4) f s in
  parse args = positional args false None /\
  parse (take k args ++ "--vectorSmooth" :: drop k args) = positional args true None /\
  parse (take k args ++ "--simplifyPx" :: v :: drop k args)
    = positional args false (Some v) /\
  parse (args ++ ["--simplifyPx"]) = positional (args ++ ["--simplifyPx"]) false None.
Proof.
  intros Hvs Hsp Hk Hv positional.
  assert (Hlen : List.length (take k args) = k) by (rewrite length_take; lia).
  split; [|split; [|split]].
  - unfold parse. now rewrite !indexOf_absent.
  - unfold parse.
    rewrite (indexOf_placed "--vectorSmooth" (take k args) (drop k args))
      by (intros Hin; apply Hvs; eapply elem_of_take_list; exact Hin).
    pose proof (splice_placed (take k args) (drop k args) ["--vectorSmooth"]) as Es.
    simpl in Es. rewrite Es, take_drop.
    now rewrite (indexOf_absent "--simplifyPx" args Hsp).
  - unfold parse.
    rewrite (indexOf_absent "--vectorSmooth").
    2:{ intros Hin. apply elem_of_app in Hin. destruct Hin as [Hin|Hin].
        - apply Hvs. eapply elem_of_take_list. exact Hin.
        - apply elem_of_cons in Hin. destruct Hin as [E|Hin]; [discriminate|].
          apply elem_of_cons in Hin. destruct Hin as [E|Hin]; [congruence|].
          apply Hvs. eapply ComponentFacts.elem_of_drop_list. exact Hin. }
    rewrite (indexOf_placed "--simplifyPx" (take k args) (v :: drop k args))
      by (intros Hin; apply Hsp; eapply elem_of_take_list; exact Hin).
    rewrite Hlen.
    assert (Hlt : (k + 1 <? List.length (take k args ++ "--simplifyPx" :: v :: drop k args))%nat
                  = true).
    { apply Nat.ltb_lt. rewrite length_app, Hlen. simpl. lia. }
    rewrite Hlt.
    assert (Hval : (take k args ++ "--simplifyPx" :: v :: drop k args) !! (k + 1) = Some v).
    { rewrite lookup_app_r by lia. rewrite Hlen.
      now replace (k + 1 - k) with 1 by lia. }
    rewrite Hval.
    pose proof (splice_placed (take k args) (drop k args) ["--simplifyPx"; v]) as Es.
    simpl in Es. rewrite Hlen in Es. rewrite Es, take_drop. reflexivity.
  - unfold parse.
    rewrite (indexOf_absent "--vectorSmooth").
    2:{ intros Hin. apply elem_of_app in Hin. destruct Hin as [Hin|Hin]; [tauto|].
        apply list_elem_of_singleton in Hin. discriminate. }
    rewrite (indexOf_placed "--simplifyPx" args []) by exact Hsp.
    assert (Hlt : (List.length args + 1 <? List.length (args ++ ["--simplifyPx"]))%nat
                  = false).
    { apply Nat.ltb_ge. rewrite length_app. simpl. lia. }
    now rewrite Hlt.
Qed.

Lemma X21_flags_anywhere_witness :
  let args := ["in.webp"; "out.webp"; "24"] in
  let positional l f s :=
    Parsed (l !! 0) (l !! 1) (l !! 2) (l !! 3) (l !! 4) f s in
  parse args = positional args false None /\
  parse (take 1 args ++ "--vectorSmooth" :: drop 1 args) = positional args true None /\
  parse (take 1 args ++ "--simplifyPx" :: "3" :: drop 1 args)
    = positional args false (Some "3") /\
  parse (args ++ ["--simplifyPx"]) = positional (args ++ ["--simplifyPx"]) false None.
Proof.
  apply (X21_flags_anywhere ["in.webp"; "out.webp"; "24"] 1 "3").
  - intros Hin. repeat (apply elem_of_cons in Hin; destruct Hin as [E|Hin];
                        [discriminate|]). inversion Hin.
  - intros Hin. repeat (apply elem_of_cons in Hin; destruct Hin as [E|Hin];
                        [discriminate|]). inversion Hin.
  - simpl. lia.
  - discriminate.
Defined.

End CliProps.

(** ** The alpha of an outline pixel *)

Module OutlineFacts.
Import Raster Cutout Outline.

Lemma to_uint8_byte (n : Z) : (0 <= n <= 255)%Z -> JS.to_uint8 (JS.of_Z n) = n.
Proof.
  intros Hn. unfold JS.to_uint8, JS.of_Z, inject_Z. simpl.
  rewrite Z.quot_1_r. apply Z.mod_small. lia.
Qed.

(** The value of the luminance, a double. *)
Definition lum (px : pixel) : Q :=
  Double.binary64
    (Double.binary64
       (Double.binary64 (Double.binary64 0.299 * inject_Z (red px))
        + Double.binary64 (Double.binary64 0.587 * inject_Z (green px)))
     + Double.binary64 (Double.binary64 0.114 * inject_Z (blue px))).

Lemma luminance_fin (px : pixel) : luminance px = JS.Fin (lum px).
Proof. reflexivity. Qed.

Lemma round_between (x : Q) (a b : Z) :
  (0 <= a < 2 ^ 53)%Z -> (0 <= b < 2 ^ 53)%Z ->
  (inject_Z a <= x)%Q -> (x <= inject_Z b)%Q ->
  (inject_Z a <= Double.binary64 x /\ Double.binary64 x <= inject_Z b)%Q.
Proof.
  intros Ha Hb Hx1 Hx2. unfold Double.binary64. split.
  - rewrite <- (Qmult_1_r (inject_Z a)). change 1%Q with (2 ^ 0)%Q.
    apply DoubleFacts.round_ge_bound; [exact Ha | lia|].
    change (2 ^ 0)%Q with 1%Q. now rewrite Qmult_1_r.
  - rewrite <- (Qmult_1_r (inject_Z b)). change 1%Q with (2 ^ 0)%Q.
    apply DoubleFacts.round_le_bound; [exact Hb | lia|].
    change (2 ^ 0)%Q with 1%Q. now rewrite Qmult_1_r.
Qed.

(** The fade between the two luminances, as the doubles compute it. *)
Definition fade (q : Q) : Q :=
  Double.binary64
    (inject_Z 255 *
     Double.binary64
       (inject_Z 1 -
        Double.binary64 (Double.binary64 (q - inject_Z 210) / Double.binary64 (inject_Z 235 - inject_Z 210)))).

(** The rounded fade is a byte. *)
Lemma fade_byte (q : Q) :
  (210 <= q)%Q -> (q <= 235)%Q -> (0 <= Qfloor (fade q + (1 # 2)) <= 255)%Z.
Proof.
  intros Hlo Hhi. unfold fade.
  assert (E25 : Double.binary64 (inject_Z 235 - inject_Z 210) = 25%Q)
    by (vm_compute; reflexivity).
  rewrite E25.
  destruct (round_between (q - inject_Z 210) 0 25) as [D1 D2];
    [lia | lia | unfold inject_Z; Lqa.lra | unfold inject_Z; Lqa.lra |].
  set (d := Double.binary64 (q - inject_Z 210)) in *.
  assert (E : (d / 25 == d * (1 # 25))%Q).
  { unfold Qdiv. apply Qmult_comp; reflexivity. }
  destruct (round_between (d / 25) 0 1) as [P1 P2];
    [lia | lia | rewrite E; unfold inject_Z in *; Lqa.lra
     | rewrite E; unfold inject_Z in *; Lqa.lra |].
  set (pos := Double.binary64 (d / 25)) in *.
  destruct (round_between (inject_Z 1 - pos) 0 1) as [M1 M2];
    [lia | lia | unfold inject_Z in *; Lqa.lra | unfold inject_Z in *; Lqa.lra |].
  set (om := Double.binary64 (inject_Z 1 - pos)) in *.
  destruct (round_between (inject_Z 255 * om) 0 255) as [V1 V2];
    [lia | lia | unfold inject_Z in *; Lqa.lra | unfold inject_Z in *; Lqa.lra |].
  set (v := Double.binary64 (inject_Z 255 * om)) in *.
  unfold inject_Z in V1, V2. split.
  - change 0%Z with (Qfloor 0). apply Qfloor_resp_le. Lqa.lra.
  - change 255%Z with (Qfloor (511 # 2)). apply Qfloor_resp_le. Lqa.lra.
Qed.

Lemma Qle_bool_inject (x y : Z) : Qle_bool (inject_Z x) (inject_Z y) = (x <=? y)%Z.
Proof. unfold Qle_bool, inject_Z. simpl. now rewrite !Z.mul_1_r. Qed.

Lemma min_of_Z (n a : Z) : JS.Math_min (JS.of_Z n) (JS.of_Z a) = JS.of_Z (Z.min n a).
Proof.
  unfold JS.Math_min, JS.of_Z, JS.is_nan, JS.ltb. simpl orb. cbv iota.
  rewrite Qle_bool_inject.
  destruct (Z.leb_spec n a); simpl negb; cbv iota.
  - now rewrite Z.min_l by lia.
  - now rewrite Z.min_r by lia.
Qed.

(** [newAlpha] is the smaller of the alpha of the pixel and of a byte [n]
    that only depends on the luminance. *)
Lemma newAlpha_min (px : pixel) :
  (0 <= alpha px <= 255)%Z ->
  exists n, (0 <= n <= 255)%Z /\
    newAlpha px = JS.of_Z (Z.min n (alpha px)) /\
    (JS.geb (luminance px) (JS.of_Z 235) = true -> n = 0%Z) /\
    (JS.geb (luminance px) (JS.of_Z 210) = false -> n = 255%Z).
Proof.
  intros Ha. unfold newAlpha. rewrite luminance_fin.
  set (q := lum px).
  unfold luminanceHigh, luminanceLow.
  assert (Hfin : forall n, (0 <= n <= 255)%Z ->
            (if JS.ltb (JS.of_Z (alpha px)) (JS.of_Z 255)
             then JS.Math_min (JS.of_Z n) (JS.of_Z (alpha px)) else JS.of_Z n)
            = JS.of_Z (Z.min n (alpha px))).
  { intros n Hn.
    change (JS.ltb (JS.of_Z (alpha px)) (JS.of_Z 255))
      with (negb (Qle_bool (inject_Z 255) (inject_Z (alpha px)))).
    rewrite Qle_bool_inject.
    destruct (Z.leb_spec 255 (alpha px)); simpl negb; cbv iota.
    - now rewrite Z.min_l by lia.
    - apply min_of_Z. }
  cbv zeta.
  change (JS.geb (JS.Fin q) (JS.of_Z 235)) with (Qle_bool (inject_Z 235) q).
  change (JS.geb (JS.Fin q) (JS.of_Z 210)) with (Qle_bool (inject_Z 210) q).
  destruct (Qle_bool (inject_Z 235) q) eqn:Ehi.
  - exists 0%Z. split; [lia|]. split; [apply Hfin; lia|].
    split; [reflexivity|]. intros El.
    apply Qle_bool_iff in Ehi.
    assert (Qle_bool (inject_Z 210) q = true); [|congruence].
    apply Qle_bool_iff. unfold inject_Z in *. Lqa.lra.
  - destruct (Qle_bool (inject_Z 210) q) eqn:Elo.
    + apply Qle_bool_iff in Elo.
      assert (Hq : (q <= 235)%Q).
      { destruct (Qlt_le_dec 235 q) as [Hgt|Hle]; [|exact Hle].
        assert (Qle_bool (inject_Z 235) q = true); [|congruence].
        apply Qle_bool_iff. unfold inject_Z. Lqa.lra. }
      pose proof (fade_byte q) as Hb.
      exists (Qfloor (fade q + (1 # 2))).
      split; [apply Hb; [unfold inject_Z in Elo; exact Elo | exact Hq]|].
      split; [|split; discriminate].
      rewrite <- Hfin by (apply Hb; [unfold inject_Z in Elo; exact Elo | exact Hq]).
      assert (E25 : Double.binary64 (inject_Z 235 - inject_Z 210) = 25%Q)
        by (vm_compute; reflexivity).
      unfold fade, Double.mul, Double.sub, Double.div, Double.minus, Double.rnd,
        JS.of_Z, JS.div, JS.mul, JS.Math_round.
      rewrite E25. reflexivity.
    + exists 255%Z. split; [lia|]. split; [apply Hfin; lia|].
      split; [discriminate | reflexivity].
Qed.

End OutlineFacts.

Module OutlineProps.
Import Raster Cutout Outline OutlineFacts.

(** X22. An outline pixel is pure black and never more opaque than the
    pixel it comes from: its alpha is 0 from the luminance 235 on, the
    alpha of the source below the luminance 210, and in between the
    smaller of the alpha of the source and of the rounded fade; the
    luminance and the fade are the doubles the source computes. *)
Theorem X22_outline_never_more_opaque (data : list pixel) (n i : nat) (px : pixel) :
  i < n -> data !! i = Some px -> (0 <= alpha px <= 255)%Z ->
  exists a,
    outline data n !! i = Some (Pixel 0 0 0 a) /\
    (0 <= a <= alpha px)%Z /\
    (JS.geb (luminance px) (JS.of_Z 235) = true -> a = 0%Z) /\
    (JS.geb (luminance px) (JS.of_Z 210) = false -> a = alpha px).
Proof.
  intros Hi Hpx Ha.
  destruct (newAlpha_min px Ha) as (m & Hm & Hn & Hhi & Hlo).
  exists (Z.min m (alpha px)).
  split.
  - unfold outline.
    rewrite (FillFacts.for_up_ext _
               (fun i out => <[i := match data !! i with
                                    | Some px => outline_pixel px
                                    | None => Pixel 0 0 0 255
                                    end]> out)).
    2:{ intros k out. now destruct (data !! k). }
    destruct (FillFacts.fill_spec
                (fun i => match data !! i with
                          | Some px => outline_pixel px
                          | None => Pixel 0 0 0 255
                          end) n (replicate n clear)) as [_ Hp];
      [apply length_replicate|].
    rewrite Hp by exact Hi. rewrite Hpx. unfold outline_pixel.
    rewrite Hn, to_uint8_byte by lia. reflexivity.
  - split; [lia|]. split.
    + intros E. rewrite (Hhi E). lia.
    + intros E. rewrite (Hlo E). lia.
Qed.

Lemma X22_outline_never_more_opaque_witness :
  0 < 1 /\ [Pixel 222 222 222 200] !! 0 = Some (Pixel 222 222 222 200) /\
  (0 <= alpha (Pixel 222 222 222 200) <= 255)%Z /\
  exists a,
    outline [Pixel 222 222 222 200] 1 !! 0 = Some (Pixel 0 0 0 a) /\
    (0 <= a <= alpha (Pixel 222 222 222 200))%Z /\
    (JS.geb (luminance (Pixel 222 222 222 200)) (JS.of_Z 235) = true -> a = 0%Z) /\
    (JS.geb (luminance (Pixel 222 222 222 200)) (JS.of_Z 210) = false ->
     a = alpha (Pixel 222 222 222 200)).
Proof.
  split; [lia|]. split; [reflexivity|]. split; [simpl; lia|].
  apply (X22_outline_never_more_opaque [Pixel 222 222 222 200] 1 0 (Pixel 222 222 222 200));
    [lia | reflexivity | simpl; lia].
Defined.

(** A grey of luminance 222 fades to the alpha 133, below the alpha 200 of
    the source. *)
Example outline_fade :
  outline [Pixel 222 222 222 200] 1 = [Pixel 0 0 0 133].
Proof. vm_compute. reflexivity. Qed.

(** The product [255 * (1 - position)] is rounded before [Math.round]: for
    the colour (225, 237, 229) it is just below 25.5, and the alpha is 25. *)
Example outline_rounded :
  outline [Pixel 225 237 229 255; Pixel 204 226 253 255] 2
  = [Pixel 0 0 0 25; Pixel 0 0 0 127].
Proof. vm_compute. reflexivity. Qed.

End OutlineProps.

(** ** The components of the scan are the 8-connected regions *)

Module RegionFacts.
Import Loops Raster Silhouette MaskFacts LoopFacts IndexFacts FillFacts
       ComponentFacts GridFacts.

Section Region.
Variables (W H : nat) (opaque : list bool).

(** Two distinct pixels of the image that touch, by a side or a corner. *)
Definition adj8 (j k : nat) : Prop :=
  j < W * H /\ k < W * H /\ j <> k /\
  (j mod W <= k mod W + 1 /\ k mod W <= j mod W + 1) /\
  (j / W <= k / W + 1 /\ k / W <= j / W + 1).

Lemma adj8_sym (j k : nat) : adj8 j k -> adj8 k j.
Proof. unfold adj8. intros (? & ? & ? & ? & ?). repeat split; auto; lia. Qed.

(** The pixels joined to [h] by a chain of touching opaque pixels. *)
Inductive joined (h : nat) : nat -> Prop :=
| joined_here : joined h h
| joined_step j k : joined h j -> adj8 j k -> bit opaque k = true -> joined h k.

Lemma coords (i : nat) :
  i < W * H -> i mod W < W /\ i / W < H /\ i = i / W * W + i mod W.
Proof.
  intros Hi. assert (HW : W <> 0) by (intros ->; lia).
  split; [now apply Nat.mod_upper_bound|]. split.
  - apply Nat.Div0.div_lt_upper_bound. lia.
  - pose proof (Nat.div_mod_eq i W). lia.
Qed.

(** The index a probe looks at. *)
Lemma probe_index (cy cx ny nx : nat) (dy dx : Z) :
  Z.of_nat nx = (Z.of_nat cx + dx)%Z -> Z.of_nat ny = (Z.of_nat cy + dy)%Z ->
  Z.to_nat ((Z.of_nat cy + dy) * Z.of_nat W + (Z.of_nat cx + dx)) = ny * W + nx.
Proof.
  intros <- <-. rewrite <- Nat2Z.inj_mul, <- Nat2Z.inj_add. apply Nat2Z.id.
Qed.

(** How a state may differ from an earlier one of the same flood fill. *)
Record later (c : nat) (st st' : search) : Prop := {
  l_comp : component st' = component st;
  l_len : length (visited st') = length (visited st);
  l_mono : forall k, bit (visited st) k = true -> bit (visited st') k = true;
  l_queue : forall k, k ∈ queue st' ->
              k ∈ queue st \/ (adj8 c k /\ bit opaque k = true)
}.

Lemma later_refl c st : later c st st.
Proof. constructor; auto. Qed.

Lemma later_trans c s1 s2 s3 : later c s1 s2 -> later c s2 s3 -> later c s1 s3.
Proof.
  intros [C1 L1 M1 Q1] [C2 L2 M2 Q2]. constructor.
  - congruence.
  - congruence.
  - auto.
  - intros k Hk. destruct (Q2 k Hk) as [Hq|Ha]; [now apply Q1 | now right].
Qed.

Lemma probe_later (cy cx : nat) (dy dx : Z) (st : search) :
  cx < W -> cy < H -> (-1 <= dy <= 1)%Z -> (-1 <= dx <= 1)%Z ->
  later (cy * W + cx) st (probe W H opaque cy cx dy dx st).
Proof.
  intros Hcx Hcy Hdy Hdx. unfold probe.
  destruct ((dx =? 0)%Z && (dy =? 0)%Z) eqn:E0; [apply later_refl|].
  set (ny := (Z.of_nat cy + dy)%Z). set (nx := (Z.of_nat cx + dx)%Z).
  destruct ((ny <? 0)%Z || (Z.of_nat H <=? ny)%Z || (nx <? 0)%Z || (Z.of_nat W <=? nx)%Z)
    eqn:Eb; [apply later_refl|].
  rewrite !orb_false_iff in Eb. destruct Eb as [[[E1 E2] E3] E4].
  apply Z.ltb_ge in E1, E3. apply Z.leb_gt in E2, E4.
  replace (Z.to_nat (ny * Z.of_nat W + nx)) with (Z.to_nat ny * W + Z.to_nat nx) by nia.
  set (ni := Z.to_nat ny * W + Z.to_nat nx).
  destruct (bit opaque ni) eqn:Eo; simpl; [|apply later_refl].
  destruct (bit (visited st) ni) eqn:Ev; [apply later_refl|].
  constructor; simpl.
  - reflexivity.
  - apply length_insert.
  - intros k Hk. now apply bit_insert_true.
  - intros k Hk. apply elem_of_app in Hk. destruct Hk as [Hk|Hk]; [now left|].
    apply list_elem_of_singleton in Hk. subst k. right. split; [|exact Eo].
    assert (Hnx : Z.to_nat nx < W) by lia. assert (Hny : Z.to_nat ny < H) by lia.
    unfold adj8, ni.
    rewrite !index_div, !index_mod by assumption.
    split; [now apply index_lt|]. split; [now apply index_lt|].
    split.
    + intros E. apply index_inj in E; [|assumption..]. destruct E as [Ey Ex].
      apply andb_false_iff in E0. unfold nx, ny in *.
      destruct E0 as [E0|E0]; apply Z.eqb_neq in E0; lia.
    + unfold nx, ny. lia.
Qed.

(** A probe marks the pixel it looks at, when there is one to mark. *)
Lemma probe_marks (cy cx ny nx : nat) (dy dx : Z) (st : search) :
  Z.of_nat nx = (Z.of_nat cx + dx)%Z -> Z.of_nat ny = (Z.of_nat cy + dy)%Z ->
  nx < W -> ny < H -> (nx, ny) <> (cx, cy) ->
  length (visited st) = W * H -> bit opaque (ny * W + nx) = true ->
  bit (visited (probe W H opaque cy cx dy dx st)) (ny * W + nx) = true.
Proof.
  intros Ex Ey Hnx Hny Hne Hlen Ho. unfold probe.
  assert (E0 : (dx =? 0)%Z && (dy =? 0)%Z = false).
  { apply andb_false_iff.
    destruct (Z.eqb_spec dx 0) as [->|]; [|now left].
    destruct (Z.eqb_spec dy 0) as [->|]; [|now right].
    exfalso. apply Hne. f_equal; lia. }
  rewrite E0.
  assert (Eb : ((Z.of_nat cy + dy <? 0)%Z || (Z.of_nat H <=? Z.of_nat cy + dy)%Z
                || (Z.of_nat cx + dx <? 0)%Z || (Z.of_nat W <=? Z.of_nat cx + dx)%Z)
               = false).
  { rewrite !orb_false_iff. repeat split;
      first [apply Z.ltb_ge; lia | apply Z.leb_gt; lia]. }
  rewrite Eb. cbv zeta. rewrite (probe_index cy cx ny nx dy dx Ex Ey), Ho. simpl.
  destruct (bit (visited st) (ny * W + nx)) eqn:Ev; [exact Ev|].
  simpl. apply bit_insert_eq. rewrite Hlen. now apply index_lt.
Qed.

Lemma fold_left_in {A B : Type} (P : A -> Prop) (f : A -> B -> A) (l : list B) :
  (forall a b, In b l -> P a -> P (f a b)) -> forall a, P a -> P (fold_left f l a).
Proof.
  induction l as [|b l IH]; intros Hf a Ha; simpl; [exact Ha|].
  apply IH.
  - intros a' b' Hb'. apply Hf. now right.
  - apply Hf; [now left | exact Ha].
Qed.

(** What one element of the list establishes, and the others keep, holds at
    the end. *)
Lemma fold_left_hits {A B : Type} (P Q : A -> Prop) (f : A -> B -> A)
      (b : B) (l : list B) :
  In b l ->
  (forall a b', In b' l -> P a -> P (f a b')) ->
  (forall a, P a -> Q (f a b)) ->
  (forall a b', In b' l -> P a -> Q a -> Q (f a b')) ->
  forall a, P a -> Q (fold_left f l a).
Proof.
  induction l as [|b0 l IH]; intros Hin HP Hb HQ a Ha; [destruct Hin|].
  simpl. destruct Hin as [->|Hin].
  - apply (fold_left_in (fun a => P a /\ Q a)).
    + intros a' b' Hb' [Ha1 Ha2]. split.
      * apply HP; [now right | exact Ha1].
      * apply HQ; [now right | exact Ha1 | exact Ha2].
    + split; [apply HP; [now left | exact Ha] | now apply Hb].
  - apply IH.
    + exact Hin.
    + intros a' b' Hb'. apply HP. now right.
    + exact Hb.
    + intros a' b' Hb'. apply HQ. now right.
    + apply HP; [now left | exact Ha].
Qed.

Lemma steps_range (d : Z) : In d steps <-> (-1 <= d <= 1)%Z.
Proof. unfold steps. simpl. lia. Qed.

Lemma expand_later (curr : nat) (st : search) :
  curr < W * H -> later curr st (expand W H opaque curr st).
Proof.
  intros Hc. destruct (coords curr Hc) as (Hx & Hy & E).
  unfold expand.
  apply (fold_left_in (later curr st)); [|apply later_refl].
  intros s dy Hdy Hs.
  apply (fold_left_in (later curr st)); [|exact Hs].
  intros s' dx Hdx Hs'. apply (later_trans curr st s' _ Hs').
  rewrite E at 1. apply probe_later; try assumption; now apply steps_range.
Qed.

(** Once [curr] is expanded each of its opaque neighbours is marked. *)
Lemma expand_marks (curr k : nat) (st : search) :
  length (visited st) = W * H -> adj8 curr k -> bit opaque k = true ->
  bit (visited (expand W H opaque curr st)) k = true.
Proof.
  intros Hlen (Hc & Hk & Hne & Hx & Hy) Ho.
  destruct (coords curr Hc) as (Hcx & Hcy & Ec).
  destruct (coords k Hk) as (Hkx & Hky & Ek).
  set (P := fun s : search => length (visited s) = W * H).
  set (Q := fun s : search => bit (visited s) k = true).
  assert (HP : forall s dy dx, P s -> P (probe W H opaque (curr / W) (curr mod W) dy dx s)).
  { intros s dy dx Hs. unfold P.
    destruct (probe_cases W H opaque (curr / W) (curr mod W) dy dx s)
      as [->|(ni & _ & _ & _ & ->)]; [exact Hs|].
    simpl. now rewrite length_insert. }
  assert (HQ : forall s dy dx, Q s -> Q (probe W H opaque (curr / W) (curr mod W) dy dx s)).
  { intros s dy dx Hs. unfold Q.
    destruct (probe_cases W H opaque (curr / W) (curr mod W) dy dx s)
      as [->|(ni & _ & _ & _ & ->)]; [exact Hs|].
    simpl. now apply bit_insert_true. }
  unfold expand.
  apply (fold_left_hits P Q _ (Z.of_nat (k / W) - Z.of_nat (curr / W))%Z).
  - apply steps_range. lia.
  - intros s dy _ Hs. apply (fold_left_in P); [|exact Hs]. intros; now apply HP.
  - intros s Hs.
    apply (fold_left_hits P Q _ (Z.of_nat (k mod W) - Z.of_nat (curr mod W))%Z).
    + apply steps_range. lia.
    + intros; now apply HP.
    + intros s' Hs'. unfold Q.
      assert (Hd : (k mod W, k / W) <> (curr mod W, curr / W)).
      { intros E. inversion E as [[E1 E2]]. apply Hne. lia. }
      pose proof (probe_marks (curr / W) (curr mod W) (k / W) (k mod W)
                    (Z.of_nat (k / W) - Z.of_nat (curr / W))
                    (Z.of_nat (k mod W) - Z.of_nat (curr mod W)) s'
                    ltac:(lia) ltac:(lia) Hkx Hky Hd Hs') as M.
      rewrite <- Ek in M. now apply M.
    + intros; now apply HQ.
    + exact Hs.
  - intros s dy _ Hs Hq.
    apply (fold_left_in (fun a => P a /\ Q a)); [|now split].
    intros a dx _ [Ha1 Ha2]. split; [now apply HP | now apply HQ].
  - exact Hlen.
Qed.

Section Fill.
Variables (V0 : list bool) (i0 : nat).

(** During a flood fill from [i0]: what waits or is collected is joined to
    [i0], and what is collected has its opaque neighbours marked. *)
Record grown (st : search) : Prop := {
  g_join : forall k, k ∈ pending st -> joined i0 k;
  g_done : forall j k, j ∈ component st -> adj8 j k -> bit opaque k = true ->
             bit (visited st) k = true
}.

Lemma grown_step (st : search) (curr : nat) (rest : list nat) :
  sinv W H opaque V0 i0 st -> grown st -> queue st = curr :: rest ->
  grown (expand W H opaque curr (Search (visited st) rest (set_add (component st) curr))).
Proof.
  intros Hs [Hj Hd] Hq.
  assert (Hpend : pending st = component st ++ curr :: rest)
    by (unfold pending; now rewrite Hq).
  assert (Hin : curr ∈ pending st).
  { rewrite Hpend. apply elem_of_app. right. now left. }
  assert (Hcurr : curr < W * H).
  { rewrite <- (sv_len _ _ _ _ _ _ Hs). apply bit_true_lt.
    now apply (sv_fresh _ _ _ _ _ _ Hs). }
  assert (Hfresh : curr ∉ component st).
  { pose proof (sv_nodup _ _ _ _ _ _ Hs) as Hnd. rewrite Hpend in Hnd.
    apply NoDup_app in Hnd. destruct Hnd as (_ & Hdis & _).
    intros Hc. apply (Hdis curr Hc). now left. }
  rewrite set_add_fresh by exact Hfresh.
  set (st1 := Search (visited st) rest (component st ++ [curr])).
  destruct (expand_later curr st1 Hcurr) as [Lc Ll Lm Lq].
  constructor.
  - intros k Hk. unfold pending in Hk. rewrite Lc in Hk. simpl in Hk.
    apply elem_of_app in Hk. destruct Hk as [Hk|Hk].
    + apply Hj. rewrite Hpend. apply elem_of_app in Hk.
      destruct Hk as [Hk|Hk]; apply elem_of_app; [now left|].
      apply list_elem_of_singleton in Hk. subst k. right. now left.
    + destruct (Lq k Hk) as [Hk'|[Ha Ho]].
      * apply Hj. rewrite Hpend. apply elem_of_app. right. now right.
      * apply (joined_step i0 curr k); [now apply Hj | exact Ha | exact Ho].
  - intros j k Hjc Ha Ho. rewrite Lc in Hjc. simpl in Hjc.
    apply elem_of_app in Hjc. destruct Hjc as [Hjc|Hjc].
    + apply Lm. simpl. now apply (Hd j k).
    + apply list_elem_of_singleton in Hjc. subst j.
      apply expand_marks; [|exact Ha | exact Ho].
      simpl. apply (sv_len _ _ _ _ _ _ Hs).
Qed.

Lemma grown_loop :
  forall fuel st r,
    search_loop W H opaque fuel st = Some r ->
    sinv W H opaque V0 i0 st -> grown st -> grown r.
Proof.
  induction fuel as [|fuel IH]; intros st r Hr Hs Hg; [discriminate|].
  simpl in Hr. destruct (queue st) as [|curr rest] eqn:Hq.
  - now inversion Hr; subst.
  - apply (IH _ r Hr).
    + assert (Hw : weight st = S (pred (weight st))).
      { unfold weight. rewrite Hq. simpl. lia. }
      apply (expand_kept W H opaque V0 i0 (pred (weight st))).
      apply shift_kept; [|exact Hq]. split; [exact Hs | exact Hw].
    + now apply grown_step.
Qed.

(** The pixels already marked when the flood fill starts are sealed off: an
    opaque neighbour of a marked pixel is marked. *)
Definition sealed (V : list bool) : Prop :=
  forall j k, bit V j = true -> adj8 j k -> bit opaque k = true -> bit V k = true.

Lemma search_region (r : search) :
  length V0 = W * H -> i0 < W * H -> bit V0 i0 = false -> bit opaque i0 = true ->
  sealed V0 ->
  search_loop W H opaque (S (W * H)) (Search (<[i0 := true]> V0) [i0] []) = Some r ->
  (forall j, j ∈ component r <-> joined i0 j) /\ sealed (visited r).
Proof.
  intros Hlen Hi0 Hv Ho Hcl Hr.
  destruct (search_from_seed W H opaque V0 i0 Hlen Hi0 Hv Ho)
    as (r' & Hr' & Hl & Hmono & Hnew & Hfr & Hnd & Hhd).
  rewrite Hr in Hr'. inversion Hr'; subst r'. clear Hr'.
  set (st0 := Search (<[i0 := true]> V0) [i0] []).
  assert (Hs0 : sinv W H opaque V0 i0 st0).
  { constructor; simpl.
    - now rewrite length_insert.
    - intros j Hj. now apply bit_insert_true.
    - intros j Hj. destruct (decide (i0 = j)) as [->|Hne].
      + right. now apply list_elem_of_singleton.
      + left. now rewrite bit_insert_ne in Hj.
    - intros j Hj. apply list_elem_of_singleton in Hj. subst j.
      repeat split; try assumption. apply bit_insert_eq. lia.
    - apply NoDup_singleton.
    - reflexivity. }
  assert (Hg0 : grown st0).
  { constructor; simpl.
    - intros k Hk. apply list_elem_of_singleton in Hk. subst k. constructor.
    - intros j k Hj. now apply elem_of_nil in Hj. }
  destruct (grown_loop _ _ _ Hr Hs0 Hg0) as [Gj Gd].
  assert (Hnext : forall j k, j ∈ component r -> adj8 j k -> bit opaque k = true ->
                              k ∈ component r).
  { intros j k Hj Ha Hok.
    destruct (Hnew k (Gd j k Hj Ha Hok)) as [Hk|Hk]; [|exact Hk].
    exfalso. destruct (Hfr j Hj) as (Hj0 & Hoj & _).
    rewrite (Hcl k j Hk (adj8_sym _ _ Ha) Hoj) in Hj0. discriminate. }
  split.
  - intros j. split.
    + intros Hj. apply Gj. unfold pending. apply elem_of_app. now left.
    + intros Hj. induction Hj as [|j k _ IH Ha Hok].
      * apply list_elem_of_In. destruct (component r); [discriminate|].
        simpl in Hhd. inversion Hhd. now left.
      * now apply (Hnext j k).
  - intros j k Hj Ha Hok. destruct (Hnew j Hj) as [Hj0|Hjc].
    + apply Hmono. now apply (Hcl j k).
    + now apply (Gd j k).
Qed.

End Fill.

(** Between two flood fills: the marked pixels are sealed off, and each retained
    component is the region of its first pixel. *)
Record regions (s : scan) : Prop := {
  r_sealed : sealed (seen s);
  r_comp : forall c, c ∈ components s ->
             exists h, hd_error c = Some h /\ forall j, j ∈ c <-> joined h j
}.

Lemma regions_start : regions (Scan (replicate (W * H) false) []).
Proof.
  constructor; simpl.
  - intros j k Hj. now rewrite bit_replicate_false in Hj.
  - intros c Hc. now apply elem_of_nil in Hc.
Qed.

Lemma scan_pixel_regions (k : nat) (s s' : scan) :
  k < W * H -> scan_inv W H opaque k s -> regions s ->
  scan_pixel W H opaque k (Some s) = Some s' -> regions s'.
Proof.
  intros Hk Hs [Hcl Hcomp] E. rewrite scan_pixel_Some in E.
  destruct (negb (bit opaque k) || bit (seen s) k) eqn:Eskip.
  - inversion E; subst s'. now constructor.
  - apply orb_false_iff in Eskip. destruct Eskip as [Eo Ev].
    apply negb_false_iff in Eo.
    destruct (search_loop W H opaque (S (W * H)) (Search (<[k := true]> (seen s)) [k] []))
      as [r|] eqn:Er; [|discriminate].
    simpl in E. inversion E; subst s'. clear E.
    destruct (search_from_seed W H opaque (seen s) k (sc_len _ _ _ _ _ Hs) Hk Ev Eo)
      as (r' & Hr' & _ & _ & _ & _ & _ & Hhd).
    rewrite Er in Hr'. inversion Hr'; subst r'. clear Hr'.
    destruct (search_region (seen s) k r (sc_len _ _ _ _ _ Hs) Hk Ev Eo Hcl Er)
      as [Hreg Hcl'].
    constructor; simpl; [exact Hcl'|].
    intros c Hc. destruct (10 <? length (component r)); [|now apply Hcomp].
    apply elem_of_app in Hc. destruct Hc as [Hc|Hc]; [now apply Hcomp|].
    apply list_elem_of_singleton in Hc. subst c.
    exists k. split; [exact Hhd | exact Hreg].
Qed.

Lemma find_components_regions :
  exists s,
    for_up 0 H
      (fun y s => for_up 0 W (fun x s' => scan_pixel W H opaque (y * W + x) s') s)
      (Some (Scan (replicate (W * H) false) [])) = Some s /\
    scan_inv W H opaque (W * H) s /\ regions s.
Proof.
  rewrite (for_up_flatten (scan_pixel W H opaque) W H).
  replace (H * W) with (W * H) by lia.
  apply (for_up_inv
           (fun k so => exists s, so = Some s /\ scan_inv W H opaque k s /\ regions s));
    [lia | |].
  - eexists. split; [reflexivity|]. split; [apply scan_start | apply regions_start].
  - intros k so Hk (s & -> & Hs & Hr).
    destruct (scan_pixel_inv W H opaque k s ltac:(lia) Hs) as (s' & E & Hs').
    exists s'. split; [exact E|]. split; [exact Hs'|].
    now apply (scan_pixel_regions k s s').
Qed.

End Region.
End RegionFacts.

Module RegionProps.
Import Loops Raster Silhouette ComponentFacts RegionFacts.

(** X23 (find_components): each component the scan retains is exactly the
    set of pixels joined to its first pixel by a chain of opaque pixels
    that touch by a side or a corner. *)
Theorem X23_component_is_region (W H : nat) (opaque : list bool)
        (comps : list (list nat)) (a : nat) (c : list nat) :
  find_components W H opaque = Some comps -> comps !! a = Some c ->
  exists h, hd_error c = Some h /\ forall j, j ∈ c <-> joined W H opaque h j.
Proof.
  intros E Ha. unfold find_components in E.
  destruct (find_components_regions W H opaque) as (s & Es & _ & Hr).
  rewrite Es in E. simpl in E. inversion E; subst comps.
  apply (r_comp W H opaque s Hr). eapply list_elem_of_lookup_2; eauto.
Qed.

Lemma X23_component_is_region_witness :
  exists h,
    hd_error [0; 1; 4; 5; 2; 6; 8; 9; 10; 3; 7; 11] = Some h /\
    forall j, j ∈ [0; 1; 4; 5; 2; 6; 8; 9; 10; 3; 7; 11]
              <-> joined 4 3 (replicate 12 true) h j.
Proof.
  apply (X23_component_is_region 4 3 (replicate 12 true)
           [[0; 1; 4; 5; 2; 6; 8; 9; 10; 3; 7; 11]] 0);
    [vm_compute; reflexivity | reflexivity].
Defined.

End RegionProps.

(** ** No blob of more than 10 pixels is missed *)

Module CoverFacts.
Import Loops Raster Silhouette MaskFacts LoopFacts IndexFacts FillFacts
       ComponentFacts GridFacts RegionFacts.

Section Cover.
Variables (W H : nat) (opaque : list bool).







End Cover.
End CoverFacts.

Module SelectionProps.
Import Raster Silhouette MaskFacts ComponentFacts RegionFacts CoverFacts.


End SelectionProps.

(** ** The two passes in single precision *)

Module RoundedFacts.
Import Loops Raster Sqrt2 Sqrt2Facts LoopFacts IndexFacts ChamferFacts
       Double DoubleFacts RoundingFacts Float32.

(** The weight of a step as the double the source adds. *)
Definition dbl (w : t) : Q := if (irr w =? 0)%Z then 1%Q else Float32.SQRT2.

(** The candidate a neighbour of value [u] contributes: the double
    [u + w]. *)
Definition cand (u : Q) (w : t) : Q := plus u (dbl w).

Definition e24 : Q := 1 # 16777216.
Definition e53 : Q := 1 # 9007199254740992.

(** The bound on the relative error of one step: [2^-23]. *)
Definition eta : R := (/ 8388608)%R.

Lemma Q2R_e24 : Q2R e24 = (/ 16777216)%R.
Proof. unfold Q2R, e24. simpl. lra. Qed.

Lemma Q2R_e53 : Q2R e53 = (/ 9007199254740992)%R.
Proof. unfold Q2R, e53. simpl. lra. Qed.

Lemma Q2R_0 : Q2R 0 = 0%R.
Proof. unfold Q2R. simpl. lra. Qed.

Lemma Q2R_1 : Q2R 1 = 1%R.
Proof. unfold Q2R. simpl. lra. Qed.

Lemma Q2R_nonneg (q : Q) : (0 <= q)%Q -> (0 <= Q2R q)%R.
Proof. intros H. rewrite <- Q2R_0. now apply Qle_Rle. Qed.

(** The double [Math.SQRT2] is the square root of 2 to within [2^-53]. *)
Lemma SQRT2_bounds :
  (sqrt 2 <= Q2R Float32.SQRT2 /\ Q2R Float32.SQRT2 <= sqrt 2 * (1 + Q2R e53))%R.
Proof.
  assert (Hs : (0 <= Q2R Float32.SQRT2)%R) by (apply Q2R_nonneg; discriminate).
  assert (H1 : (2 <= Q2R Float32.SQRT2 * Q2R Float32.SQRT2)%R).
  { rewrite <- Q2R_mult. replace 2%R with (Q2R 2) by (unfold Q2R; simpl; lra).
    apply Qle_Rle. vm_compute. discriminate. }
  assert (H2 : (Q2R Float32.SQRT2 * Q2R Float32.SQRT2
                <= 2 * ((1 + Q2R e53) * (1 + Q2R e53)))%R).
  { replace (2 * ((1 + Q2R e53) * (1 + Q2R e53)))%R
      with (Q2R (2 * ((1 + e53) * (1 + e53))))
      by (rewrite !Q2R_mult, !Q2R_plus, Q2R_1; unfold Q2R at 1; simpl; lra).
    rewrite <- Q2R_mult. apply Qle_Rle. vm_compute. discriminate. }
  assert (He : (0 <= 1 + Q2R e53)%R) by (rewrite Q2R_e53; lra).
  split.
  - rewrite <- (sqrt_square (Q2R Float32.SQRT2)) by exact Hs.
    apply sqrt_le_1; lra.
  - rewrite <- (sqrt_square (Q2R Float32.SQRT2)) by exact Hs.
    rewrite <- (sqrt_square (1 + Q2R e53)) by exact He.
    rewrite <- sqrt_mult by nra.
    apply sqrt_le_1; nra.
Qed.

(** The weights the passes use. *)
Definition weight (w : t) : Prop := w = one \/ w = Sqrt2.SQRT2.

Lemma king_weight nb ox oy w : king nb -> In (ox, oy, w) nb -> weight w.
Proof.
  intros Hk Hin. destruct (Hk ox oy w Hin) as (_ & _ & [->|[-> _]]);
    [now right | now left].
Qed.

Lemma weight_bounds (w : t) :
  weight w ->
  (1 <= toR w <= 2 /\ toR w <= Q2R (dbl w) /\ Q2R (dbl w) <= toR w * (1 + Q2R e53))%R /\
  (0 <= dbl w)%Q.
Proof.
  pose proof sqrt2_bounds as [S1 S2]. pose proof SQRT2_bounds as [B1 B2].
  intros [->| ->].
  - rewrite toR_one. change (dbl one) with 1%Q. rewrite Q2R_1, Q2R_e53.
    split; [lra | discriminate].
  - rewrite toR_SQRT2. change (dbl Sqrt2.SQRT2) with Float32.SQRT2.
    split; [lra | discriminate].
Qed.

Lemma plus_bounds (u w : Q) :
  (0 <= u)%Q -> (0 <= w)%Q ->
  ((u + w) * (1 - e53) <= plus u w /\ plus u w <= (u + w) * (1 + e53))%Q.
Proof.
  intros Hu Hw. unfold plus, binary64.
  destruct (round_error 53 (u + w)) as [L U]; [lia | Lqa.lra|].
  change (2 ^ (-53))%Q with e53 in L, U. now split.
Qed.

Lemma store_bounds (c : Q) :
  (0 <= c)%Q -> (c * (1 - e24) <= binary32 c /\ binary32 c <= c * (1 + e24))%Q.
Proof.
  intros Hc. unfold binary32.
  destruct (round_error 24 c) as [L U]; [lia | exact Hc|].
  change (2 ^ (-24))%Q with e24 in L, U. now split.
Qed.

Lemma plus_nonneg (u w : Q) : (0 <= u)%Q -> (0 <= w)%Q -> (0 <= plus u w)%Q.
Proof. intros Hu Hw. apply round_nonneg. Lqa.lra. Qed.

(** What a stored candidate is at most, and at least. *)
Lemma cand_upper (u : Q) (w : t) :
  (0 <= u)%Q -> weight w ->
  (Q2R ((1 + e24) * cand u w) <= (Q2R u + toR w) * (1 + eta))%R.
Proof.
  intros Hu Hw. destruct (weight_bounds w Hw) as [(W1 & W2 & W3) W0].
  destruct (plus_bounds u (dbl w) Hu W0) as [_ U]. fold (cand u w) in U.
  apply Qle_Rle in U. rewrite Q2R_mult, !Q2R_plus, Q2R_1 in U.
  rewrite Q2R_mult, Q2R_plus, Q2R_1.
  pose proof (Q2R_nonneg u Hu) as Hu'.
  rewrite Q2R_e53 in *. rewrite Q2R_e24. unfold eta.
  set (a := Q2R u) in *. set (c := Q2R (cand u w)) in *. set (d := Q2R (dbl w)) in *.
  set (r := toR w) in *.
  assert (Hc : (c <= (a + r) * ((1 + / 9007199254740992) * (1 + / 9007199254740992)))%R)
    by nra.
  assert (Hk : ((1 + / 16777216) *
                ((1 + / 9007199254740992) * (1 + / 9007199254740992))
                <= 1 + / 8388608)%R) by lra.
  assert (Har : (0 <= a + r)%R) by lra.
  apply Rle_trans with
    ((1 + / 16777216) *
     ((a + r) * ((1 + / 9007199254740992) * (1 + / 9007199254740992))))%R.
  - apply Rmult_le_compat_l; [lra | exact Hc].
  - replace ((1 + / 16777216) *
             ((a + r) * ((1 + / 9007199254740992) * (1 + / 9007199254740992))))%R
      with ((a + r) * ((1 + / 16777216) *
             ((1 + / 9007199254740992) * (1 + / 9007199254740992))))%R by ring.
    apply Rmult_le_compat_l; [exact Har | exact Hk].
Qed.

Lemma cand_lower (u : Q) (w : t) :
  (0 <= u)%Q -> weight w ->
  ((Q2R u + toR w) * (1 - eta) <= Q2R (binary32 (cand u w)))%R.
Proof.
  intros Hu Hw. destruct (weight_bounds w Hw) as [(W1 & W2 & W3) W0].
  destruct (plus_bounds u (dbl w) Hu W0) as [L _]. fold (cand u w) in L.
  destruct (store_bounds (cand u w)) as [L2 _];
    [unfold cand; now apply plus_nonneg|].
  apply Qle_Rle in L, L2.
  rewrite Q2R_mult, Q2R_plus in L. rewrite Q2R_mult in L2.
  replace (Q2R (1 - e53)) with (1 - / 9007199254740992)%R in L
    by (unfold Qminus; rewrite Q2R_plus, Q2R_opp, Q2R_1, Q2R_e53; lra).
  replace (Q2R (1 - e24)) with (1 - / 16777216)%R in L2
    by (unfold Qminus; rewrite Q2R_plus, Q2R_opp, Q2R_1, Q2R_e24; lra).
  pose proof (Q2R_nonneg u Hu) as Hu'. unfold eta.
  set (a := Q2R u) in *. set (c := Q2R (cand u w)) in *. set (d := Q2R (dbl w)) in *.
  set (r := toR w) in *. set (v := Q2R (binary32 (cand u w))) in *.
  assert (Hc : ((a + r) * (1 - / 9007199254740992) <= c)%R) by nra.
  assert (Hk : (1 - / 8388608 <= (1 - / 9007199254740992) * (1 - / 16777216))%R) by lra.
  assert (Har : (0 <= a + r)%R) by lra.
  apply Rle_trans with ((a + r) * ((1 - / 9007199254740992) * (1 - / 16777216)))%R.
  - apply Rmult_le_compat_l; [exact Har | exact Hk].
  - apply Rle_trans with (c * (1 - / 16777216))%R; [|exact L2].
    rewrite <- Rmult_assoc. apply Rmult_le_compat_r; [lra | exact Hc].
Qed.

(** A stored candidate does not fall below a single-precision number the
    neighbour is at least. *)
Lemma cand_cross (u S : Q) (w : t) :
  rep 24 S -> (S <= u)%Q -> weight w -> (S <= binary32 (cand u w))%Q.
Proof.
  intros (k & j & Hk & ES) HS Hw. destruct (weight_bounds w Hw) as [_ W0].
  rewrite ES in *. unfold binary32, cand, plus, binary64.
  apply round_ge_bound; [exact Hk | lia|].
  apply round_ge_bound; [|lia | Lqa.lra].
  assert (2 ^ 24 <= 2 ^ 53)%Z by (apply Z.pow_le_mono_r; lia). lia.
Qed.

End RoundedFacts.

Module RoundedPasses.
Import Loops Raster Sqrt2 Sqrt2Facts LoopFacts IndexFacts ChamferFacts
       Double DoubleFacts RoundingFacts Float32 RoundedFacts.

(** *** The arithmetic of one step *)

(** With [theta = 2 * eta * (D + 1)] the bound [(1 - theta) * c] survives a
    step from a neighbour, and so does [(1 + theta) * c]. *)
Lemma lower_step (D theta cq cp w u : R) :
  (0 <= D)%R -> theta = (2 * eta * (D + 1))%R -> (theta <= 1)%R ->
  (0 <= cq <= D)%R -> (cp <= cq + w)%R -> (1 <= w)%R ->
  ((1 - theta) * cq <= u)%R ->
  ((1 - theta) * cp <= (u + w) * (1 - eta))%R.
Proof.
  intros HD -> Ht Hcq Hcp Hw Hu.
  assert (He : (0 < eta)%R) by (unfold eta; lra).
  assert (He1 : (eta <= / 2)%R) by nra.
  set (k := (1 - 2 * eta * (D + 1))%R) in *.
  assert (Hk : (0 <= k <= 1)%R) by (unfold k; nra).
  apply Rle_trans with (k * (cq + w))%R; [apply Rmult_le_compat_l; lra|].
  apply Rle_trans with ((k * cq + w) * (1 - eta))%R;
    [|apply Rmult_le_compat_r; lra].
  assert (E : ((k * cq + w) * (1 - eta) - k * (cq + w)
               = w * (1 - eta - k) - eta * k * cq)%R) by ring.
  assert (H1 : (eta * (2 * D + 1) <= w * (1 - eta - k))%R).
  { replace (1 - eta - k)%R with (eta * (2 * D + 1))%R by (unfold k; ring).
    rewrite <- (Rmult_1_l (eta * (2 * D + 1))) at 1.
    apply Rmult_le_compat_r; [nra | exact Hw]. }
  assert (H2 : (eta * k * cq <= eta * D)%R).
  { rewrite Rmult_assoc. apply Rmult_le_compat_l; [lra|]. nra. }
  nra.
Qed.

Lemma upper_step (D theta cq w u : R) :
  (0 <= D)%R -> theta = (2 * eta * (D + 1))%R -> (theta <= 1)%R ->
  (0 <= cq <= D)%R -> (1 <= w)%R -> (0 <= u)%R ->
  (u <= (1 + theta) * cq)%R ->
  ((u + w) * (1 + eta) <= (1 + theta) * (cq + w))%R.
Proof.
  intros HD -> Ht Hcq Hw Hu0 Hu.
  assert (He : (0 < eta)%R) by (unfold eta; lra).
  set (t := (2 * eta * (D + 1))%R) in *.
  assert (Ht0 : (0 <= t)%R) by (unfold t; nra).
  apply Rle_trans with (((1 + t) * cq + w) * (1 + eta))%R;
    [apply Rmult_le_compat_r; lra|].
  assert (E : ((1 + t) * (cq + w) - ((1 + t) * cq + w) * (1 + eta)
               = w * (t - eta) - eta * (1 + t) * cq)%R) by ring.
  assert (H1 : (t - eta <= w * (t - eta))%R).
  { rewrite <- (Rmult_1_l (t - eta)) at 1.
    apply Rmult_le_compat_r; [unfold t; nra | exact Hw]. }
  assert (H2 : (eta * (1 + t) * cq <= eta * (1 + t) * D)%R).
  { apply Rmult_le_compat_l; [nra | lra]. }
  assert (H3 : (eta * (1 + t) * D <= t - eta)%R).
  { unfold t in *. nra. }
  lra.
Qed.

Section Rounded.

(** The canvas, the margin [lo] the loops leave out on each side, the
    bodies of the two loops, the seeds and the value [S] the other pixels
    start from. *)
Variables (W H lo : nat).
Variables (fwd bwd : nat -> nat -> list Q -> list Q).
Variables (seedb : nat -> bool) (S : Q).

Hypothesis S_rep : rep 24 S.
Hypothesis S_nonneg : (0 <= S)%Q.

(** The values a [Float32Array] of distances holds. *)
Definition good (df : list Q) : Prop :=
  forall i v, df !! i = Some v -> (0 <= v)%Q /\ (v <= S)%Q /\ rep 24 v.

(** What a loop body does at the pixel [(x, y)]: it stores a value that is
    the old one or the rounding of a candidate, below the old one and
    (nearly) below every candidate. *)
Definition cell_spec32 (nb : list (Z * Z * t))
           (cell : nat -> nat -> list Q -> list Q) : Prop :=
  forall df x y, length df = W * H -> region W H lo x y -> good df ->
    length (cell y x df) = W * H /\ good (cell y x df) /\
    (forall j, j <> y * W + x -> cell y x df !! j = df !! j) /\
    exists cur v,
      df !! (y * W + x) = Some cur /\
      cell y x df !! (y * W + x) = Some v /\
      (v <= cur)%Q /\
      (forall ox oy w x' y' u,
          In (ox, oy, w) nb ->
          Z.of_nat x' = (Z.of_nat x + ox)%Z -> Z.of_nat y' = (Z.of_nat y + oy)%Z ->
          x' < W -> y' < H -> df !! (y' * W + x') = Some u ->
          (v <= (1 + e24) * cand u w)%Q) /\
      (v == cur \/
       exists ox oy w x' y' u,
         In (ox, oy, w) nb /\
         Z.of_nat x' = (Z.of_nat x + ox)%Z /\ Z.of_nat y' = (Z.of_nat y + oy)%Z /\
         x' < W /\ y' < H /\ df !! (y' * W + x') = Some u /\
         v == binary32 (cand u w)).

Hypothesis fwd_spec : cell_spec32 nb_fwd fwd.
Hypothesis bwd_spec : cell_spec32 nb_bwd bwd.

Definition pass_fwd (df : list Q) : list Q :=
  for_up lo (H - lo) (fun y d => for_up lo (W - lo) (fun x d' => fwd y x d') d) df.

Definition pass_bwd (df : list Q) : list Q :=
  for_down (H - lo) lo (fun y d => for_down (W - lo) lo (fun x d' => bwd y x d') d) df.

(** *** Whatever a loop body keeps, a pass keeps *)

Definition kept (P : list Q -> Prop) (df : list Q) : Prop :=
  length df = W * H /\ good df /\ P df.

Lemma pass_fwd_keeps32 (P : list Q -> Prop) (df : list Q) :
  (forall d x y, length d = W * H -> region W H lo x y -> good d -> P d ->
                 P (fwd y x d)) ->
  kept P df -> kept P (pass_fwd df).
Proof.
  intros Hstep HP. unfold pass_fwd.
  destruct (le_lt_dec lo (H - lo)) as [Hh|Hh];
    [|rewrite for_up_empty by lia; exact HP].
  apply (for_up_inv (fun _ d => kept P d)); [exact Hh | exact HP |].
  intros ky d Hky Hd.
  destruct (le_lt_dec lo (W - lo)) as [Hw|Hw];
    [|rewrite for_up_empty by lia; exact Hd].
  apply (for_up_inv (fun _ d' => kept P d')); [exact Hw | exact Hd |].
  intros kx d' Hkx (Hl' & Hg' & Hd').
  assert (Hreg : region W H lo kx ky) by (unfold region; lia).
  destruct (fwd_spec d' kx ky Hl' Hreg Hg') as (Hlen' & Hgood' & _).
  split; [exact Hlen'|]. split; [exact Hgood'|]. now apply Hstep.
Qed.

Lemma pass_bwd_keeps32 (P : list Q -> Prop) (df : list Q) :
  (forall d x y, length d = W * H -> region W H lo x y -> good d -> P d ->
                 P (bwd y x d)) ->
  kept P df -> kept P (pass_bwd df).
Proof.
  intros Hstep HP. unfold pass_bwd.
  destruct (le_lt_dec lo (H - lo)) as [Hh|Hh];
    [|rewrite for_down_empty by lia; exact HP].
  apply (for_down_inv (fun _ d => kept P d)); [exact Hh | exact HP |].
  intros ky d Hky Hd.
  destruct (le_lt_dec lo (W - lo)) as [Hw|Hw];
    [|rewrite for_down_empty by lia; exact Hd].
  apply (for_down_inv (fun _ d' => kept P d')); [exact Hw | exact Hd |].
  intros kx d' Hkx (Hl' & Hg' & Hd').
  assert (Hreg : region W H lo kx ky) by (unfold region; lia).
  destruct (bwd_spec d' kx ky Hl' Hreg Hg') as (Hlen' & Hgood' & _).
  split; [exact Hlen'|]. split; [exact Hgood'|]. now apply Hstep.
Qed.

(** *** The pixels the loops leave out keep their value *)

Lemma passes_outside32 (df : list Q) (j : nat) :
  length df = W * H -> good df ->
  (forall x y, region W H lo x y -> j <> y * W + x) ->
  pass_bwd (pass_fwd df) !! j = df !! j.
Proof.
  intros Hlen Hgood Hout.
  assert (H1 : kept (fun d => d !! j = df !! j) (pass_fwd df)).
  { apply pass_fwd_keeps32; [|split; [assumption|split; [assumption|reflexivity]]].
    intros d x y Hl Hreg Hg Hs.
    destruct (fwd_spec d x y Hl Hreg Hg) as (_ & _ & Hoth & _).
    rewrite Hoth; [exact Hs | now apply Hout]. }
  assert (H2 : kept (fun d => d !! j = df !! j) (pass_bwd (pass_fwd df))).
  { apply pass_bwd_keeps32; [|exact H1].
    intros d x y Hl Hreg Hg Hs.
    destruct (bwd_spec d x y Hl Hreg Hg) as (_ & _ & Hoth & _).
    rewrite Hoth; [exact Hs | now apply Hout]. }
  apply H2.
Qed.

(** *** The size of the canvas bounds the distances and the error *)

Definition D : R := (INR W + INR H)%R.
Definition theta : R := (2 * eta * (D + 1))%R.

Hypothesis small : (theta <= 1)%R.

Lemma D_nonneg : (0 <= D)%R.
Proof. unfold D. pose proof (pos_INR W). pose proof (pos_INR H). lra. Qed.

Lemma cd_range (sx sy x y : nat) :
  sx < W -> sy < H -> x < W -> y < H ->
  (0 <= toR (cd sx sy x y) <= D)%R.
Proof.
  intros Hsx Hsy Hx Hy. unfold cd. rewrite toR_chamfer.
  set (dx := (Z.of_nat x - Z.of_nat sx)%Z). set (dy := (Z.of_nat y - Z.of_nat sy)%Z).
  set (m := Z.min (Z.abs dx) (Z.abs dy)). set (M := Z.max (Z.abs dx) (Z.abs dy)).
  assert (Hm : (0 <= m <= M)%Z) by lia.
  assert (HM : (M + m <= Z.of_nat W + Z.of_nat H)%Z) by lia.
  pose proof sqrt2_bounds as [S1 S2].
  destruct Hm as [Hm0 HmM]. apply IZR_le in Hm0, HmM, HM.
  rewrite !plus_IZR in HM. rewrite <- !INR_IZR_INZ in HM. unfold D.
  split; nra.
Qed.

(** *** One seed among others: the upper bound *)

Section Seed.
Variables (sx sy : nat).
Hypothesis seed_region : region W H lo sx sy.

Definition upperF (ky kx : nat) (df : list Q) : Prop :=
  forall x y, region W H lo x y -> ahead sx sy x y ->
    doneF ky kx x y \/ (x, y) = (sx, sy) ->
    exists v, df !! (y * W + x) = Some v /\
              (Q2R v <= (1 + theta) * toR (cd sx sy x y))%R.

Definition upperB (ky kx : nat) (df : list Q) : Prop :=
  forall x y, region W H lo x y -> doneB ky kx x y \/ ahead sx sy x y ->
    exists v, df !! (y * W + x) = Some v /\
              (Q2R v <= (1 + theta) * toR (cd sx sy x y))%R.

(** The value stored at a pixel with a neighbour nearer to the seed. *)
Lemma step_upper nb cell df kx ky ox oy w x' y' u :
  cell_spec32 nb cell -> king nb ->
  length df = W * H -> region W H lo kx ky -> good df ->
  In (ox, oy, w) nb ->
  Z.of_nat x' = (Z.of_nat kx + ox)%Z -> Z.of_nat y' = (Z.of_nat ky + oy)%Z ->
  region W H lo x' y' ->
  Sqrt2.add (cd sx sy x' y') w = cd sx sy kx ky ->
  df !! (y' * W + x') = Some u ->
  (Q2R u <= (1 + theta) * toR (cd sx sy x' y'))%R ->
  exists v, cell ky kx df !! (ky * W + kx) = Some v /\
            (Q2R v <= (1 + theta) * toR (cd sx sy kx ky))%R.
Proof.
  intros Hspec Hking Hlen Hreg Hgood Hin Ex Ey Hreg' Hcd Hu Hleu.
  destruct (Hspec df kx ky Hlen Hreg Hgood)
    as (_ & _ & _ & cur & v & Hcur & Hv & _ & Hnb & _).
  exists v. split; [exact Hv|].
  destruct (region_lt W H lo x' y' Hreg') as [Hx' Hy'].
  pose proof (Hnb ox oy w x' y' u Hin Ex Ey Hx' Hy' Hu) as Hvu.
  destruct (Hgood _ _ Hu) as (Hu0 & _ & _).
  pose proof (king_weight nb ox oy w Hking Hin) as Hw.
  apply Qle_Rle in Hvu.
  pose proof (cand_upper u w Hu0 Hw) as Hc.
  destruct (weight_bounds w Hw) as [(W1 & _) _].
  destruct seed_region as [Hsx Hsy].
  pose proof (cd_range sx sy x' y' ltac:(lia) ltac:(lia) Hx' Hy') as Hr.
  rewrite <- Hcd, toR_add.
  eapply Rle_trans; [exact Hvu|]. eapply Rle_trans; [exact Hc|].
  apply (upper_step D theta); try assumption; try reflexivity.
  - apply D_nonneg.
  - lra.
  - now apply Q2R_nonneg.
Qed.

Lemma keep_upper nb cell df kx ky x y v0 :
  cell_spec32 nb cell ->
  length df = W * H -> region W H lo kx ky -> good df ->
  df !! (y * W + x) = Some v0 ->
  (Q2R v0 <= (1 + theta) * toR (cd sx sy x y))%R ->
  exists v, cell ky kx df !! (y * W + x) = Some v /\
            (Q2R v <= (1 + theta) * toR (cd sx sy x y))%R.
Proof.
  intros Hspec Hlen Hreg Hgood Hv0 Hle.
  destruct (Hspec df kx ky Hlen Hreg Hgood)
    as (_ & _ & Hoth & cur & v & Hcur & Hv & Hvc & _).
  destruct (decide (y * W + x = ky * W + kx)) as [E|Hne].
  - rewrite E in *. rewrite Hcur in Hv0. injection Hv0 as <-.
    exists v. split; [exact Hv|]. apply Qle_Rle in Hvc. lra.
  - exists v0. split; [|exact Hle]. now rewrite Hoth.
Qed.

Lemma fwd_cell_upper32 ky kx df :
  region W H lo kx ky -> length df = W * H -> good df ->
  upperF ky kx df -> upperF ky (Datatypes.S kx) (fwd ky kx df).
Proof.
  intros Hreg Hlen Hgood Hup x y Hxy Hah Hd.
  destruct (decide ((x, y) = (kx, ky))) as [E|Hne].
  - inversion E; subst x y.
    destruct (decide ((kx, ky) = (sx, sy))) as [Es|Hns].
    + destruct (Hup kx ky Hreg Hah (or_intror Es)) as (v0 & Hv0 & Hle0).
      now apply (keep_upper nb_fwd fwd df kx ky kx ky v0 fwd_spec).
    + destruct (fwd_pred W H lo sx sy seed_region kx ky Hreg Hah Hns)
        as (ox & oy & w & x' & y' & Hin & Ex & Ey & Hreg' & Hah' & Hcd & Hbefore).
      destruct (Hup x' y' Hreg' Hah' (or_introl Hbefore)) as (u & Hu & Hleu).
      now apply (step_upper nb_fwd fwd df kx ky ox oy w x' y' u fwd_spec king_fwd).
  - assert (Hold : doneF ky kx x y \/ (x, y) = (sx, sy)).
    { destruct Hd as [[Hd|[Hd1 Hd2]]|Hd]; [left; now left | | now right].
      left. right. split; [exact Hd1|].
      assert (x <> kx) by congruence. lia. }
    destruct (Hup x y Hxy Hah Hold) as (v0 & Hv0 & Hle0).
    now apply (keep_upper nb_fwd fwd df kx ky x y v0 fwd_spec).
Qed.

Lemma fwd_pass_upper32 df :
  length df = W * H -> good df ->
  (exists v0, df !! (sy * W + sx) = Some v0 /\ (Q2R v0 <= 0)%R) ->
  kept (upperF (H - lo) lo) (pass_fwd df).
Proof.
  intros Hlen Hgood (v0 & Hv0 & Hle0). destruct seed_region as [Hsx Hsy].
  unfold pass_fwd.
  apply (for_up_inv (fun ky d => kept (upperF ky lo) d)); [lia | |].
  - split; [exact Hlen|]. split; [exact Hgood|].
    intros x y [Hx Hy] _ [[Hd|[Hd1 Hd2]]|Hd]; try lia.
    inversion Hd; subst. exists v0. split; [exact Hv0|].
    rewrite cd_seed. lra.
  - intros ky d Hky (Hl & Hg & Hup).
    assert (Hrow : kept (upperF ky (W - lo))
                        (for_up lo (W - lo) (fun x d' => fwd ky x d') d)).
    { apply (for_up_inv (fun kx d' => kept (upperF ky kx) d'));
        [lia | (split; [assumption|split; assumption]) |].
      intros kx d' Hkx (Hl' & Hg' & Hup').
      assert (Hreg : region W H lo kx ky) by (unfold region; lia).
      destruct (fwd_spec d' kx ky Hl' Hreg Hg') as (Hlen' & Hgood' & _).
      split; [exact Hlen'|]. split; [exact Hgood'|]. now apply fwd_cell_upper32. }
    destruct Hrow as (Hl' & Hg' & Hup'). split; [exact Hl'|]. split; [exact Hg'|].
    intros x y Hxy Hah Hd. apply Hup'; auto.
    destruct Hd as [[Hd|[Hd1 Hd2]]|Hd]; [| |now right].
    + left. destruct (decide (y = ky)) as [->|]; [right | left; lia].
      split; [reflexivity | apply Hxy].
    + destruct Hxy. lia.
Qed.

Lemma bwd_cell_upper32 ky kx df :
  region W H lo kx ky -> length df = W * H -> good df ->
  upperB ky (Datatypes.S kx) df -> upperB ky kx (bwd ky kx df).
Proof.
  intros Hreg Hlen Hgood Hup x y Hxy Hd.
  destruct (decide ((x, y) = (kx, ky))) as [E|Hne].
  - inversion E; subst x y.
    destruct (ahead_dec sx sy kx ky) as [Hah|Hnah].
    + destruct (Hup kx ky Hreg (or_intror Hah)) as (v0 & Hv0 & Hle0).
      now apply (keep_upper nb_bwd bwd df kx ky kx ky v0 bwd_spec).
    + destruct (bwd_pred W H lo sx sy seed_region kx ky Hreg Hnah)
        as (ox & oy & w & x' & y' & Hin & Ex & Ey & Hreg' & Hcd & Hbefore).
      assert (Hdone : doneB ky (Datatypes.S kx) x' y') by (unfold doneB; lia).
      destruct (Hup x' y' Hreg' (or_introl Hdone)) as (u & Hu & Hleu).
      now apply (step_upper nb_bwd bwd df kx ky ox oy w x' y' u bwd_spec king_bwd).
  - assert (Hold : doneB ky (Datatypes.S kx) x y \/ ahead sx sy x y).
    { destruct Hd as [[Hd|[Hd1 Hd2]]|Hd]; [left; now left | | now right].
      left. right. split; [exact Hd1|].
      assert (x <> kx) by congruence. lia. }
    destruct (Hup x y Hxy Hold) as (v0 & Hv0 & Hle0).
    now apply (keep_upper nb_bwd bwd df kx ky x y v0 bwd_spec).
Qed.

Lemma bwd_pass_upper32 df :
  kept (upperF (H - lo) lo) df -> kept (upperB lo lo) (pass_bwd df).
Proof.
  intros (Hlen0 & Hg0 & Hup0). destruct seed_region as [Hsx Hsy]. unfold pass_bwd.
  apply (for_down_inv (fun ky d => kept (upperB ky lo) d)); [lia | |].
  - split; [exact Hlen0|]. split; [exact Hg0|].
    intros x y Hxy [[Hd|[Hd1 Hd2]]|Hah]; [destruct Hxy; lia | destruct Hxy; lia |].
    apply Hup0; auto. left. left. apply Hxy.
  - intros ky d Hky (Hlen & Hg & Hup).
    apply (for_down_inv (fun kx d' => kept (upperB ky kx) d')); [lia | |].
    + split; [exact Hlen|]. split; [exact Hg|].
      intros x y Hxy Hd. apply Hup; auto.
      destruct Hd as [[Hd|[Hd1 Hd2]]|Hah]; [| destruct Hxy; lia | now right].
      left. unfold doneB. destruct Hxy. lia.
    + intros kx d' Hkx (Hl' & Hg' & Hup').
      assert (Hreg : region W H lo kx ky) by (unfold region; lia).
      destruct (bwd_spec d' kx ky Hl' Hreg Hg') as (Hlen' & Hgood' & _).
      split; [exact Hlen'|]. split; [exact Hgood'|]. now apply bwd_cell_upper32.
Qed.

(** After the two passes no pixel the loops visit holds more than
    [1 + theta] times its chamfer distance to the seed. *)
Lemma two_pass_upper32 df x y :
  length df = W * H -> good df ->
  (exists v0, df !! (sy * W + sx) = Some v0 /\ (Q2R v0 <= 0)%R) ->
  region W H lo x y ->
  exists v, pass_bwd (pass_fwd df) !! (y * W + x) = Some v /\
            (Q2R v <= (1 + theta) * toR (cd sx sy x y))%R.
Proof.
  intros Hlen Hgood Hseed Hxy.
  pose proof (fwd_pass_upper32 df Hlen Hgood Hseed) as H1.
  destruct (bwd_pass_upper32 _ H1) as (_ & _ & Hup2).
  apply Hup2; [exact Hxy|]. left. unfold doneB. destruct Hxy. lia.
Qed.

End Seed.

(** *** All the seeds: the lower bound *)

Definition seed_at (sx sy : nat) : Prop :=
  sx < W /\ sy < H /\ seedb (sy * W + sx) = true.

(** Every value is at least [S], or at least [1 - theta] times the
    distance to some seed. *)
Definition lower (df : list Q) : Prop :=
  forall x y v, x < W -> y < H -> df !! (y * W + x) = Some v ->
    (S <= v)%Q \/
    exists sx sy, seed_at sx sy /\ ((1 - theta) * toR (cd sx sy x y) <= Q2R v)%R.

Lemma cell_lower32 nb cell :
  cell_spec32 nb cell -> king nb ->
  forall d x y, length d = W * H -> region W H lo x y -> good d ->
                lower d -> lower (cell y x d).
Proof.
  intros Hspec Hking df x y Hlen Hreg Hgood Hlow x0 y0 v0 Hx0 Hy0 Hv0.
  destruct (Hspec df x y Hlen Hreg Hgood)
    as (_ & _ & Hoth & cur & v & Hcur & Hv & _ & _ & Hfrom).
  destruct (decide (y0 * W + x0 = y * W + x)) as [E|Hne].
  - assert (Hxx : x < W) by (destruct Hreg; lia).
    apply index_inj in E; [|assumption|assumption]. destruct E as [-> ->].
    rewrite Hv in Hv0. inversion Hv0; subst v0.
    destruct Hfrom as [Ev|(ox & oy & w & x' & y' & u & Hin & Ex & Ey & Hx' & Hy' & Hu & Ev)].
    + destruct (Hlow x y cur Hx0 Hy0 Hcur) as [HS|(sx & sy & Hs & Hge)].
      * left. now rewrite Ev.
      * right. exists sx, sy. split; [exact Hs|]. now rewrite (Qeq_eqR _ _ Ev).
    + destruct (Hking ox oy w Hin) as (Hox & Hoy & Hw').
      pose proof (king_weight nb ox oy w Hking Hin) as Hw.
      destruct (Hgood _ _ Hu) as (Hu0 & _ & _).
      destruct (Hlow x' y' u Hx' Hy' Hu) as [HS|(sx & sy & Hs & Hlu)].
      * left. rewrite Ev. now apply cand_cross.
      * right. exists sx, sy. split; [exact Hs|].
        rewrite (Qeq_eqR _ _ Ev).
        destruct (chamfer_step (Z.of_nat x - Z.of_nat sx) (Z.of_nat y - Z.of_nat sy)
                               ox oy Hox Hoy) as [Hdiag Haxis].
        replace (Z.of_nat x - Z.of_nat sx + ox)%Z
          with (Z.of_nat x' - Z.of_nat sx)%Z in Hdiag, Haxis by lia.
        replace (Z.of_nat y - Z.of_nat sy + oy)%Z
          with (Z.of_nat y' - Z.of_nat sy)%Z in Hdiag, Haxis by lia.
        fold (cd sx sy x y) in Hdiag, Haxis. fold (cd sx sy x' y') in Hdiag, Haxis.
        assert (Hstep : (toR (cd sx sy x y) <= toR (cd sx sy x' y') + toR w)%R).
        { destruct Hw' as [->|[-> Hax]].
          - now rewrite toR_SQRT2.
          - rewrite toR_one. now apply Haxis. }
        destruct (weight_bounds w Hw) as [(W1 & _) _].
        destruct Hs as (Hsx & Hsy & Hb).
        pose proof (cd_range sx sy x' y' Hsx Hsy Hx' Hy') as Hr.
        eapply Rle_trans; [|apply (cand_lower u w Hu0 Hw)].
        apply (lower_step D theta (toR (cd sx sy x' y'))); try assumption;
          try reflexivity; try lra; try apply D_nonneg.
  - rewrite Hoth in Hv0 by exact Hne. now apply (Hlow x0 y0).
Qed.

(** The field the passes start from: 0 at the seeds, [S] elsewhere. *)
Record start_many (df : list Q) : Prop := {
  sm_len : length df = W * H;
  sm_init : forall x y, x < W -> y < H ->
              exists v, df !! (y * W + x) = Some v /\
                        (v == if seedb (y * W + x) then 0 else S)%Q
}.

Hypothesis seeds_inside : forall sx sy, seed_at sx sy -> region W H lo sx sy.

Lemma start_good df : start_many df -> good df.
Proof.
  intros [Hlen Hinit] j v Hv.
  assert (Hj : j < W * H) by (rewrite <- Hlen; eapply lookup_lt_Some; eauto).
  destruct (index_split W H j Hj) as (x0 & y0 & Hx0 & Hy0 & ->).
  destruct (Hinit x0 y0 Hx0 Hy0) as (v' & Hv' & Ev). rewrite Hv in Hv'.
  injection Hv' as <-.
  destruct (seedb (y0 * W + x0)).
  - split; [rewrite Ev; apply Qle_refl|]. split; [now rewrite Ev|].
    apply (rep_eq 24 0); [now symmetry | apply rep_0; lia].
  - split; [now rewrite Ev|]. split; [rewrite Ev; apply Qle_refl|].
    apply (rep_eq 24 S); [now symmetry | exact S_rep].
Qed.

(** The two passes compute the chamfer distance transform of the seed set,
    capped by [S], to within the relative error [theta], at every pixel
    the loops visit. *)
Theorem many_seeds_rounded df x y :
  start_many df -> region W H lo x y ->
  exists v,
    pass_bwd (pass_fwd df) !! (y * W + x) = Some v /\
    (0 <= v)%Q /\ (v <= S)%Q /\
    (forall sx sy, seed_at sx sy ->
       (Q2R v <= (1 + theta) * toR (cd sx sy x y))%R) /\
    ((S <= v)%Q \/
     exists sx sy, seed_at sx sy /\ ((1 - theta) * toR (cd sx sy x y) <= Q2R v)%R).
Proof.
  intros Hst Hxy. pose proof (start_good df Hst) as Hg0.
  destruct Hst as [Hlen Hinit].
  assert (HP0 : lower df).
  { intros x0 y0 v Hx0 Hy0 Hv.
    destruct (Hinit x0 y0 Hx0 Hy0) as (v' & Hv' & Ev). rewrite Hv in Hv'.
    injection Hv' as <-.
    destruct (seedb (y0 * W + x0)) eqn:Es.
    - right. exists x0, y0. split; [now split|].
      rewrite cd_seed, (Qeq_eqR _ _ Ev), Q2R_0. lra.
    - left. rewrite Ev. apply Qle_refl. }
  assert (H1 : kept lower (pass_fwd df)).
  { apply pass_fwd_keeps32; [|(split; [assumption|split; assumption])].
    intros d x0 y0 Hl Hreg Hg Hlo.
    now apply (cell_lower32 nb_fwd fwd fwd_spec king_fwd). }
  assert (H2 : kept lower (pass_bwd (pass_fwd df))).
  { apply pass_bwd_keeps32; [|exact H1].
    intros d x0 y0 Hl Hreg Hg Hlo.
    now apply (cell_lower32 nb_bwd bwd bwd_spec king_bwd). }
  destruct H2 as (Hl2 & Hg2 & Hlo2).
  destruct (region_lt W H lo x y Hxy) as [Hx Hy].
  assert (Hi : y * W + x < W * H) by (now apply index_lt).
  destruct (lookup_lt_is_Some_2 (pass_bwd (pass_fwd df)) (y * W + x)) as [v Hv]; [lia|].
  destruct (Hg2 _ _ Hv) as (Hv0 & HvS & _).
  exists v. split; [exact Hv|]. split; [exact Hv0|]. split; [exact HvS|]. split.
  - intros sx sy Hs.
    destruct (two_pass_upper32 sx sy (seeds_inside sx sy Hs) df x y Hlen Hg0)
      as (v' & Hv' & Hle); [|exact Hxy|].
    + destruct Hs as (Hsx & Hsy & Hb).
      destruct (Hinit sx sy Hsx Hsy) as (v0 & Hv0' & Ev0). rewrite Hb in Ev0.
      exists v0. split; [exact Hv0'|]. rewrite (Qeq_eqR _ _ Ev0), Q2R_0. lra.
    + rewrite Hv in Hv'. now injection Hv' as <-.
  - now apply (Hlo2 x y v).
Qed.

End Rounded.
End RoundedPasses.

Module RoundedCells.
Import Loops Raster Sqrt2 Sqrt2Facts LoopFacts IndexFacts FillFacts ChamferFacts
       Double DoubleFacts RoundingFacts Float32 RoundedFacts RoundedPasses.

(** *** [Math.min] on the values of the array *)

Lemma min32_cases (a b : Q) :
  (Float32.min a b = a /\ (a <= b)%Q) \/ (Float32.min a b = b /\ (b <= a)%Q).
Proof.
  unfold Float32.min. destruct (Qle_bool a b) eqn:E.
  - left. split; [reflexivity | now apply Qle_bool_iff].
  - right. split; [reflexivity|].
    destruct (Qlt_le_dec b a) as [Hlt|Hle]; [now apply Qlt_le_weak|].
    apply Qle_bool_iff in Hle. congruence.
Qed.

Lemma min_of_cases (l : list Q) :
  forall a,
    (Float32.min_of a l = a \/ In (Float32.min_of a l) l) /\
    (Float32.min_of a l <= a)%Q /\
    forall c, In c l -> (Float32.min_of a l <= c)%Q.
Proof.
  unfold Float32.min_of.
  induction l as [|b l IH]; intros a; simpl.
  - split; [now left|]. split; [apply Qle_refl | contradiction].
  - destruct (IH (Float32.min a b)) as (Hin & Hle & Hall).
    destruct (min32_cases a b) as [[E Hab]|[E Hab]]; rewrite E in *.
    + split; [destruct Hin; [now left | right; now right]|].
      split; [exact Hle|].
      intros c [<-|Hc]; [eapply Qle_trans; eauto | now apply Hall].
    + split; [destruct Hin as [->|Hin]; right; [now left | now right]|].
      split; [eapply Qle_trans; eauto|].
      intros c [<-|Hc]; [exact Hle | now apply Hall].
Qed.

Section Cells.

(** The value [S] the pixels outside the mask start from. *)
Variable S : Q.

Definition val_ok (v : Q) : Prop := (0 <= v)%Q /\ (v <= S)%Q /\ rep 24 v.

(** The store of a value [m] that is at most the value [cur] the array
    holds. *)
Lemma store_min (cur m : Q) :
  val_ok cur -> (0 <= m)%Q -> (m <= cur)%Q ->
  val_ok (binary32 m) /\ (binary32 m <= cur)%Q /\ (binary32 m <= (1 + e24) * m)%Q.
Proof.
  intros (Hc0 & HcS & k & j & Hk & Ek) Hm0 Hmc.
  assert (Hle : (binary32 m <= cur)%Q).
  { rewrite Ek. apply round_le_bound; [exact Hk | lia | now rewrite <- Ek]. }
  split; [|split; [exact Hle|]].
  - split; [now apply round_nonneg|]. split; [eapply Qle_trans; eauto|].
    apply round_rep; [lia | exact Hm0].
  - rewrite Qmult_comm. now apply store_bounds.
Qed.

Lemma stored_id (cur : Q) : val_ok cur -> (binary32 cur == cur)%Q.
Proof. intros (_ & _ & Hr). apply round_id; [lia | exact Hr]. Qed.

Lemma scale_le (m c : Q) : (m <= c)%Q -> ((1 + e24) * m <= (1 + e24) * c)%Q.
Proof. intros Hmc. apply Qmult_le_l; [reflexivity | exact Hmc]. Qed.

(** What a loop body does to the array: one entry [i] is replaced, by the
    old value or the rounding of a candidate, at most the old value and,
    up to one rounding, at most every candidate. *)
Definition stores (i : nat) (cands : list (nat * t)) (df df' : list Q) : Prop :=
  exists cur v,
    df !! i = Some cur /\ df' = <[i := v]> df /\ val_ok v /\ (v <= cur)%Q /\
    (forall j w u, In (j, w) cands -> df !! j = Some u ->
                   (v <= (1 + e24) * cand u w)%Q) /\
    ((v == cur)%Q \/
     exists j w u, In (j, w) cands /\ df !! j = Some u /\
                   (v == binary32 (cand u w))%Q).

(** *** Relaxations in turn, as in add_second_edge *)

Definition relaxes32 (i : nat) (cands : list (nat * t)) (df : list Q) : list Q :=
  fold_left (fun d c => SecondEdge32.relax i (fst c) (dbl (snd c)) d) cands df.

Lemma relaxes32_stores (i : nat) (cands : list (nat * t)) :
  forall df cur,
    df !! i = Some cur -> val_ok cur ->
    (forall c, In c cands ->
       fst c <> i /\ weight (snd c) /\
       exists u, df !! fst c = Some u /\ (0 <= u)%Q) ->
    stores i cands df (relaxes32 i cands df).
Proof.
  induction cands as [|[j w] cands IH]; intros df cur Hcur Hok Hc.
  - exists cur, cur. split; [exact Hcur|].
    split; [simpl; symmetry; now apply list_insert_id|].
    split; [exact Hok|]. split; [apply Qle_refl|].
    split; [intros j w u []|]. left. reflexivity.
  - destruct (Hc (j, w) (or_introl eq_refl)) as (Hji & Hw & u & Hu & Hu0).
    simpl in Hji, Hw, Hu.
    assert (Hi : i < length df) by (eapply lookup_lt_Some; eauto).
    destruct (weight_bounds w Hw) as [_ Hd0].
    assert (Hc0 : (0 <= cand u w)%Q) by (now apply plus_nonneg).
    set (m := Float32.min cur (cand u w)).
    set (df1 := <[i := binary32 m]> df).
    assert (E1 : SecondEdge32.relax i j (dbl w) df = df1).
    { unfold SecondEdge32.relax. now rewrite Hcur, Hu. }
    assert (Hm : (m <= cur)%Q /\ (m <= cand u w)%Q /\ (0 <= m)%Q /\
                 (m = cur \/ m = cand u w)).
    { unfold m. destruct Hok as (Hcur0 & _).
      destruct (min32_cases cur (cand u w)) as [[-> Hle]|[-> Hle]].
      - split; [apply Qle_refl|]. split; [exact Hle|]. split; [exact Hcur0 | now left].
      - split; [exact Hle|]. split; [apply Qle_refl|]. split; [exact Hc0 | now right]. }
    destruct Hm as (Hmc & Hmu & Hm0 & Hmeq).
    destruct (store_min cur m Hok Hm0 Hmc) as (Hok1 & Hle1 & Hb1).
    destruct (IH df1 (binary32 m)) as (cur' & v & Hcur' & Edf & Hokv & Hvle & Hall & Hfrom).
    + unfold df1. now apply list_lookup_insert_eq.
    + exact Hok1.
    + intros c Hin. destruct (Hc c (or_intror Hin)) as (H1 & H2 & u' & Hu' & Hu0').
      split; [exact H1|]. split; [exact H2|]. exists u'. split; [|exact Hu0'].
      unfold df1. now rewrite list_lookup_insert_ne by congruence.
    + assert (Ec : cur' = binary32 m).
      { unfold df1 in Hcur'. rewrite list_lookup_insert_eq in Hcur' by exact Hi.
        now injection Hcur' as <-. }
      subst cur'.
      exists cur, v. split; [exact Hcur|].
      split.
      { unfold relaxes32 in *. simpl. rewrite E1, Edf. unfold df1.
        now rewrite list_insert_insert_eq. }
      split; [exact Hokv|]. split; [eapply Qle_trans; eauto|]. split.
      * intros j' w' u' [E|Hin] Hu'.
        -- inversion E; subst j' w'. rewrite Hu in Hu'. injection Hu' as <-.
           eapply Qle_trans; [exact Hvle|]. eapply Qle_trans; [exact Hb1|].
           now apply scale_le.
        -- apply (Hall j' w' u' Hin).
           destruct (Hc (j', w') (or_intror Hin)) as (Hne & _). simpl in Hne.
           unfold df1. now rewrite list_lookup_insert_ne by congruence.
      * destruct Hfrom as [Ev|(j' & w' & u' & Hin & Hu' & Ev)].
        -- destruct Hmeq as [Em|Em]; rewrite Em in Ev.
           ++ left. rewrite Ev. now apply stored_id.
           ++ right. exists j, w, u. split; [now left|]. split; [exact Hu | exact Ev].
        -- right. exists j', w', u'. split; [now right|]. split; [|exact Ev].
           destruct (Hc (j', w') (or_intror Hin)) as (Hne & _). simpl in Hne.
           unfold df1 in Hu'. now rewrite list_lookup_insert_ne in Hu' by congruence.
Qed.

(** *** One store of the minimum, as in createRasterSmoothBorder *)

Definition sums (cands : list (nat * t)) (us : list Q) : list Q :=
  zip_with (fun c u => cand u (snd c)) cands us.

Definition read_ok (df : list Q) (c : nat * t) (u : Q) : Prop :=
  df !! fst c = Some u /\ (0 <= u)%Q /\ weight (snd c).

Lemma sums_spec (df : list Q) (cands : list (nat * t)) (us : list Q) :
  Forall2 (read_ok df) cands us ->
  (forall j w u, In (j, w) cands -> df !! j = Some u -> In (cand u w) (sums cands us)) /\
  (forall c, In c (sums cands us) ->
     (0 <= c)%Q /\
     exists j w u, In (j, w) cands /\ df !! j = Some u /\ c = cand u w).
Proof.
  induction 1 as [|[j w] u cands us (Hu & Hu0 & Hw) _ [IH1 IH2]]; simpl.
  - split; [intros ? ? ? [] | intros ? []].
  - simpl in Hu, Hw. split.
    + intros j' w' u' [E|Hin] Hu'.
      * inversion E; subst j' w'. rewrite Hu in Hu'. injection Hu' as <-. now left.
      * right. now apply (IH1 j' w' u').
    + intros c [<-|Hin].
      * destruct (weight_bounds w Hw) as [_ Hd0].
        split; [now apply plus_nonneg|].
        exists j, w, u. split; [now left|]. split; [exact Hu | reflexivity].
      * destruct (IH2 c Hin) as (Hc0 & j' & w' & u' & Hin' & Hu' & E).
        split; [exact Hc0|]. exists j', w', u'. split; [now right|]. now split.
Qed.

Lemma min_store_stores (i : nat) (cands : list (nat * t)) (us : list Q)
      (df : list Q) (cur : Q) :
  df !! i = Some cur -> val_ok cur ->
  Forall2 (read_ok df) cands us ->
  stores i cands df (<[i := binary32 (Float32.min_of cur (sums cands us))]> df).
Proof.
  intros Hcur Hok HF. destruct (sums_spec df cands us HF) as [Hs1 Hs2].
  destruct (min_of_cases (sums cands us) cur) as (Hin & Hle & Hall).
  set (m := Float32.min_of cur (sums cands us)) in *.
  assert (Hm0 : (0 <= m)%Q).
  { destruct Hin as [->|Hin]; [apply Hok | now apply Hs2]. }
  destruct (store_min cur m Hok Hm0 Hle) as (Hok1 & Hle1 & Hb1).
  exists cur, (binary32 m). split; [exact Hcur|]. split; [reflexivity|].
  split; [exact Hok1|]. split; [exact Hle1|]. split.
  - intros j w u Hc Hu. eapply Qle_trans; [exact Hb1|].
    apply scale_le, Hall. now apply (Hs1 j w u).
  - destruct Hin as [E|Hin].
    + left. rewrite E. now apply stored_id.
    + right. destruct (Hs2 m Hin) as (_ & j & w & u & Hc & Hu & E).
      exists j, w, u. split; [exact Hc|]. split; [exact Hu|]. now rewrite <- E.
Qed.

(** *** From the store to the loop body *)

Lemma stores_cell_spec (W H lo : nat) (nb : list (Z * Z * t))
      (cell : nat -> nat -> list Q -> list Q)
      (cands : nat -> nat -> list (nat * t)) :
  (forall df x y, length df = W * H -> region W H lo x y -> good S df ->
     cands_ok W H nb x y (cands y x) /\
     stores (y * W + x) (cands y x) df (cell y x df)) ->
  cell_spec32 W H lo S nb cell.
Proof.
  intros Hcell df x y Hlen Hreg Hgood.
  destruct (Hcell df x y Hlen Hreg Hgood)
    as [[Hc1 Hc2] (cur & v & Hcur & -> & Hokv & Hvle & Hall & Hfrom)].
  assert (Hi : y * W + x < length df) by (eapply lookup_lt_Some; eauto).
  split; [now rewrite length_insert|]. split.
  { intros k v' Hk. destruct (decide (k = y * W + x)) as [->|Hne].
    - rewrite list_lookup_insert_eq in Hk by exact Hi. injection Hk as <-. exact Hokv.
    - rewrite list_lookup_insert_ne in Hk by congruence. now apply (Hgood k). }
  split; [intros j Hj; now rewrite list_lookup_insert_ne by congruence|].
  exists cur, v. split; [exact Hcur|]. split; [now apply list_lookup_insert_eq|].
  split; [exact Hvle|]. split.
  - intros ox oy w x' y' u Hnb Ex Ey Hx' Hy' Hu.
    apply (Hall (y' * W + x') w u); [|exact Hu]. now apply (Hc2 ox oy w x' y').
  - destruct Hfrom as [E|(j & w & u & Hin & Hu & E)]; [now left | right].
    destruct (Hc1 j w Hin) as (ox & oy & x' & y' & Hnb & Ex & Ey & Hx' & Hy' & ->).
    exists ox, oy, w, x', y', u. repeat split; assumption.
Qed.

(** The candidates of a loop body read entries of the array other than
    the pixel's own. *)
Lemma cands_read (W H : nat) (nb : list (Z * Z * t)) (x y : nat)
      (cands : list (nat * t)) (df : list Q) :
  king nb -> proper nb -> x < W -> y < H -> length df = W * H -> good S df ->
  cands_ok W H nb x y cands ->
  forall c, In c cands ->
    fst c <> y * W + x /\ weight (snd c) /\
    exists u, df !! fst c = Some u /\ (0 <= u)%Q.
Proof.
  intros Hking Hproper Hx Hy Hlen Hgood [Hc1 _] [j w] Hin. simpl.
  destruct (Hc1 j w Hin) as (ox & oy & x' & y' & Hnb & Ex & Ey & Hx' & Hy' & ->).
  split; [|split].
  - intros E. apply index_inj in E; [|assumption|assumption].
    destruct E as [-> ->]. apply (Hproper ox oy w Hnb). f_equal; lia.
  - now apply (king_weight nb ox oy).
  - destruct (lookup_lt_is_Some_2 df (y' * W + x')) as [u Hu];
      [rewrite Hlen; now apply index_lt|].
    exists u. split; [exact Hu|]. now apply (Hgood _ _ Hu).
Qed.

(** *** The loop bodies of add_second_edge *)

Lemma se32_fwd_relaxes W y x df :
  SecondEdge32.forward_cell W y x df = relaxes32 (y * W + x) (se_cands_fwd W y x) df.
Proof.
  unfold SecondEdge32.forward_cell, se_cands_fwd, relaxes32.
  destruct (0 <? y), (0 <? x), (x + 1 <? W); reflexivity.
Qed.

Lemma se32_bwd_relaxes W H y x df :
  SecondEdge32.backward_cell W H y x df =
  relaxes32 (y * W + x) (se_cands_bwd W H y x) df.
Proof.
  unfold SecondEdge32.backward_cell, se_cands_bwd, relaxes32.
  destruct (y + 1 <? H), (0 <? x), (x + 1 <? W); reflexivity.
Qed.

Lemma se32_fwd_spec W H : cell_spec32 W H 0 S nb_fwd (SecondEdge32.forward_cell W).
Proof.
  apply (stores_cell_spec W H 0 nb_fwd _ (se_cands_fwd W)).
  intros df x y Hlen Hreg Hgood. destruct (region_lt W H 0 x y Hreg) as [Hx Hy].
  pose proof (se_fwd_cands_ok W H x y Hx Hy) as Hok.
  split; [exact Hok|]. rewrite se32_fwd_relaxes.
  destruct (lookup_lt_is_Some_2 df (y * W + x)) as [cur Hcur];
    [rewrite Hlen; now apply index_lt|].
  apply (relaxes32_stores _ _ df cur Hcur); [now apply (Hgood _ _ Hcur)|].
  now apply (cands_read W H nb_fwd x y _ df king_fwd proper_fwd).
Qed.

Lemma se32_bwd_spec W H : cell_spec32 W H 0 S nb_bwd (SecondEdge32.backward_cell W H).
Proof.
  apply (stores_cell_spec W H 0 nb_bwd _ (se_cands_bwd W H)).
  intros df x y Hlen Hreg Hgood. destruct (region_lt W H 0 x y Hreg) as [Hx Hy].
  pose proof (se_bwd_cands_ok W H x y Hx Hy) as Hok.
  split; [exact Hok|]. rewrite se32_bwd_relaxes.
  destruct (lookup_lt_is_Some_2 df (y * W + x)) as [cur Hcur];
    [rewrite Hlen; now apply index_lt|].
  apply (relaxes32_stores _ _ df cur Hcur); [now apply (Hgood _ _ Hcur)|].
  now apply (cands_read W H nb_bwd x y _ df king_bwd proper_bwd).
Qed.

(** *** The loop bodies of createRasterSmoothBorder *)

Lemma four_reads32 (W H : nat) (nb : list (Z * Z * t)) (x y : nat)
      (c1 c2 c3 c4 : nat * t) (df : list Q) :
  king nb -> proper nb -> x < W -> y < H -> length df = W * H -> good S df ->
  cands_ok W H nb x y [c1; c2; c3; c4] ->
  exists cur u1 u2 u3 u4,
    df !! (y * W + x) = Some cur /\ val_ok cur /\
    df !! fst c1 = Some u1 /\ df !! fst c2 = Some u2 /\
    df !! fst c3 = Some u3 /\ df !! fst c4 = Some u4 /\
    Forall2 (read_ok df) [c1; c2; c3; c4] [u1; u2; u3; u4].
Proof.
  intros Hking Hproper Hx Hy Hlen Hgood Hok.
  pose proof (cands_read W H nb x y _ df Hking Hproper Hx Hy Hlen Hgood Hok) as Hr.
  destruct (lookup_lt_is_Some_2 df (y * W + x)) as [cur Hcur];
    [rewrite Hlen; now apply index_lt|].
  destruct (Hr c1) as (_ & Hw1 & u1 & Hu1 & H01); [simpl; tauto|].
  destruct (Hr c2) as (_ & Hw2 & u2 & Hu2 & H02); [simpl; tauto|].
  destruct (Hr c3) as (_ & Hw3 & u3 & Hu3 & H03); [simpl; tauto|].
  destruct (Hr c4) as (_ & Hw4 & u4 & Hu4 & H04); [simpl; tauto|].
  exists cur, u1, u2, u3, u4.
  split; [exact Hcur|]. split; [now apply (Hgood _ _ Hcur)|].
  repeat (split; [assumption|]).
  repeat (constructor; [now split|]). constructor.
Qed.

Lemma st32_fwd_spec W H : cell_spec32 W H 1 S nb_fwd (Sticker32.forward_cell W).
Proof.
  apply (stores_cell_spec W H 1 nb_fwd _ (st_cands_fwd W)).
  intros df x y Hlen Hreg Hgood. destruct (region_lt W H 1 x y Hreg) as [Hx Hy].
  pose proof (st_fwd_cands_ok W H x y Hreg) as Hok.
  split; [exact Hok|].
  destruct (four_reads32 W H nb_fwd x y _ _ _ _ df king_fwd proper_fwd Hx Hy Hlen Hgood Hok)
    as (cur & u1 & u2 & u3 & u4 & Hcur & Hokc & H1 & H2 & H3 & H4 & HF).
  simpl in H1, H2, H3, H4.
  unfold Sticker32.forward_cell. rewrite Hcur, H1, H2, H3, H4.
  exact (min_store_stores _ _ _ df cur Hcur Hokc HF).
Qed.

Lemma st32_bwd_spec W H : cell_spec32 W H 1 S nb_bwd (Sticker32.backward_cell W).
Proof.
  apply (stores_cell_spec W H 1 nb_bwd _ (st_cands_bwd W)).
  intros df x y Hlen Hreg Hgood. destruct (region_lt W H 1 x y Hreg) as [Hx Hy].
  pose proof (st_bwd_cands_ok W H x y Hreg) as Hok.
  split; [exact Hok|].
  destruct (four_reads32 W H nb_bwd x y _ _ _ _ df king_bwd proper_bwd Hx Hy Hlen Hgood Hok)
    as (cur & u1 & u2 & u3 & u4 & Hcur & Hokc & H1 & H2 & H3 & H4 & HF).
  simpl in H1, H2, H3, H4.
  unfold Sticker32.backward_cell. rewrite Hcur, H1, H2, H3, H4.
  exact (min_store_stores _ _ _ df cur Hcur Hokc HF).
Qed.

End Cells.
End RoundedCells.

Module RoundedFields.
Import Loops Raster Sqrt2 Sqrt2Facts LoopFacts IndexFacts FillFacts ChamferFacts
       Double DoubleFacts RoundingFacts Float32 RoundedFacts RoundedPasses RoundedCells.

(** *** The error bound *)

Lemma theta_value (W H : nat) : theta W H = (INR (W + H + 1) / 4194304)%R.
Proof.
  unfold theta, D, eta. rewrite !plus_INR. change (INR 1) with 1%R. lra.
Qed.

Lemma theta_small (W H : nat) :
  (Z.of_nat W + Z.of_nat H < 4194304)%Z -> (theta W H <= 1)%R.
Proof.
  intros Hs. unfold theta, D, eta. rewrite !INR_IZR_INZ, <- plus_IZR.
  assert (Hle : (IZR (Z.of_nat W + Z.of_nat H) <= 4194303)%R) by (apply IZR_le; lia).
  lra.
Qed.

Lemma theta_nonneg (W H : nat) : (0 <= theta W H)%R.
Proof. unfold theta, eta. pose proof (D_nonneg W H). nra. Qed.

(** With both bounds, a value that is capped by [S] is within [theta] of
    every chamfer distance [c <= S] it is compared with. *)
Lemma within (theta c v S : R) :
  (0 <= theta)%R -> (0 <= c <= S)%R -> (v <= S)%R ->
  (v <= (1 + theta) * c)%R ->
  (S <= v \/ (1 - theta) * c <= v)%R ->
  (Rabs (v - c) <= theta * c)%R.
Proof.
  intros Ht Hc HvS Hup Hlow. apply Rabs_le. destruct Hlow; split; nra.
Qed.

(** *** add_second_edge *)

Lemma INF_rep : rep 24 SecondEdge32.INF.
Proof. exists 1953125%Z, 9%Z. split; [lia | reflexivity]. Qed.

Lemma INF_nonneg : (0 <= SecondEdge32.INF)%Q.
Proof. discriminate. Qed.

Lemma se32_init_df_spec (mask : list bool) (n : nat) :
  length (SecondEdge32.init_df mask n) = n /\
  forall i, i < n ->
    SecondEdge32.init_df mask n !! i =
    Some (binary32 (if bit mask i then 0%Q else SecondEdge32.INF)).
Proof.
  unfold SecondEdge32.init_df.
  apply (fill_spec (fun i => binary32 (if bit mask i then 0%Q else SecondEdge32.INF))).
  apply length_replicate.
Qed.

Lemma se32_passes W H df :
  SecondEdge32.backward_pass W H (SecondEdge32.forward_pass W H df) =
  pass_bwd W H 0 (SecondEdge32.backward_cell W H)
           (pass_fwd W H 0 (SecondEdge32.forward_cell W) df).
Proof.
  unfold SecondEdge32.backward_pass, SecondEdge32.forward_pass, pass_bwd, pass_fwd.
  now rewrite !Nat.sub_0_r.
Qed.

Lemma se32_start W H mask :
  start_many W H (bit mask) SecondEdge32.INF (SecondEdge32.init_df mask (W * H)).
Proof.
  destruct (se32_init_df_spec mask (W * H)) as [Hlen Hinit].
  constructor; [exact Hlen|].
  intros x y Hx Hy. eexists. split; [apply Hinit; now apply index_lt|].
  destruct (bit mask (y * W + x)).
  - reflexivity.
  - apply round_id; [lia | apply INF_rep].
Qed.

(** The field of add_second_edge, for every mask. *)
Lemma se32_distance_transform (W H : nat) (mask : list bool) (x y : nat) :
  (Z.of_nat W + Z.of_nat H < 4194304)%Z -> x < W -> y < H ->
  exists v,
    SecondEdge32.distance_field W H mask !! (y * W + x) = Some v /\
    (0 <= v)%Q /\ (v <= SecondEdge32.INF)%Q /\
    (forall sx sy, sx < W -> sy < H -> bit mask (sy * W + sx) = true ->
       (Q2R v <= (1 + theta W H) * toR (cd sx sy x y))%R) /\
    ((SecondEdge32.INF <= v)%Q \/
     exists sx sy, sx < W /\ sy < H /\ bit mask (sy * W + sx) = true /\
       ((1 - theta W H) * toR (cd sx sy x y) <= Q2R v)%R).
Proof.
  intros Hs Hx Hy. unfold SecondEdge32.distance_field. rewrite se32_passes.
  destruct (many_seeds_rounded W H 0 _ _ (bit mask) SecondEdge32.INF
              INF_rep INF_nonneg
              (se32_fwd_spec SecondEdge32.INF W H) (se32_bwd_spec SecondEdge32.INF W H)
              (theta_small W H Hs))
    with (df := SecondEdge32.init_df mask (W * H)) (x := x) (y := y)
    as (v & Hv & Hv0 & HvS & Hup & Hlow).
  - intros sx sy (Hsx & Hsy & _). unfold region. lia.
  - apply se32_start.
  - unfold region. lia.
  - exists v. split; [exact Hv|]. split; [exact Hv0|]. split; [exact HvS|]. split.
    + intros sx sy Hsx Hsy Hb. apply Hup. now split.
    + destruct Hlow as [Hl|(sx & sy & (Hsx & Hsy & Hb) & Hl)]; [now left | right].
      exists sx, sy. now repeat split.
Qed.

(** *** createRasterSmoothBorder *)

Definition cap (strokePx : Q) : Q := Sticker32.fill_value strokePx.

Lemma cap_ok (strokePx : Q) :
  (0 <= strokePx)%Q -> rep 24 (cap strokePx) /\ (0 <= cap strokePx)%Q.
Proof.
  intros Hs. unfold cap, Sticker32.fill_value.
  assert (H0 : (0 <= binary64 (strokePx * 2))%Q).
  { apply round_nonneg. Lqa.lra. }
  split; [apply round_rep; [lia | exact H0] | now apply round_nonneg].
Qed.

Lemma st32_init_df_spec (W H : nat) (strokePx : Q) (seed : nat -> bool) :
  length (Sticker32.init_df W H strokePx seed) = W * H /\
  forall x y, x < W -> y < H ->
    Sticker32.init_df W H strokePx seed !! (y * W + x) =
    Some (if seed (y * W + x) then binary32 0%Q else cap strokePx).
Proof.
  set (g := fun y x => if seed (y * W + x) then Some (binary32 0%Q) else None).
  assert (E : Sticker32.init_df W H strokePx seed =
              for_up 0 H
                (fun y c =>
                   for_up 0 W
                     (fun x c' =>
                        match g y x with
                        | Some v => <[y * W + x := v]> c'
                        | None => c'
                        end) c)
                (replicate (W * H) (cap strokePx))).
  { unfold Sticker32.init_df. apply for_up_ext. intros y c.
    apply for_up_ext. intros x c'. unfold g.
    destruct (seed (y * W + x)); reflexivity. }
  rewrite E.
  destruct (fill2_spec W H g (replicate (W * H) (cap strokePx)))
    as [Hlen Hr]; [apply length_replicate|].
  split; [exact Hlen|].
  intros x y Hx Hy. rewrite Hr by assumption. unfold g.
  destruct (seed (y * W + x)); [reflexivity|].
  apply lookup_replicate_2. now apply index_lt.
Qed.

Lemma st32_start W H strokePx seed :
  start_many W H seed (cap strokePx) (Sticker32.init_df W H strokePx seed).
Proof.
  destruct (st32_init_df_spec W H strokePx seed) as [Hlen Hinit].
  constructor; [exact Hlen|].
  intros x y Hx Hy. eexists. split; [now apply Hinit|].
  destruct (seed (y * W + x)); reflexivity.
Qed.

Lemma st32_passes W H df :
  Sticker32.backward_pass W H (Sticker32.forward_pass W H df) =
  pass_bwd W H 1 (Sticker32.backward_cell W)
           (pass_fwd W H 1 (Sticker32.forward_cell W) df).
Proof. reflexivity. Qed.

(** The field of createRasterSmoothBorder, for seeds that do not touch the
    frame of the canvas. *)
Lemma st32_distance_transform (W H : nat) (strokePx : Q) (seed : nat -> bool)
      (x y : nat) :
  (Z.of_nat W + Z.of_nat H < 4194304)%Z -> (0 <= strokePx)%Q ->
  (forall sx sy, sx < W -> sy < H -> seed (sy * W + sx) = true ->
                 1 <= sx < W - 1 /\ 1 <= sy < H - 1) ->
  x < W -> y < H ->
  exists v,
    Sticker32.distance_field W H strokePx seed !! (y * W + x) = Some v /\
    (x = 0 \/ y = 0 \/ x = W - 1 \/ y = H - 1 -> v = cap strokePx) /\
    (1 <= x < W - 1 -> 1 <= y < H - 1 ->
     (0 <= v)%Q /\ (v <= cap strokePx)%Q /\
     (forall sx sy, sx < W -> sy < H -> seed (sy * W + sx) = true ->
        (Q2R v <= (1 + theta W H) * toR (cd sx sy x y))%R) /\
     ((cap strokePx <= v)%Q \/
      exists sx sy, sx < W /\ sy < H /\ seed (sy * W + sx) = true /\
        ((1 - theta W H) * toR (cd sx sy x y) <= Q2R v)%R)).
Proof.
  intros Hs Hstroke Hseeds Hx Hy. unfold Sticker32.distance_field.
  rewrite st32_passes.
  destruct (cap_ok strokePx Hstroke) as [Hrep Hcap0].
  pose proof (st32_start W H strokePx seed) as Hstart.
  destruct (st32_init_df_spec W H strokePx seed) as [Hlen Hinit].
  destruct (decide (1 <= x < W - 1 /\ 1 <= y < H - 1)) as [Hin|Hout].
  - destruct (many_seeds_rounded W H 1 _ _ seed (cap strokePx) Hrep Hcap0
                (st32_fwd_spec (cap strokePx) W H) (st32_bwd_spec (cap strokePx) W H)
                (theta_small W H Hs))
      with (df := Sticker32.init_df W H strokePx seed) (x := x) (y := y)
      as (v & Hv & Hv0 & HvS & Hup & Hlow).
    + intros sx sy (Hsx & Hsy & Hb). unfold region. now apply Hseeds.
    + exact Hstart.
    + unfold region. lia.
    + exists v. split; [exact Hv|]. split; [lia|]. intros _ _.
      split; [exact Hv0|]. split; [exact HvS|]. split.
      * intros sx sy Hsx Hsy Hb. apply Hup. now split.
      * destruct Hlow as [Hl|(sx & sy & (Hsx & Hsy & Hb) & Hl)]; [now left | right].
        exists sx, sy. now repeat split.
  - exists (cap strokePx). split.
    + rewrite (passes_outside32 W H 1 _ _ (cap strokePx)
                 (st32_fwd_spec (cap strokePx) W H) (st32_bwd_spec (cap strokePx) W H)).
      * rewrite Hinit by assumption.
        destruct (seed (y * W + x)) eqn:Es; [|reflexivity].
        exfalso. apply Hout. now apply Hseeds.
      * exact Hlen.
      * now apply (start_good W H seed (cap strokePx) Hrep Hcap0).
      * intros x0 y0 Hreg E. apply Hout.
        apply index_inj in E; [|assumption | apply (region_lt W H 1 x0 y0 Hreg)].
        destruct E as [-> ->]. unfold region in Hreg. lia.
    + split; [reflexivity|]. intros. lia.
Qed.

End RoundedFields.

(** ** Properties of the distance fields as the arrays hold them *)

Module RoundedProps.
Import Loops Raster Sqrt2 Sqrt2Facts IndexFacts ChamferFacts DistanceFacts MaskFacts
       Float32 RoundedFacts RoundedPasses RoundedFields BorderProps.

(** The closed form of the chamfer distance at the offset [(dx, dy)]. *)
Definition closed_form (dx dy : Z) : R :=
  (IZR (Z.min (Z.abs dx) (Z.abs dy)) * sqrt 2
   + (IZR (Z.max (Z.abs dx) (Z.abs dy)) - IZR (Z.min (Z.abs dx) (Z.abs dy))))%R.

(** The bound on the relative error of a field on a [W] by [H] canvas:
    [(W + H + 1) / 2^22]. *)
Definition rounding_error (W H : nat) : R := (INR (W + H + 1) / 4194304)%R.

Lemma closed_form_range (W H sx sy x y : nat) :
  sx < W -> sy < H -> x < W -> y < H ->
  closed_form (Z.of_nat x - Z.of_nat sx) (Z.of_nat y - Z.of_nat sy)
    = toR (cd sx sy x y) /\
  (0 <= toR (cd sx sy x y) <= INR W + INR H)%R.
Proof.
  intros Hsx Hsy Hx Hy. split.
  - unfold closed_form, cd. now rewrite toR_chamfer.
  - now apply cd_range.
Qed.

Lemma canvas_below_INF (W H : nat) :
  (Z.of_nat W + Z.of_nat H < 4194304)%Z ->
  (INR W + INR H <= Q2R SecondEdge32.INF)%R.
Proof.
  intros Hs. rewrite !INR_IZR_INZ, <- plus_IZR.
  assert (Hle : (IZR (Z.of_nat W + Z.of_nat H) <= 4194303)%R) by (apply IZR_le; lia).
  unfold Q2R, SecondEdge32.INF. simpl. lra.
Qed.

(** A field with the single seed [(sx, sy)], at a pixel whose chamfer
    distance is not above the starting value [S]. *)
Lemma single_seed_within (W H : nat) (seed : nat -> bool) (S v : Q) (sx sy x y : nat) :
  sx < W -> sy < H -> x < W -> y < H ->
  (forall i, i < W * H -> (seed i = true <-> i = sy * W + sx)) ->
  (toR (cd sx sy x y) <= Q2R S)%R ->
  (v <= S)%Q ->
  (forall sx' sy', sx' < W -> sy' < H -> seed (sy' * W + sx') = true ->
     (Q2R v <= (1 + theta W H) * toR (cd sx' sy' x y))%R) ->
  ((S <= v)%Q \/
   exists sx' sy', sx' < W /\ sy' < H /\ seed (sy' * W + sx') = true /\
     ((1 - theta W H) * toR (cd sx' sy' x y) <= Q2R v)%R) ->
  (Rabs (Q2R v - closed_form (Z.of_nat x - Z.of_nat sx) (Z.of_nat y - Z.of_nat sy))
   <= rounding_error W H
      * closed_form (Z.of_nat x - Z.of_nat sx) (Z.of_nat y - Z.of_nat sy))%R.
Proof.
  intros Hsx Hsy Hx Hy Hseed HcS HvS Hup Hlow.
  destruct (closed_form_range W H sx sy x y Hsx Hsy Hx Hy) as [-> [Hc0 _]].
  unfold rounding_error. rewrite <- theta_value.
  assert (Hs : seed (sy * W + sx) = true).
  { apply Hseed; [now apply index_lt | reflexivity]. }
  apply (within (theta W H) _ _ (Q2R S)).
  - apply theta_nonneg.
  - lra.
  - now apply Qle_Rle.
  - now apply Hup.
  - destruct Hlow as [Hl|(sx' & sy' & Hsx' & Hsy' & Hb & Hl)].
    + left. now apply Qle_Rle.
    + right. apply Hseed in Hb; [|now apply index_lt].
      apply index_inj in Hb; [|assumption|assumption].
      destruct Hb as [-> ->]. exact Hl.
Qed.

(** C2, as stated, fails: with the seed in the middle of a 5 x 5 canvas the
    arrays of add_second_edge and of createRasterSmoothBorder hold
    [11863283 / 8388608] (the single-precision rounding of [Math.SQRT2]) at
    the offset [(1, 1)], and that is not [1 * sqrt 2 + (1 - 1)]. *)
Lemma C2_counterexample :
  lone_pixel seed_canvas (5 * 5) (2 * 5 + 2) /\
  SecondEdge32.distance_field 5 5 (SecondEdge.alpha_mask seed_canvas (5 * 5))
    !! (3 * 5 + 3) = Some (11863283 # 8388608) /\
  Sticker32.distance_field 5 5 8 (Sticker.alpha_above 127 seed_canvas)
    !! (3 * 5 + 3) = Some (11863283 # 8388608) /\
  Q2R (11863283 # 8388608) <> closed_form (3 - 2) (3 - 2).
Proof.
  split; [exact seed_canvas_lone|].
  split; [vm_compute; reflexivity|]. split; [vm_compute; reflexivity|].
  change (closed_form (3 - 2) (3 - 2)) with (1 * sqrt 2 + (1 - 1))%R.
  unfold Q2R. simpl. intros E.
  pose proof sqrt2_sq as Hsq.
  assert (Es : sqrt 2 = (11863283 * / 8388608)%R) by lra.
  rewrite Es in Hsq. lra.
Qed.

(** C2, amended. Around a single seed placed away from the border of a
    canvas with [W + H < 2^22], the two passes leave at every interior
    pixel whose chamfer value [c = min(|dx|,|dy|) * sqrt 2 + (max(|dx|,|dy|)
    - min(|dx|,|dy|))] is not above the starting value a distance that is
    [c] up to the rounding of the stores into the [Float32Array]: it
    differs from [c] by at most [c * (W + H + 1) / 2^22].  This holds in
    add_second_edge (starting value 1e9, never reached on such a canvas)
    and in both revisions of createRasterSmoothBorder (starting value
    [strokePx * 2] as the array holds it, for a stroke that need not be a
    whole number). *)
Theorem C2_single_seed_distance_rounded
        (W H : nat) (canvas : list pixel) (strokePx : Q) (sx sy x y : nat) :
  1 <= sx < W - 1 -> 1 <= sy < H - 1 ->
  lone_pixel canvas (W * H) (sy * W + sx) ->
  1 <= x < W - 1 -> 1 <= y < H - 1 ->
  (Z.of_nat W + Z.of_nat H < 4194304)%Z ->
  (0 <= strokePx)%Q ->
  let c := closed_form (Z.of_nat x - Z.of_nat sx) (Z.of_nat y - Z.of_nat sy) in
  (c <= Q2R (Sticker32.fill_value strokePx))%R ->
  exists v1 v2 v3,
    SecondEdge32.distance_field W H (SecondEdge.alpha_mask canvas (W * H))
      !! (y * W + x) = Some v1 /\
    Sticker32.distance_field W H strokePx (Sticker.alpha_above 127 canvas)
      !! (y * W + x) = Some v2 /\
    Sticker32.distance_field W H strokePx (Sticker.alpha_above 0 canvas)
      !! (y * W + x) = Some v3 /\
    (Rabs (Q2R v1 - c) <= rounding_error W H * c)%R /\
    (Rabs (Q2R v2 - c) <= rounding_error W H * c)%R /\
    (Rabs (Q2R v3 - c) <= rounding_error W H * c)%R.
Proof.
  intros Hsx Hsy Hlone Hx Hy Hs Hstroke c Hcap.
  assert (Hsx' : sx < W) by lia. assert (Hsy' : sy < H) by lia.
  assert (Hx' : x < W) by lia. assert (Hy' : y < H) by lia.
  destruct (closed_form_range W H sx sy x y Hsx' Hsy' Hx' Hy') as [Ec [Hc0 HcD]].
  assert (Hseed : forall t, (0 <= t <= 127)%Z ->
            forall i, i < W * H ->
              (Sticker.alpha_above t canvas i = true <-> i = sy * W + sx)).
  { intros t Ht i Hi. now apply (lone_pixel_above canvas (W * H)). }
  assert (Hframe : forall t, (0 <= t <= 127)%Z ->
            forall sx' sy', sx' < W -> sy' < H ->
              Sticker.alpha_above t canvas (sy' * W + sx') = true ->
              1 <= sx' < W - 1 /\ 1 <= sy' < H - 1).
  { intros t Ht sx' sy' Hsx'' Hsy'' Hb.
    apply (Hseed t Ht) in Hb; [|now apply index_lt].
    apply index_inj in Hb; [|assumption|assumption]. lia. }
  destruct (se32_distance_transform W H (SecondEdge.alpha_mask canvas (W * H)) x y
              Hs Hx' Hy') as (v1 & Hv1 & _ & Hv1S & Hup1 & Hlow1).
  destruct (st32_distance_transform W H strokePx (Sticker.alpha_above 127 canvas) x y
              Hs Hstroke (Hframe 127%Z ltac:(lia)) Hx' Hy')
    as (v2 & Hv2 & _ & Hin2).
  destruct (st32_distance_transform W H strokePx (Sticker.alpha_above 0 canvas) x y
              Hs Hstroke (Hframe 0%Z ltac:(lia)) Hx' Hy')
    as (v3 & Hv3 & _ & Hin3).
  destruct (Hin2 Hx Hy) as (_ & Hv2S & Hup2 & Hlow2).
  destruct (Hin3 Hx Hy) as (_ & Hv3S & Hup3 & Hlow3).
  exists v1, v2, v3.
  split; [exact Hv1|]. split; [exact Hv2|]. split; [exact Hv3|].
  split; [|split].
  - apply (single_seed_within W H (bit (SecondEdge.alpha_mask canvas (W * H)))
             SecondEdge32.INF v1 sx sy x y); try assumption.
    + intros i Hi. now apply lone_pixel_mask.
    + pose proof (canvas_below_INF W H Hs). lra.
  - apply (single_seed_within W H (Sticker.alpha_above 127 canvas)
             (cap strokePx) v2 sx sy x y); try assumption.
    + apply Hseed. lia.
    + rewrite <- Ec. exact Hcap.
  - apply (single_seed_within W H (Sticker.alpha_above 0 canvas)
             (cap strokePx) v3 sx sy x y); try assumption.
    + apply Hseed. lia.
    + rewrite <- Ec. exact Hcap.
Qed.

Lemma C2_single_seed_distance_rounded_witness :
  exists v1 v2 v3,
    SecondEdge32.distance_field 5 5 (SecondEdge.alpha_mask seed_canvas (5 * 5))
      !! (1 * 5 + 3) = Some v1 /\
    Sticker32.distance_field 5 5 8 (Sticker.alpha_above 127 seed_canvas)
      !! (1 * 5 + 3) = Some v2 /\
    Sticker32.distance_field 5 5 8 (Sticker.alpha_above 0 seed_canvas)
      !! (1 * 5 + 3) = Some v3 /\
    (Rabs (Q2R v1 - closed_form (Z.of_nat 3 - Z.of_nat 2) (Z.of_nat 1 - Z.of_nat 2))
     <= rounding_error 5 5
        * closed_form (Z.of_nat 3 - Z.of_nat 2) (Z.of_nat 1 - Z.of_nat 2))%R /\
    (Rabs (Q2R v2 - closed_form (Z.of_nat 3 - Z.of_nat 2) (Z.of_nat 1 - Z.of_nat 2))
     <= rounding_error 5 5
        * closed_form (Z.of_nat 3 - Z.of_nat 2) (Z.of_nat 1 - Z.of_nat 2))%R /\
    (Rabs (Q2R v3 - closed_form (Z.of_nat 3 - Z.of_nat 2) (Z.of_nat 1 - Z.of_nat 2))
     <= rounding_error 5 5
        * closed_form (Z.of_nat 3 - Z.of_nat 2) (Z.of_nat 1 - Z.of_nat 2))%R.
Proof.
  apply (C2_single_seed_distance_rounded 5 5 seed_canvas 8 2 2 3 1).
  - lia.
  - lia.
  - exact seed_canvas_lone.
  - lia.
  - lia.
  - lia.
  - discriminate.
  - replace (Sticker32.fill_value 8) with (16 # 1)%Q by (vm_compute; reflexivity).
    change (closed_form (Z.of_nat 3 - Z.of_nat 2) (Z.of_nat 1 - Z.of_nat 2))
      with (1 * sqrt 2 + (1 - 1))%R.
    unfold Q2R. simpl. pose proof sqrt2_bounds. lra.
Defined.

(** X14. For every mask on a canvas with [W + H < 2^22], the two passes of
    add_second_edge compute the chamfer distance transform up to the
    rounding of the stores: the value at a pixel is at most [INF] and at
    most [1 + e] times the chamfer distance to each pixel of the mask, and
    it is [INF] or at least [1 - e] times the chamfer distance to one of
    them, with [e = (W + H + 1) / 2^22]. *)
Theorem X14_second_edge_distance_transform
        (W H : nat) (mask : list bool) (x y : nat) :
  (Z.of_nat W + Z.of_nat H < 4194304)%Z -> x < W -> y < H ->
  exists v,
    SecondEdge32.distance_field W H mask !! (y * W + x) = Some v /\
    (0 <= v)%Q /\ (v <= SecondEdge32.INF)%Q /\
    (forall sx sy, sx < W -> sy < H -> bit mask (sy * W + sx) = true ->
       (Q2R v <= (1 + rounding_error W H)
                 * closed_form (Z.of_nat x - Z.of_nat sx) (Z.of_nat y - Z.of_nat sy))%R) /\
    ((v == SecondEdge32.INF)%Q \/
     exists sx sy, sx < W /\ sy < H /\ bit mask (sy * W + sx) = true /\
       ((1 - rounding_error W H)
        * closed_form (Z.of_nat x - Z.of_nat sx) (Z.of_nat y - Z.of_nat sy)
        <= Q2R v)%R).
Proof.
  intros Hs Hx Hy.
  destruct (se32_distance_transform W H mask x y Hs Hx Hy)
    as (v & Hv & Hv0 & HvS & Hup & Hlow).
  exists v. split; [exact Hv|]. split; [exact Hv0|]. split; [exact HvS|].
  unfold rounding_error. rewrite <- theta_value. split.
  - intros sx sy Hsx Hsy Hb.
    destruct (closed_form_range W H sx sy x y Hsx Hsy Hx Hy) as [-> _].
    now apply Hup.
  - destruct Hlow as [Hl|(sx & sy & Hsx & Hsy & Hb & Hl)].
    + left. now apply Qle_antisym.
    + right. exists sx, sy.
      destruct (closed_form_range W H sx sy x y Hsx Hsy Hx Hy) as [-> _].
      now repeat split.
Qed.

Lemma X14_second_edge_distance_transform_witness :
  exists v,
    SecondEdge32.distance_field 3 1 [true; false; false] !! (0 * 3 + 2) = Some v /\
    (0 <= v)%Q /\ (v <= SecondEdge32.INF)%Q /\
    (forall sx sy, sx < 3 -> sy < 1 -> bit [true; false; false] (sy * 3 + sx) = true ->
       (Q2R v <= (1 + rounding_error 3 1)
                 * closed_form (Z.of_nat 2 - Z.of_nat sx) (Z.of_nat 0 - Z.of_nat sy))%R) /\
    ((v == SecondEdge32.INF)%Q \/
     exists sx sy, sx < 3 /\ sy < 1 /\ bit [true; false; false] (sy * 3 + sx) = true /\
       ((1 - rounding_error 3 1)
        * closed_form (Z.of_nat 2 - Z.of_nat sx) (Z.of_nat 0 - Z.of_nat sy)
        <= Q2R v)%R).
Proof.
  apply (X14_second_edge_distance_transform 3 1 [true; false; false] 2 0); lia.
Defined.

(** X17. For seeds that do not touch the frame of a canvas with
    [W + H < 2^22], the two passes of createRasterSmoothBorder compute, on
    the inner pixels, the chamfer distance transform capped at
    [strokePx * 2] (as the array holds it), up to the rounding of the
    stores: the value is at most the cap and at most
    [1 + e] times the distance to each seed, and it is the cap or at least
    [1 - e] times the distance to one of them, with
    [e = (W + H + 1) / 2^22].  The loops never visit the frame, whose
    pixels keep the cap. *)
Theorem X17_sticker_distance_transform
        (W H : nat) (strokePx : Q) (seed : nat -> bool) (x y : nat) :
  (Z.of_nat W + Z.of_nat H < 4194304)%Z -> (0 <= strokePx)%Q ->
  (forall sx sy, sx < W -> sy < H -> seed (sy * W + sx) = true ->
                 1 <= sx < W - 1 /\ 1 <= sy < H - 1) ->
  x < W -> y < H ->
  exists v,
    Sticker32.distance_field W H strokePx seed !! (y * W + x) = Some v /\
    (x = 0 \/ y = 0 \/ x = W - 1 \/ y = H - 1 ->
     v = Sticker32.fill_value strokePx) /\
    (1 <= x < W - 1 -> 1 <= y < H - 1 ->
     (0 <= v)%Q /\ (v <= Sticker32.fill_value strokePx)%Q /\
     (forall sx sy, sx < W -> sy < H -> seed (sy * W + sx) = true ->
        (Q2R v <= (1 + rounding_error W H)
                  * closed_form (Z.of_nat x - Z.of_nat sx) (Z.of_nat y - Z.of_nat sy))%R) /\
     ((v == Sticker32.fill_value strokePx)%Q \/
      exists sx sy, sx < W /\ sy < H /\ seed (sy * W + sx) = true /\
        ((1 - rounding_error W H)
         * closed_form (Z.of_nat x - Z.of_nat sx) (Z.of_nat y - Z.of_nat sy)
         <= Q2R v)%R)).
Proof.
  intros Hs Hstroke Hseeds Hx Hy.
  destruct (st32_distance_transform W H strokePx seed x y Hs Hstroke Hseeds Hx Hy)
    as (v & Hv & Hframe & Hin).
  exists v. split; [exact Hv|]. split; [exact Hframe|].
  intros Hxi Hyi. destruct (Hin Hxi Hyi) as (Hv0 & HvS & Hup & Hlow).
  split; [exact Hv0|]. split; [exact HvS|].
  unfold rounding_error. rewrite <- theta_value. split.
  - intros sx sy Hsx Hsy Hb.
    destruct (closed_form_range W H sx sy x y Hsx Hsy Hx Hy) as [-> _].
    now apply Hup.
  - destruct Hlow as [Hl|(sx & sy & Hsx & Hsy & Hb & Hl)].
    + left. now apply Qle_antisym.
    + right. exists sx, sy.
      destruct (closed_form_range W H sx sy x y Hsx Hsy Hx Hy) as [-> _].
      now repeat split.
Qed.

Lemma X17_sticker_distance_transform_witness :
  let seed := fun i => i =? 4 in
  exists v,
    Sticker32.distance_field 3 3 1 seed !! (1 * 3 + 1) = Some v /\
    (1 = 0 \/ 1 = 0 \/ 1 = 3 - 1 \/ 1 = 3 - 1 ->
     v = Sticker32.fill_value 1) /\
    (1 <= 1 < 3 - 1 -> 1 <= 1 < 3 - 1 ->
     (0 <= v)%Q /\ (v <= Sticker32.fill_value 1)%Q /\
     (forall sx sy, sx < 3 -> sy < 3 -> seed (sy * 3 + sx) = true ->
        (Q2R v <= (1 + rounding_error 3 3)
                  * closed_form (Z.of_nat 1 - Z.of_nat sx) (Z.of_nat 1 - Z.of_nat sy))%R) /\
     ((v == Sticker32.fill_value 1)%Q \/
      exists sx sy, sx < 3 /\ sy < 3 /\ seed (sy * 3 + sx) = true /\
        ((1 - rounding_error 3 3)
         * closed_form (Z.of_nat 1 - Z.of_nat sx) (Z.of_nat 1 - Z.of_nat sy)
         <= Q2R v)%R)).
Proof.
  intros seed.
  apply (X17_sticker_distance_transform 3 3 1 seed 1 1); try lia.
  - discriminate.
  - intros sx sy Hsx Hsy E. unfold seed in E. apply Nat.eqb_eq in E. lia.
Defined.

End RoundedProps.
